(** * ClickNest: event pipeline, naming engine and query plane

    A shallow embedding of the Go sources of the analytics server
    (ingest validation and fingerprinting, the at-rest encryptor, the
    name cache and naming workers, the alert checker, and the funnel and
    trends-breakdown queries), followed by the properties the
    specification states about them.

    Layout: Part I holds the model (one module per Go package or
    concern), Part II the lemmas and theorems. *)

From Stdlib Require Import ZArith List Ascii String Lia Permutation Sorted SpecFloat.
From stdpp Require Import base option gmap strings list sorting pretty.

Local Open Scope Z_scope.

(* ===================================================================== *)
(** * Part I: the model                                                     *)
(* ===================================================================== *)

(** ** Go strings

    A Go [string] is an immutable byte sequence; it is embedded as a Rocq
    [string] (a sequence of 8-bit [ascii] characters).  The conversions
    [[]byte(s)], [string(b)], [[]rune(s)] and [string(runes)] are written
    out below, together with the parts of the standard packages
    [unicode/utf8], [unicode] and [strings] that the sources call. *)

Module GoString.

(** [s[i]] as an integer in [0, 256). *)
Definition byte_val (a : ascii) : Z := Z.of_N (N_of_ascii a).

(** Go's [byte(x)] conversion: keep the low eight bits. *)
Definition byte_of (z : Z) : ascii := ascii_of_N (Z.to_N (z mod 256)).

(** [[]byte(s)] *)
Definition bytes (s : string) : list Z :=
  map byte_val (list_ascii_of_string s).

(** [string(b)] for a byte slice [b]. *)
Definition from_bytes (l : list Z) : string :=
  string_of_list_ascii (map byte_of l).

(** Constants of [unicode/utf8]. *)
Definition RuneError : Z := 0xFFFD.
Definition RuneSelf : Z := 0x80.
Definition MaxRune : Z := 0x10FFFF.
Definition surrogateMin : Z := 0xD800.
Definition surrogateMax : Z := 0xDFFF.
Definition rune1Max : Z := 0x7F.
Definition rune2Max : Z := 0x7FF.
Definition rune3Max : Z := 0xFFFF.
Definition locb : Z := 0x80.
Definition hicb : Z := 0xBF.
Definition maskx : Z := 0x3F.
Definition mask2 : Z := 0x1F.
Definition mask3 : Z := 0x0F.
Definition mask4 : Z := 0x07.
Definition t2 : Z := 0xC0.
Definition t3 : Z := 0xE0.
Definition t4 : Z := 0xF0.
Definition tx : Z := 0x80.

(** The [first] table of [unicode/utf8]: what a leading byte announces.
    [LMulti sz lo hi] is a sequence of [sz] bytes whose second byte must
    lie in [lo, hi] (the table's accept ranges). *)
Inductive lead : Type :=
| LAscii
| LInvalid
| LMulti (sz : nat) (lo hi : Z).

Definition first (b : Z) : lead :=
  if b <? 0x80 then LAscii
  else if b <? 0xC2 then LInvalid
  else if b <? 0xE0 then LMulti 2 locb hicb
  else if b =? 0xE0 then LMulti 3 0xA0 hicb
  else if b <? 0xED then LMulti 3 locb hicb
  else if b =? 0xED then LMulti 3 locb 0x9F
  else if b <? 0xF0 then LMulti 3 locb hicb
  else if b =? 0xF0 then LMulti 4 0x90 hicb
  else if b <? 0xF4 then LMulti 4 locb hicb
  else if b =? 0xF4 then LMulti 4 locb 0x8F
  else LInvalid.

Definition is_cont (b : Z) : bool := (locb <=? b) && (b <=? hicb).

(** [utf8.DecodeRune]: the first rune of [p] and its width in bytes.
    An invalid or short encoding yields [(RuneError, 1)], the empty
    input [(RuneError, 0)]. *)
Definition DecodeRune (p : list Z) : Z * nat :=
  match p with
  | [] => (RuneError, 0%nat)
  | s0 :: rest =>
    match first s0 with
    | LAscii => (s0, 1%nat)
    | LInvalid => (RuneError, 1%nat)
    | LMulti sz lo hi =>
      match rest with
      | [] => (RuneError, 1%nat)
      | s1 :: rest1 =>
        if (length p <? sz)%nat then (RuneError, 1%nat)
        else if (s1 <? lo) || (hi <? s1) then (RuneError, 1%nat)
        else if (sz <=? 2)%nat then
          (Z.lor (Z.shiftl (Z.land s0 mask2) 6) (Z.land s1 maskx), 2%nat)
        else
          match rest1 with
          | [] => (RuneError, 1%nat)
          | s2 :: rest2 =>
            if negb (is_cont s2) then (RuneError, 1%nat)
            else if (sz <=? 3)%nat then
              (Z.lor (Z.lor (Z.shiftl (Z.land s0 mask3) 12)
                            (Z.shiftl (Z.land s1 maskx) 6))
                     (Z.land s2 maskx), 3%nat)
            else
              match rest2 with
              | [] => (RuneError, 1%nat)
              | s3 :: _ =>
                if negb (is_cont s3) then (RuneError, 1%nat)
                else
                  (Z.lor (Z.lor (Z.lor (Z.shiftl (Z.land s0 mask4) 18)
                                       (Z.shiftl (Z.land s1 maskx) 12))
                                (Z.shiftl (Z.land s2 maskx) 6))
                         (Z.land s3 maskx), 4%nat)
              end
          end
      end
    end
  end.

(** [utf8.AppendRune]/[EncodeRune]: surrogates and values outside
    [0, MaxRune] are written as [RuneError]. *)
Definition EncodeRune (r : Z) : list Z :=
  if (0 <=? r) && (r <=? rune1Max) then [r]
  else if (0 <=? r) && (r <=? rune2Max) then
    [Z.lor t2 (Z.shiftr r 6); Z.lor tx (Z.land r maskx)]
  else
    let three (r : Z) :=
      [Z.lor t3 (Z.shiftr r 12);
       Z.lor tx (Z.land (Z.shiftr r 6) maskx);
       Z.lor tx (Z.land r maskx)] in
    if (r <? 0) || (MaxRune <? r) || ((surrogateMin <=? r) && (r <=? surrogateMax))
    then three RuneError
    else if r <=? rune3Max then three r
    else
      [Z.lor t4 (Z.shiftr r 18);
       Z.lor tx (Z.land (Z.shiftr r 12) maskx);
       Z.lor tx (Z.land (Z.shiftr r 6) maskx);
       Z.lor tx (Z.land r maskx)].

(** The decoding loop shared by [for _, r := range s], [[]rune(s)] and
    [utf8.RuneCountInString]: each step yields a rune together with the
    bytes it was read from.  The fuel is the number of bytes left, which
    every step decreases. *)
Fixpoint chunks_fuel (n : nat) (p : list Z) : list (Z * list Z) :=
  match n with
  | O => []
  | S n' =>
    match p with
    | [] => []
    | _ :: _ =>
      let '(r, sz) := DecodeRune p in
      (r, firstn sz p) :: chunks_fuel n' (skipn sz p)
    end
  end.

Definition chunks (p : list Z) : list (Z * list Z) :=
  chunks_fuel (length p) p.

(** [[]rune(s)] *)
Definition runes (s : string) : list Z := map fst (chunks (bytes s)).

(** [string(rs)] for a rune slice [rs]. *)
Definition from_runes (rs : list Z) : string :=
  from_bytes (concat (map EncodeRune rs)).

(** [utf8.RuneCountInString] *)
Definition RuneCountInString (s : string) : nat := length (runes s).

(** [utf8.ValidString]: every decoding step reads a well-formed
    encoding, i.e. no [RuneError] of width one. *)
Definition valid_chunk (c : Z * list Z) : bool :=
  negb ((fst c =? RuneError) && (length (snd c) =? 1)%nat).

Definition ValidString (s : string) : bool :=
  forallb valid_chunk (chunks (bytes s)).

(** [unicode.IsSpace]: the Latin-1 spaces and the code points with the
    White_Space property. *)
Definition IsSpace (r : Z) : bool :=
  ((0x09 <=? r) && (r <=? 0x0D)) || (r =? 0x20) || (r =? 0x85) || (r =? 0xA0)
  || (r =? 0x1680) || ((0x2000 <=? r) && (r <=? 0x200A))
  || (r =? 0x2028) || (r =? 0x2029) || (r =? 0x202F) || (r =? 0x205F)
  || (r =? 0x3000).

Fixpoint drop_while {A} (f : A -> bool) (l : list A) : list A :=
  match l with
  | [] => []
  | x :: l' => if f x then drop_while f l' else l
  end.

Definition trim_chunks (cs : list (Z * list Z)) : list (Z * list Z) :=
  let is_sp (c : Z * list Z) := IsSpace (fst c) in
  rev (drop_while is_sp (rev (drop_while is_sp cs))).

(** [strings.TrimSpace]: [s] without its leading and trailing runes that
    satisfy [unicode.IsSpace].  The remaining bytes are a slice of [s],
    invalid bytes included. *)
Definition TrimSpace (s : string) : string :=
  from_bytes (concat (map snd (trim_chunks (chunks (bytes s))))).

(** The case tables of package [unicode] are not part of the repository;
    the lower-case mapping of the code points from [RuneSelf] upwards is
    an interface.  The mapping of a space is a space and of a non-space
    a non-space (no space has a case mapping). *)
Class CaseTables := {
  unicode_lower : Z -> Z;
  unicode_lower_space : forall r, IsSpace (unicode_lower r) = IsSpace r
}.

Section WithCaseTables.
Context `{CaseTables}.

(** [unicode.ToLower] *)
Definition ToLowerRune (r : Z) : Z :=
  if r <? RuneSelf then
    if (0x41 <=? r) && (r <=? 0x5A) then r + 0x20 else r
  else unicode_lower r.

(** [strings.ToLower]: every rune mapped through [unicode.ToLower] and
    written back as UTF-8; an invalid byte is read as [RuneError] and
    written as such. *)
Definition ToLower (s : string) : string :=
  from_runes (map ToLowerRune (runes s)).

End WithCaseTables.

(** [strings.HasPrefix] and [strings.TrimPrefix] *)
Fixpoint HasPrefix (s p : string) : bool :=
  match p, s with
  | EmptyString, _ => true
  | String c p', String d s' => if Ascii.eqb c d then HasPrefix s' p' else false
  | String _ _, EmptyString => false
  end.

Fixpoint drop_string (n : nat) (s : string) : string :=
  match n, s with
  | O, _ => s
  | S n', String _ s' => drop_string n' s'
  | S _, EmptyString => EmptyString
  end.

Definition TrimPrefix (s p : string) : string :=
  if HasPrefix s p then drop_string (String.length p) s else s.

(** Vocabulary for statements about strings: a byte value, a Unicode
    scalar value, a string of white space, and two strings that differ
    only in letter case. *)
Definition is_byte (z : Z) : Prop := 0 <= z < 256.

Definition is_scalar (r : Z) : Prop :=
  0 <= r <= MaxRune /\ ~ (surrogateMin <= r <= surrogateMax).

Definition space_string (w : string) : Prop :=
  exists rs, Forall (fun r => IsSpace r = true) rs /\ w = from_runes rs.

Definition same_modulo_case `{CaseTables} (a b : string) : Prop :=
  Forall2 (fun r r' => ToLowerRune r = ToLowerRune r') (runes a) (runes b).

(** *** Auxiliary notions of Part II *)

(** The accept range of the second byte of a three-byte sequence. *)
Definition second3 (b0 b1 : Z) : Prop :=
  (if b0 =? 0xE0 then 0xA0 else 0x80) <= b1 <= (if b0 =? 0xED then 0x9F else 0xBF).

(** The accept range of the second byte of a four-byte sequence. *)
Definition second4 (b0 b1 : Z) : Prop :=
  (if b0 =? 0xF0 then 0x90 else 0x80) <= b1 <= (if b0 =? 0xF4 then 0x8F else 0xBF).

(** [DecodeRune] reads at most four bytes.  With a missing byte read as
    [-1] (which no check accepts), it is a function of those four. *)

Definition decode4 (s0 s1 s2 s3 : Z) : Z * nat :=
  match first s0 with
  | LAscii => (s0, 1%nat)
  | LInvalid => (RuneError, 1%nat)
  | LMulti sz lo hi =>
    if (s1 <? lo) || (hi <? s1) then (RuneError, 1%nat)
    else if (sz <=? 2)%nat then
      (Z.lor (Z.shiftl (Z.land s0 mask2) 6) (Z.land s1 maskx), 2%nat)
    else if negb (is_cont s2) then (RuneError, 1%nat)
    else if (sz <=? 3)%nat then
      (Z.lor (Z.lor (Z.shiftl (Z.land s0 mask3) 12) (Z.shiftl (Z.land s1 maskx) 6))
             (Z.land s2 maskx), 3%nat)
    else if negb (is_cont s3) then (RuneError, 1%nat)
    else
      (Z.lor (Z.lor (Z.lor (Z.shiftl (Z.land s0 mask4) 18)
                           (Z.shiftl (Z.land s1 maskx) 12))
                    (Z.shiftl (Z.land s2 maskx) 6))
             (Z.land s3 maskx), 4%nat)
  end.

(** The byte at index [i], [-1] when it is missing. *)
Definition look (p : list Z) (i : nat) : Z := nth i p (-1).

(** [q] does not start with a continuation byte. *)
Definition starts_rune (q : list Z) : Prop :=
  match q with
  | [] => True
  | b :: _ => is_cont b = false
  end.

(** A chunk of the decoding loop that holds a space. *)
Definition is_sp (c : Z * list Z) : bool := IsSpace (fst c).

(** Two chunks whose code points have the same lower case. *)
Definition lower_eq `{CaseTables} (c c' : Z * list Z) : Prop :=
  ToLowerRune (fst c) = ToLowerRune (fst c').

End GoString.

(** ** SHA-256 and hexadecimal encoding

    Packages [crypto/sha256] and [encoding/hex] of the Go standard
    library, as far as [ComputeFingerprint] uses them.  The digest is the
    function of FIPS 180-4 on the bytes written so far. *)

Module Sha256.

Definition w32 (x : Z) : Z := x mod 2 ^ 32.
Definition add32 (a b : Z) : Z := w32 (a + b).
Definition rotr (n x : Z) : Z :=
  Z.lor (Z.shiftr x n) (w32 (Z.shiftl x (32 - n))).
Definition not32 (x : Z) : Z := Z.lxor x 0xFFFFFFFF.

Definition Ch (x y z : Z) : Z := Z.lxor (Z.land x y) (Z.land (not32 x) z).
Definition Maj (x y z : Z) : Z :=
  Z.lxor (Z.lxor (Z.land x y) (Z.land x z)) (Z.land y z).
Definition Sigma0 (x : Z) : Z := Z.lxor (Z.lxor (rotr 2 x) (rotr 13 x)) (rotr 22 x).
Definition Sigma1 (x : Z) : Z := Z.lxor (Z.lxor (rotr 6 x) (rotr 11 x)) (rotr 25 x).
Definition sigma0 (x : Z) : Z := Z.lxor (Z.lxor (rotr 7 x) (rotr 18 x)) (Z.shiftr x 3).
Definition sigma1 (x : Z) : Z := Z.lxor (Z.lxor (rotr 17 x) (rotr 19 x)) (Z.shiftr x 10).

(** The round constants and the initial hash value are the first 32
    bits of the fractional parts of the cube roots of the first 64
    primes and of the square roots of the first 8. *)
Definition is_prime (n : Z) : bool :=
  forallb (fun d => negb (n mod Z.of_nat d =? 0)) (seq 2 (Z.to_nat n - 2)).

Definition primes : list Z :=
  filter (fun n => is_prime n = true) (map Z.of_nat (seq 2 310)).

(** The integer cube root, bit by bit from the top. *)
Fixpoint cbrt_bits (bit : nat) (n acc : Z) : Z :=
  match bit with
  | O => acc
  | S b =>
    let c := acc + 2 ^ Z.of_nat b in
    cbrt_bits b n (if c * c * c <=? n then c else acc)
  end.

Definition frac_cbrt (p : Z) : Z := w32 (cbrt_bits 40 (p * 2 ^ 96) 0).
Definition frac_sqrt (p : Z) : Z := w32 (Z.sqrt (p * 2 ^ 64)).

Definition K : list Z := Eval vm_compute in map frac_cbrt primes.

Definition init : list Z := Eval vm_compute in map frac_sqrt (firstn 8 primes).

(** Big-endian 32-bit words of a byte sequence (a short tail is padded
    with zero bytes; blocks are always whole). *)
Fixpoint words (fuel : nat) (p : list Z) : list Z :=
  match fuel with
  | O => []
  | S f =>
    match p with
    | [] => []
    | _ =>
      let b i := nth i p 0 in
      (b 0%nat * 2 ^ 24 + b 1%nat * 2 ^ 16 + b 2%nat * 2 ^ 8 + b 3%nat)
        :: words f (skipn 4 p)
    end
  end.

(** The message schedule: [w] holds the words computed so far. *)
Fixpoint schedule (n : nat) (w : list Z) : list Z :=
  match n with
  | O => w
  | S n' =>
    let t := length w in
    let g i := nth (t - i) w 0 in
    schedule n'
      (w ++ [add32 (add32 (sigma1 (g 2%nat)) (g 7%nat))
                   (add32 (sigma0 (g 15%nat)) (g 16%nat))])
  end.

Record regs := Regs { ra : Z; rb : Z; rc : Z; rd : Z; re : Z; rf : Z; rg : Z; rh : Z }.

Definition round (s : regs) (kw : Z * Z) : regs :=
  let '(k, w) := kw in
  let t1 := add32 (add32 (add32 (rh s) (Sigma1 (re s)))
                         (add32 (Ch (re s) (rf s) (rg s)) k)) w in
  let t2 := add32 (Sigma0 (ra s)) (Maj (ra s) (rb s) (rc s)) in
  Regs (add32 t1 t2) (ra s) (rb s) (rc s) (add32 (rd s) t1) (re s) (rf s) (rg s).

Definition regs_of (h : list Z) : regs :=
  let g i := nth i h 0 in
  Regs (g 0%nat) (g 1%nat) (g 2%nat) (g 3%nat) (g 4%nat) (g 5%nat) (g 6%nat) (g 7%nat).

Definition list_of (s : regs) : list Z :=
  [ra s; rb s; rc s; rd s; re s; rf s; rg s; rh s].

Definition block (h : list Z) (blk : list Z) : list Z :=
  let w := schedule 48 (words 16 blk) in
  let s := fold_left round (combine K w) (regs_of h) in
  list_of (Regs (add32 (ra s) (nth 0 h 0)) (add32 (rb s) (nth 1 h 0))
                (add32 (rc s) (nth 2 h 0)) (add32 (rd s) (nth 3 h 0))
                (add32 (re s) (nth 4 h 0)) (add32 (rf s) (nth 5 h 0))
                (add32 (rg s) (nth 6 h 0)) (add32 (rh s) (nth 7 h 0))).

Fixpoint blocks (fuel : nat) (h : list Z) (p : list Z) : list Z :=
  match fuel with
  | O => h
  | S f =>
    match p with
    | [] => h
    | _ => blocks f (block h (firstn 64 p)) (skipn 64 p)
    end
  end.

Definition be_bytes (n : nat) (x : Z) : list Z :=
  map (fun i => (Z.shiftr x (8 * Z.of_nat (n - 1 - i))) mod 256) (seq 0 n).

(** Padding: a one bit, zeros up to 56 modulo 64, and the bit length
    as a 64-bit big-endian integer. *)
Definition pad (p : list Z) : list Z :=
  let len := Z.of_nat (length p) in
  let zeros := Z.to_nat ((55 - len) mod 64) in
  p ++ [0x80] ++ repeat 0 zeros ++ be_bytes 8 ((8 * len) mod 2 ^ 64).

(** [sha256.Sum256]: the 32-byte digest. *)
Definition Sum256 (p : list Z) : list Z :=
  let m := pad p in
  concat (map (be_bytes 4) (blocks (length m) init m)).

(** A running hash ([sha256.New()]): [Write] appends to the data hashed,
    [Sum] with a nil argument returns the digest of all data written. *)
Record digest := Digest { written : list Z }.
Definition New : digest := Digest [].
Definition Write (d : digest) (p : list Z) : digest := Digest (written d ++ p).
Definition Sum (d : digest) : list Z := Sum256 (written d).

End Sha256.

Module Hex.

Definition hextable : list ascii :=
  list_ascii_of_string "0123456789abcdef".

Definition digit (x : Z) : ascii := nth (Z.to_nat x) hextable "0"%char.

(** [hex.EncodeToString]: two lower-case digits per byte. *)
Fixpoint EncodeToString (src : list Z) : string :=
  match src with
  | [] => EmptyString
  | v :: rest =>
    String (digit (Z.shiftr v 4)) (String (digit (Z.land v 0x0f)) (EncodeToString rest))
  end.

End Hex.

(** ** Package [storage]: the event row

    [time.Time] is embedded as the number of nanoseconds since the Unix
    epoch, [time.Duration] as a 64-bit count of nanoseconds. *)

Module Storage.

Definition Time := Z.

(** [time.UnixMilli] *)
Definition UnixMilli (msec : Z) : Time := msec * 1000000.

(** The zero [time.Time] (January 1, year 1, UTC) and [Time.IsZero]. *)
Definition zeroTime : Time := -62135596800 * 1000000000.
Definition IsZero (t : Time) : bool := t =? zeroTime.

(** [time.Duration]: a signed 64-bit count of nanoseconds.  Products
    wrap around; [Time.Sub] saturates. *)
Definition minDuration : Z := - 2 ^ 63.
Definition maxDuration : Z := 2 ^ 63 - 1.
Definition wrap64 (x : Z) : Z := (x + 2 ^ 63) mod 2 ^ 64 - 2 ^ 63.
Definition Minute : Z := 60 * 1000000000.
Definition mul_duration (a b : Z) : Z := wrap64 (a * b).
Definition neg_duration (a : Z) : Z := wrap64 (- a).

(** [Time.Sub] *)
Definition Sub (t u : Time) : Z :=
  if maxDuration <? t - u then maxDuration
  else if t - u <? minDuration then minDuration
  else t - u.

(** [Time.Add] *)
Definition Add (t : Time) (d : Z) : Time := t + d.

(** The event store keeps timestamps in microseconds. *)
Definition to_micro (t : Time) : Time := t / 1000 * 1000.

(** A decoded JSON value ([any] in [map[string]any]). *)
#[local] Unset Elimination Schemes.
Inductive jsonval : Type :=
| JNull
| JBool (b : bool)
| JNumber (mantissa exponent : Z)
| JString (s : string)
| JArray (l : list jsonval)
| JObject (fields : list (string * jsonval)).
#[local] Set Elimination Schemes.

Record Event := mkEvent {
  ev_ProjectID : string;
  ev_SessionID : string;
  ev_DistinctID : string;
  ev_EventType : string;
  ev_Fingerprint : string;
  ev_EventName : option string;
  ev_ElementTag : string;
  ev_ElementID : string;
  ev_ElementClasses : string;
  ev_ElementText : string;
  ev_AriaLabel : string;
  ev_DataAttributes : gmap string string;
  ev_ParentPath : string;
  ev_URL : string;
  ev_URLPath : string;
  ev_PageTitle : string;
  ev_Referrer : string;
  ev_ScreenWidth : Z;
  ev_ScreenHeight : Z;
  ev_UserAgent : string;
  ev_Timestamp : Time;
  ev_Properties : gmap string jsonval
}.

Record Project := mkProject {
  pr_ID : string;
  pr_Name : string;
  pr_APIKey : string
}.

End Storage.

(** ** Package [ingest]: fingerprint, validation, handler *)

Module Ingest.
Import GoString Storage.

(** A slice expression [s[:n]] on a string: it panics ([None]) when [n]
    is negative or beyond the length. *)
Definition string_slice_to (s : string) (n : Z) : option string :=
  if (0 <=? n) && (n <=? Z.of_nat (String.length s))
  then Some (string_of_list_ascii (firstn (Z.to_nat n) (list_ascii_of_string s)))
  else None.

(** [runes[:n]] on a slice. *)
Definition slice_to {A} (l : list A) (n : Z) : option (list A) :=
  if (0 <=? n) && (n <=? Z.of_nat (length l))
  then Some (firstn (Z.to_nat n) l)
  else None.

Section Fingerprint.
Context `{CaseTables}.

(** The five normalised parts, in order. *)
Definition fingerprint_parts
    (elementTag elementID elementClasses parentPath urlPath : string) : list string :=
  [ ToLower (TrimSpace elementTag);
    ToLower (TrimSpace elementID);
    ToLower (TrimSpace elementClasses);
    TrimSpace parentPath;
    TrimSpace urlPath ].

(** The loop [for i, p := range parts]: a separator before every part
    but the first, then the part. *)
Fixpoint write_parts (h : Sha256.digest) (i : nat) (parts : list string) : Sha256.digest :=
  match parts with
  | [] => h
  | p :: rest =>
    let h1 := if (0 <? i)%nat then Sha256.Write h (bytes "|") else h in
    write_parts (Sha256.Write h1 (bytes p)) (S i) rest
  end.

Definition ComputeFingerprint
    (elementTag elementID elementClasses parentPath urlPath : string) : option string :=
  let parts := fingerprint_parts elementTag elementID elementClasses parentPath urlPath in
  let h := write_parts Sha256.New 0 parts in
  string_slice_to (Hex.EncodeToString (Sha256.Sum h)) 16.

End Fingerprint.

Inductive IngestError : Type :=
| ErrEmptyBatch
| ErrBatchTooLarge
| ErrMissingType
| ErrInvalidType
| ErrMissingURL
| ErrInvalidURL
| ErrMissingSession.

Definition maxBatchSize : Z := 100.
Definition maxTextLength : Z := 500.

Definition validEventTypes : gmap string bool :=
  list_to_map [("click", true); ("pageview", true); ("input", true);
               ("submit", true); ("custom", true); ("error", true)]%string.

Record IngestEvent := mkIngestEvent {
  EventType : string;
  ElementTag : string;
  ElementID : string;
  ElementClasses : string;
  ElementText : string;
  AriaLabel : string;
  DataAttributes : gmap string string;
  ParentPath : string;
  URL : string;
  URLPath : string;
  PageTitle : string;
  Referrer : string;
  ScreenWidth : Z;
  ScreenHeight : Z;
  Timestamp : Z;
  Properties : gmap string jsonval
}.

Record IngestPayload := mkIngestPayload {
  Events : list IngestEvent;
  SessionID : string;
  DistinctID : string
}.

(** Package [net/url] is not part of the repository: the two parsers
    are an interface.  Only the [Path] of a parsed URL is read. *)
Record ParsedURL := mkURL {
  u_Scheme : string;
  u_Host : string;
  u_Path : string;
  u_RawQuery : string;
  u_Fragment : string
}.

Class UrlParser := {
  url_ParseRequestURI : string -> option ParsedURL;
  url_Parse : string -> option ParsedURL
}.

(** [truncate]: [None] stands for the run-time panic of the slice
    expression [runes[:maxLen]]. *)
Definition truncate (s : string) (maxLen : Z) : option string :=
  let s := TrimSpace s in
  if Z.of_nat (RuneCountInString s) <=? maxLen then Some s
  else
    let rs := runes s in
    match slice_to rs maxLen with
    | Some prefix => Some (from_runes prefix)
    | None => None
    end.

Section Validation.
Context `{UrlParser}.

(** The outcome of a call that mutates its argument in place: the
    argument as the call leaves it, and the error returned ([None] for
    [nil]).  The outer [option] of the functions below is [None] when
    the call panics. *)
Definition validateEvent (e : IngestEvent) : option (IngestEvent * option IngestError) :=
  if decide (EventType e = "")%string then Some (e, Some ErrMissingType)
  else if negb (default false (validEventTypes !! EventType e))
  then Some (e, Some ErrInvalidType)
  else if decide (URL e = "")%string then Some (e, Some ErrMissingURL)
  else match url_ParseRequestURI (URL e) with
  | None => Some (e, Some ErrInvalidURL)
  | Some _ =>
    text ← truncate (ElementText e) maxTextLength;
    aria ← truncate (AriaLabel e) maxTextLength;
    title ← truncate (PageTitle e) maxTextLength;
    parent ← truncate (ParentPath e) 1000;
    let urlPath :=
      if decide (URLPath e = "")%string then
        match url_Parse (URL e) with
        | Some u => u_Path u
        | None => URLPath e
        end
      else URLPath e in
    Some (mkIngestEvent (EventType e) (ElementTag e) (ElementID e)
            (ElementClasses e) text aria (DataAttributes e) parent (URL e)
            urlPath title (Referrer e) (ScreenWidth e) (ScreenHeight e)
            (Timestamp e) (Properties e), None)
  end.

(** The loop [for i := range p.Events]: events before the first failing
    one have been normalised in place, the failing one and those after
    it are untouched. *)
Fixpoint validateEvents (es : list IngestEvent)
    : option (list IngestEvent * option IngestError) :=
  match es with
  | [] => Some ([], None)
  | e :: rest =>
    r ← validateEvent e;
    match r with
    | (e', Some err) => Some (e' :: rest, Some err)
    | (e', None) =>
      r' ← validateEvents rest;
      Some (e' :: fst r', snd r')
    end
  end.

Definition ValidatePayload (p : IngestPayload)
    : option (IngestPayload * option IngestError) :=
  if (length (Events p) =? 0)%nat then Some (p, Some ErrEmptyBatch)
  else if maxBatchSize <? Z.of_nat (length (Events p)) then Some (p, Some ErrBatchTooLarge)
  else if decide (SessionID p = "")%string then Some (p, Some ErrMissingSession)
  else
    r ← validateEvents (Events p);
    Some (mkIngestPayload (fst r) (SessionID p) (DistinctID p), snd r).

End Validation.

(** *** The specification's wording, for comparison with the code *)

(** [strings.Join(parts, sep)] *)
Fixpoint Join (parts : list string) (sep : string) : string :=
  match parts with
  | [] => EmptyString
  | [p] => p
  | p :: rest => p +:+ sep +:+ Join rest sep
  end.

(** The first 16 characters of the hexadecimal SHA-256 digest of the
    five normalised parts joined by a vertical bar. *)
Definition fingerprint_spec `{CaseTables}
    (tag id classes parentPath urlPath : string) : string :=
  let joined :=
    Join [ToLower (TrimSpace tag); ToLower (TrimSpace id);
          ToLower (TrimSpace classes); TrimSpace parentPath; TrimSpace urlPath] "|" in
  string_of_list_ascii
    (firstn 16 (list_ascii_of_string
                  (Hex.EncodeToString (Sha256.Sum256 (bytes joined))))).

(** Two inputs that differ only in surrounding white space. *)
Definition same_modulo_space (x y : string) : Prop :=
  exists core w1 w2 w3 w4,
    space_string w1 /\ space_string w2 /\ space_string w3 /\ space_string w4
    /\ x = w1 +:+ core +:+ w2 /\ y = w3 +:+ core +:+ w4.

(** Two inputs that differ only in surrounding white space and in
    letter case. *)
Definition same_modulo_space_and_case `{CaseTables} (x y : string) : Prop :=
  exists a b w1 w2 w3 w4,
    space_string w1 /\ space_string w2 /\ space_string w3 /\ space_string w4
    /\ same_modulo_case a b
    /\ x = w1 +:+ a +:+ w2 /\ y = w3 +:+ b +:+ w4.

Definition lower_hex_digit (c : ascii) : Prop :=
  In c (list_ascii_of_string "0123456789abcdef").

(** The allowed event types, as the specification lists them. *)
Definition allowed_types : list string :=
  ["click"; "pageview"; "input"; "submit"; "custom"; "error"]%string.

(** The error of one event: the first check that fails. *)
Definition event_error `{UrlParser} (e : IngestEvent) : option IngestError :=
  if decide (EventType e = "")%string then Some ErrMissingType
  else if decide (EventType e ∈ allowed_types) then
    if decide (URL e = "")%string then Some ErrMissingURL
    else if url_ParseRequestURI (URL e) is Some _ then None
    else Some ErrInvalidURL
  else Some ErrInvalidType.

(** The error of the first event that has one. *)
Definition first_event_error `{UrlParser} (es : list IngestEvent) : option IngestError :=
  match filter (fun e => is_Some (event_error e)) es with
  | e :: _ => event_error e
  | [] => None
  end.

(** The error of a payload: the batch checks in the order stated, then
    the error of the first failing event. *)
Definition payload_error `{UrlParser} (p : IngestPayload) : option IngestError :=
  if decide (length (Events p) = 0%nat) then Some ErrEmptyBatch
  else if decide (100 < length (Events p))%nat then Some ErrBatchTooLarge
  else if decide (SessionID p = "")%string then Some ErrMissingSession
  else first_event_error (Events p).

(** [dst] is [src] trimmed and cut to its first [limit] scalar values:
    unchanged when the trimmed text is within the limit, well formed
    whenever it was cut or [src] is well formed, and for a well-formed
    [src] a prefix of the trimmed bytes. *)
Definition normalised_text (limit : nat) (src dst : string) : Prop :=
  runes dst = firstn limit (runes (TrimSpace src))
  /\ (RuneCountInString dst <= limit)%nat
  /\ ((RuneCountInString (TrimSpace src) <= limit)%nat -> dst = TrimSpace src)
  /\ ((limit < RuneCountInString (TrimSpace src))%nat ->
      RuneCountInString dst = limit /\ ValidString dst = true)
  /\ (ValidString src = true ->
      ValidString dst = true /\ exists rest, TrimSpace src = dst +:+ rest).

Definition texts_normalised (e e' : IngestEvent) : Prop :=
  normalised_text 500 (ElementText e) (ElementText e')
  /\ normalised_text 500 (AriaLabel e) (AriaLabel e')
  /\ normalised_text 500 (PageTitle e) (PageTitle e')
  /\ normalised_text 1000 (ParentPath e) (ParentPath e').

Definition with_URLPath (e : IngestEvent) (p : string) : IngestEvent :=
  mkIngestEvent (EventType e) (ElementTag e) (ElementID e) (ElementClasses e)
    (ElementText e) (AriaLabel e) (DataAttributes e) (ParentPath e) (URL e) p
    (PageTitle e) (Referrer e) (ScreenWidth e) (ScreenHeight e) (Timestamp e)
    (Properties e).

End Ingest.

(** ** Package [encoding/base64]

    [base64.StdEncoding]: the standard alphabet with padding.  The
    decoder skips carriage returns and line feeds, as Go's does, and
    rejects any other character outside the alphabet and any input
    whose padding is wrong. *)

Module Base64.

Definition encodeStd : list ascii :=
  list_ascii_of_string
    "ABCDEFGHIJKLMNOPQRSTUVWXYZabcdefghijklmnopqrstuvwxyz0123456789+/".

Definition padChar : ascii := "="%char.

Definition enc (v : Z) : ascii := nth (Z.to_nat v) encodeStd "A"%char.

Fixpoint index_of (c : ascii) (l : list ascii) (i : Z) : option Z :=
  match l with
  | [] => None
  | d :: rest => if Ascii.eqb c d then Some i else index_of c rest (i + 1)
  end.

(** The decode map: the position of a character in the alphabet. *)
Definition dec (c : ascii) : option Z := index_of c encodeStd 0.

Fixpoint encode (src : list Z) : list ascii :=
  match src with
  | [] => []
  | [a] =>
    [enc (a / 4); enc ((a mod 4) * 16); padChar; padChar]
  | [a; b] =>
    [enc (a / 4); enc ((a mod 4) * 16 + b / 16); enc ((b mod 16) * 4); padChar]
  | a :: b :: c :: rest =>
    enc (a / 4) :: enc ((a mod 4) * 16 + b / 16)
      :: enc ((b mod 16) * 4 + c / 64) :: enc (c mod 64) :: encode rest
  end.

Definition EncodeToString (src : list Z) : string :=
  string_of_list_ascii (encode src).

Definition is_newline (c : ascii) : bool :=
  Ascii.eqb c (ascii_of_nat 10) || Ascii.eqb c (ascii_of_nat 13).

(** One quantum of four characters at a time; padding may only end the
    input. *)
Fixpoint decode (l : list ascii) : option (list Z) :=
  match l with
  | [] => Some []
  | c1 :: c2 :: c3 :: c4 :: rest =>
    match dec c1, dec c2 with
    | Some v1, Some v2 =>
      let b1 := v1 * 4 + v2 / 16 in
      match dec c3, dec c4, rest with
      | Some v3, Some v4, _ =>
        match decode rest with
        | Some tail =>
          Some (b1 :: ((v2 mod 16) * 16 + v3 / 4) :: ((v3 mod 4) * 64 + v4) :: tail)
        | None => None
        end
      | Some v3, None, [] =>
        if Ascii.eqb c4 padChar then Some [b1; (v2 mod 16) * 16 + v3 / 4] else None
      | None, None, [] =>
        if Ascii.eqb c3 padChar && Ascii.eqb c4 padChar then Some [b1] else None
      | _, _, _ => None
      end
    | _, _ => None
    end
  | _ => None
  end.

Definition DecodeString (s : string) : option (list Z) :=
  decode (filter (fun c => is_newline c = false) (list_ascii_of_string s)).

End Base64.

(** ** Package [storage]: the encryptor ([encrypt.go]) *)

Module Encrypt.
Import GoString.

(** Interface [cipher.AEAD], as far as the encryptor uses it: [Seal]
    returns the ciphertext with its tag (what it appends to [dst]),
    [Open] the plaintext or an error.  Opening what was sealed under
    the same nonce and additional data gives the plaintext back, and
    sealing bytes gives bytes. *)
Class AEAD := {
  NonceSize : nat;
  Seal : list Z -> list Z -> list Z -> list Z;
  Open : list Z -> list Z -> list Z -> option (list Z);
  Open_Seal : forall nonce plaintext ad,
    length nonce = NonceSize -> Forall is_byte nonce ->
    Forall is_byte plaintext -> Forall is_byte ad ->
    Open nonce (Seal nonce plaintext ad) ad = Some plaintext;
  Seal_bytes : forall nonce plaintext ad,
    Forall is_byte nonce -> Forall is_byte plaintext -> Forall is_byte ad ->
    Forall is_byte (Seal nonce plaintext ad)
}.

Definition encPrefix : string := "enc:v1:".

Inductive EncryptError : Type :=
| ErrGeneratingNonce
| ErrDecodingCiphertext
| ErrCiphertextTooShort
| ErrDecrypting.

(** A Go result [(string, error)]. *)
Inductive result : Type :=
| Ok (s : string)
| Err (e : EncryptError).

(** An [*Encryptor]: [None] is the nil receiver. *)
Definition Encryptor := option AEAD.

(** [Encryptor.Encrypt].  [random] is what [io.ReadFull(rand.Reader,
    nonce)] filled the nonce with, or [None] when it failed. *)
Definition Encrypt (e : Encryptor) (random : option (list Z)) (plaintext : string) : result :=
  match e with
  | None => Ok plaintext
  | Some aead =>
    match random with
    | None => Err ErrGeneratingNonce
    | Some nonce =>
      let ciphertext := nonce ++ Seal nonce (bytes plaintext) [] in
      Ok (encPrefix +:+ Base64.EncodeToString ciphertext)
    end
  end.

(** [Encryptor.Decrypt] *)
Definition Decrypt (e : Encryptor) (value : string) : result :=
  match e with
  | None => Ok value
  | Some aead =>
    if negb (HasPrefix value encPrefix) then Ok value
    else
      match Base64.DecodeString (TrimPrefix value encPrefix) with
      | None => Err ErrDecodingCiphertext
      | Some data =>
        let nonceSize := NonceSize in
        if (length data <? nonceSize)%nat then Err ErrCiphertextTooShort
        else
          let nonce := firstn nonceSize data in
          let ciphertext := skipn nonceSize data in
          match Open nonce ciphertext [] with
          | None => Err ErrDecrypting
          | Some plaintext => Ok (from_bytes plaintext)
          end
      end
  end.

(** [EncryptPtr] and [DecryptPtr]: a nil pointer passes through. *)
Definition EncryptPtr (e : Encryptor) (random : option (list Z)) (p : option string)
    : option result :=
  match e, p with
  | Some _, Some s => Some (Encrypt e random s)
  | _, _ => Ok <$> p
  end.

Definition DecryptPtr (e : Encryptor) (p : option string) : option result :=
  match e, p with
  | Some _, Some s => Some (Decrypt e s)
  | _, _ => Ok <$> p
  end.

End Encrypt.

(** ** Package [storage]: the relational metadata store (SQLite)

    A statement either runs or fails in the driver.  The driver's
    failures are an input of the model ([fault]); a failed statement
    leaves the tables as they were. *)

Module Meta.
Import Storage.

Definition float64 := SpecFloat.spec_float.

Record EventName := mkEventName {
  en_Fingerprint : string;
  en_ProjectID : string;
  en_AIName : string;
  en_UserName : option string;
  en_SourceFile : option string;
  en_Confidence : option float64;
  en_CreatedAt : Time
}.

(** Table [event_names], primary key [(fingerprint, project_id)]. *)
Abbreviation event_names := (gmap (string * string) EventName).

(** The result of a single-row query: the row, [sql.ErrNoRows], or
    another error. *)
Inductive row_result (A : Type) : Type :=
| Row (a : A)
| ErrNoRows
| DbError.
Arguments Row {A} a.
Arguments ErrNoRows {A}.
Arguments DbError {A}.

Definition GetEventName (t : event_names) (fault : bool)
    (projectID fingerprint : string) : row_result EventName :=
  if fault then DbError
  else match t !! (fingerprint, projectID) with
       | Some en => Row en
       | None => ErrNoRows
       end.

(** [INSERT ... ON CONFLICT (fingerprint, project_id) DO UPDATE SET
    ai_name, source_file, confidence]: a new row has no [user_name] and
    the current time as [created_at]; an existing row keeps its
    [user_name] and [created_at].  The result is the table and whether
    the statement ran. *)
Definition SetEventName (t : event_names) (fault : bool) (now : Time)
    (en : EventName) : event_names * bool :=
  if fault then (t, false)
  else
    let k := (en_Fingerprint en, en_ProjectID en) in
    match t !! k with
    | Some old =>
      (<[k := mkEventName (en_Fingerprint old) (en_ProjectID old) (en_AIName en)
                (en_UserName old) (en_SourceFile en) (en_Confidence en)
                (en_CreatedAt old)]> t, true)
    | None =>
      (<[k := mkEventName (en_Fingerprint en) (en_ProjectID en) (en_AIName en)
                None (en_SourceFile en) (en_Confidence en) now]> t, true)
    end.

(** [UPDATE event_names SET user_name = ? WHERE project_id = ? AND
    fingerprint = ?]: no row, no change. *)
Definition OverrideEventName (t : event_names) (fault : bool)
    (projectID fingerprint userName : string) : event_names * bool :=
  if fault then (t, false)
  else
    (alter (fun old => mkEventName (en_Fingerprint old) (en_ProjectID old)
                         (en_AIName old) (Some userName) (en_SourceFile old)
                         (en_Confidence old) (en_CreatedAt old))
           (fingerprint, projectID) t, true).

End Meta.

(** ** Package [ai]: name cache and naming workers *)

Module AI.
Import Storage Meta.

Record NamingRequest := mkNamingRequest {
  nr_ElementTag : string;
  nr_ElementID : string;
  nr_ElementClasses : string;
  nr_ElementText : string;
  nr_AriaLabel : string;
  nr_ParentPath : string;
  nr_URL : string;
  nr_URLPath : string;
  nr_PageTitle : string;
  nr_SourceCode : string;
  nr_SourceFile : string
}.

Record NamingResult := mkNamingResult {
  res_Name : string;
  res_Confidence : float64;
  res_SourceFile : string
}.

Record NamingJob := mkNamingJob {
  job_ProjectID : string;
  job_Fingerprint : string;
  job_Request : NamingRequest
}.

(** Interface [Provider]: an error is [None]. *)
Record Provider := mkProvider {
  GenerateEventName : NamingRequest -> option NamingResult
}.

(** Interface [SourceMatcher]: [(sourceCode, sourceFile)] when [ok]. *)
Record SourceMatcher := mkMatcher {
  MatchAndFetch : string -> string -> string -> string -> option (string * string)
}.

(** [Cache.Get]: the display name and whether the key is cached. *)
Definition Cache_Get (t : event_names) (fault : bool)
    (projectID fingerprint : string) : string * bool :=
  match GetEventName t fault projectID fingerprint with
  | Row en =>
    match en_UserName en with
    | Some u => if decide (u = "")%string then (en_AIName en, true) else (u, true)
    | None => (en_AIName en, true)
    end
  | ErrNoRows | DbError => (""%string, false)
  end.

(** [Cache.Set] *)
Definition Cache_Set (t : event_names) (fault : bool) (now : Time)
    (projectID fingerprint : string) (result : NamingResult) : event_names * bool :=
  SetEventName t fault now
    (mkEventName fingerprint projectID (res_Name result) None
       (Some (res_SourceFile result)) (Some (res_Confidence result)) 0).

(** [BackfillEventName]: [UPDATE events SET event_name = ? WHERE
    project_id = ? AND fingerprint = ? AND event_name IS NULL]. *)
Definition BackfillEventName (evs : list Event) (projectID fingerprint name : string)
    : list Event :=
  map (fun e =>
         if decide (ev_ProjectID e = projectID /\ ev_Fingerprint e = fingerprint
                    /\ ev_EventName e = None)
         then mkEvent (ev_ProjectID e) (ev_SessionID e) (ev_DistinctID e)
                (ev_EventType e) (ev_Fingerprint e) (Some name) (ev_ElementTag e)
                (ev_ElementID e) (ev_ElementClasses e) (ev_ElementText e)
                (ev_AriaLabel e) (ev_DataAttributes e) (ev_ParentPath e) (ev_URL e)
                (ev_URLPath e) (ev_PageTitle e) (ev_Referrer e) (ev_ScreenWidth e)
                (ev_ScreenHeight e) (ev_UserAgent e) (ev_Timestamp e) (ev_Properties e)
         else e) evs.

(** The naming engine together with the two stores it holds handles
    to.  [jobs] is the buffer of the job channel (capacity 1000, oldest
    first), [closed] whether [Close] has closed it, and [calls] the
    requests passed to [GenerateEventName] so far, oldest first, each
    with the job it was made for. *)
Record Namer := mkNamer {
  provider : option Provider;
  matcher : option SourceMatcher;
  names : event_names;
  events : list Event;
  jobs : list NamingJob;
  closed : bool;
  calls : list (NamingJob * NamingRequest)
}.

Definition jobsCapacity : nat := 1000.

Definition set_jobs (n : Namer) (q : list NamingJob) : Namer :=
  mkNamer (provider n) (matcher n) (names n) (events n) q (closed n) (calls n).

Definition SetProvider (n : Namer) (p : option Provider) : Namer :=
  mkNamer p (matcher n) (names n) (events n) (jobs n) (closed n) (calls n).

Definition SetMatcher (n : Namer) (m : option SourceMatcher) : Namer :=
  mkNamer (provider n) m (names n) (events n) (jobs n) (closed n) (calls n).

(** [Namer.Submit].  [fault] is the outcome of the cache read.  The
    result is [None] when the call panics (a send on the closed
    channel). *)
Definition Submit (n : Namer) (fault : bool) (job : NamingJob) : option Namer :=
  match provider n with
  | None => Some n
  | Some _ =>
    if snd (Cache_Get (names n) fault (job_ProjectID job) (job_Fingerprint job))
    then Some n
    else if closed n then None
    else if (length (jobs n) <? jobsCapacity)%nat
    then Some (set_jobs n (jobs n ++ [job]))
    else Some n
  end.

(** The faults of the store accesses of one worker iteration. *)
Record worker_faults := mkFaults {
  f_get : bool;
  f_set : bool;
  f_backfill : bool
}.

(** The body of the loop [for job := range n.jobs] for one received
    job; the job has already left the channel. *)
Definition process (n : Namer) (fl : worker_faults) (now : Time) (job : NamingJob) : Namer :=
  if snd (Cache_Get (names n) (f_get fl) (job_ProjectID job) (job_Fingerprint job))
  then n
  else match provider n with
  | None => n
  | Some prov =>
    let req := job_Request job in
    let req :=
      match matcher n with
      | Some m =>
        match MatchAndFetch m (job_ProjectID job) (nr_ElementID req)
                (nr_ElementClasses req) (nr_ParentPath req) with
        | Some (code, file) =>
          mkNamingRequest (nr_ElementTag req) (nr_ElementID req) (nr_ElementClasses req)
            (nr_ElementText req) (nr_AriaLabel req) (nr_ParentPath req) (nr_URL req)
            (nr_URLPath req) (nr_PageTitle req) code file
        | None => req
        end
      | None => req
      end in
    let called := calls n ++ [(job, req)] in
    match GenerateEventName prov req with
    | None =>
      mkNamer (provider n) (matcher n) (names n) (events n) (jobs n) (closed n) called
    | Some result =>
      let '(names', ok) :=
        Cache_Set (names n) (f_set fl) now (job_ProjectID job) (job_Fingerprint job) result in
      if negb ok
      then mkNamer (provider n) (matcher n) names' (events n) (jobs n) (closed n) called
      else
        let events' :=
          if f_backfill fl then events n
          else BackfillEventName (events n) (job_ProjectID job) (job_Fingerprint job)
                 (res_Name result) in
        mkNamer (provider n) (matcher n) names' events' (jobs n) (closed n) called
    end
  end.

(** One iteration of a worker run without interruption: receive the
    oldest job, if any, and process it.  (Several workers run at once;
    [Workers] below takes an iteration apart into the accesses at
    which they interleave.) *)
Definition worker_step (n : Namer) (fl : worker_faults) (now : Time) : Namer :=
  match jobs n with
  | [] => n
  | job :: rest => process (set_jobs n rest) fl now job
  end.

(** What can happen to the engine, one step at a time, with the
    iterations of the workers taken whole. *)
Inductive action : Type :=
| ASubmit (fault : bool) (job : NamingJob)
| AWork (fl : worker_faults) (now : Time)
| ASetProvider (p : option Provider)
| ASetMatcher (m : option SourceMatcher)
| AOverride (fault : bool) (projectID fingerprint userName : string).

Definition step (n : Namer) (a : action) : option Namer :=
  match a with
  | ASubmit fault job => Submit n fault job
  | AWork fl now => Some (worker_step n fl now)
  | ASetProvider p => Some (SetProvider n p)
  | ASetMatcher m => Some (SetMatcher n m)
  | AOverride fault p f u =>
    Some (mkNamer (provider n) (matcher n)
            (fst (OverrideEventName (names n) fault p f u))
            (events n) (jobs n) (closed n) (calls n))
  end.

Fixpoint run (n : Namer) (acts : list action) : option Namer :=
  match acts with
  | [] => Some n
  | a :: rest =>
    match step n a with
    | Some n' => run n' rest
    | None => None
    end
  end.

(** *** The specification's wording *)

(** The display name of a row: the user's name when it is not empty,
    the generated name otherwise. *)
Definition display_name (en : EventName) : string :=
  match en_UserName en with
  | Some u => if decide (u = "")%string then en_AIName en else u
  | None => en_AIName en
  end.

(** The key of the job has an entry in the name cache: table
    [event_names] holds a row for it. *)
Definition has_entry (n : Namer) (job : NamingJob) : Prop :=
  is_Some (names n !! (job_Fingerprint job, job_ProjectID job)).

(** An action that is not an override of the name of [(projectID,
    fingerprint)]. *)
Definition keeps_override (projectID fingerprint : string) (a : action) : Prop :=
  match a with
  | AOverride _ p f _ => ~ (p = projectID /\ f = fingerprint)
  | _ => True
  end.

End AI.

(** ** Package [ingest]: the HTTP handler

    The request is taken after the router and the JSON decoder: the
    method, the project the API key resolved to, and the decoded body
    ([None] when it is not valid JSON).  The handler holds handles to
    the event store and (optionally) to the naming engine; both live in
    the [AI.Namer] state. *)

Module IngestHandler.
Import GoString Storage Ingest.

Record Request := mkRequest {
  req_Method : string;
  req_Project : option Project;
  req_Body : option IngestPayload;
  req_UserAgent : string
}.

Record Response := mkResponse {
  resp_Status : Z;
  resp_Body : string;
  resp_Accepted : nat
}.

(** What the environment decides during one request: the clock reading
    taken for the event at each index, whether the insert transaction
    fails, and whether the cache read of each submission fails. *)
Record Env := mkEnv {
  env_now : nat -> Time;
  env_insert_fault : bool;
  env_cache_fault : nat -> bool
}.

Definition Error (e : IngestError) : string :=
  match e with
  | ErrEmptyBatch => "empty event batch"
  | ErrBatchTooLarge => "batch exceeds maximum size of 100 events"
  | ErrMissingType => "event_type is required"
  | ErrInvalidType => "invalid event_type"
  | ErrMissingURL => "url is required"
  | ErrInvalidURL => "invalid url"
  | ErrMissingSession => "session_id is required"
  end%string.

(** The double quote character, and the body [{"error":"<msg>"}] that
    [http.Error] is given. *)
Definition dq : string := String (ascii_of_nat 34) EmptyString.

Definition error_body (msg : string) : string :=
  ("{" +:+ dq +:+ "error" +:+ dq +:+ ":" +:+ dq +:+ msg +:+ dq +:+ "}")%string.

Definition ok_body : string :=
  ("{" +:+ dq +:+ "status" +:+ dq +:+ ":" +:+ dq +:+ "ok" +:+ dq +:+ "}")%string.

(** [InsertEvents]: one transaction; it commits all rows or none.  The
    columns [id] and [received_at], which no query below reads, are
    left out of the rows. *)
Definition stored (e : Event) : Event :=
  mkEvent (ev_ProjectID e) (ev_SessionID e) (ev_DistinctID e) (ev_EventType e)
    (ev_Fingerprint e) (ev_EventName e) (ev_ElementTag e) (ev_ElementID e)
    (ev_ElementClasses e) (ev_ElementText e) (ev_AriaLabel e) (ev_DataAttributes e)
    (ev_ParentPath e) (ev_URL e) (ev_URLPath e) (ev_PageTitle e) (ev_Referrer e)
    (ev_ScreenWidth e) (ev_ScreenHeight e) (ev_UserAgent e)
    (to_micro (ev_Timestamp e)) (ev_Properties e).

Definition InsertEvents (table : list Event) (fault : bool) (new : list Event)
    : list Event * bool :=
  if fault then (table, false) else (table ++ map stored new, true).

Section Handler.
Context `{CaseTables} `{UrlParser}.

(** The storage record built for the event at index [i]; [None] when
    [ComputeFingerprint] panics. *)
Definition build_event (project : Project) (payload : IngestPayload)
    (userAgent : string) (now : nat -> Time) (i : nat) (e : IngestEvent) : option Event :=
  fingerprint ← ComputeFingerprint (ElementTag e) (ElementID e) (ElementClasses e)
                  (ParentPath e) (URLPath e);
  let ts := if Timestamp e =? 0 then now i else UnixMilli (Timestamp e) in
  Some (mkEvent (pr_ID project) (SessionID payload) (DistinctID payload) (EventType e)
          fingerprint None (ElementTag e) (ElementID e) (ElementClasses e)
          (ElementText e) (AriaLabel e) (DataAttributes e) (ParentPath e) (URL e)
          (URLPath e) (PageTitle e) (Referrer e) (ScreenWidth e) (ScreenHeight e)
          userAgent ts (Properties e)).

Fixpoint build_events (project : Project) (payload : IngestPayload)
    (userAgent : string) (now : nat -> Time) (i : nat) (es : list IngestEvent)
    : option (list Event) :=
  match es with
  | [] => Some []
  | e :: rest =>
    ev ← build_event project payload userAgent now i e;
    evs ← build_events project payload userAgent now (S i) rest;
    Some (ev :: evs)
  end.

Definition naming_job (project : Project) (e : IngestEvent) (ev : Event) : AI.NamingJob :=
  AI.mkNamingJob (pr_ID project) (ev_Fingerprint ev)
    (AI.mkNamingRequest (ElementTag e) (ElementID e) (ElementClasses e) (ElementText e)
       (AriaLabel e) (ParentPath e) (URL e) (URLPath e) (PageTitle e) "" "").

(** The loop submitting naming jobs for the events that are not
    pageviews. *)
Fixpoint submit_jobs (n : AI.Namer) (project : Project) (fault : nat -> bool) (i : nat)
    (es : list (IngestEvent * Event)) : option AI.Namer :=
  match es with
  | [] => Some n
  | (e, ev) :: rest =>
    if decide (EventType e = "pageview")%string
    then submit_jobs n project fault (S i) rest
    else
      n' ← AI.Submit n (fault i) (naming_job project e ev);
      submit_jobs n' project fault (S i) rest
  end.

Definition with_events (n : AI.Namer) (evs : list Event) : AI.Namer :=
  AI.mkNamer (AI.provider n) (AI.matcher n) (AI.names n) evs (AI.jobs n)
    (AI.closed n) (AI.calls n).

(** [Handler.ServeHTTP].  [hasNamer] tells whether the handler's namer
    is non-nil.  [None] is a panic. *)
Definition ServeHTTP (n : AI.Namer) (hasNamer : bool) (env : Env) (r : Request)
    : option (AI.Namer * Response) :=
  if negb (bool_decide (req_Method r = "POST"%string))
  then Some (n, mkResponse 405 (error_body "method not allowed") 0)
  else match req_Project r with
  | None => Some (n, mkResponse 401 (error_body "unauthorized") 0)
  | Some project =>
    match req_Body r with
    | None => Some (n, mkResponse 400 (error_body "invalid json") 0)
    | Some payload =>
      v ← ValidatePayload payload;
      match v with
      | (_, Some err) =>
        Some (n, mkResponse 400 (error_body (Error err)) 0)
      | (payload, None) =>
        evs ← build_events project payload (req_UserAgent r) (env_now env) 0
                (Events payload);
        let '(table, ok) := InsertEvents (AI.events n) (env_insert_fault env) evs in
        if negb ok
        then Some (n, mkResponse 500 (error_body "internal server error") 0)
        else
          let n1 := with_events n table in
          n2 ← (if hasNamer
                then submit_jobs n1 project (env_cache_fault env) 0
                       (combine (Events payload) evs)
                else Some n1);
          Some (n2, mkResponse 202 ok_body (length evs))
      end
    end
  end.

End Handler.

End IngestHandler.

(** ** Package [storage]: the analytical queries on the event store

    A query is embedded by what its SQL text denotes on the rows of
    table [events].  [GROUP BY] yields one row per distinct key,
    [MIN] and [COUNT] aggregate the rows of a key, a comparison with
    [NULL] selects nothing, and the time bounds are bound as
    microsecond timestamps.  A failure of the driver is the input
    [fault]. *)

Module Queries.
Import Storage.

Inductive query_result (A : Type) : Type :=
| Rows (a : A)
| QueryError.
Arguments Rows {A} a.
Arguments QueryError {A}.

(** *** [QueryFunnel] *)

Record FunnelStep := mkFunnelStep {
  fs_EventType : string;
  fs_EventName : string
}.

Record FunnelResult := mkFunnelResult {
  fr_Step : string;
  fr_Count : Z
}.

(** The [WHERE] clause shared by the step tables: project, event
    type, event name when the step names one, and the time bounds that
    are not the zero time. *)
Definition step_filter (projectID : string) (step : FunnelStep) (start end_ : Time)
    (e : Event) : Prop :=
  ev_ProjectID e = projectID
  /\ ev_EventType e = fs_EventType step
  /\ (fs_EventName step = ""%string \/ ev_EventName e = Some (fs_EventName step))
  /\ (IsZero start = true \/ to_micro start <= ev_Timestamp e)
  /\ (IsZero end_ = true \/ ev_Timestamp e <= to_micro end_).

#[export] Instance step_filter_dec projectID step start end_ e :
  Decision (step_filter projectID step start end_ e).
Proof. unfold step_filter. apply _. Defined.

(** [MIN] over a non-empty column. *)
Definition min_of (l : list Z) : Z :=
  match l with
  | [] => 0
  | x :: rest => fold_left Z.min rest x
  end.

(** [SELECT DISTINCT session_id, MIN(timestamp) AS ts ... GROUP BY
    session_id] over rows [(session_id, timestamp)]. *)
Definition group_min (rows : list (string * Time)) : list (string * Time) :=
  map (fun s => (s, min_of (map snd (filter (fun r => fst r = s) rows))))
      (remove_dups (map fst rows)).

(** [step1]: the sessions with an event matching the first step, each
    with the time of its earliest such event. *)
Definition step_first (evs : list Event) (projectID : string) (step : FunnelStep)
    (start end_ : Time) : list (string * Time) :=
  group_min
    (map (fun e => (ev_SessionID e, ev_Timestamp e))
         (filter (step_filter projectID step start end_) evs)).

(** [step k], [k >= 2]: [events e JOIN step(k-1) s ON e.session_id =
    s.session_id], filtered by the step and by [e.timestamp > s.ts]. *)
Definition step_next (evs : list Event) (projectID : string) (step : FunnelStep)
    (start end_ : Time) (prev : list (string * Time)) : list (string * Time) :=
  group_min
    (map (fun es => (ev_SessionID es.1, ev_Timestamp es.1))
         (filter (fun es : Event * (string * Time) =>
                    ev_SessionID es.1 = fst es.2
                    /\ step_filter projectID step start end_ es.1
                    /\ snd es.2 < ev_Timestamp es.1)
                 (list_prod evs prev))).

Fixpoint later_steps (evs : list Event) (projectID : string) (start end_ : Time)
    (prev : list (string * Time)) (steps : list FunnelStep)
    : list (list (string * Time)) :=
  match steps with
  | [] => []
  | step :: rest =>
    let cur := step_next evs projectID step start end_ prev in
    cur :: later_steps evs projectID start end_ cur rest
  end.

(** The step tables [step1, ..., stepN] of the [WITH] clause. *)
Definition step_tables (evs : list Event) (projectID : string) (steps : list FunnelStep)
    (start end_ : Time) : list (list (string * Time)) :=
  match steps with
  | [] => []
  | step :: rest =>
    let first := step_first evs projectID step start end_ in
    first :: later_steps evs projectID start end_ first rest
  end.

(** [fmt.Sprintf("Step %d: %s", i+1, label)] *)
Definition step_label (i : nat) (step : FunnelStep) : string :=
  let label :=
    if decide (fs_EventName step = "")%string then fs_EventType step
    else fs_EventName step in
  ("Step " +:+ pretty (S i) +:+ ": " +:+ label)%string.

(** [DuckDB.QueryFunnel]: one [SELECT ? AS step, COUNT( * ) FROM stepK]
    per step, joined by [UNION ALL] and read in that order. *)
Definition QueryFunnel (evs : list Event) (fault : bool) (projectID : string)
    (steps : list FunnelStep) (start end_ : Time) : query_result (list FunnelResult) :=
  match steps with
  | [] => Rows []
  | _ :: _ =>
    if fault then QueryError
    else
      Rows (imap (fun i st => mkFunnelResult (step_label i st.1) (Z.of_nat (length st.2)))
                 (zip steps (step_tables evs projectID steps start end_)))
  end.

(** *** [QueryTrendsBreakdown] *)

Record TrendPoint := mkTrendPoint {
  tp_Bucket : string;
  tp_Count : Z
}.

Record TrendSeries := mkTrendSeries {
  ts_Name : string;
  ts_Data : list TrendPoint
}.

(** [CAST(date_trunc(interval, CAST(timestamp AS TIMESTAMP)) AS
    VARCHAR)] is a function of the event store, not of the
    repository. *)
Class DateTrunc := {
  bucket_label : string -> Time -> string
}.

(** The order of [ORDER BY] on [VARCHAR]: bytewise. *)
Definition str_le (a b : string) : Prop := String.leb a b = true.

Definition row_le (a b : string * string) : Prop :=
  str_le a.1 b.1 /\ (a.1 = b.1 -> str_le a.2 b.2).

#[export] Instance row_le_dec : RelDecision row_le.
Proof. intros a b. unfold row_le, str_le. apply _. Defined.

Definition normal_interval (interval : string) : string :=
  if bool_decide (interval ∈ ["minute"; "hour"; "day"; "week"; "month"]%string)
  then interval else "hour"%string.

(** The series expression; [None] is SQL's [NULL]. *)
Definition series_expr (groupBy : string) (e : Event) : option string :=
  if decide (groupBy = "event_type")%string then Some (ev_EventType e)
  else if decide (groupBy = "url_path")%string then Some (ev_URLPath e)
  else match ev_EventName e with
       | Some n => Some n
       | None => Some (ev_EventType e)
       end.

Section Breakdown.
Context `{DateTrunc}.

(** The rows [(bucket, series)] that pass the [WHERE] clause. *)
Definition breakdown_keys (evs : list Event) (projectID interval groupBy : string)
    (start end_ : Time) : list (string * string) :=
  omap (fun e =>
          if decide (ev_ProjectID e = projectID
                     /\ to_micro start <= ev_Timestamp e <= to_micro end_)
          then match series_expr groupBy e with
               | Some s =>
                 if decide (s = "")%string then None
                 else Some (bucket_label interval (ev_Timestamp e), s)
               | None => None
               end
          else None) evs.

(** [GROUP BY bucket, series ORDER BY bucket, series] with [COUNT( * )]. *)
Definition breakdown_rows (evs : list Event) (projectID interval groupBy : string)
    (start end_ : Time) : list (string * string * Z) :=
  let keys := breakdown_keys evs projectID interval groupBy start end_ in
  map (fun k => (k, Z.of_nat (length (filter (fun k' => k' = k) keys))))
      (merge_sort row_le (remove_dups keys)).

End Breakdown.

(** The loop over [rows.Next()]: [seriesData] and [seriesOrder]. *)
Definition scan_row (acc : gmap string (list TrendPoint) * list string)
    (row : string * string * Z) : gmap string (list TrendPoint) * list string :=
  let '(bucket, series, count) := row in
  let '(seriesData, seriesOrder) := acc in
  let seriesOrder :=
    match seriesData !! series with
    | Some _ => seriesOrder
    | None => seriesOrder ++ [series]
    end in
  (<[series := default [] (seriesData !! series) ++ [mkTrendPoint bucket count]]> seriesData,
   seriesOrder).

Definition scan_rows (rows : list (string * string * Z))
    : gmap string (list TrendPoint) * list string :=
  fold_left scan_row rows (∅, []).

(** [total += e.count] on an [int64]. *)
Definition total_of (entries : list TrendPoint) : Z :=
  fold_left (fun total e => wrap64 (total + tp_Count e)) entries 0.

(** The slice [scores] after [sort.Slice]: the series with their totals
    in some order in which the totals do not increase.  (The order in
    which [range] visits a map is not specified, and [sort.Slice] is not
    stable.) *)
Definition score_ge (a b : string * Z) : Prop := snd b <= snd a.

#[export] Instance score_ge_dec : RelDecision score_ge :=
  fun a b => decide (snd b <= snd a).

Definition scores_of (seriesData : gmap string (list TrendPoint))
    (scores : list (string * Z)) : Prop :=
  scores ≡ₚ map_to_list (total_of <$> seriesData)
  /\ StronglySorted score_ge scores.

(** One such order, for the examples. *)
Definition some_scores (seriesData : gmap string (list TrendPoint)) : list (string * Z) :=
  merge_sort score_ge (map_to_list (total_of <$> seriesData)).

(** The names [topNames] is built from. *)
Definition top_names (scores : list (string * Z)) : list string :=
  map fst (firstn (if (length scores <? 8)%nat then length scores else 8%nat) scores).

(** The rest of the function, from "Pick top 8 series by total count". *)
Definition pick_top (seriesData : gmap string (list TrendPoint))
    (seriesOrder : list string) (scores : list (string * Z)) : list TrendSeries :=
  let topN := if (length scores <? 8)%nat then length scores else 8%nat in
  let topNames : gset string := list_to_set (map fst (firstn topN scores)) in
  omap (fun name =>
          if decide (name ∈ topNames)
          then Some (mkTrendSeries name (default [] (seriesData !! name)))
          else None) seriesOrder.

(** [DuckDB.QueryTrendsBreakdown] *)
Definition QueryTrendsBreakdown `{DateTrunc} (evs : list Event) (fault : bool)
    (projectID interval groupBy : string) (start end_ : Time)
    (scores : list (string * Z)) : query_result (list TrendSeries) :=
  if fault then QueryError
  else
    let rows := breakdown_rows evs projectID (normal_interval interval) groupBy start end_ in
    let '(seriesData, seriesOrder) := scan_rows rows in
    Rows (pick_top seriesData seriesOrder scores).

(** *** The specification's wording *)

(** The distinct elements of a list in the order in which they first
    appear. *)
Fixpoint first_seen (l : list string) : list string :=
  match l with
  | [] => []
  | x :: rest => x :: filter (fun y => y <> x) (first_seen rest)
  end.

(** The points of one series, in row order. *)
Definition points_of (rows : list (string * string * Z)) (series : string)
    : list TrendPoint :=
  omap (fun row : string * string * Z =>
          if decide (row.1.2 = series) then Some (mkTrendPoint row.1.1 row.2) else None)
       rows.

(** The number of selected events of one series. *)
Definition series_total (keys : list (string * string)) (series : string) : Z :=
  Z.of_nat (length (filter (fun k : string * string => k.2 = series) keys)).

(** Strictly ascending buckets. *)
Definition bucket_lt (p q : TrendPoint) : Prop :=
  str_le (tp_Bucket p) (tp_Bucket q) /\ tp_Bucket p <> tp_Bucket q.

(** The value of the group-by dimension of an event: its type, its URL
    path, or its name (its type when it has no name). *)
Definition dimension (groupBy : string) (e : Event) : string :=
  if String.eqb groupBy "event_type" then ev_EventType e
  else if String.eqb groupBy "url_path" then ev_URLPath e
  else default (ev_EventType e) (ev_EventName e).

(** An event of series [s] over the range: an event of the project,
    inside the time range, whose dimension has the value [s]. *)
Definition of_series (projectID groupBy : string) (start end_ : Time) (s : string)
    (e : Event) : Prop :=
  ev_ProjectID e = projectID
  /\ to_micro start <= ev_Timestamp e <= to_micro end_
  /\ dimension groupBy e = s.

#[export] Instance of_series_dec projectID groupBy start end_ s e :
  Decision (of_series projectID groupBy start end_ s e).
Proof. unfold of_series. apply _. Defined.

(** The total count of a series over the range. *)
Definition range_total (evs : list Event) (projectID groupBy : string)
    (start end_ : Time) (s : string) : Z :=
  Z.of_nat (length (filter (of_series projectID groupBy start end_ s) evs)).

(** The unit of the buckets: the interval asked for when it is one of
    the five known ones, an hour otherwise. *)
Definition bucket_unit (interval unit : string) : Prop :=
  (interval ∈ ["minute"; "hour"; "day"; "week"; "month"]%string /\ unit = interval)
  \/ ((interval ∉ ["minute"; "hour"; "day"; "week"; "month"]%string)
      /\ unit = "hour"%string).

(** The count of a series in one bucket. *)
Definition bucket_total `{DateTrunc} (evs : list Event) (projectID unit groupBy : string)
    (start end_ : Time) (s bucket : string) : Z :=
  Z.of_nat (length (filter (fun e => of_series projectID groupBy start end_ s e
                                     /\ bucket_label unit (ev_Timestamp e) = bucket) evs)).

End Queries.

(** ** The alert checker ([Server.checkAlerts]) and its storage *)

Module Alerts.
Import Storage.

Record Alert := mkAlert {
  al_ID : string;
  al_ProjectID : string;
  al_Name : string;
  al_Metric : string;
  al_EventName : string;
  al_Threshold : Z;
  al_WindowMinutes : Z;
  al_WebhookURL : string;
  al_Enabled : bool;
  al_LastTriggeredAt : option Time;
  al_CreatedAt : Time
}.

(** [SELECT ... FROM alerts WHERE enabled = 1 ORDER BY created_at
    DESC] *)
Definition newer_first (a b : Alert) : Prop := al_CreatedAt b <= al_CreatedAt a.

#[export] Instance newer_first_dec : RelDecision newer_first :=
  fun a b => decide (al_CreatedAt b <= al_CreatedAt a).

Definition ListAllEnabledAlerts (table : list Alert) : list Alert :=
  merge_sort newer_first (filter (fun a => al_Enabled a = true) table).

(** [UPDATE alerts SET last_triggered_at = ? WHERE id = ?] *)
Definition UpdateAlertTriggered (table : list Alert) (id : string) (t : Time)
    : list Alert :=
  map (fun a =>
         if decide (al_ID a = id)
         then mkAlert (al_ID a) (al_ProjectID a) (al_Name a) (al_Metric a)
                (al_EventName a) (al_Threshold a) (al_WindowMinutes a)
                (al_WebhookURL a) (al_Enabled a) (Some t) (al_CreatedAt a)
         else a) table.

(** [UPDATE alerts SET enabled = ?, threshold = ?, webhook_url = ?
    WHERE project_id = ? AND id = ?] *)
Definition UpdateAlert (table : list Alert) (projectID id : string) (enabled : bool)
    (threshold : Z) (webhookURL : string) : list Alert :=
  map (fun a =>
         if decide (al_ProjectID a = projectID /\ al_ID a = id)
         then mkAlert (al_ID a) (al_ProjectID a) (al_Name a) (al_Metric a)
                (al_EventName a) threshold (al_WindowMinutes a)
                webhookURL enabled (al_LastTriggeredAt a) (al_CreatedAt a)
         else a) table.

(** [DuckDB.CountEvents]: [SELECT COUNT( * ) FROM events WHERE
    project_id = ?] with the optional conditions on type, name and
    time. *)
Definition CountEvents (evs : list Event) (projectID eventType eventName : string)
    (since : Time) : Z :=
  Z.of_nat (length (filter (fun e =>
    ev_ProjectID e = projectID
    /\ (eventType = ""%string \/ ev_EventType e = eventType)
    /\ (eventName = ""%string \/ ev_EventName e = Some eventName)
    /\ (IsZero since = true \/ to_micro since <= ev_Timestamp e)) evs)).

(** What happened to the webhook of a fired alert. *)
Inductive delivery : Type :=
| RequestNotBuilt
| DeliveryFailed
| Delivered.

(** A POST to a webhook, as the checker attempted it. *)
Record Post := mkPost {
  post_Alert : string;
  post_URL : string;
  post_Count : Z;
  post_Delivered : bool
}.

(** What the environment decides while one alert is checked: the
    three readings of the clock (for the window, for the cooldown, for
    the update), whether the count query or the update fails, and what
    becomes of the webhook. *)
Record Env := mkEnv {
  now_window : Time;
  now_cooldown : Time;
  now_update : Time;
  count_fault : bool;
  webhook : delivery;
  update_fault : bool
}.

Record World := mkWorld {
  alerts : list Alert;
  events : list Event;
  posts : list Post
}.

(** [time.Duration(a.WindowMinutes) * time.Minute] *)
Definition window (a : Alert) : Z := mul_duration (al_WindowMinutes a) Minute.

(** The count the loop body compares with the threshold. *)
Definition count_of (evs : list Event) (env : Env) (a : Alert) : Z :=
  let since := Add (now_window env) (mul_duration (neg_duration (al_WindowMinutes a)) Minute) in
  let eventType :=
    if decide (al_Metric a = "error_count")%string then "error"%string
    else if decide (al_Metric a = "pageview_count")%string then "pageview"%string
    else ""%string in
  let eventName :=
    if decide (al_Metric a = "event_count")%string then al_EventName a else ""%string in
  CountEvents evs (al_ProjectID a) eventType eventName since.

Definition cooling_down (env : Env) (a : Alert) : bool :=
  match al_LastTriggeredAt a with
  | Some last => Sub (now_cooldown env) last <? window a
  | None => false
  end.

(** The body of [for _, a := range alerts]. *)
Definition check_one (w : World) (env : Env) (a : Alert) : World :=
  if count_fault env then w
  else if count_of (events w) env a <=? al_Threshold a then w
  else if cooling_down env a then w
  else
    let posts' :=
      match webhook env with
      | RequestNotBuilt => posts w
      | DeliveryFailed =>
        posts w ++ [mkPost (al_ID a) (al_WebhookURL a) (count_of (events w) env a) false]
      | Delivered =>
        posts w ++ [mkPost (al_ID a) (al_WebhookURL a) (count_of (events w) env a) true]
      end in
    let alerts' :=
      if update_fault env then alerts w
      else UpdateAlertTriggered (alerts w) (al_ID a) (now_update env) in
    mkWorld alerts' (events w) posts'.

Fixpoint check_each (w : World) (envs : nat -> Env) (i : nat) (l : list Alert) : World :=
  match l with
  | [] => w
  | a :: rest => check_each (check_one w (envs i) a) envs (S i) rest
  end.

(** [Server.checkAlerts]: [envs i] is the environment of the [i]-th
    alert of the list. *)
Definition checkAlerts (w : World) (list_fault : bool) (envs : nat -> Env) : World :=
  if list_fault then w
  else check_each w envs 0 (ListAllEnabledAlerts (alerts w)).

(** *** The specification's wording *)

(** The alert fired: the update of [last_triggered_at] ran. *)
Definition fired (w w' : World) (a : Alert) (env : Env) : Prop :=
  alerts w' = UpdateAlertTriggered (alerts w) (al_ID a) (now_update env).

(** The three readings of the clock are taken in this order. *)
Definition clock_ordered (env : Env) : Prop :=
  now_window env <= now_cooldown env <= now_update env.

(** The window in nanoseconds fits a [time.Duration]. *)
Definition window_fits (a : Alert) : Prop :=
  0 < al_WindowMinutes a /\ al_WindowMinutes a * Minute <= maxDuration.

End Alerts.

(** ** Stand-ins for the interfaces, used by the worked examples

    The properties of Part II hold for every implementation of the
    interfaces.  The examples need one: case tables that leave the code
    points from [RuneSelf] upwards alone, and a parser for URLs of the
    plain form [scheme://host/path?query#fragment]. *)

Module Examples.
Import GoString Ingest.

#[export] Instance ascii_case_tables : CaseTables :=
  {| unicode_lower := fun r => r; unicode_lower_space := fun r => eq_refl |}.

(** [strings.Cut] on a single byte. *)
Fixpoint cut (c : ascii) (s : string) : string * option string :=
  match s with
  | EmptyString => (EmptyString, None)
  | String d rest =>
    if Ascii.eqb c d then (EmptyString, Some rest)
    else let '(before, after) := cut c rest in (String d before, after)
  end.

Definition is_letter (c : ascii) : bool :=
  let n := nat_of_ascii c in
  ((65 <=? n) && (n <=? 90))%nat || ((97 <=? n) && (n <=? 122))%nat.

Fixpoint all_letters (s : string) : bool :=
  match s with
  | EmptyString => true
  | String c rest => is_letter c && all_letters rest
  end.

(** The scheme and what follows its colon. *)
Definition get_scheme (s : string) : string * string :=
  match cut ":" s with
  | (scheme, Some rest) =>
    if negb (String.eqb scheme "") && all_letters scheme then (scheme, rest) else (""%string, s)
  | (_, None) => (""%string, s)
  end.

Definition parse (viaRequest : bool) (raw : string) : option ParsedURL :=
  let '(scheme, rest) := get_scheme raw in
  let '(rest, query) := cut "?" rest in
  if viaRequest && String.eqb scheme "" && negb (HasPrefix rest "/") then None
  else if HasPrefix rest "//" then
    let '(host, path) := cut "/" (drop_string 2 rest) in
    Some (mkURL scheme host
            (match path with Some p => String "/" p | None => ""%string end)
            (default ""%string query) "")
  else Some (mkURL scheme "" rest (default ""%string query) "").

#[export] Instance plain_url_parser : UrlParser :=
  {| url_ParseRequestURI := fun s => if String.eqb s "" then None else parse true s;
     url_Parse := fun s =>
       let '(s, frag) := cut "#" s in
       match parse false s with
       | Some u => Some (mkURL (u_Scheme u) (u_Host u) (u_Path u) (u_RawQuery u)
                           (default ""%string frag))
       | None => None
       end |}.

(** A cipher for the examples: every byte shifted by one, under a tag
    of sixteen zero bytes.  It keeps nothing secret and is lawful. *)
Definition shift_seal (nonce plaintext ad : list Z) : list Z :=
  map (fun b => (b + 1) mod 256) plaintext ++ repeat 0 16.

Definition shift_open (nonce ciphertext ad : list Z) : option (list Z) :=
  let n := (length ciphertext - 16)%nat in
  if (length ciphertext <? 16)%nat then None
  else if forallb (Z.eqb 0) (skipn n ciphertext)
  then Some (map (fun b => (b - 1) mod 256) (firstn n ciphertext))
  else None.

Definition click (url urlPath : string) : IngestEvent :=
  mkIngestEvent "click" "" "" "" "" "" ∅ "" url urlPath "" "" 0 0 0 ∅.

(** A click whose element text is the single byte [0xFF], which is no
    UTF-8 encoding. *)
Definition lone_byte : string := String (Ascii true true true true true true true true) "".

Definition stray_click : IngestEvent :=
  mkIngestEvent "click" "" "" "" lone_byte "" ∅ "" "https://e.com/x" "/x" "" "" 0 0 0 ∅.

Definition idle : AI.Namer := AI.mkNamer None None ∅ [] [] false [].

Definition quiet : IngestHandler.Env :=
  IngestHandler.mkEnv (fun _ => 0) false (fun _ => false).

Definition demo : Storage.Project := Storage.mkProject "p1" "demo" "cn_00".

(** The sessions of scenario C: the first does the three steps in
    order, the second the first two, the third the first only.  The
    fourth does them in the wrong order. *)
Definition ev (session type : string) (name : option string) (sec : Z) : Storage.Event :=
  Storage.mkEvent "p1" session "" type "" name "" "" "" "" "" ∅ "" "/" "/" "" "" 0 0 ""
    (sec * 1000000000) ∅.

Definition cart_sessions : list Storage.Event :=
  [ ev "s1" "pageview" None 10; ev "s2" "pageview" None 11; ev "s3" "pageview" None 12;
    ev "s1" "click" (Some "Add to Cart") 20; ev "s2" "click" (Some "Add to Cart") 21;
    ev "s1" "pageview" (Some "/checkout") 30; ev "s1" "pageview" None 40 ]%string.

Definition cart_funnel : list Queries.FunnelStep :=
  [ Queries.mkFunnelStep "pageview" ""; Queries.mkFunnelStep "click" "Add to Cart";
    Queries.mkFunnelStep "pageview" "/checkout" ]%string.

(** Buckets for the examples: the hour since the epoch, in decimal. *)
#[export] Instance hour_number : Queries.DateTrunc :=
  {| Queries.bucket_label := fun _ t => pretty (t / (3600 * 1000000000)) |}.

(** An alert whose window does not fit a [time.Duration], triggered
    at [last_trigger], and the environment five minutes later. *)
Definition last_trigger : Storage.Time := 1700000000 * 1000000000.

Definition long_window : Alerts.Alert :=
  Alerts.mkAlert "a1" "p1" "errors" "error_count" "" (-1) 200000000 "http://hook"
    true (Some last_trigger) 0.

Definition five_minutes_later : Alerts.Env :=
  let t := last_trigger + 5 * Storage.Minute in
  Alerts.mkEnv t t t false Alerts.Delivered false.

(** A cached name, an engine that holds it, and a job for its key. *)
Definition place_order : Meta.EventName :=
  Meta.mkEventName "3b7e9bf376fa4673" "p1" "Clicked Place Order" None None None 0.

Definition one_name : gmap (string * string) Meta.EventName :=
  {[ ("3b7e9bf376fa4673", "p1")%string := place_order ]}.

Definition silent : AI.Provider := AI.mkProvider (fun _ => None).

Definition busy : AI.Namer := AI.mkNamer (Some silent) None one_name [] [] false [].

Definition place_order_job : AI.NamingJob :=
  AI.mkNamingJob "p1" "3b7e9bf376fa4673"
    (AI.mkNamingRequest "button" "submit-btn" "btn btn-primary" "Place Order" ""
       "form>div" "https://e.com/checkout" "/checkout" "Checkout" "" "").

(** The same engine with that job waiting in the channel. *)
Definition queued : AI.Namer :=
  AI.mkNamer (Some silent) None one_name [] [place_order_job] false [].

(** Ten series over three hours: series [a] has 5 events, [b] 1, [c] 7,
    [d] 2, [e] 9, [f] 3, [g] 8, [h] 4, [i] 10 and [j] 6. *)
Definition busy_hours : list Storage.Event :=
  concat
    (imap (fun i '(name, n) =>
             map (fun j => ev "s1" "custom" (Some name) (3600 * Z.of_nat ((i + j) mod 3)))
                 (seq 0 n))
          [("a", 5); ("b", 1); ("c", 7); ("d", 2); ("e", 9);
           ("f", 3); ("g", 8); ("h", 4); ("i", 10); ("j", 6)]%string%nat).

Definition three_hours : Storage.Time := 3 * 3600 * 1000000000.

(** The same events among others that the query must leave out: events
    of another project, events after the range, and events whose name
    is empty. *)
Definition mixed_hours : list Storage.Event :=
  map (fun j => Storage.mkEvent "p2" "s9" "" "custom" "" (Some "z") "" "" "" "" "" ∅ ""
                  "/" "/" "" "" 0 0 "" (3600 * 1000000000 * Z.of_nat (j mod 3)) ∅) (seq 0 20)
  ++ busy_hours
  ++ map (fun j => ev "s1" "custom" (Some "b") (3600 * (4 + Z.of_nat j))) (seq 0 12)
  ++ map (fun j => ev "s1" "custom" (Some "") (3600 * Z.of_nat (j mod 3))) (seq 0 15).

Definition busy_scores : list (string * Z) :=
  [("i", 10); ("e", 9); ("g", 8); ("c", 7); ("j", 6);
   ("a", 5); ("h", 4); ("f", 3); ("d", 2); ("b", 1)]%string.

Fixpoint repeat_string (s : string) (n : nat) : string :=
  match n with
  | O => EmptyString
  | S n' => s +:+ repeat_string s n'
  end.

End Examples.

(** ** Package [encoding/hex]: decoding *)

Module HexDecode.
Import GoString.

(** [reverseHexTable]: the value of a hexadecimal digit of either
    case; every other byte is invalid. *)
Definition fromHexChar (c : Z) : option Z :=
  if (48 <=? c) && (c <=? 57) then Some (c - 48)
  else if (97 <=? c) && (c <=? 102) then Some (c - 97 + 10)
  else if (65 <=? c) && (c <=? 70) then Some (c - 65 + 10)
  else None.

Inductive HexError : Type :=
| InvalidByteError (b : Z)
| ErrLength.

(** [hex.Decode]: the bytes decoded before the first error, and the
    error.  An invalid character is reported before an odd length. *)
Fixpoint Decode (src : list Z) : list Z * option HexError :=
  match src with
  | [] => ([], None)
  | [p] =>
    match fromHexChar p with
    | None => ([], Some (InvalidByteError p))
    | Some _ => ([], Some ErrLength)
    end
  | p :: q :: rest =>
    match fromHexChar p, fromHexChar q with
    | None, _ => ([], Some (InvalidByteError p))
    | Some _, None => ([], Some (InvalidByteError q))
    | Some a, Some b =>
      let '(out, err) := Decode rest in
      (Z.lor (Z.shiftl a 4) b :: out, err)
    end
  end.

(** [hex.DecodeString] *)
Definition DecodeString (s : string) : list Z * option HexError :=
  Decode (bytes s).

End HexDecode.

(** ** Package [storage]: keys ([loadKey], [generateAPIKey],
    [isValidAPIKey]) *)

Module Keys.
Import GoString HexDecode.

Definition keyFileName : string := ".encryption_key".
Definition keySize : nat := 32.

(** What [os.ReadFile] finds at the path of the key file. *)
Inductive file_state : Type :=
| FileHolds (data : string)
| FileMissing
| FileUnreadable.

(** The outcome of [os.WriteFile]: on failure the file is left in some
    state. *)
Inductive write_outcome : Type :=
| Written
| WriteFailed (left_behind : file_state).

Inductive KeyError : Type :=
| ErrEnvNotHex
| ErrEnvLength (got : nat)
| ErrFileNotHex
| ErrFileLength (got : nat)
| ErrReadingFile
| ErrGeneratingKey
| ErrWritingFile.

Inductive key_result : Type :=
| KeyOk (key : list Z)
| KeyErr (e : KeyError).

(** The environment of one call of [loadKey]: the value of
    [CLICKNEST_ENCRYPTION_KEY] (empty when unset), the key file, what
    [rand.Read] fills the 32-byte buffer with ([None] when it fails),
    and the outcome of the write. *)
Record KeyEnv := mkKeyEnv {
  env_var : string;
  key_file : file_state;
  key_random : option (list Z);
  key_write : write_outcome
}.

(** The string ["\n"]. *)
Definition newline : string := String (ascii_of_nat 10) EmptyString.

(** [loadKey]: the result and the key file afterwards. *)
Definition loadKey (env : KeyEnv) : key_result * file_state :=
  if negb (String.eqb (env_var env) "") then
    match DecodeString (env_var env) with
    | (_, Some _) => (KeyErr ErrEnvNotHex, key_file env)
    | (key, None) =>
      if negb (length key =? keySize)%nat
      then (KeyErr (ErrEnvLength (length key)), key_file env)
      else (KeyOk key, key_file env)
    end
  else
    match key_file env with
    | FileHolds data =>
      match DecodeString (TrimSpace data) with
      | (_, Some _) => (KeyErr ErrFileNotHex, key_file env)
      | (key, None) =>
        if negb (length key =? keySize)%nat
        then (KeyErr (ErrFileLength (length key)), key_file env)
        else (KeyOk key, key_file env)
      end
    | FileUnreadable => (KeyErr ErrReadingFile, key_file env)
    | FileMissing =>
      match key_random env with
      | None => (KeyErr ErrGeneratingKey, key_file env)
      | Some key =>
        match key_write env with
        | WriteFailed left_behind => (KeyErr ErrWritingFile, left_behind)
        | Written =>
          (KeyOk key,
           FileHolds (Hex.EncodeToString key +:+ newline))
        end
      end
    end.

(** [generateRandomHex(n)], [generateID()] and [generateAPIKey()]:
    [random] is what [rand.Read] filled the buffer with. *)
Definition generateRandomHex (random : option (list Z)) : option string :=
  Hex.EncodeToString <$> random.

Definition generateAPIKey (random : option (list Z)) : option string :=
  (fun b => "cn_" +:+ Hex.EncodeToString b)%string <$> random.

(** [isValidAPIKey]: the loop ranges over the runes of [key[3:]]. *)
Definition isValidAPIKey (key : string) : bool :=
  if (String.length key <? 4)%nat || negb (String.eqb (substring 0 3 key) "cn_")
  then false
  else forallb (fun c => ((48 <=? c) && (c <=? 57)) || ((97 <=? c) && (c <=? 102)))
               (runes (drop_string 3 key)).

(** *** Vocabulary *)

(** A lower-case hexadecimal digit, as a byte. *)
Definition lower_hex_byte (b : Z) : Prop := 48 <= b <= 57 \/ 97 <= b <= 102.

(** The test of the loop of [isValidAPIKey]. *)
Definition hex_rune (c : Z) : bool :=
  ((48 <=? c) && (c <=? 57)) || ((97 <=? c) && (c <=? 102)).

End Keys.

(** ** Package [hash/fnv]: the 32-bit FNV-1a hash *)

Module Fnv.
Import GoString.

Definition offset32 : Z := 2166136261.
Definition prime32 : Z := 16777619.

(** [New32a], [Write] and [Sum32]: for each byte, [hash ^= byte] and
    then [hash *= prime32] on a [uint32]. *)
Definition Write (hash : Z) (data : list Z) : Z :=
  fold_left (fun h c => (Z.lxor h c * prime32) mod 2 ^ 32) data hash.

Definition Sum32a (data : list Z) : Z := Write offset32 data.

End Fnv.

(** ** Package [server]: feature flags *)

Module Flags.
Import GoString Storage.

Record FeatureFlag := mkFlag {
  ff_ID : string;
  ff_ProjectID : string;
  ff_Key : string;
  ff_Name : string;
  ff_Enabled : bool;
  ff_RolloutPercentage : Z
}.

(** [int(h.Sum32() % 100)] for the hash of [distinctID + ":" + f.ID]. *)
Definition bucket (distinctID : string) (f : FeatureFlag) : Z :=
  Fnv.Sum32a (bytes (distinctID +:+ ":" +:+ ff_ID f)) mod 100.

(** The value the loop of [evaluateFlagsHandler] stores for one
    flag. *)
Definition flag_value (distinctID : string) (f : FeatureFlag) : bool :=
  if negb (ff_Enabled f) then false
  else if 100 <=? ff_RolloutPercentage f then true
  else bucket distinctID f <? ff_RolloutPercentage f.

(** The map [result] after the loop over the flags. *)
Definition evaluate (distinctID : string) (flags : list FeatureFlag) : gmap string bool :=
  fold_left (fun result f => <[ff_Key f := flag_value distinctID f]> result) flags ∅.

(** [createFlagHandler]: the flag that is stored for a request body. *)
Definition new_flag (id projectID key name : string) (rolloutPercentage : Z) : FeatureFlag :=
  let rollout := if rolloutPercentage <=? 0 then 100 else rolloutPercentage in
  mkFlag id projectID key name true rollout.

(** [UPDATE feature_flags SET enabled = ?, rollout_percentage = ? ...
    WHERE project_id = ? AND id = ?] *)
Definition UpdateFeatureFlag (table : list FeatureFlag) (projectID id : string)
    (enabled : bool) (rolloutPct : Z) : list FeatureFlag :=
  map (fun f =>
         if decide (ff_ProjectID f = projectID /\ ff_ID f = id)
         then mkFlag (ff_ID f) (ff_ProjectID f) (ff_Key f) (ff_Name f) enabled rolloutPct
         else f) table.

(** *** Vocabulary *)

(** The same flag with another rollout percentage. *)
Definition with_rollout (f : FeatureFlag) (pct : Z) : FeatureFlag :=
  mkFlag (ff_ID f) (ff_ProjectID f) (ff_Key f) (ff_Name f) (ff_Enabled f) pct.

End Flags.

(** ** Package [storage]: the settings tables of SQLite *)

Module MetaStore.
Import GoString Storage Encrypt.

Record LLMConfig := mkLLMConfig {
  llm_ProjectID : string;
  llm_Provider : string;
  llm_APIKey : option string;
  llm_Model : string;
  llm_BaseURL : option string
}.

Record GitHubConnection := mkGitHubConnection {
  gh_ProjectID : string;
  gh_RepoOwner : string;
  gh_RepoName : string;
  gh_AccessToken : string;
  gh_DefaultBranch : string;
  gh_LastSyncedAt : option Time
}.

(** Tables [llm_config] and [github_connections] (primary key
    [project_id]) and [oauth_state] (primary key [state]; the row holds
    the project and [created_at], in seconds). *)
Record DB := mkDB {
  llm_config : gmap string LLMConfig;
  github_connections : gmap string GitHubConnection;
  oauth_state : gmap string (string * Z)
}.

(** The result of a read: the value, [sql.ErrNoRows], another error of
    the database, or an error of the decryption. *)
Inductive read_result (A : Type) : Type :=
| Found (a : A)
| NoRows
| ReadError
| DecryptError (e : EncryptError).
Arguments Found {A} a.
Arguments NoRows {A}.
Arguments ReadError {A}.
Arguments DecryptError {A} e.

(** The result of a write: [nil], an error of the database, or an
    error of the encryption. *)
Inductive write_result : Type :=
| Done
| WriteError
| EncryptFailed (e : EncryptError).

(** [SQLite.GetLLMConfig].  In this module [fault] is the failure of a
    statement for a reason that the tables do not show. *)
Definition GetLLMConfig (db : DB) (enc : Encryptor) (fault : bool) (projectID : string)
    : read_result LLMConfig :=
  if fault then ReadError
  else match llm_config db !! projectID with
  | None => NoRows
  | Some c =>
    match DecryptPtr enc (llm_APIKey c) with
    | Some (Err e) => DecryptError e
    | Some (Ok key) =>
      Found (mkLLMConfig (llm_ProjectID c) (llm_Provider c) (Some key) (llm_Model c)
               (llm_BaseURL c))
    | None =>
      Found (mkLLMConfig (llm_ProjectID c) (llm_Provider c) None (llm_Model c)
               (llm_BaseURL c))
    end
  end.

(** [SQLite.SetLLMConfig]: [INSERT ... ON CONFLICT (project_id) DO
    UPDATE SET provider, api_key, model, base_url]. *)
Definition SetLLMConfig (db : DB) (enc : Encryptor) (random : option (list Z))
    (fault : bool) (c : LLMConfig) : DB * write_result :=
  match EncryptPtr enc random (llm_APIKey c) with
  | Some (Err e) => (db, EncryptFailed e)
  | encKey =>
    if fault then (db, WriteError)
    else
      let key := match encKey with Some (Ok k) => Some k | _ => None end in
      (mkDB (<[llm_ProjectID c :=
                 mkLLMConfig (llm_ProjectID c) (llm_Provider c) key (llm_Model c)
                   (llm_BaseURL c)]> (llm_config db))
            (github_connections db) (oauth_state db), Done)
  end.

(** [SQLite.GetGitHubConnection] *)
Definition GetGitHubConnection (db : DB) (enc : Encryptor) (fault : bool)
    (projectID : string) : read_result GitHubConnection :=
  if fault then ReadError
  else match github_connections db !! projectID with
  | None => NoRows
  | Some g =>
    match Decrypt enc (gh_AccessToken g) with
    | Err e => DecryptError e
    | Ok token =>
      Found (mkGitHubConnection (gh_ProjectID g) (gh_RepoOwner g) (gh_RepoName g) token
               (gh_DefaultBranch g) (gh_LastSyncedAt g))
    end
  end.

(** [SQLite.SetGitHubConnection]: the upsert sets every column but
    [last_synced_at], which a new row leaves [NULL] and an old row
    keeps. *)
Definition SetGitHubConnection (db : DB) (enc : Encryptor) (random : option (list Z))
    (fault : bool) (g : GitHubConnection) : DB * write_result :=
  match Encrypt enc random (gh_AccessToken g) with
  | Err e => (db, EncryptFailed e)
  | Ok encToken =>
    if fault then (db, WriteError)
    else
      let synced :=
        match github_connections db !! gh_ProjectID g with
        | Some old => gh_LastSyncedAt old
        | None => None
        end in
      (mkDB (llm_config db)
            (<[gh_ProjectID g :=
                 mkGitHubConnection (gh_ProjectID g) (gh_RepoOwner g) (gh_RepoName g)
                   encToken (gh_DefaultBranch g) synced]> (github_connections db))
            (oauth_state db), Done)
  end.

(** [SQLite.SetOAuthState]: a plain [INSERT]; the primary key rejects
    a state that is already there.  [now] is [CURRENT_TIMESTAMP], in
    seconds. *)
Definition SetOAuthState (db : DB) (fault : bool) (now : Z) (state projectID : string)
    : DB * write_result :=
  if fault then (db, WriteError)
  else match oauth_state db !! state with
  | Some _ => (db, WriteError)
  | None =>
    (mkDB (llm_config db) (github_connections db)
          (<[state := (projectID, now)]> (oauth_state db)), Done)
  end.

(** [SQLite.ValidateOAuthState]: the row must be younger than ten
    minutes ([created_at > datetime('now', '-10 minutes')], both sides
    in whole seconds); the error of the [DELETE] is dropped.  The
    result is the project, or [None] for the error. *)
Definition ValidateOAuthState (db : DB) (fault_select fault_delete : bool) (now : Z)
    (state : string) : DB * option string :=
  if fault_select then (db, None)
  else match oauth_state db !! state with
  | None => (db, None)
  | Some (projectID, created_at) =>
    if now - 600 <? created_at
    then
      ((if fault_delete then db
        else mkDB (llm_config db) (github_connections db)
               (delete state (oauth_state db))),
       Some projectID)
    else (db, None)
  end.

End MetaStore.

(** ** Vocabulary for runs of the naming engine *)

Module NamingRuns.
Import Storage Meta AI.

(** An event with another name. *)
Definition with_name (e : Event) (name : option string) : Event :=
  mkEvent (ev_ProjectID e) (ev_SessionID e) (ev_DistinctID e) (ev_EventType e)
    (ev_Fingerprint e) name (ev_ElementTag e) (ev_ElementID e) (ev_ElementClasses e)
    (ev_ElementText e) (ev_AriaLabel e) (ev_DataAttributes e) (ev_ParentPath e)
    (ev_URL e) (ev_URLPath e) (ev_PageTitle e) (ev_Referrer e) (ev_ScreenWidth e)
    (ev_ScreenHeight e) (ev_UserAgent e) (ev_Timestamp e) (ev_Properties e).

End NamingRuns.

(** ** The naming workers, one access at a time

    [NewNamer] starts several workers (two unless told otherwise), and
    handlers submit jobs while they run.  Here the body of the worker
    loop is taken apart at the points where it touches what the
    goroutines share: the job channel, the two tables and the provider
    and matcher fields. *)

Module Workers.
Import Storage Meta AI.

(** Where a worker is in [Namer.worker]. *)
Inductive phase : Type :=
| Waiting
    (* at [for job := range n.jobs] *)
| Received (job : NamingJob)
    (* before [n.cache.Get] *)
| Missed (job : NamingJob)
    (* the key was not cached; before the read of [n.provider] and [n.matcher] *)
| Calling (job : NamingJob) (prov : Provider) (m : option SourceMatcher)
    (* before [MatchAndFetch] and [GenerateEventName] *)
| Named (job : NamingJob) (result : NamingResult)
    (* before [n.cache.Set] *)
| Stored (job : NamingJob) (result : NamingResult)
    (* before [n.events.BackfillEventName] *)
| Stopped.
    (* the channel is closed and drained *)

(** [req := job.Request] with the source code and file of the matcher,
    when there is a matcher and it finds them. *)
Definition enrich (m : option SourceMatcher) (job : NamingJob) : NamingRequest :=
  let req := job_Request job in
  match m with
  | Some m =>
    match MatchAndFetch m (job_ProjectID job) (nr_ElementID req)
            (nr_ElementClasses req) (nr_ParentPath req) with
    | Some (code, file) =>
      mkNamingRequest (nr_ElementTag req) (nr_ElementID req) (nr_ElementClasses req)
        (nr_ElementText req) (nr_AriaLabel req) (nr_ParentPath req) (nr_URL req)
        (nr_URLPath req) (nr_PageTitle req) code file
    | None => req
    end
  | None => req
  end.

Definition set_names (n : Namer) (t : event_names) : Namer :=
  mkNamer (provider n) (matcher n) t (events n) (jobs n) (closed n) (calls n).

Definition set_events (n : Namer) (evs : list Event) : Namer :=
  mkNamer (provider n) (matcher n) (names n) evs (jobs n) (closed n) (calls n).

Definition set_closed (n : Namer) : Namer :=
  mkNamer (provider n) (matcher n) (names n) (events n) (jobs n) true (calls n).

Definition record_call (n : Namer) (job : NamingJob) (req : NamingRequest) : Namer :=
  mkNamer (provider n) (matcher n) (names n) (events n) (jobs n) (closed n)
    (calls n ++ [(job, req)]).

(** The next access of a worker in phase [ph].  A worker that waits at
    an open, empty channel stays where it is. *)
Definition advance (n : Namer) (ph : phase) (fl : worker_faults) (now : Time)
    : Namer * phase :=
  match ph with
  | Waiting =>
    match jobs n with
    | [] => (n, if closed n then Stopped else Waiting)
    | job :: rest => (set_jobs n rest, Received job)
    end
  | Received job =>
    if snd (Cache_Get (names n) (f_get fl) (job_ProjectID job) (job_Fingerprint job))
    then (n, Waiting)
    else (n, Missed job)
  | Missed job =>
    match provider n with
    | None => (n, Waiting)
    | Some prov => (n, Calling job prov (matcher n))
    end
  | Calling job prov m =>
    let req := enrich m job in
    match GenerateEventName prov req with
    | None => (record_call n job req, Waiting)
    | Some result => (record_call n job req, Named job result)
    end
  | Named job result =>
    let '(names', ok) :=
      Cache_Set (names n) (f_set fl) now (job_ProjectID job) (job_Fingerprint job) result in
    (set_names n names', if ok then Stored job result else Waiting)
  | Stored job result =>
    (if f_backfill fl then n
     else set_events n (BackfillEventName (events n) (job_ProjectID job)
                          (job_Fingerprint job) (res_Name result)),
     Waiting)
  | Stopped => (n, Stopped)
  end.

(** The engine with its workers. *)
Record pool := mkPool {
  engine : Namer;
  workers : list phase
}.

(** What the goroutines do to what they share.  [Submit] and
    [Backfill] only read before they send, so of them the send is all
    that shows: [Send] is a send of any job at any time, dropped when
    the buffer is full.  ([Send] on a closed channel panics in the
    sender; the engine stays as it is.) *)
Inductive move : Type :=
| Advance (i : nat) (fl : worker_faults) (now : Time)
| Send (job : NamingJob)
| Close
| Provide (p : option Provider)
| Match (m : option SourceMatcher)
| Override (fault : bool) (projectID fingerprint userName : string)
| Insert (evs : list Event).

Definition pool_step (c : pool) (mv : move) : pool :=
  match mv with
  | Advance i fl now =>
    match workers c !! i with
    | Some ph =>
      let '(n, ph') := advance (engine c) ph fl now in
      mkPool n (<[i := ph']> (workers c))
    | None => c
    end
  | Send job =>
    let n := engine c in
    if closed n then c
    else if (length (jobs n) <? jobsCapacity)%nat
    then mkPool (set_jobs n (jobs n ++ [job])) (workers c)
    else c
  | Close => mkPool (set_closed (engine c)) (workers c)
  | Provide p => mkPool (SetProvider (engine c) p) (workers c)
  | Match m => mkPool (SetMatcher (engine c) m) (workers c)
  | Override fault p f u =>
    mkPool (set_names (engine c) (fst (OverrideEventName (names (engine c)) fault p f u)))
      (workers c)
  | Insert evs => mkPool (set_events (engine c) (events (engine c) ++ evs)) (workers c)
  end.

Definition pool_run (c : pool) (moves : list move) : pool :=
  fold_left pool_step moves c.

(** A worker left alone until it is back at the channel. *)
Fixpoint finish (fuel : nat) (n : Namer) (ph : phase) (fl : worker_faults) (now : Time)
    : Namer :=
  match ph, fuel with
  | Waiting, _ | Stopped, _ | _, O => n
  | _, S fuel' =>
    let '(n', ph') := advance n ph fl now in finish fuel' n' ph' fl now
  end.

(** [NewNamer]: [workers] workers, two when the number is not
    positive, all waiting. *)
Definition NewNamer (n : Namer) (count : Z) : pool :=
  mkPool n (replicate (Z.to_nat (if count <=? 0 then 2 else count)) Waiting).

(** *** Vocabulary *)

(** A worker that has found the key of [(projectID, fingerprint)]
    missing from the cache and has not yet called the provider for
    it. *)
Definition committed (projectID fingerprint : string) (ph : phase) : bool :=
  match ph with
  | Missed job | Calling job _ _ =>
    bool_decide (job_ProjectID job = projectID /\ job_Fingerprint job = fingerprint)
  | _ => false
  end.

Definition weight (projectID fingerprint : string) (ph : phase) : nat :=
  if committed projectID fingerprint ph then 1 else 0.

(** The number of such workers. *)
Definition past_check (projectID fingerprint : string) (ws : list phase) : nat :=
  length (filter (fun ph => committed projectID fingerprint ph = true) ws).

(** A move by which no worker fails to read the cache. *)
Definition reads_cache (mv : move) : Prop :=
  match mv with
  | Advance _ fl _ => f_get fl = false
  | _ => True
  end.

(** The provider calls made for the jobs of one key. *)
Definition calls_for (projectID fingerprint : string) (n : Namer)
    : list (NamingJob * NamingRequest) :=
  filter (fun c : NamingJob * NamingRequest =>
            job_ProjectID c.1 = projectID /\ job_Fingerprint c.1 = fingerprint)
         (calls n).

End Workers.

(** ** Vocabulary for runs of the alert checker *)

Module AlertRuns.
Import Storage Alerts.

(** The alert with a new trigger time. *)
Definition triggered (a : Alert) (t : Time) : Alert :=
  mkAlert (al_ID a) (al_ProjectID a) (al_Name a) (al_Metric a) (al_EventName a)
    (al_Threshold a) (al_WindowMinutes a) (al_WebhookURL a) (al_Enabled a) (Some t)
    (al_CreatedAt a).


(** What is true of a row whose trigger time a run of the checker has
    set under the environment [env]. *)
Definition fired_under (evs : list Event) (env : Env) (a : Alert) : Prop :=
  al_Enabled a = true
  /\ count_fault env = false
  /\ al_Threshold a < count_of evs env a
  /\ (window_fits a -> clock_ordered env ->
      match al_LastTriggeredAt a with
      | Some last => al_WindowMinutes a * Minute <= now_update env - last
      | None => True
      end).

(** The state of a row after the checks of the alerts [l]. *)
Definition row_after (evs : list Event) (envs : nat -> Env) (l : list Alert)
    (a a' : Alert) : Prop :=
  a' = a
  \/ (a ∈ l /\ exists j, a' = triggered a (now_update (envs j)) /\ fired_under evs (envs j) a).

End AlertRuns.

(** ** Vocabulary for the answers of the ingestion handler *)

Module HandlerWords.
Import GoString Storage Ingest IngestHandler.

Section WithInterfaces.
Context `{CaseTables} `{UrlParser}.

(** The row the handler builds for a validated event. *)
Definition row_of (project : Project) (payload : IngestPayload) (userAgent : string)
    (e : IngestEvent) (ev : Event) : Prop :=
  ev_ProjectID ev = pr_ID project
  /\ ev_SessionID ev = SessionID payload
  /\ ev_DistinctID ev = DistinctID payload
  /\ ev_EventType ev = EventType e
  /\ ev_EventName ev = None
  /\ ev_UserAgent ev = userAgent
  /\ ev_URLPath ev = URLPath e
  /\ ev_Fingerprint ev
     = fingerprint_spec (ElementTag e) (ElementID e) (ElementClasses e) (ParentPath e)
         (URLPath e)
  /\ (Timestamp e <> 0 -> ev_Timestamp ev = UnixMilli (Timestamp e)).

(** The jobs the submission loop may queue. *)
Definition job_of (project : Project) (es : list (IngestEvent * Event))
    (job : AI.NamingJob) : Prop :=
  exists e ev, (e, ev) ∈ es /\ EventType e <> "pageview"%string
    /\ job = naming_job project e ev.

(** What validation leaves alone in an event. *)
Definition same_but_texts (e e' : IngestEvent) : Prop :=
  EventType e' = EventType e /\ ElementTag e' = ElementTag e
  /\ ElementID e' = ElementID e /\ ElementClasses e' = ElementClasses e
  /\ DataAttributes e' = DataAttributes e /\ URL e' = URL e
  /\ Referrer e' = Referrer e /\ ScreenWidth e' = ScreenWidth e
  /\ ScreenHeight e' = ScreenHeight e /\ Timestamp e' = Timestamp e
  /\ Properties e' = Properties e
  /\ (URLPath e <> ""%string -> URLPath e' = URLPath e).

End WithInterfaces.

End HandlerWords.

(** ** Package [storage]: [QueryTrends] *)

Module Trends.
Import Storage Queries.

#[export] Instance str_le_dec : RelDecision str_le.
Proof. intros a b. unfold str_le. apply _. Defined.

Section Trend.
Context `{DateTrunc}.

(** The buckets of the rows that pass the [WHERE] clause. *)
Definition trend_keys (evs : list Event) (projectID interval : string)
    (start end_ : Time) : list string :=
  omap (fun e =>
          if decide (ev_ProjectID e = projectID
                     /\ to_micro start <= ev_Timestamp e <= to_micro end_)
          then Some (bucket_label interval (ev_Timestamp e))
          else None) evs.

(** [DuckDB.QueryTrends]: [GROUP BY bucket ORDER BY bucket] with
    [COUNT( * )]. *)
Definition QueryTrends (evs : list Event) (fault : bool) (projectID interval : string)
    (start end_ : Time) : query_result (list TrendPoint) :=
  if fault then QueryError
  else
    let keys := trend_keys evs projectID (normal_interval interval) start end_ in
    Rows (map (fun b => mkTrendPoint b (Z.of_nat (length (filter (fun b' => b' = b) keys))))
              (merge_sort str_le (remove_dups keys))).

End Trend.

(** *** Vocabulary *)

(** The counts of a list of points, added up. *)
Definition sum_counts (points : list TrendPoint) : Z :=
  fold_right (fun p acc => tp_Count p + acc) 0 points.

(** An event of the project in the range of the query. *)
Definition in_range (projectID : string) (start end_ : Time) (e : Event) : Prop :=
  ev_ProjectID e = projectID /\ to_micro start <= ev_Timestamp e <= to_micro end_.

End Trends.

(** ** Packages [storage] and [auth]: projects and API keys *)

Module Auth.
Import GoString Storage Meta Keys IngestHandler.

(** Table [projects]: [id] is the primary key and [api_key] is
    [UNIQUE]. *)
Abbreviation projects := (list Project).

(** [SQLite.CreateProject]: the insert fails when the id or the key is
    taken.  The result is the table and the project, [None] for an
    error. *)
Definition CreateProject (table : projects) (fault : bool) (random : option (list Z))
    (id name : string) : projects * option Project :=
  match generateAPIKey random with
  | None => (table, None)
  | Some apiKey =>
    if fault
       || bool_decide (id ∈ map pr_ID table)
       || bool_decide (apiKey ∈ map pr_APIKey table)
    then (table, None)
    else (table ++ [mkProject id name apiKey], Some (mkProject id name apiKey))
  end.

(** [SQLite.GetProjectByAPIKey] *)
Definition GetProjectByAPIKey (table : projects) (fault : bool) (apiKey : string)
    : row_result Project :=
  if fault then DbError
  else match filter (fun p => pr_APIKey p = apiKey) table with
       | p :: _ => Row p
       | [] => ErrNoRows
       end.

Inductive auth_result : Type :=
| Authorized (p : Project)
| ErrUnauthorized
| AuthError.

(** [auth.ValidateAPIKey] *)
Definition ValidateAPIKey (table : projects) (fault : bool) (apiKey : string)
    : auth_result :=
  if decide (apiKey = ""%string) then ErrUnauthorized
  else match GetProjectByAPIKey table fault apiKey with
       | ErrNoRows => ErrUnauthorized
       | DbError => AuthError
       | Row p => Authorized p
       end.

(** [auth.APIKeyMiddleware] around a handler [next]: [apiKey] is the
    header [X-API-Key] of the request, and [next] is given the request
    with the project in its context. *)
Definition APIKeyMiddleware {S : Type} (table : projects) (fault : bool)
    (next : S -> Request -> option (S * Response)) (s : S) (apiKey : string)
    (r : Request) : option (S * Response) :=
  match ValidateAPIKey table fault apiKey with
  | Authorized project =>
    next s (mkRequest (req_Method r) (Some project) (req_Body r) (req_UserAgent r))
  | ErrUnauthorized | AuthError =>
    Some (s, mkResponse 401 (error_body "unauthorized") 0)
  end.

End Auth.

(** ** Vocabulary for the funnel *)

Module FunnelWords.
Import Storage Queries.

(** Session [s] has done the steps in order: it has one event for each
    step, matching the step's filter, each strictly later than the one
    before; [t] is the time of the last. *)
Inductive reaches (evs : list Event) (projectID : string) (start end_ : Time)
    (s : string) : list FunnelStep -> Time -> Prop :=
| reach_first (st : FunnelStep) (e : Event) :
    e ∈ evs -> ev_SessionID e = s -> step_filter projectID st start end_ e ->
    reaches evs projectID start end_ s [st] (ev_Timestamp e)
| reach_next (steps : list FunnelStep) (st : FunnelStep) (t : Time) (e : Event) :
    reaches evs projectID start end_ s steps t ->
    e ∈ evs -> ev_SessionID e = s -> step_filter projectID st start end_ e ->
    t < ev_Timestamp e ->
    reaches evs projectID start end_ s (steps ++ [st]) (ev_Timestamp e).

End FunnelWords.

(** ** Values for the worked examples of the second part *)

Module Fixtures.
Import GoString.

#[export] Instance is_byte_dec (z : Z) : Decision (is_byte z).
Proof. unfold is_byte. apply _. Defined.

(** Thirty-two bytes. *)
Definition sample_key : list Z := map Z.of_nat (seq 100 32).

(** A flag at ten per cent. *)
Definition beta : Flags.FeatureFlag := Flags.mkFlag "f1" "p1" "beta" "Beta" true 10.

(** An empty settings database, a twelve-byte nonce, and settings to
    store. *)
Definition no_settings : MetaStore.DB := MetaStore.mkDB ∅ ∅ ∅.

Definition sample_nonce : list Z := repeat 7 12.

Definition openai_config : MetaStore.LLMConfig :=
  MetaStore.mkLLMConfig "p1" "openai" (Some "sk-secret") "gpt-4o-mini" None.

Definition repo_connection : MetaStore.GitHubConnection :=
  MetaStore.mkGitHubConnection "p1" "acme" "shop" "ghp_token" "main" None.

(** A provider that names every element alike, an engine that uses it,
    with an empty cache and one queued job, and a run of it. *)
Definition namer_of_all : AI.Provider :=
  AI.mkProvider (fun _ => Some (AI.mkNamingResult "Clicked" (SpecFloat.S754_zero false) "")).

Definition fresh : AI.Namer :=
  AI.mkNamer (Some namer_of_all) None ∅ [] [Examples.place_order_job] false [].

Definition no_faults : AI.worker_faults := AI.mkFaults false false false.

Definition naming_run : list AI.action :=
  [ AI.AWork no_faults 5; AI.ASubmit false Examples.place_order_job;
    AI.ASubmit true Examples.place_order_job; AI.AWork no_faults 6;
    AI.AWork no_faults 7 ].

(** A request with a click and a pageview, and an engine that names
    with [namer_of_all] and has nothing queued. *)
Definition two_events : IngestHandler.Request :=
  IngestHandler.mkRequest "POST" (Some Examples.demo)
    (Some (Ingest.mkIngestPayload
             [Examples.click "https://e.com/x" "";
              Ingest.mkIngestEvent "pageview" "" "" "" "" "" ∅ "" "https://e.com/y" "" ""
                "" 0 0 1700000000000 ∅] "s1" "u1")) "agent".

Definition ready : AI.Namer :=
  AI.mkNamer (Some namer_of_all) None ∅ [] [] false [].

(** An engine whose provider always fails, with nothing cached. *)
Definition unnamed : AI.Namer :=
  AI.mkNamer (Some Examples.silent) None ∅ [] [] false [].

(** The faults of an iteration whose write to the name cache fails. *)
Definition set_fails : AI.worker_faults := AI.mkFaults false true false.

(** Two workers and two jobs of one key: each worker receives a job and
    finds the key missing; then the first one calls the provider and
    stores the name. *)
Definition twice : AI.Namer :=
  AI.mkNamer (Some namer_of_all) None ∅ []
    [Examples.place_order_job; Examples.place_order_job] false [].

Definition early_moves : list Workers.move :=
  [ Workers.Advance 0 no_faults 1; Workers.Advance 1 no_faults 1;
    Workers.Advance 0 no_faults 2; Workers.Advance 1 no_faults 2;
    Workers.Advance 0 no_faults 3; Workers.Advance 0 no_faults 4;
    Workers.Advance 0 no_faults 5 ].

Definition raced : Workers.pool :=
  Workers.pool_run (Workers.NewNamer twice 0) early_moves.

(** The second worker goes on; a third job of the key is sent and
    received. *)
Definition late_moves : list Workers.move :=
  [ Workers.Advance 1 no_faults 6; Workers.Advance 1 no_faults 7;
    Workers.Send Examples.place_order_job; Workers.Advance 0 no_faults 8;
    Workers.Advance 0 no_faults 9; Workers.Advance 0 no_faults 10;
    Workers.Advance 1 no_faults 11; Workers.Advance 1 no_faults 12 ].

End Fixtures.

(* ===================================================================== *)
(** * Part II: properties                                                  *)
(* ===================================================================== *)

(** ** Go strings: bytes *)

Module GoStringFacts.
Import GoString.

Lemma byte_val_range (a : ascii) : 0 <= byte_val a < 256.
Proof.
  unfold byte_val. pose proof (N_ascii_bounded a). lia.
Qed.

Lemma byte_of_val (a : ascii) : byte_of (byte_val a) = a.
Proof.
  unfold byte_of. pose proof (byte_val_range a) as Hr.
  rewrite Z.mod_small by lia. unfold byte_val.
  rewrite N2Z.id. apply ascii_N_embedding.
Qed.

Lemma byte_val_of (z : Z) : 0 <= z < 256 -> byte_val (byte_of z) = z.
Proof.
  intros Hz. unfold byte_of, byte_val.
  rewrite Z.mod_small by lia.
  rewrite N_ascii_embedding by lia. lia.
Qed.

Lemma bytes_range (s : string) : Forall is_byte (bytes s).
Proof.
  unfold bytes. induction (list_ascii_of_string s) as [|a l IH]; simpl.
  - constructor.
  - constructor; [apply byte_val_range | exact IH].
Qed.

Lemma from_bytes_bytes (s : string) : from_bytes (bytes s) = s.
Proof.
  unfold from_bytes, bytes. rewrite map_map.
  erewrite map_ext; [rewrite map_id; apply string_of_list_ascii_of_string|].
  apply byte_of_val.
Qed.

Lemma bytes_from_bytes (l : list Z) : Forall is_byte l -> bytes (from_bytes l) = l.
Proof.
  intros Hl. unfold from_bytes, bytes.
  rewrite list_ascii_of_string_of_list_ascii, map_map.
  induction Hl as [|z l Hz _ IH]; simpl; [done|].
  by rewrite byte_val_of, IH.
Qed.

Lemma list_ascii_of_string_app (s1 s2 : string) :
  list_ascii_of_string (s1 +:+ s2) = list_ascii_of_string s1 ++ list_ascii_of_string s2.
Proof. induction s1 as [|a s1 IH]; simpl; [done|]. by rewrite IH. Qed.

Lemma bytes_app (s1 s2 : string) : bytes (s1 +:+ s2) = bytes s1 ++ bytes s2.
Proof. unfold bytes. by rewrite list_ascii_of_string_app, map_app. Qed.

Lemma bytes_inj (s1 s2 : string) : bytes s1 = bytes s2 -> s1 = s2.
Proof.
  intros Heq. rewrite <- (from_bytes_bytes s1), <- (from_bytes_bytes s2).
  by rewrite Heq.
Qed.

Lemma bytes_length (s : string) : length (bytes s) = String.length s.
Proof.
  unfold bytes. rewrite length_map.
  induction s as [|a s IH]; simpl; [done|]. by rewrite IH.
Qed.

End GoStringFacts.

(** ** Go strings: UTF-8 *)

Module Utf8Facts.
Import GoString GoStringFacts.

(** *** Bit operations as arithmetic *)

Lemma land_low (x k : Z) : 0 <= k -> Z.land x (2 ^ k - 1) = x mod 2 ^ k.
Proof.
  intros Hk. replace (2 ^ k - 1) with (Z.ones k).
  - by apply Z.land_ones.
  - rewrite Z.ones_equiv. lia.
Qed.

Lemma lor_add (k hi lo : Z) :
  0 <= k -> hi mod 2 ^ k = 0 -> 0 <= lo < 2 ^ k -> Z.lor hi lo = hi + lo.
Proof.
  intros Hk Hhi Hlo. symmetry. apply Z.add_nocarry_lor.
  apply Z.bits_inj'. intros n Hn.
  rewrite Z.land_spec, Z.bits_0.
  apply Z.mod_divide in Hhi; [|lia]. destruct Hhi as [q ->].
  destruct (Z.lt_ge_cases n k) as [Hlt|Hge].
  - by rewrite Z.mul_pow2_bits_low.
  - rewrite <- (Z.mod_small lo (2 ^ k)) by lia.
    rewrite Z.mod_pow2_bits_high by lia. apply andb_false_r.
Qed.

Lemma land_3F (x : Z) : Z.land x maskx = x mod 64.
Proof. apply (land_low x 6). lia. Qed.
Lemma land_1F (x : Z) : Z.land x mask2 = x mod 32.
Proof. apply (land_low x 5). lia. Qed.
Lemma land_0F (x : Z) : Z.land x mask3 = x mod 16.
Proof. apply (land_low x 4). lia. Qed.
Lemma land_07 (x : Z) : Z.land x mask4 = x mod 8.
Proof. apply (land_low x 3). lia. Qed.

Lemma shiftl_6 (x : Z) : Z.shiftl x 6 = x * 64.
Proof. by rewrite Z.shiftl_mul_pow2. Qed.
Lemma shiftl_12 (x : Z) : Z.shiftl x 12 = x * 4096.
Proof. by rewrite Z.shiftl_mul_pow2. Qed.
Lemma shiftl_18 (x : Z) : Z.shiftl x 18 = x * 262144.
Proof. by rewrite Z.shiftl_mul_pow2. Qed.
Lemma shiftr_6 (x : Z) : Z.shiftr x 6 = x / 64.
Proof. by rewrite Z.shiftr_div_pow2. Qed.
Lemma shiftr_12 (x : Z) : Z.shiftr x 12 = x / 4096.
Proof. by rewrite Z.shiftr_div_pow2. Qed.
Lemma shiftr_18 (x : Z) : Z.shiftr x 18 = x / 262144.
Proof. by rewrite Z.shiftr_div_pow2. Qed.

Ltac arith_bits :=
  rewrite ?land_3F, ?land_1F, ?land_0F, ?land_07,
          ?shiftl_6, ?shiftl_12, ?shiftl_18, ?shiftr_6, ?shiftr_12, ?shiftr_18.

Ltac zsolve := Z.div_mod_to_equations; lia.

(** *** [EncodeRune] in arithmetic form *)

Lemma EncodeRune_1 (r : Z) : 0 <= r <= 0x7F -> EncodeRune r = [r].
Proof.
  intros Hr. unfold EncodeRune, rune1Max.
  destruct (Z.leb_spec 0 r), (Z.leb_spec r 127); simpl; try lia. done.
Qed.

Lemma EncodeRune_2 (r : Z) :
  0x80 <= r <= 0x7FF -> EncodeRune r = [0xC0 + r / 64; 0x80 + r mod 64].
Proof.
  intros Hr. unfold EncodeRune, rune1Max, rune2Max, t2, tx.
  destruct (Z.leb_spec 0 r), (Z.leb_spec r 127), (Z.leb_spec r 2047);
    simpl; try lia.
  arith_bits.
  rewrite (lor_add 6 192), (lor_add 6 128) by zsolve. done.
Qed.

Lemma three_bytes (r : Z) :
  0x800 <= r <= 0xFFFF ->
  [Z.lor t3 (Z.shiftr r 12); Z.lor tx (Z.land (Z.shiftr r 6) maskx);
   Z.lor tx (Z.land r maskx)]
  = [0xE0 + r / 4096; 0x80 + (r / 64) mod 64; 0x80 + r mod 64].
Proof.
  intros Hr. unfold t3, tx. arith_bits.
  rewrite (lor_add 4 224), !(lor_add 6 128) by zsolve. done.
Qed.

Lemma EncodeRune_3 (r : Z) :
  0x800 <= r <= 0xFFFF -> ~ (surrogateMin <= r <= surrogateMax) ->
  EncodeRune r = [0xE0 + r / 4096; 0x80 + (r / 64) mod 64; 0x80 + r mod 64].
Proof.
  intros Hr Hs. unfold EncodeRune, rune1Max, rune2Max, rune3Max, MaxRune.
  unfold surrogateMin, surrogateMax in *.
  destruct (Z.leb_spec 0 r), (Z.leb_spec r 127), (Z.leb_spec r 2047),
    (Z.ltb_spec r 0), (Z.ltb_spec 1114111 r), (Z.leb_spec 55296 r),
    (Z.leb_spec r 57343), (Z.leb_spec r 65535); simpl; try lia;
    by apply three_bytes.
Qed.

Lemma EncodeRune_4 (r : Z) :
  0x10000 <= r <= MaxRune ->
  EncodeRune r = [0xF0 + r / 262144; 0x80 + (r / 4096) mod 64;
                  0x80 + (r / 64) mod 64; 0x80 + r mod 64].
Proof.
  unfold MaxRune. intros Hr.
  unfold EncodeRune, rune1Max, rune2Max, rune3Max, MaxRune, surrogateMin, surrogateMax.
  destruct (Z.leb_spec 0 r), (Z.leb_spec r 127), (Z.leb_spec r 2047),
    (Z.ltb_spec r 0), (Z.ltb_spec 1114111 r), (Z.leb_spec 55296 r),
    (Z.leb_spec r 57343), (Z.leb_spec r 65535); simpl; try lia.
  unfold t4, tx. arith_bits.
  rewrite (lor_add 3 240), !(lor_add 6 128) by zsolve. done.
Qed.

Lemma EncodeRune_invalid (r : Z) :
  ~ is_scalar r -> EncodeRune r = EncodeRune RuneError.
Proof.
  intros Hr. unfold is_scalar, MaxRune, surrogateMin, surrogateMax in Hr.
  rewrite (EncodeRune_3 RuneError) by (unfold RuneError, surrogateMin, surrogateMax; lia).
  unfold EncodeRune, rune1Max, rune2Max, rune3Max, MaxRune, surrogateMin, surrogateMax.
  destruct (Z.leb_spec 0 r), (Z.leb_spec r 127), (Z.leb_spec r 2047),
    (Z.ltb_spec r 0), (Z.ltb_spec 1114111 r), (Z.leb_spec 55296 r),
    (Z.leb_spec r 57343), (Z.leb_spec r 65535); simpl; try lia;
    by rewrite three_bytes by (unfold RuneError; lia).
Qed.


(** *** [DecodeRune] in arithmetic form *)

Ltac case_cmp :=
  repeat (match goal with
          | |- context [Z.ltb ?a ?b] => destruct (Z.ltb_spec a b)
          | |- context [Z.leb ?a ?b] => destruct (Z.leb_spec a b)
          | |- context [Z.eqb ?a ?b] => destruct (Z.eqb_spec a b)
          end; try lia);
  simpl; try lia.

Lemma DecodeRune_ascii (b : Z) (rest : list Z) :
  b < 0x80 -> DecodeRune (b :: rest) = (b, 1%nat).
Proof.
  intros Hb. unfold DecodeRune, first. case_cmp. done.
Qed.

Lemma DecodeRune_2 (b0 b1 : Z) (rest : list Z) :
  0xC2 <= b0 <= 0xDF -> 0x80 <= b1 <= 0xBF ->
  DecodeRune (b0 :: b1 :: rest) = ((b0 - 0xC0) * 64 + (b1 - 0x80), 2%nat).
Proof.
  intros H0 H1. unfold DecodeRune, first, locb, hicb. case_cmp.
  arith_bits. rewrite (lor_add 6) by zsolve. f_equal. zsolve.
Qed.


Lemma DecodeRune_3 (b0 b1 b2 : Z) (rest : list Z) :
  0xE0 <= b0 <= 0xEF -> second3 b0 b1 -> 0x80 <= b2 <= 0xBF ->
  DecodeRune (b0 :: b1 :: b2 :: rest)
  = ((b0 - 0xE0) * 4096 + (b1 - 0x80) * 64 + (b2 - 0x80), 3%nat).
Proof.
  intros H0 H1 H2. unfold second3 in H1. revert H1.
  unfold DecodeRune, first, is_cont, locb, hicb.
  case_cmp; intros Hsec; try lia; arith_bits;
    rewrite (lor_add 12 (_ * 4096)), (lor_add 6 (_ + _)) by zsolve; f_equal; zsolve.
Qed.


Lemma DecodeRune_4 (b0 b1 b2 b3 : Z) (rest : list Z) :
  0xF0 <= b0 <= 0xF4 -> second4 b0 b1 -> 0x80 <= b2 <= 0xBF -> 0x80 <= b3 <= 0xBF ->
  DecodeRune (b0 :: b1 :: b2 :: b3 :: rest)
  = ((b0 - 0xF0) * 262144 + (b1 - 0x80) * 4096 + (b2 - 0x80) * 64 + (b3 - 0x80), 4%nat).
Proof.
  intros H0 H1 H2 H3. unfold second4 in H1. revert H1.
  unfold DecodeRune, first, is_cont, locb, hicb.
  case_cmp; intros Hsec; try lia; arith_bits;
    rewrite (lor_add 18 (_ * 262144)), (lor_add 12 (_ + _ * 4096)),
      (lor_add 6 (_ + _)) by zsolve; f_equal; zsolve.
Qed.

(** *** Decoding an encoded scalar *)

Lemma DecodeRune_EncodeRune (r : Z) (rest : list Z) :
  is_scalar r ->
  DecodeRune (EncodeRune r ++ rest) = (r, length (EncodeRune r)).
Proof.
  intros [Hr Hs]. unfold MaxRune, surrogateMin, surrogateMax in *.
  destruct (Z.le_gt_cases r 0x7F) as [H1|H1].
  { rewrite EncodeRune_1 by lia. cbn [app length]. apply DecodeRune_ascii. lia. }
  destruct (Z.le_gt_cases r 0x7FF) as [H2|H2].
  { rewrite EncodeRune_2 by lia. cbn [app length].
    rewrite DecodeRune_2 by zsolve. f_equal. zsolve. }
  destruct (Z.le_gt_cases r 0xFFFF) as [H3|H3].
  { rewrite EncodeRune_3 by (unfold surrogateMin, surrogateMax; lia). cbn [app length].
    rewrite DecodeRune_3; [f_equal; zsolve| zsolve | | zsolve].
    unfold second3.
    destruct (Z.eqb_spec (224 + r / 4096) 224), (Z.eqb_spec (224 + r / 4096) 237);
      zsolve. }
  rewrite EncodeRune_4 by (unfold MaxRune; lia). cbn [app length].
  rewrite DecodeRune_4; [f_equal; zsolve| zsolve | | zsolve | zsolve].
  unfold second4.
  destruct (Z.eqb_spec (240 + r / 262144) 240), (Z.eqb_spec (240 + r / 262144) 244);
    zsolve.
Qed.

Lemma EncodeRune_length (r : Z) : (1 <= length (EncodeRune r) <= 4)%nat.
Proof.
  unfold EncodeRune. case_cmp; lia.
Qed.

Lemma EncodeRune_is_byte (r : Z) : Forall is_byte (EncodeRune r).
Proof.
  assert (Hsc : forall r, is_scalar r -> Forall is_byte (EncodeRune r)).
  { clear r. intros r [Hr Hs]. unfold MaxRune, surrogateMin, surrogateMax in *.
    unfold is_byte.
    destruct (Z.le_gt_cases r 0x7F) as [H1|H1].
    { rewrite EncodeRune_1 by lia. repeat constructor; lia. }
    destruct (Z.le_gt_cases r 0x7FF) as [H2|H2].
    { rewrite EncodeRune_2 by lia. repeat constructor; zsolve. }
    destruct (Z.le_gt_cases r 0xFFFF) as [H3|H3].
    { rewrite EncodeRune_3 by (unfold surrogateMin, surrogateMax; lia).
      repeat constructor; zsolve. }
    rewrite EncodeRune_4 by (unfold MaxRune; lia). repeat constructor; zsolve. }
  destruct (Z.le_gt_cases 0 r) as [H0|H0];
    [destruct (Z.le_gt_cases r MaxRune) as [H1|H1];
     [destruct (Z.lt_ge_cases r surrogateMin) as [H2|H2];
      [|destruct (Z.le_gt_cases r surrogateMax) as [H3|H3]]|]|].
  all: try (apply Hsc; unfold is_scalar; lia).
  all: rewrite EncodeRune_invalid by (unfold is_scalar; lia);
    apply Hsc; unfold is_scalar, RuneError, MaxRune, surrogateMin, surrogateMax; lia.
Qed.

End Utf8Facts.

(** ** Go strings: the decoding loop *)

Module ChunkFacts.
Import GoString GoStringFacts Utf8Facts.

Ltac dr_cases :=
  unfold DecodeRune, first, is_cont, locb, hicb;
  repeat (match goal with
          | |- context [Z.ltb ?a ?b] => destruct (Z.ltb_spec a b)
          | |- context [Z.leb ?a ?b] => destruct (Z.leb_spec a b)
          | |- context [Z.eqb ?a ?b] => destruct (Z.eqb_spec a b)
          end; try lia; cbn -[Z.lor Z.land Z.shiftl]);
  cbn -[Z.lor Z.land Z.shiftl].

Lemma DecodeRune_width (p : list Z) :
  p <> [] -> (1 <= snd (DecodeRune p) <= length p)%nat.
Proof.
  intros Hp. destruct p as [|s0 [|s1 [|s2 [|s3 p]]]]; [done|..];
    dr_cases; lia.
Qed.

Lemma DecodeRune_width_4 (p : list Z) : (snd (DecodeRune p) <= 4)%nat.
Proof.
  destruct p as [|s0 [|s1 [|s2 [|s3 p]]]]; dr_cases; lia.
Qed.

Lemma chunks_fuel_irrel (n m : nat) (p : list Z) :
  (length p <= n)%nat -> (length p <= m)%nat -> chunks_fuel n p = chunks_fuel m p.
Proof.
  revert m p. induction n as [|n IH]; intros m p Hn Hm.
  - destruct p; [|simpl in Hn; lia]. by destruct m.
  - destruct m as [|m]; [destruct p; [done|simpl in Hm; lia]|].
    destruct p as [|b p]; [done|]. cbn [chunks_fuel].
    pose proof (DecodeRune_width (b :: p) ltac:(done)) as Hw.
    destruct (DecodeRune (b :: p)) as [r sz]. cbn [snd] in Hw.
    f_equal. apply IH; rewrite length_skipn; simpl in *; lia.
Qed.

Lemma chunks_nil : chunks [] = [].
Proof. done. Qed.

Lemma chunks_step (p : list Z) :
  p <> [] ->
  chunks p = (fst (DecodeRune p), firstn (snd (DecodeRune p)) p)
               :: chunks (skipn (snd (DecodeRune p)) p).
Proof.
  intros Hp. destruct p as [|b p]; [done|].
  unfold chunks at 1. cbn [length chunks_fuel].
  pose proof (DecodeRune_width (b :: p) ltac:(done)) as Hw.
  destruct (DecodeRune (b :: p)) as [r sz]. cbn [fst snd] in *.
  f_equal. apply chunks_fuel_irrel; rewrite ?length_skipn; simpl in *; lia.
Qed.

(** Induction along the decoding loop. *)
Lemma chunks_ind (P : list Z -> Prop) :
  P [] ->
  (forall p, p <> [] -> P (skipn (snd (DecodeRune p)) p) -> P p) ->
  forall p, P p.
Proof.
  intros Hnil Hstep p.
  remember (length p) as n eqn:Hn. revert p Hn.
  induction n as [n IH] using lt_wf_ind. intros p Hn.
  destruct p as [|b p]; [exact Hnil|].
  apply Hstep; [done|].
  pose proof (DecodeRune_width (b :: p) ltac:(done)) as Hw.
  eapply IH; [|reflexivity]. rewrite length_skipn. simpl in *. lia.
Qed.

(** The chunks partition the input. *)
Lemma chunks_concat (p : list Z) : concat (map snd (chunks p)) = p.
Proof.
  induction p as [|p Hp IH] using chunks_ind; [done|].
  rewrite chunks_step by done. cbn [map concat snd].
  rewrite IH. apply firstn_skipn.
Qed.

Lemma chunks_encode (r : Z) (rest : list Z) :
  is_scalar r -> chunks (EncodeRune r ++ rest) = (r, EncodeRune r) :: chunks rest.
Proof.
  intros Hr. pose proof (EncodeRune_length r) as Hl.
  rewrite chunks_step by (destruct (EncodeRune r); [simpl in Hl; lia|done]).
  rewrite DecodeRune_EncodeRune by done. cbn [fst snd].
  by rewrite take_app_length, drop_app_length.
Qed.

Lemma chunks_encode_list (rs : list Z) (rest : list Z) :
  Forall is_scalar rs ->
  chunks (concat (map EncodeRune rs) ++ rest)
  = map (fun r => (r, EncodeRune r)) rs ++ chunks rest.
Proof.
  induction 1 as [|r rs Hr _ IH]; [done|].
  cbn [map concat]. rewrite <- app_assoc, chunks_encode by done.
  by rewrite IH.
Qed.

Lemma concat_encode_is_byte (rs : list Z) :
  Forall is_byte (concat (map EncodeRune rs)).
Proof.
  induction rs as [|r rs IH]; [constructor|].
  cbn [map concat]. apply Forall_app. split; [apply EncodeRune_is_byte|exact IH].
Qed.

(** [[]rune(string(rs)) = rs] for scalar values. *)
Lemma runes_from_runes (rs : list Z) :
  Forall is_scalar rs -> runes (from_runes rs) = rs.
Proof.
  intros Hrs. unfold runes, from_runes.
  rewrite bytes_from_bytes by apply concat_encode_is_byte.
  rewrite <- (app_nil_r (concat _)), chunks_encode_list by done.
  rewrite chunks_nil, app_nil_r, map_map. cbn [fst]. apply map_id.
Qed.



Ltac d4_cases :=
  unfold decode4, first, is_cont, locb, hicb;
  repeat (match goal with
          | |- context [Z.ltb ?a ?b] => destruct (Z.ltb_spec a b)
          | |- context [Z.leb ?a ?b] => destruct (Z.leb_spec a b)
          | |- context [Z.eqb ?a ?b] => destruct (Z.eqb_spec a b)
          end; try lia; cbn -[Z.lor Z.land Z.shiftl]);
  cbn -[Z.lor Z.land Z.shiftl].

Lemma DecodeRune_decode4 (p : list Z) :
  p <> [] -> DecodeRune p = decode4 (look p 0) (look p 1) (look p 2) (look p 3).
Proof.
  intros Hp. unfold look.
  destruct p as [|s0 [|s1 [|s2 [|s3 p]]]]; [done|..]; cbn [nth];
    unfold DecodeRune; d4_cases; done.
Qed.

Lemma first_multi (a : Z) (sz : nat) (lo hi : Z) :
  first a = LMulti sz lo hi -> 0x80 <= lo /\ hi <= 0xBF /\ (2 <= sz <= 4)%nat.
Proof.
  unfold first, locb, hicb.
  repeat (match goal with
          | |- context [Z.ltb ?a ?b] => destruct (Z.ltb_spec a b)
          | |- context [Z.eqb ?a ?b] => destruct (Z.eqb_spec a b)
          end; try lia);
    intros [= <- <- <-] || done; lia.
Qed.

Ltac d4_multi :=
  unfold decode4;
  match goal with
  | |- context [first ?a] =>
    let E := fresh "E" in
    destruct (first a) as [| |sz lo hi] eqn:E; [done|done|];
    apply first_multi in E; unfold is_cont, locb, hicb in *
  end;
  repeat (match goal with
          | |- context [Z.ltb ?a ?b] => destruct (Z.ltb_spec a b)
          | |- context [Z.leb ?a ?b] => destruct (Z.leb_spec a b)
          | |- context [Nat.leb ?a ?b] => destruct (Nat.leb_spec a b)
          | H : context [Z.leb ?a ?b] |- _ => destruct (Z.leb_spec a b)
          end; try lia; cbn -[Z.lor Z.land Z.shiftl] in *);
  cbn -[Z.lor Z.land Z.shiftl] in *; try done; try lia.

Lemma decode4_skip1 (a b c d b' c' d' : Z) :
  is_cont b = false -> is_cont b' = false ->
  decode4 a b c d = decode4 a b' c' d'.
Proof. intros Hb Hb'. d4_multi. Qed.

Lemma decode4_skip2 (a b c d c' d' : Z) :
  is_cont c = false -> is_cont c' = false ->
  decode4 a b c d = decode4 a b c' d'.
Proof. intros Hc Hc'. d4_multi. Qed.

Lemma decode4_skip3 (a b c d d' : Z) :
  is_cont d = false -> is_cont d' = false ->
  decode4 a b c d = decode4 a b c d'.
Proof. intros Hd Hd'. d4_multi. Qed.

Lemma decode4_width1 (a b c d : Z) :
  (snd (decode4 a b c d) <= 1)%nat -> decode4 a b c d = decode4 a (-1) (-1) (-1).
Proof. d4_multi; intros; try done; lia. Qed.

Lemma decode4_width2 (a b c d : Z) :
  (snd (decode4 a b c d) <= 2)%nat -> decode4 a b c d = decode4 a b (-1) (-1).
Proof. d4_multi; intros; try done; lia. Qed.

Lemma decode4_width3 (a b c d : Z) :
  (snd (decode4 a b c d) <= 3)%nat -> decode4 a b c d = decode4 a b c (-1).
Proof. d4_multi; intros; try done; lia. Qed.


Lemma is_cont_missing : is_cont (-1) = false.
Proof. done. Qed.

(** Bytes appended after a rune boundary do not change the step. *)
Lemma DecodeRune_app (p q : list Z) :
  p <> [] -> starts_rune q -> DecodeRune (p ++ q) = DecodeRune p.
Proof.
  intros Hp Hq.
  destruct q as [|b q]; [by rewrite app_nil_r|]. cbn [starts_rune] in Hq.
  rewrite !DecodeRune_decode4 by (destruct p; done). unfold look.
  destruct p as [|s0 [|s1 [|s2 [|s3 p]]]]; [done|..]; cbn [app nth].
  - by apply decode4_skip1.
  - by apply decode4_skip2.
  - by apply decode4_skip3.
  - done.
Qed.

(** Nor does cutting the input at or after the end of the step. *)
Lemma DecodeRune_prefix (p1 p2 : list Z) :
  (snd (DecodeRune (p1 ++ p2)) <= length p1)%nat ->
  DecodeRune (p1 ++ p2) = DecodeRune p1.
Proof.
  destruct p2 as [|b p2]; [by rewrite app_nil_r|].
  destruct p1 as [|s0 p1].
  { intros Hw. pose proof (DecodeRune_width ([] ++ b :: p2) ltac:(done)). simpl in *. lia. }
  rewrite !DecodeRune_decode4 by done. unfold look.
  destruct p1 as [|s1 [|s2 [|s3 p1]]]; cbn [app nth length]; intros Hw.
  - by apply decode4_width1.
  - by apply decode4_width2.
  - by apply decode4_width3.
  - done.
Qed.


Lemma chunks_app (p q : list Z) :
  starts_rune q -> chunks (p ++ q) = chunks p ++ chunks q.
Proof.
  intros Hq. induction p as [|p Hp IH] using chunks_ind; [done|].
  pose proof (DecodeRune_width p Hp) as Hw.
  rewrite (chunks_step (p ++ q)) by (destruct p; done).
  rewrite (chunks_step p) by done.
  rewrite DecodeRune_app by done.
  rewrite take_app_le, drop_app_le by lia.
  by rewrite IH.
Qed.

(** A contiguous run of the chunks of [p] is the chunk list of its own
    bytes. *)
Lemma chunks_suffix (p : list Z) (cs1 cs2 : list (Z * list Z)) :
  chunks p = cs1 ++ cs2 -> chunks (concat (map snd cs2)) = cs2.
Proof.
  revert p. induction cs1 as [|c cs1 IH]; intros p Hp.
  - simpl in Hp. rewrite <- Hp. by rewrite chunks_concat.
  - destruct p as [|b p]; [done|].
    rewrite chunks_step in Hp by done. injection Hp as _ Hp.
    by eapply IH.
Qed.

Lemma chunks_prefix (p : list Z) (cs1 cs2 : list (Z * list Z)) :
  chunks p = cs1 ++ cs2 -> chunks (concat (map snd cs1)) = cs1.
Proof.
  revert p. induction cs1 as [|c cs1 IH]; intros p Hp; [done|].
  destruct p as [|b p]; [done|].
  pose proof (DecodeRune_width (b :: p) ltac:(done)) as Hw.
  pose proof (chunks_step (b :: p) ltac:(done)) as Hstep.
  remember (DecodeRune (b :: p)) as d eqn:Hd.
  rewrite Hstep in Hp. clear Hstep. injection Hp as <- Hp.
  cbn [map concat snd].
  assert (Hrest : concat (map snd cs1) ++ concat (map snd cs2) = skipn (snd d) (b :: p)).
  { rewrite <- (chunks_concat (skipn (snd d) (b :: p))), Hp.
    by rewrite map_app, concat_app. }
  assert (Hsplit : b :: p = (firstn (snd d) (b :: p) ++ concat (map snd cs1))
                             ++ concat (map snd cs2)).
  { rewrite <- app_assoc, Hrest. by rewrite firstn_skipn. }
  assert (Hlen : length (firstn (snd d) (b :: p)) = snd d).
  { rewrite length_firstn. lia. }
  assert (Hd' : DecodeRune (firstn (snd d) (b :: p) ++ concat (map snd cs1)) = d).
  { pose proof (DecodeRune_prefix (firstn (snd d) (b :: p) ++ concat (map snd cs1))
                  (concat (map snd cs2))) as Hpre.
    rewrite <- Hsplit, <- Hd in Hpre. symmetry. apply Hpre.
    rewrite length_app. lia. }
  rewrite chunks_step; [|destruct (firstn (snd d) (b :: p)); [simpl in Hlen; lia|done]].
  rewrite Hd'. rewrite take_app_le, drop_app_le by lia.
  rewrite firstn_all2 by lia. rewrite skipn_all2 by lia. cbn [app].
  f_equal. by eapply IH.
Qed.

(** *** The shape of a decoding step *)

Lemma first_multi_cases (a : Z) (sz : nat) (lo hi : Z) :
  first a = LMulti sz lo hi ->
  (sz = 2%nat /\ 0xC2 <= a <= 0xDF /\ lo = 0x80 /\ hi = 0xBF)
  \/ (sz = 3%nat /\ 0xE0 <= a <= 0xEF
       /\ lo = (if a =? 0xE0 then 0xA0 else 0x80)
       /\ hi = (if a =? 0xED then 0x9F else 0xBF))
  \/ (sz = 4%nat /\ 0xF0 <= a <= 0xF4
       /\ lo = (if a =? 0xF0 then 0x90 else 0x80)
       /\ hi = (if a =? 0xF4 then 0x8F else 0xBF)).
Proof.
  unfold first, locb, hicb.
  repeat (match goal with
          | |- context [Z.ltb ?a ?b] => destruct (Z.ltb_spec a b)
          | |- context [Z.eqb ?a ?b] => destruct (Z.eqb_spec a b)
          end; try lia);
    intros [= <- <- <-] || done; lia.
Qed.

Lemma first_ascii (a : Z) : first a = LAscii -> a < 0x80.
Proof.
  unfold first.
  repeat (match goal with
          | |- context [Z.ltb ?a ?b] => destruct (Z.ltb_spec a b)
          | |- context [Z.eqb ?a ?b] => destruct (Z.eqb_spec a b)
          end; try lia); done.
Qed.

Lemma decode4_shape (a b c d : Z) :
  (a < 0x80 /\ decode4 a b c d = (a, 1%nat))
  \/ decode4 a b c d = (RuneError, 1%nat)
  \/ (0xC2 <= a <= 0xDF /\ 0x80 <= b <= 0xBF /\ snd (decode4 a b c d) = 2%nat)
  \/ (0xE0 <= a <= 0xEF /\ second3 a b /\ 0x80 <= c <= 0xBF
       /\ snd (decode4 a b c d) = 3%nat)
  \/ (0xF0 <= a <= 0xF4 /\ second4 a b /\ 0x80 <= c <= 0xBF /\ 0x80 <= d <= 0xBF
       /\ snd (decode4 a b c d) = 4%nat).
Proof.
  unfold decode4. destruct (first a) as [| |sz lo hi] eqn:E.
  - left. split; [by apply first_ascii|done].
  - right; left. done.
  - right. apply first_multi_cases in E.
    destruct (Z.ltb_spec b lo) as [Hlo|Hlo]; [by left|].
    destruct (Z.ltb_spec hi b) as [Hhi|Hhi]; [by left|]. cbn [orb].
    destruct E as [(-> & Ha & -> & ->)|[(-> & Ha & Hl & Hh)|(-> & Ha & Hl & Hh)]].
    + right; left. cbn. lia.
    + cbn -[Z.lor Z.land Z.shiftl].
      destruct (is_cont c) eqn:Hc; [|by left]. cbn -[Z.lor Z.land Z.shiftl].
      right; right; left. unfold is_cont, locb, hicb in Hc.
      unfold second3. rewrite <- Hl, <- Hh. lia.
    + cbn -[Z.lor Z.land Z.shiftl].
      destruct (is_cont c) eqn:Hc; [|by left]. cbn -[Z.lor Z.land Z.shiftl].
      destruct (is_cont d) eqn:Hd; [|by left]. cbn -[Z.lor Z.land Z.shiftl].
      right; right; right. unfold is_cont, locb, hicb in Hc, Hd.
      unfold second4. rewrite <- Hl, <- Hh. lia.
Qed.

Lemma look_present (p : list Z) (i : nat) :
  0 <= look p i -> exists b, nth_error p i = Some b /\ look p i = b.
Proof.
  unfold look. revert i. induction p as [|x p IH]; intros i Hi.
  - destruct i; simpl in Hi; lia.
  - destruct i as [|i]; simpl in *; [by exists x|]. by apply IH.
Qed.

(** Every step is of one of five shapes: an ASCII byte, an invalid
    byte, or a well-formed sequence of two, three or four bytes. *)
Lemma DecodeRune_shape (p : list Z) :
  p <> [] ->
  (exists b rest, p = b :: rest /\ b < 0x80 /\ DecodeRune p = (b, 1%nat))
  \/ DecodeRune p = (RuneError, 1%nat)
  \/ (exists b0 b1 rest, p = b0 :: b1 :: rest
        /\ 0xC2 <= b0 <= 0xDF /\ 0x80 <= b1 <= 0xBF)
  \/ (exists b0 b1 b2 rest, p = b0 :: b1 :: b2 :: rest
        /\ 0xE0 <= b0 <= 0xEF /\ second3 b0 b1 /\ 0x80 <= b2 <= 0xBF)
  \/ (exists b0 b1 b2 b3 rest, p = b0 :: b1 :: b2 :: b3 :: rest
        /\ 0xF0 <= b0 <= 0xF4 /\ second4 b0 b1 /\ 0x80 <= b2 <= 0xBF
        /\ 0x80 <= b3 <= 0xBF).
Proof.
  intros Hp. rewrite DecodeRune_decode4 by done.
  destruct p as [|s0 p]; [done|]. clear Hp.
  destruct (decode4_shape (look (s0 :: p) 0) (look (s0 :: p) 1)
              (look (s0 :: p) 2) (look (s0 :: p) 3))
    as [[H1 H2]|[H1|[(H0 & H1 & _)|[(H0 & H1 & H2 & _)|(H0 & H1 & H2 & H3 & _)]]]].
  - left. by exists s0, p.
  - right; left. done.
  - right; right; left.
    destruct p as [|s1 p]; [unfold look in H1; simpl in H1; lia|].
    by exists s0, s1, p.
  - right; right; right; left.
    destruct p as [|s1 [|s2 p]]; try (unfold look in H2; simpl in H2; lia).
    by exists s0, s1, s2, p.
  - right; right; right; right.
    destruct p as [|s1 [|s2 [|s3 p]]];
      try (unfold look in H2; simpl in H2; lia);
      try (unfold look in H3; simpl in H3; lia).
    by exists s0, s1, s2, s3, p.
Qed.

(** A decoded rune is a scalar value. *)
Lemma DecodeRune_scalar (p : list Z) :
  Forall is_byte p -> is_scalar (fst (DecodeRune p)).
Proof.
  intros Hb.
  assert (Herr : is_scalar RuneError).
  { unfold is_scalar, RuneError, MaxRune, surrogateMin, surrogateMax. lia. }
  destruct p as [|x p]; [exact Herr|].
  destruct (DecodeRune_shape (x :: p) ltac:(done))
    as [(b & rest & [= -> ->] & Hlt & ->)
       |[->|[(b0 & b1 & rest & [= -> ->] & H0 & H1)
       |[(b0 & b1 & b2 & rest & [= -> ->] & H0 & H1 & H2)
        |(b0 & b1 & b2 & b3 & rest & [= -> ->] & H0 & H1 & H2 & H3)]]]];
    cbn [fst]; try exact Herr.
  - apply Forall_cons in Hb as [Hb _]. unfold is_byte in Hb.
    unfold is_scalar, MaxRune, surrogateMin, surrogateMax. lia.
  - rewrite DecodeRune_2 by done. cbn [fst].
    unfold is_scalar, MaxRune, surrogateMin, surrogateMax. lia.
  - rewrite DecodeRune_3 by done. cbn [fst]. revert H1. unfold second3.
    unfold is_scalar, MaxRune, surrogateMin, surrogateMax.
    destruct (Z.eqb_spec b0 224), (Z.eqb_spec b0 237); lia.
  - rewrite DecodeRune_4 by done. cbn [fst]. revert H1. unfold second4.
    unfold is_scalar, MaxRune, surrogateMin, surrogateMax.
    destruct (Z.eqb_spec b0 240), (Z.eqb_spec b0 244); lia.
Qed.

(** A well-formed step re-encodes to the bytes it read. *)
Lemma EncodeRune_DecodeRune (p : list Z) :
  Forall is_byte p -> p <> [] ->
  DecodeRune p <> (RuneError, 1%nat) ->
  EncodeRune (fst (DecodeRune p)) = firstn (snd (DecodeRune p)) p.
Proof.
  intros Hb Hp Hne.
  destruct (DecodeRune_shape p Hp)
    as [(b & rest & -> & Hlt & Heq)
       |[Herr|[(b0 & b1 & rest & -> & H0 & H1)
       |[(b0 & b1 & b2 & rest & -> & H0 & H1 & H2)
        |(b0 & b1 & b2 & b3 & rest & -> & H0 & H1 & H2 & H3)]]]]; [| done | | |].
  - rewrite Heq. cbn [fst snd firstn].
    apply Forall_cons in Hb as [Hb _]. unfold is_byte in Hb.
    apply EncodeRune_1. lia.
  - rewrite DecodeRune_2 by done. cbn [fst snd firstn].
    rewrite EncodeRune_2 by lia. f_equal; [|f_equal]; zsolve.
  - rewrite DecodeRune_3 by done. cbn [fst snd firstn]. revert H1. unfold second3.
    destruct (Z.eqb_spec b0 224), (Z.eqb_spec b0 237); intros H1;
      (rewrite EncodeRune_3 by (unfold surrogateMin, surrogateMax; lia));
      (f_equal; [|f_equal; [|f_equal]]); zsolve.
  - rewrite DecodeRune_4 by done. cbn [fst snd firstn]. revert H1. unfold second4.
    destruct (Z.eqb_spec b0 240), (Z.eqb_spec b0 244); intros H1;
      (rewrite EncodeRune_4 by (unfold MaxRune; lia));
      (f_equal; [|f_equal; [|f_equal; [|f_equal]]]); zsolve.
Qed.

End ChunkFacts.

(** ** Go strings: [TrimSpace] and [ToLower] *)

Module TrimFacts.
Import GoString GoStringFacts Utf8Facts ChunkFacts.

Section DropWhile.
Context {A : Type} (f : A -> bool).

Lemma drop_while_app (l r : list A) :
  drop_while f (l ++ r)
  = match drop_while f l with
    | [] => drop_while f r
    | x :: l' => (x :: l') ++ r
    end.
Proof.
  induction l as [|x l IH]; [done|]. simpl.
  destruct (f x); [exact IH|done].
Qed.

Lemma drop_while_all (l : list A) :
  Forall (fun x => f x = true) l -> drop_while f l = [].
Proof.
  induction 1 as [|x l Hx _ IH]; [done|]. simpl. by rewrite Hx.
Qed.

Lemma drop_while_split (l : list A) :
  exists l1, l = l1 ++ drop_while f l /\ Forall (fun x => f x = true) l1.
Proof.
  induction l as [|x l (l1 & Hl & Hall)]; [by exists []|]. simpl.
  destruct (f x) eqn:Hx.
  - exists (x :: l1). split; [by rewrite Hl at 1|by constructor].
  - by exists [].
Qed.

Lemma drop_while_head (l : list A) (x : A) (l' : list A) :
  drop_while f l = x :: l' -> f x = false.
Proof.
  induction l as [|y l IH]; [done|]. simpl.
  destruct (f y) eqn:Hy; [exact IH|]. by intros [= <- <-].
Qed.

Lemma drop_while_idem (l : list A) :
  drop_while f (drop_while f l) = drop_while f l.
Proof.
  destruct (drop_while f l) as [|x l'] eqn:E; [done|].
  simpl. by rewrite (drop_while_head _ _ _ E).
Qed.

End DropWhile.

Lemma Forall2_rev {A B : Type} (R : A -> B -> Prop) (l : list A) (k : list B) :
  Forall2 R l k -> Forall2 R (rev l) (rev k).
Proof.
  induction 1 as [|x y l k Hxy _ IH]; [constructor|]. simpl.
  apply Forall2_app; [exact IH|]. by repeat constructor.
Qed.


Lemma trim_chunks_eq (cs : list (Z * list Z)) :
  trim_chunks cs = rev (drop_while is_sp (rev (drop_while is_sp cs))).
Proof. done. Qed.

(** Trimming removes a run of spaces at each end and nothing else. *)
Lemma trim_chunks_split (cs : list (Z * list Z)) :
  exists l r, cs = l ++ trim_chunks cs ++ r
    /\ Forall (fun c => is_sp c = true) l /\ Forall (fun c => is_sp c = true) r.
Proof.
  rewrite trim_chunks_eq.
  destruct (drop_while_split is_sp cs) as (l & Hl & Hlall).
  destruct (drop_while_split is_sp (rev (drop_while is_sp cs))) as (r & Hr & Hrall).
  exists l, (rev r). split; [|split; [done|by apply Forall_rev]].
  rewrite Hl at 1. f_equal.
  rewrite <- (rev_involutive (drop_while is_sp cs)) at 1.
  rewrite Hr at 1. by rewrite rev_app_distr.
Qed.

Lemma trim_chunks_pad (l cs r : list (Z * list Z)) :
  Forall (fun c => is_sp c = true) l -> Forall (fun c => is_sp c = true) r ->
  trim_chunks (l ++ cs ++ r) = trim_chunks cs.
Proof.
  intros Hl Hr. rewrite !trim_chunks_eq.
  rewrite drop_while_app, (drop_while_all _ l Hl).
  rewrite drop_while_app.
  destruct (drop_while is_sp cs) as [|x cs'] eqn:E.
  - by rewrite (drop_while_all _ r Hr).
  - rewrite rev_app_distr, drop_while_app.
    rewrite (drop_while_all _ (rev r)); [done|]. by apply Forall_rev.
Qed.

Lemma trim_chunks_idem (cs : list (Z * list Z)) :
  trim_chunks (trim_chunks cs) = trim_chunks cs.
Proof.
  destruct (trim_chunks_split cs) as (l & r & Hcs & Hl & Hr).
  symmetry. etransitivity; [|apply (trim_chunks_pad l _ r Hl Hr)].
  by rewrite <- Hcs.
Qed.

(** *** Spaces *)

Ltac bool_cases :=
  repeat (match goal with
          | |- context [Z.ltb ?a ?b] => destruct (Z.ltb_spec a b)
          | |- context [Z.leb ?a ?b] => destruct (Z.leb_spec a b)
          | |- context [Z.eqb ?a ?b] => destruct (Z.eqb_spec a b)
          end; try lia; cbn [andb orb negb]).

Lemma IsSpace_scalar (r : Z) : IsSpace r = true -> is_scalar r.
Proof.
  unfold IsSpace, is_scalar, MaxRune, surrogateMin, surrogateMax.
  bool_cases; intros; try done; lia.
Qed.

Lemma EncodeRune_starts (r : Z) (rest : list Z) : starts_rune (EncodeRune r ++ rest).
Proof.
  assert (Hsc : forall r, is_scalar r -> starts_rune (EncodeRune r ++ rest)).
  { clear r. intros r [Hr Hs]. unfold MaxRune, surrogateMin, surrogateMax in *.
    unfold starts_rune, is_cont, locb, hicb.
    destruct (Z.le_gt_cases r 0x7F) as [H1|H1].
    { rewrite EncodeRune_1 by lia. cbn [app]. bool_cases; done. }
    destruct (Z.le_gt_cases r 0x7FF) as [H2|H2].
    { rewrite EncodeRune_2 by lia. cbn [app].
      assert (0 <= r / 64) by zsolve. bool_cases; done. }
    destruct (Z.le_gt_cases r 0xFFFF) as [H3|H3].
    { rewrite EncodeRune_3 by (unfold surrogateMin, surrogateMax; lia). cbn [app].
      assert (0 <= r / 4096) by zsolve. bool_cases; done. }
    rewrite EncodeRune_4 by (unfold MaxRune; lia). cbn [app].
    assert (0 <= r / 262144) by zsolve. bool_cases; done. }
  destruct (Z.le_gt_cases 0 r) as [H0|H0];
    [destruct (Z.le_gt_cases r MaxRune) as [H1|H1];
     [destruct (Z.lt_ge_cases r surrogateMin) as [H2|H2];
      [|destruct (Z.le_gt_cases r surrogateMax) as [H3|H3]]|]|].
  all: try (apply Hsc; unfold is_scalar; lia).
  all: rewrite EncodeRune_invalid by (unfold is_scalar; lia);
    apply Hsc; unfold is_scalar, RuneError, MaxRune, surrogateMin, surrogateMax; lia.
Qed.

Lemma concat_encode_starts (rs : list Z) : starts_rune (concat (map EncodeRune rs)).
Proof.
  destruct rs as [|r rs]; [done|]. cbn [map concat]. apply EncodeRune_starts.
Qed.

(** The chunks of an encoded rune sequence. *)
Lemma chunks_from_runes (rs : list Z) :
  Forall is_scalar rs ->
  chunks (bytes (from_runes rs)) = map (fun r => (r, EncodeRune r)) rs.
Proof.
  intros Hrs. unfold from_runes.
  rewrite bytes_from_bytes by apply concat_encode_is_byte.
  rewrite <- (app_nil_r (concat _)), chunks_encode_list by done.
  by rewrite chunks_nil, app_nil_r.
Qed.

Lemma space_string_chunks (w : string) :
  space_string w ->
  Forall (fun c => is_sp c = true) (chunks (bytes w)) /\ starts_rune (bytes w).
Proof.
  intros (rs & Hsp & ->). split.
  - rewrite chunks_from_runes.
    + apply Forall_map. eapply Forall_impl; [exact Hsp|]. done.
    + eapply Forall_impl; [exact Hsp|]. apply IsSpace_scalar.
  - unfold from_runes. rewrite bytes_from_bytes by apply concat_encode_is_byte.
    apply concat_encode_starts.
Qed.

Lemma space_string_prefix_chunks (w : string) (q : list Z) :
  space_string w -> chunks (bytes w ++ q) = chunks (bytes w) ++ chunks q.
Proof.
  intros (rs & Hsp & ->).
  assert (Hsc : Forall is_scalar rs)
    by (eapply Forall_impl; [exact Hsp|]; apply IsSpace_scalar).
  rewrite chunks_from_runes by done. unfold from_runes.
  rewrite bytes_from_bytes by apply concat_encode_is_byte.
  by apply chunks_encode_list.
Qed.

(** *** [TrimSpace] *)

Lemma chunk_bytes_is_byte (p : list Z) (cs1 cs2 cs3 : list (Z * list Z)) :
  Forall is_byte p -> chunks p = cs1 ++ cs2 ++ cs3 ->
  Forall is_byte (concat (map snd cs2)).
Proof.
  intros Hp Hcs. rewrite <- (chunks_concat p), Hcs in Hp.
  rewrite !map_app, !concat_app in Hp.
  apply Forall_app in Hp as [_ Hp]. by apply Forall_app in Hp as [Hp _].
Qed.

Lemma TrimSpace_chunks (s : string) :
  chunks (bytes (TrimSpace s)) = trim_chunks (chunks (bytes s)).
Proof.
  unfold TrimSpace.
  destruct (trim_chunks_split (chunks (bytes s))) as (l & r & Hcs & _ & _).
  rewrite bytes_from_bytes
    by (eapply chunk_bytes_is_byte; [apply bytes_range|exact Hcs]).
  eapply (chunks_prefix _ _ r). eapply (chunks_suffix _ l). exact Hcs.
Qed.

Lemma runes_TrimSpace (s : string) :
  runes (TrimSpace s) = map fst (trim_chunks (chunks (bytes s))).
Proof. unfold runes. by rewrite TrimSpace_chunks. Qed.

Lemma TrimSpace_idem (s : string) : TrimSpace (TrimSpace s) = TrimSpace s.
Proof.
  unfold TrimSpace at 1. rewrite TrimSpace_chunks, trim_chunks_idem. done.
Qed.

(** White space around a string does not change what is left after
    trimming. *)
Lemma TrimSpace_pad (w1 s w2 : string) :
  space_string w1 -> space_string w2 ->
  TrimSpace (w1 +:+ s +:+ w2) = TrimSpace s.
Proof.
  intros H1 H2. unfold TrimSpace. do 2 f_equal.
  rewrite !bytes_app.
  destruct (space_string_chunks w1 H1) as [Hc1 _].
  destruct (space_string_chunks w2 H2) as [Hc2 Hs2].
  rewrite space_string_prefix_chunks by done.
  rewrite chunks_app by done.
  by rewrite trim_chunks_pad.
Qed.

Lemma ValidString_TrimSpace (s : string) :
  ValidString s = true -> ValidString (TrimSpace s) = true.
Proof.
  unfold ValidString. rewrite TrimSpace_chunks.
  destruct (trim_chunks_split (chunks (bytes s))) as (l & r & Hcs & _ & _).
  rewrite Hcs at 1. rewrite !forallb_app. intros H.
  apply andb_prop in H as [_ H]. by apply andb_prop in H as [H _].
Qed.


(** *** [ToLower] *)

Section Lower.
Context `{CaseTables}.

Lemma ToLowerRune_space (r : Z) : IsSpace (ToLowerRune r) = IsSpace r.
Proof.
  unfold ToLowerRune, RuneSelf.
  destruct (Z.ltb_spec r 128); [|apply unicode_lower_space].
  destruct (Z.leb_spec 65 r), (Z.leb_spec r 90); cbn [andb]; try done.
  unfold IsSpace. bool_cases; done.
Qed.


Lemma lower_eq_is_sp (c c' : Z * list Z) : lower_eq c c' -> is_sp c = is_sp c'.
Proof.
  unfold lower_eq, is_sp. intros Heq.
  by rewrite <- (ToLowerRune_space (fst c)), Heq, ToLowerRune_space.
Qed.

Lemma drop_while_lower_eq (l l' : list (Z * list Z)) :
  Forall2 lower_eq l l' -> Forall2 lower_eq (drop_while is_sp l) (drop_while is_sp l').
Proof.
  induction 1 as [|c c' l l' Hc Hl IH]; [constructor|]. simpl.
  rewrite <- (lower_eq_is_sp _ _ Hc).
  destruct (is_sp c); [exact IH|by constructor].
Qed.

Lemma trim_chunks_lower_eq (l l' : list (Z * list Z)) :
  Forall2 lower_eq l l' -> Forall2 lower_eq (trim_chunks l) (trim_chunks l').
Proof.
  intros Hl. rewrite !trim_chunks_eq.
  apply Forall2_rev, drop_while_lower_eq, Forall2_rev, drop_while_lower_eq, Hl.
Qed.

Lemma same_modulo_case_chunks (a b : string) :
  same_modulo_case a b <-> Forall2 lower_eq (chunks (bytes a)) (chunks (bytes b)).
Proof.
  unfold same_modulo_case, runes, lower_eq.
  rewrite Forall2_fmap. done.
Qed.

Lemma same_modulo_case_TrimSpace (a b : string) :
  same_modulo_case a b -> same_modulo_case (TrimSpace a) (TrimSpace b).
Proof.
  rewrite !same_modulo_case_chunks, !TrimSpace_chunks.
  apply trim_chunks_lower_eq.
Qed.

Lemma same_modulo_case_ToLower (a b : string) :
  same_modulo_case a b -> ToLower a = ToLower b.
Proof.
  unfold same_modulo_case, ToLower. intros Hab. f_equal.
  induction Hab as [|r r' l l' Hr _ IH]; [done|]. simpl. by rewrite Hr, IH.
Qed.

(** Two strings that are equal up to surrounding white space and
    letter case normalise to the same string. *)
Lemma ToLower_TrimSpace_variant (a b w1 w2 w3 w4 : string) :
  space_string w1 -> space_string w2 -> space_string w3 -> space_string w4 ->
  same_modulo_case a b ->
  ToLower (TrimSpace (w1 +:+ a +:+ w2)) = ToLower (TrimSpace (w3 +:+ b +:+ w4)).
Proof.
  intros H1 H2 H3 H4 Hab. rewrite !TrimSpace_pad by done.
  by apply same_modulo_case_ToLower, same_modulo_case_TrimSpace.
Qed.

End Lower.

End TrimFacts.

(** ** Package [ingest]: [truncate] *)

Module TruncateFacts.
Import GoString GoStringFacts Utf8Facts ChunkFacts TrimFacts Ingest.

Lemma chunks_scalar (p : list Z) :
  Forall is_byte p -> Forall (fun c => is_scalar (fst c)) (chunks p).
Proof.
  induction p as [|p Hp IH] using chunks_ind; intros Hb; [constructor|].
  rewrite chunks_step by done. constructor.
  - cbn [fst]. by apply DecodeRune_scalar.
  - apply IH. by apply Forall_drop.
Qed.

Lemma runes_scalar (s : string) : Forall is_scalar (runes s).
Proof.
  unfold runes. apply Forall_map.
  apply (chunks_scalar _ (bytes_range s)).
Qed.

(** A well-formed chunk is the encoding of its rune. *)
Lemma chunks_reencode (p : list Z) :
  Forall is_byte p ->
  Forall (fun c => valid_chunk c = true -> EncodeRune (fst c) = snd c) (chunks p).
Proof.
  induction p as [|p Hp IH] using chunks_ind; intros Hb; [constructor|].
  rewrite chunks_step by done. constructor; [|apply IH; by apply Forall_drop].
  pose proof (DecodeRune_width p Hp) as Hw.
  unfold valid_chunk. cbn [fst snd]. rewrite length_firstn.
  replace (snd (DecodeRune p) `min` length p)%nat with (snd (DecodeRune p)) by lia.
  intros Hv. apply EncodeRune_DecodeRune; [done|done|].
  intros Heq. rewrite Heq in Hv. done.
Qed.

Lemma ValidString_from_runes (rs : list Z) :
  Forall is_scalar rs -> ValidString (from_runes rs) = true.
Proof.
  intros Hrs. unfold ValidString. rewrite chunks_from_runes by done.
  apply forallb_forall. intros c Hc. apply in_map_iff in Hc as (r & <- & _).
  unfold valid_chunk. cbn [fst snd].
  destruct (Z.eqb_spec r RuneError) as [->|]; [|done].
  by vm_compute.
Qed.

Lemma reencode_concat (l : list (Z * list Z)) :
  forallb valid_chunk l = true ->
  Forall (fun c => valid_chunk c = true -> EncodeRune (fst c) = snd c) l ->
  concat (map (fun c => EncodeRune (fst c)) l) = concat (map snd l).
Proof.
  induction l as [|c l IH]; [done|]. simpl. intros Hv Hre.
  apply andb_prop in Hv as [Hc Hv]. apply Forall_cons in Hre as [Hrc Hre].
  by rewrite (Hrc Hc), IH.
Qed.

(** For a well-formed string, writing back a prefix of its runes gives
    a prefix of its bytes. *)
Lemma from_runes_prefix (s : string) (n : nat) :
  ValidString s = true ->
  exists rest, s = from_runes (firstn n (runes s)) +:+ rest.
Proof.
  intros Hv. unfold ValidString in Hv.
  pose proof (chunks_reencode (bytes s) (bytes_range s)) as Hre.
  exists (from_bytes (concat (map snd (skipn n (chunks (bytes s)))))).
  apply bytes_inj. rewrite bytes_app. unfold from_runes, runes.
  assert (Hall : Forall is_byte (concat (map snd (chunks (bytes s)))))
    by (rewrite chunks_concat; apply bytes_range).
  rewrite <- (firstn_skipn n (chunks (bytes s))) in Hall, Hv, Hre.
  rewrite map_app, concat_app in Hall. apply Forall_app in Hall as [Ha1 Ha2].
  rewrite forallb_app in Hv. apply andb_prop in Hv as [Hv _].
  apply Forall_app in Hre as [Hre _].
  assert (Henc : concat (map EncodeRune (firstn n (map fst (chunks (bytes s)))))
                 = concat (map snd (firstn n (chunks (bytes s))))).
  { rewrite firstn_map, map_map. by apply reencode_concat. }
  rewrite Henc, !bytes_from_bytes by done.
  rewrite <- concat_app, <- map_app, firstn_skipn. by rewrite chunks_concat.
Qed.

(** What [truncate s maxLen] returns, for the limits it is called
    with. *)
Lemma truncate_returns (s : string) (maxLen : Z) :
  0 <= maxLen ->
  truncate s maxLen
  = Some (if Z.of_nat (RuneCountInString (TrimSpace s)) <=? maxLen
          then TrimSpace s
          else from_runes (firstn (Z.to_nat maxLen) (runes (TrimSpace s)))).
Proof.
  intros Hm. unfold truncate, slice_to, RuneCountInString.
  destruct (Z.leb_spec (Z.of_nat (length (runes (TrimSpace s)))) maxLen) as [Hle|Hgt];
    [done|].
  destruct (Z.leb_spec 0 maxLen); [|lia].
  destruct (Z.leb_spec maxLen (Z.of_nat (length (runes (TrimSpace s))))); [|lia].
  done.
Qed.

End TruncateFacts.

(** ** Package [ingest]: validation *)

Module ValidationFacts.
Import GoString GoStringFacts Utf8Facts ChunkFacts TrimFacts TruncateFacts.
Import Storage Ingest.

Lemma truncate_normalised (s : string) (maxLen : Z) :
  0 <= maxLen ->
  exists t, truncate s maxLen = Some t /\ normalised_text (Z.to_nat maxLen) s t.
Proof.
  intros Hm. rewrite truncate_returns by done. eexists. split; [done|].
  unfold normalised_text, RuneCountInString.
  pose proof (runes_scalar (TrimSpace s)) as Hsc.
  destruct (Z.leb_spec (Z.of_nat (length (runes (TrimSpace s)))) maxLen) as [Hle|Hgt].
  - repeat split.
    + by rewrite firstn_all2 by lia.
    + lia.
    + lia.
    + lia.
    + by apply ValidString_TrimSpace.
    + exists ""%string. apply bytes_inj. by rewrite bytes_app, app_nil_r.
  - assert (Hr : runes (from_runes (firstn (Z.to_nat maxLen) (runes (TrimSpace s))))
                 = firstn (Z.to_nat maxLen) (runes (TrimSpace s)))
      by (apply runes_from_runes; by apply Forall_take).
    repeat split.
    + exact Hr.
    + rewrite Hr, length_firstn. lia.
    + lia.
    + rewrite Hr, length_firstn. lia.
    + apply ValidString_from_runes. by apply Forall_take.
    + apply ValidString_from_runes. by apply Forall_take.
    + apply from_runes_prefix. by apply ValidString_TrimSpace.
Qed.

Section WithParser.
Context `{UrlParser}.

Lemma validEventTypes_allowed (t : string) :
  default false (validEventTypes !! t) = bool_decide (t ∈ allowed_types).
Proof.
  destruct (decide (t ∈ allowed_types)) as [Hin|Hout].
  - rewrite bool_decide_eq_true_2 by done.
    unfold allowed_types in Hin. rewrite !elem_of_cons, elem_of_nil in Hin.
    destruct Hin as [->|[->|[->|[->|[->|[->|[]]]]]]]; by vm_compute.
  - rewrite bool_decide_eq_false_2 by done. unfold validEventTypes.
    by rewrite not_elem_of_list_to_map_1.
Qed.

(** [validateEvent] never panics; it fails exactly with [event_error]
    and then leaves the event as it was. *)
Lemma validateEvent_error (e : IngestEvent) :
  exists e', validateEvent e = Some (e', event_error e)
    /\ (is_Some (event_error e) -> e' = e).
Proof.
  unfold validateEvent, event_error.
  destruct (decide (EventType e = ""%string)); [by exists e|].
  rewrite validEventTypes_allowed.
  destruct (decide (EventType e ∈ allowed_types)) as [Hin|Hout].
  2: { rewrite bool_decide_eq_false_2 by done. by exists e. }
  rewrite bool_decide_eq_true_2 by done. cbn [negb].
  destruct (decide (URL e = ""%string)); [by exists e|].
  destruct (url_ParseRequestURI (URL e)); [|by exists e].
  destruct (truncate_normalised (ElementText e) maxTextLength ltac:(done)) as (t1 & -> & _).
  destruct (truncate_normalised (AriaLabel e) maxTextLength ltac:(done)) as (t2 & -> & _).
  destruct (truncate_normalised (PageTitle e) maxTextLength ltac:(done)) as (t3 & -> & _).
  destruct (truncate_normalised (ParentPath e) 1000 ltac:(done)) as (t4 & -> & _).
  cbn [mbind option_bind]. eexists. split; [done|]. by intros [? [=]].
Qed.

Lemma first_event_error_cons (e : IngestEvent) (es : list IngestEvent) :
  first_event_error (e :: es)
  = match event_error e with
    | Some err => Some err
    | None => first_event_error es
    end.
Proof.
  unfold first_event_error. rewrite filter_cons.
  destruct (decide (is_Some (event_error e))) as [[err Herr]|Hnone].
  - by rewrite Herr.
  - destruct (event_error e); [|done]. exfalso. apply Hnone. by eexists.
Qed.

Lemma first_event_error_None (es : list IngestEvent) :
  first_event_error es = None <-> Forall (fun e => event_error e = None) es.
Proof.
  induction es as [|e es IH]; [split; [constructor|done]|].
  rewrite first_event_error_cons, Forall_cons.
  destruct (event_error e) as [err|]; [split; [done|by intros [? _]]|].
  rewrite IH. tauto.
Qed.

(** The loop over the events never panics, returns the error of the
    first failing event, and on success has normalised every event. *)
Lemma validateEvents_error (es : list IngestEvent) :
  exists es', validateEvents es = Some (es', first_event_error es)
    /\ (first_event_error es = None ->
        Forall2 (fun e e' => validateEvent e = Some (e', None)) es es').
Proof.
  induction es as [|e es (es' & IH & Hok)]; [by exists []|].
  rewrite first_event_error_cons. cbn [validateEvents].
  destruct (validateEvent_error e) as (e' & He & Hsame). rewrite He.
  cbn [mbind option_bind].
  destruct (event_error e) as [err|] eqn:Herr.
  - exists (e' :: es). split; [done|]. done.
  - rewrite IH. cbn [mbind option_bind fst snd].
    exists (e' :: es'). split; [done|]. intros Hnone. constructor; [done|auto].
Qed.

Lemma ValidatePayload_error (p : IngestPayload) :
  exists p', ValidatePayload p = Some (p', payload_error p)
    /\ SessionID p' = SessionID p /\ DistinctID p' = DistinctID p
    /\ (payload_error p = None ->
        Forall2 (fun e e' => validateEvent e = Some (e', None)) (Events p) (Events p')).
Proof.
  unfold ValidatePayload, payload_error, maxBatchSize.
  destruct (decide (length (Events p) = 0%nat)) as [H0|H0].
  { rewrite (proj2 (Nat.eqb_eq _ _) H0). exists p. by repeat split. }
  rewrite (proj2 (Nat.eqb_neq _ _) H0).
  destruct (decide (100 < length (Events p))%nat) as [H1|H1];
    destruct (Z.ltb_spec 100 (Z.of_nat (length (Events p)))); try lia.
  { exists p. by repeat split. }
  destruct (decide (SessionID p = ""%string)); [exists p; by repeat split|].
  destruct (validateEvents_error (Events p)) as (es' & -> & Hok).
  cbn [mbind option_bind fst snd]. eexists. split; [done|]. done.
Qed.

End WithParser.

End ValidationFacts.

(** ** Package [ingest]: the handler *)

Module HandlerFacts.
Import GoString Storage Ingest IngestHandler ValidationFacts.

Section WithInterfaces.
Context `{CaseTables} `{UrlParser}.

(** A rejected payload changes nothing and is answered with 400. *)
Lemma ServeHTTP_rejects (n : AI.Namer) (hasNamer : bool) (env : Env) (r : Request)
    (project : Project) (p : IngestPayload) (err : IngestError) :
  req_Method r = "POST"%string -> req_Project r = Some project ->
  req_Body r = Some p -> payload_error p = Some err ->
  ServeHTTP n hasNamer env r = Some (n, mkResponse 400 (error_body (Error err)) 0).
Proof.
  intros Hm Hp Hb Herr. unfold ServeHTTP.
  rewrite Hm, Hp, Hb. rewrite bool_decide_eq_true_2 by done. cbn [negb].
  destruct (ValidatePayload_error p) as (p' & -> & _). rewrite Herr. done.
Qed.

(** Validation does not read [url_path], except to fill it in. *)
Lemma event_error_with_URLPath (e : IngestEvent) (P : string) :
  event_error (with_URLPath e P) = event_error e.
Proof. done. Qed.

Lemma validateEvent_with_URLPath (e : IngestEvent) (u : ParsedURL) :
  URLPath e = ""%string -> url_Parse (URL e) = Some u ->
  forall v, validateEvent e = Some (v, None) ->
    validateEvent (with_URLPath e (u_Path u)) = Some (v, None) /\ URLPath v = u_Path u.
Proof.
  intros Hempty Hu v. unfold validateEvent. cbn [with_URLPath EventType URL ElementText
    AriaLabel PageTitle ParentPath URLPath ElementTag ElementID ElementClasses
    DataAttributes Referrer ScreenWidth ScreenHeight Timestamp Properties].
  destruct (decide (EventType e = ""%string)); [done|].
  destruct (negb _); [done|].
  destruct (decide (URL e = ""%string)); [done|].
  destruct (url_ParseRequestURI (URL e)); [|done].
  destruct (truncate (ElementText e) maxTextLength); [|done].
  destruct (truncate (AriaLabel e) maxTextLength); [|done].
  destruct (truncate (PageTitle e) maxTextLength); [|done].
  destruct (truncate (ParentPath e) 1000); [|done].
  cbn [mbind option_bind]. rewrite Hu, Hempty.
  rewrite decide_True by done.
  intros [= <-]. split; [|done]. do 3 f_equal.
  destruct (decide (u_Path u = ""%string)) as [->|]; done.
Qed.

Lemma validateEvents_with_URLPath (pre post : list IngestEvent) (e : IngestEvent)
    (u : ParsedURL) :
  URLPath e = ""%string -> url_Parse (URL e) = Some u ->
  first_event_error (pre ++ with_URLPath e (u_Path u) :: post)
  = first_event_error (pre ++ e :: post)
  /\ forall vs, Forall2 (fun e e' => validateEvent e = Some (e', None)) (pre ++ e :: post) vs ->
       Forall2 (fun e e' => validateEvent e = Some (e', None))
         (pre ++ with_URLPath e (u_Path u) :: post) vs.
Proof.
  intros Hempty Hu. split.
  - induction pre as [|x pre IH]; cbn [app];
      rewrite !first_event_error_cons; [by rewrite event_error_with_URLPath|].
    by rewrite IH.
  - intros vs Hvs. apply Forall2_app_inv_l in Hvs as (vs1 & vs2 & H1 & H2 & ->).
    apply Forall2_app; [done|].
    inversion H2 as [|? v ? vs' Hv Hpost]; subst. constructor; [|done].
    by apply (validateEvent_with_URLPath e u).
Qed.

Lemma Forall2_validate_fun (es vs1 vs2 : list IngestEvent) :
  Forall2 (fun e e' => validateEvent e = Some (e', None)) es vs1 ->
  Forall2 (fun e e' => validateEvent e = Some (e', None)) es vs2 ->
  vs1 = vs2.
Proof.
  intros H1. revert vs2. induction H1 as [|e v es vs Hv _ IH]; intros vs2 H2.
  - by inversion H2.
  - inversion H2 as [|? v' ? vs' Hv' Hrest]; subst.
    rewrite Hv in Hv'. injection Hv' as <-. f_equal. by apply IH.
Qed.

(** A payload with [url_path] left empty and the same payload with
    [url_path] set to the parsed path validate alike. *)
Lemma ValidatePayload_with_URLPath (pre post : list IngestEvent) (e : IngestEvent)
    (u : ParsedURL) (sid did : string) :
  URLPath e = ""%string -> url_Parse (URL e) = Some u ->
  let p := mkIngestPayload (pre ++ e :: post) sid did in
  let p' := mkIngestPayload (pre ++ with_URLPath e (u_Path u) :: post) sid did in
  payload_error p' = payload_error p
  /\ forall v, ValidatePayload p = Some (v, None) -> ValidatePayload p' = Some (v, None).
Proof.
  intros Hempty Hu p p'.
  destruct (validateEvents_with_URLPath pre post e u Hempty Hu) as [Herr Hok].
  assert (Hpe : payload_error p' = payload_error p).
  { unfold payload_error, p, p'. cbn [Events SessionID].
    rewrite !length_app. cbn [length]. by rewrite Herr. }
  split; [done|]. intros v Hv.
  destruct (ValidatePayload_error p) as (v1 & Hv1 & Hs1 & Hd1 & Hok1).
  destruct (ValidatePayload_error p') as (v2 & Hv2 & Hs2 & Hd2 & Hok2).
  rewrite Hv1 in Hv. injection Hv as -> Hnone.
  rewrite Hv2, Hpe, Hnone. do 2 f_equal.
  rewrite Hpe in Hok2. specialize (Hok1 Hnone). specialize (Hok2 Hnone).
  apply Hok in Hok1. cbn [Events p p'] in *.
  pose proof (Forall2_validate_fun _ _ _ Hok2 Hok1) as Hev.
  destruct v as [ev sv dv], v2 as [ev2 sv2 dv2]. cbn in *. by subst.
Qed.

End WithInterfaces.

End HandlerFacts.

(** ** Package [ingest]: the claims on validation *)

Module IngestClaims.
Import GoString Storage Ingest IngestHandler ValidationFacts HandlerFacts.

Section WithInterfaces.
Context `{CaseTables} `{UrlParser}.

Lemma payload_error_None (p : IngestPayload) :
  payload_error p = None <->
  (1 <= length (Events p) <= 100)%nat /\ SessionID p <> ""%string
  /\ Forall (fun e => event_error e = None) (Events p).
Proof.
  unfold payload_error. rewrite <- first_event_error_None.
  destruct (decide (length (Events p) = 0%nat)); [split; [done|lia]|].
  destruct (decide (100 < length (Events p))%nat); [split; [done|lia]|].
  destruct (decide (SessionID p = ""%string)); [split; [done|tauto]|].
  split; [intros ->; repeat split; (lia || done)|tauto].
Qed.

(** C3 -- [ValidatePayload] returns the error the specification names
    for the first check that fails, tested in the order batch empty,
    batch larger than 100, session missing, then per event type
    missing, type not allowed, URL missing, URL not a request URI; it
    accepts exactly the payloads on which no check fails (100 events
    pass, 101 do not); and the handler answers a rejected payload with
    400 and leaves the stores and the job queue as they were. *)
Theorem ValidatePayload_errors (p : IngestPayload) :
  (exists p', ValidatePayload p = Some (p', payload_error p))
  /\ (payload_error p = None <->
      (1 <= length (Events p) <= 100)%nat /\ SessionID p <> ""%string
      /\ Forall (fun e => event_error e = None) (Events p))
  /\ (length (Events p) = 101%nat -> payload_error p = Some ErrBatchTooLarge)
  /\ (length (Events p) = 100%nat -> SessionID p <> ""%string ->
      Forall (fun e => event_error e = None) (Events p) ->
      exists p', ValidatePayload p = Some (p', None))
  /\ (forall e, e ∈ Events p -> is_Some (event_error e) -> is_Some (payload_error p))
  /\ (forall n hasNamer env r project err,
        req_Method r = "POST"%string -> req_Project r = Some project ->
        req_Body r = Some p -> payload_error p = Some err ->
        ServeHTTP n hasNamer env r
        = Some (n, mkResponse 400 (error_body (Error err)) 0)).
Proof.
  destruct (ValidatePayload_error p) as (p' & Hv & _).
  split; [by exists p'|]. split; [apply payload_error_None|].
  split; [|split; [|split]].
  - intros Hlen. unfold payload_error. rewrite Hlen.
    rewrite decide_False by lia. by rewrite decide_True by lia.
  - intros Hlen Hs Hall. exists p'. rewrite Hv. do 2 f_equal.
    apply payload_error_None. repeat split; (lia || done).
  - intros e Hin [err Herr].
    destruct (payload_error p) as [err'|] eqn:Hpe; [by eexists|].
    apply payload_error_None in Hpe as (_ & _ & Hall).
    rewrite Forall_forall in Hall. rewrite (Hall e Hin) in Herr. done.
  - intros. by eapply ServeHTTP_rejects.
Qed.

Lemma validateEvent_normalises (e e' : IngestEvent) :
  validateEvent e = Some (e', None) -> texts_normalised e e'.
Proof.
  unfold validateEvent.
  destruct (decide (EventType e = ""%string)); [done|].
  destruct (negb _); [done|].
  destruct (decide (URL e = ""%string)); [done|].
  destruct (url_ParseRequestURI (URL e)); [|done].
  destruct (truncate_normalised (ElementText e) maxTextLength ltac:(done)) as (t1 & -> & H1).
  destruct (truncate_normalised (AriaLabel e) maxTextLength ltac:(done)) as (t2 & -> & H2).
  destruct (truncate_normalised (PageTitle e) maxTextLength ltac:(done)) as (t3 & -> & H3).
  destruct (truncate_normalised (ParentPath e) 1000 ltac:(done)) as (t4 & -> & H4).
  cbn [mbind option_bind]. intros [= <-].
  exact (conj H1 (conj H2 (conj H3 H4))).
Qed.

(** C8 -- validation never panics, and in every accepted payload the
    element text, aria label and page title of each event are the
    trimmed input cut to its first 500 scalar values, the parent path
    to its first 1000: the trimmed input itself when that is within the
    limit, exactly the limit when it is longer.  A text that was cut is
    always well formed; a text within the limit is well formed whenever
    the input was (then it is a prefix of the trimmed bytes ending on a
    rune boundary), and is otherwise the ill-formed input, trimmed. *)
Theorem validated_text_is_truncated (p : IngestPayload) :
  match ValidatePayload p with
  | Some (p', None) => Forall2 texts_normalised (Events p) (Events p')
  | Some (_, Some _) => True
  | None => False
  end.
Proof.
  destruct (ValidatePayload_error p) as (p' & -> & _ & _ & Hok).
  destruct (payload_error p); [done|].
  eapply Forall2_impl; [by apply Hok|]. apply validateEvent_normalises.
Qed.

(** C10 -- an event sent with an empty [url_path] and the same event
    sent with [url_path] set to the path parsed from its URL are
    handled alike: the handler's answer, the rows it stores (with their
    fingerprints) and the jobs it queues are the same, because
    validation fills in the parsed path before the fingerprint is
    computed from it. *)
Theorem derived_url_path_same_fingerprint
    (n : AI.Namer) (hasNamer : bool) (env : Env) (method ua sid did : string)
    (project : option Project) (pre post : list IngestEvent) (e : IngestEvent)
    (u : ParsedURL) :
  URLPath e = ""%string -> url_Parse (URL e) = Some u ->
  ServeHTTP n hasNamer env
    (mkRequest method project
       (Some (mkIngestPayload (pre ++ with_URLPath e (u_Path u) :: post) sid did)) ua)
  = ServeHTTP n hasNamer env
      (mkRequest method project (Some (mkIngestPayload (pre ++ e :: post) sid did)) ua)
  /\ forall v, validateEvent e = Some (v, None) ->
       validateEvent (with_URLPath e (u_Path u)) = Some (v, None)
       /\ URLPath v = u_Path u
       /\ forall proj payload now i,
            ev_Fingerprint <$> build_event proj payload ua now i v
            = ComputeFingerprint (ElementTag v) (ElementID v) (ElementClasses v)
                (ParentPath v) (u_Path u).
Proof.
  intros Hempty Hu. split.
  - unfold ServeHTTP. cbn [req_Method req_Project req_Body req_UserAgent].
    destruct (negb _); [done|]. destruct project as [proj|]; [|done].
    destruct (ValidatePayload_with_URLPath pre post e u sid did Hempty Hu)
      as [Herr Hok].
    destruct (ValidatePayload_error (mkIngestPayload (pre ++ e :: post) sid did))
      as (v1 & Hv1 & _).
    destruct (ValidatePayload_error
                (mkIngestPayload (pre ++ with_URLPath e (u_Path u) :: post) sid did))
      as (v2 & Hv2 & _).
    rewrite Herr in Hv2. clear Herr. rewrite Hv1, Hv2. cbn [mbind option_bind].
    destruct (payload_error (mkIngestPayload (pre ++ e :: post) sid did))
      as [err|] eqn:Hpe; [done|].
    apply Hok in Hv1. rewrite Hv1 in Hv2. by injection Hv2 as <-.
  - intros v Hv.
    destruct (validateEvent_with_URLPath e u Hempty Hu v Hv) as [Hv' Hp].
    split; [done|]. split; [done|]. intros proj payload now i.
    unfold build_event. rewrite Hp.
    by destruct (ComputeFingerprint _ _ _ _ _).
Qed.

End WithInterfaces.

End IngestClaims.

(** ** Package [ingest]: the fingerprint *)

Module FingerprintClaims.
Import GoString GoStringFacts TrimFacts Ingest.

Lemma be_bytes_length (n : nat) (x : Z) : length (Sha256.be_bytes n x) = n.
Proof. unfold Sha256.be_bytes. by rewrite length_map, length_seq. Qed.

Lemma blocks_length (fuel : nat) (h p : list Z) :
  length h = 8%nat -> length (Sha256.blocks fuel h p) = 8%nat.
Proof.
  revert h p. induction fuel as [|fuel IH]; intros h p Hh; [done|].
  simpl. destruct p; [done|]. by apply IH.
Qed.

(** The digest has 32 bytes. *)
Lemma Sum256_length (p : list Z) : length (Sha256.Sum256 p) = 32%nat.
Proof.
  unfold Sha256.Sum256.
  pose proof (blocks_length (length (Sha256.pad p)) Sha256.init (Sha256.pad p) eq_refl) as Hl.
  destruct (Sha256.blocks _ _ _) as [|a [|b [|c [|d [|e [|f [|g [|h [|]]]]]]]]];
    try done.
Qed.

Lemma EncodeToString_length (src : list Z) :
  String.length (Hex.EncodeToString src) = (2 * length src)%nat.
Proof. induction src as [|v src IH]; simpl; [done|]. rewrite IH. lia. Qed.

Lemma digit_lower_hex (x : Z) : lower_hex_digit (Hex.digit x).
Proof.
  unfold lower_hex_digit, Hex.digit, Hex.hextable.
  destruct (Nat.lt_ge_cases (Z.to_nat x) 16) as [Hlt|Hge].
  - by apply nth_In.
  - rewrite nth_overflow by done. simpl. tauto.
Qed.

Lemma EncodeToString_lower_hex (src : list Z) :
  Forall lower_hex_digit (list_ascii_of_string (Hex.EncodeToString src)).
Proof.
  induction src as [|v src IH]; simpl; [constructor|].
  constructor; [apply digit_lower_hex|].
  constructor; [apply digit_lower_hex|exact IH].
Qed.

Lemma length_list_ascii (s : string) :
  length (list_ascii_of_string s) = String.length s.
Proof. induction s as [|a s IH]; simpl; [done|]. by rewrite IH. Qed.

Lemma string_of_list_ascii_length (l : list ascii) :
  String.length (string_of_list_ascii l) = length l.
Proof. induction l as [|a l IH]; simpl; [done|]. by rewrite IH. Qed.

Section WithCaseTables.
Context `{CaseTables}.

(** The bytes written to the hash are those of the parts joined by a
    vertical bar. *)
Lemma write_parts_joined (a b c d e : string) :
  Sha256.written (write_parts Sha256.New 0 [a; b; c; d; e])
  = bytes (Join [a; b; c; d; e] "|").
Proof.
  cbn [write_parts Nat.ltb Nat.leb Sha256.Write Sha256.written Sha256.New Join].
  rewrite !bytes_app. cbn [app]. by rewrite <- !app_assoc.
Qed.

Lemma ComputeFingerprint_eq (tag id classes parentPath urlPath : string) :
  ComputeFingerprint tag id classes parentPath urlPath
  = Some (fingerprint_spec tag id classes parentPath urlPath).
Proof.
  unfold ComputeFingerprint, fingerprint_spec, fingerprint_parts, Sha256.Sum.
  rewrite write_parts_joined. unfold string_slice_to.
  rewrite EncodeToString_length, Sum256_length. done.
Qed.

Lemma same_modulo_space_TrimSpace (x y : string) :
  same_modulo_space x y -> TrimSpace x = TrimSpace y.
Proof.
  intros (core & w1 & w2 & w3 & w4 & H1 & H2 & H3 & H4 & -> & ->).
  by rewrite !TrimSpace_pad.
Qed.

Lemma same_modulo_space_and_case_lower (x y : string) :
  same_modulo_space_and_case x y -> ToLower (TrimSpace x) = ToLower (TrimSpace y).
Proof.
  intros (a & b & w1 & w2 & w3 & w4 & H1 & H2 & H3 & H4 & Hab & -> & ->).
  by apply ToLower_TrimSpace_variant.
Qed.

(** C1 -- [ComputeFingerprint] returns (without panicking) the first
    16 characters of the lower-case hexadecimal SHA-256 digest of the
    five normalised parts joined by a vertical bar: a function of its
    inputs, always 16 lower-case hexadecimal digits, and the same for
    inputs that differ only in surrounding white space on any part or
    in letter case on the first three. *)
Theorem ComputeFingerprint_spec (tag id classes parentPath urlPath : string) :
  ComputeFingerprint tag id classes parentPath urlPath
  = Some (fingerprint_spec tag id classes parentPath urlPath)
  /\ String.length (fingerprint_spec tag id classes parentPath urlPath) = 16%nat
  /\ Forall lower_hex_digit
       (list_ascii_of_string (fingerprint_spec tag id classes parentPath urlPath))
  /\ forall tag' id' classes' parentPath' urlPath',
       same_modulo_space_and_case tag tag' ->
       same_modulo_space_and_case id id' ->
       same_modulo_space_and_case classes classes' ->
       same_modulo_space parentPath parentPath' ->
       same_modulo_space urlPath urlPath' ->
       ComputeFingerprint tag' id' classes' parentPath' urlPath'
       = ComputeFingerprint tag id classes parentPath urlPath.
Proof.
  split; [apply ComputeFingerprint_eq|]. split; [|split].
  - unfold fingerprint_spec. rewrite string_of_list_ascii_length, length_firstn.
    rewrite length_list_ascii, EncodeToString_length, Sum256_length. done.
  - unfold fingerprint_spec. rewrite list_ascii_of_string_of_list_ascii.
    apply Forall_take, EncodeToString_lower_hex.
  - intros tag' id' classes' parentPath' urlPath' Ht Hi Hc Hp Hu.
    rewrite !ComputeFingerprint_eq. unfold fingerprint_spec.
    rewrite (same_modulo_space_and_case_lower _ _ Ht),
      (same_modulo_space_and_case_lower _ _ Hi),
      (same_modulo_space_and_case_lower _ _ Hc),
      (same_modulo_space_TrimSpace _ _ Hp), (same_modulo_space_TrimSpace _ _ Hu).
    done.
Qed.

End WithCaseTables.

End FingerprintClaims.

(** ** Package [ingest]: worked examples *)

Module IngestExamples.
Import GoString Storage Ingest IngestHandler Examples.

(** Scenario A of the specification. *)
Example fingerprint_scenario_A :
  ComputeFingerprint "Button" "submit-btn" "btn btn-primary" "form>div" "/checkout"
  = Some "3b7e9bf376fa4673"%string
  /\ ComputeFingerprint "  BUTTON  " "  SUBMIT-BTN  " "  BTN BTN-PRIMARY  "
       "form>div" "/checkout"
     = Some "3b7e9bf376fa4673"%string.
Proof. split; vm_compute; reflexivity. Qed.

Example fingerprint_distinct :
  ComputeFingerprint "button" "id1" "class" "parent" "/page"
  <> ComputeFingerprint "button" "id2" "class" "parent" "/page".
Proof. vm_compute. discriminate. Qed.

(** Scenario B: the error kinds and the derived [url_path]. *)
Example validation_scenario_B :
  snd <$> ValidatePayload
            (mkIngestPayload
               [mkIngestEvent "hover" "" "" "" "" "" ∅ "" "https://e.com/x" "" "" "" 0 0 0 ∅]
               "s1" "")
  = Some (Some ErrInvalidType)
  /\ snd <$> ValidatePayload (mkIngestPayload [click "not a url" ""] "s1" "")
     = Some (Some ErrInvalidURL)
  /\ ValidatePayload (mkIngestPayload [click "https://e.com/x" ""] "s1" "")
     = Some (mkIngestPayload [click "https://e.com/x" "/x"] "s1" "", None).
Proof. repeat split; vm_compute; reflexivity. Qed.

(** The batch limit: 100 events pass, 101 do not. *)
Example batch_limit :
  snd <$> ValidatePayload (mkIngestPayload (repeat (click "/a" "/a") 100) "s1" "")
  = Some None
  /\ snd <$> ValidatePayload (mkIngestPayload (repeat (click "/a" "/a") 101) "s1" "")
     = Some (Some ErrBatchTooLarge).
Proof. split; vm_compute; reflexivity. Qed.

(** The text limit: 500 code points pass unchanged, 501 are cut to
    500; a multi-byte rune is kept or dropped whole. *)
Example text_limit :
  truncate (repeat_string "x" 500) 500 = Some (repeat_string "x" 500)
  /\ truncate (repeat_string "x" 501) 500 = Some (repeat_string "x" 500)
  /\ truncate (" " +:+ repeat_string (from_runes [0x1F600]) 501 +:+ " ") 500
     = Some (repeat_string (from_runes [0x1F600]) 500).
Proof. repeat split; vm_compute; reflexivity. Qed.

(** A text within the limit is not rewritten: an element text that is
    ill formed passes validation as it came. *)
Lemma ill_formed_text_is_kept :
  ValidString lone_byte = false
  /\ RuneCountInString lone_byte = 1%nat
  /\ truncate lone_byte maxTextLength = Some lone_byte
  /\ ValidatePayload (mkIngestPayload [stray_click] "s1" "")
     = Some (mkIngestPayload [stray_click] "s1" "", None)
  /\ ValidString (ElementText stray_click) = false.
Proof. repeat split; vm_compute; reflexivity. Qed.

(** Trimming and the case tables on ASCII. *)
Example trim_and_lower :
  TrimSpace (from_runes [0x3000; 0x20] +:+ "Hello  World" +:+ from_runes [0x09; 0x2028])
  = "Hello  World"%string
  /\ ToLower "BTN Primary-01" = "btn primary-01"%string.
Proof. split; vm_compute; reflexivity. Qed.

(** The event of scenario B, sent without [url_path] and with the
    parsed path. *)
Lemma derived_url_path_witness :
  ServeHTTP idle true quiet
    (mkRequest "POST" (Some demo)
       (Some (mkIngestPayload ([] ++ with_URLPath (click "https://e.com/x" "") "/x" :: [])
                "s1" "")) "agent")
  = ServeHTTP idle true quiet
      (mkRequest "POST" (Some demo)
         (Some (mkIngestPayload ([] ++ click "https://e.com/x" "" :: []) "s1" "")) "agent").
Proof.
  exact (proj1 (IngestClaims.derived_url_path_same_fingerprint idle true quiet
                  "POST" "agent" "s1" "" (Some demo) [] [] (click "https://e.com/x" "")
                  (mkURL "https" "e.com" "/x" "" "") eq_refl eq_refl)).
Defined.

End IngestExamples.

(** ** Arithmetic on [int64] *)

Module Int64Facts.
Import Storage.

Lemma wrap64_small (x : Z) : minDuration <= x <= maxDuration -> wrap64 x = x.
Proof.
  unfold wrap64, minDuration, maxDuration. intros Hx.
  rewrite Z.mod_small by lia. lia.
Qed.

End Int64Facts.

(** ** Package [storage]: the encryptor *)

Module Base64Facts.
Import GoString GoStringFacts Utf8Facts Base64.

Lemma below_64 (P : Z -> Prop) :
  (forall n, (n < 64)%nat -> P (Z.of_nat n)) -> forall v, 0 <= v < 64 -> P v.
Proof.
  intros HP v Hv. rewrite <- (Z2Nat.id v) by lia. apply HP. lia.
Qed.

(** Every sextet is written as a character of the alphabet, which the
    decode map sends back to it. *)
Lemma dec_enc (v : Z) :
  0 <= v < 64 ->
  dec (enc v) = Some v /\ is_newline (enc v) = false.
Proof.
  revert v. apply below_64. intros n Hn.
  do 64 (destruct n as [|n]; [by vm_compute|]). lia.
Qed.

Lemma dec_pad : dec padChar = None.
Proof. by vm_compute. Qed.

Lemma list_ind3 {A : Type} (P : list A -> Prop) :
  P [] -> (forall a, P [a]) -> (forall a b, P [a; b]) ->
  (forall a b c l, P l -> P (a :: b :: c :: l)) ->
  forall l, P l.
Proof.
  intros H0 H1 H2 H3.
  fix IH 1. intros [|a [|b [|c l]]]; [done|done|done|].
  apply H3, IH.
Qed.

Ltac sextet := repeat match goal with
  | |- context [dec (enc ?v)] =>
    rewrite (proj1 (dec_enc v ltac:(zsolve)))
  end.

Lemma decode_encode (l : list Z) :
  Forall is_byte l -> decode (encode l) = Some l.
Proof.
  unfold is_byte.
  induction l as [|a|a b|a b c l IH] using list_ind3; intros Hl.
  - done.
  - apply Forall_cons in Hl as [Ha _].
    cbn [encode decode]. sextet. rewrite dec_pad. cbn.
    do 2 f_equal. zsolve.
  - apply Forall_cons in Hl as [Ha Hl]. apply Forall_cons in Hl as [Hb _].
    cbn [encode decode]. sextet. rewrite dec_pad. cbn.
    do 2 f_equal; [|f_equal]; zsolve.
  - apply Forall_cons in Hl as [Ha Hl]. apply Forall_cons in Hl as [Hb Hl].
    apply Forall_cons in Hl as [Hc Hl].
    cbn [encode decode]. sextet. rewrite (IH Hl).
    do 2 f_equal; [|f_equal; [|f_equal]]; zsolve.
Qed.

Lemma encode_no_newline (l : list Z) :
  Forall is_byte l ->
  filter (fun c => is_newline c = false) (encode l) = encode l.
Proof.
  unfold is_byte.
  assert (Hkeep : forall v rest, 0 <= v < 64 ->
            filter (fun c => is_newline c = false) (enc v :: rest)
            = enc v :: filter (fun c => is_newline c = false) rest).
  { intros v rest Hv. rewrite filter_cons.
    by rewrite decide_True by apply (dec_enc v Hv). }
  induction l as [|a|a b|a b c l IH] using list_ind3; intros Hl.
  - done.
  - apply Forall_cons in Hl as [Ha _]. cbn [encode].
    by rewrite !Hkeep by zsolve.
  - apply Forall_cons in Hl as [Ha Hl]. apply Forall_cons in Hl as [Hb _].
    cbn [encode]. by rewrite !Hkeep by zsolve.
  - apply Forall_cons in Hl as [Ha Hl]. apply Forall_cons in Hl as [Hb Hl].
    apply Forall_cons in Hl as [Hc Hl].
    cbn [encode]. rewrite !Hkeep by zsolve. by rewrite IH.
Qed.

(** Decoding what was encoded gives the bytes back. *)
Lemma DecodeString_EncodeToString (l : list Z) :
  Forall is_byte l -> DecodeString (EncodeToString l) = Some l.
Proof.
  intros Hl. unfold DecodeString, EncodeToString.
  rewrite list_ascii_of_string_of_list_ascii, encode_no_newline by done.
  by apply decode_encode.
Qed.

End Base64Facts.

Module EncryptClaims.
Import GoString GoStringFacts Base64Facts Encrypt.

Lemma HasPrefix_app (p s : string) : HasPrefix (p +:+ s) p = true.
Proof.
  induction p as [|c p IH]; simpl; [by destruct s|].
  by rewrite Ascii.eqb_refl.
Qed.

Lemma drop_string_app (p s : string) : drop_string (String.length p) (p +:+ s) = s.
Proof. induction p as [|c p IH]; simpl; [by destruct s|done]. Qed.

Lemma TrimPrefix_app (p s : string) : TrimPrefix (p +:+ s) p = s.
Proof. unfold TrimPrefix. by rewrite HasPrefix_app, drop_string_app. Qed.

(** C7 -- with a non-nil encryptor and a nonce read in full,
    [Encrypt] returns a value that [Decrypt] turns back into the
    plaintext; and [Decrypt], with or without an encryptor, returns a
    value that does not start with [enc:v1:] unchanged. *)
Theorem Decrypt_Encrypt (aead : AEAD) (x : string) :
  (forall nonce, length nonce = NonceSize -> Forall is_byte nonce ->
     exists c, Encrypt (Some aead) (Some nonce) x = Ok c
               /\ Decrypt (Some aead) c = Ok x)
  /\ (forall (e : Encryptor), HasPrefix x encPrefix = false -> Decrypt e x = Ok x).
Proof.
  split.
  - intros nonce Hlen Hnonce.
    eexists. split; [reflexivity|]. unfold Decrypt.
    rewrite HasPrefix_app, TrimPrefix_app. cbn [negb].
    assert (Hsealed : Forall is_byte (Seal nonce (bytes x) [])).
    { apply Seal_bytes; [done|apply bytes_range|constructor]. }
    rewrite DecodeString_EncodeToString by (apply Forall_app; by split).
    rewrite length_app.
    destruct (Nat.ltb_spec (length nonce + length (Seal nonce (bytes x) [])) NonceSize);
      [lia|].
    rewrite <- Hlen, take_app_length, drop_app_length.
    rewrite Open_Seal; [|done|done|apply bytes_range|constructor].
    by rewrite from_bytes_bytes.
  - intros [e|] Hx; [|done]. unfold Decrypt. by rewrite Hx.
Qed.

End EncryptClaims.

Module EncryptExamples.
Import GoString GoStringFacts Encrypt Examples.

Lemma shift_open_seal (nonce plaintext ad : list Z) :
  length nonce = 12%nat -> Forall is_byte nonce ->
  Forall is_byte plaintext -> Forall is_byte ad ->
  shift_open nonce (shift_seal nonce plaintext ad) ad = Some plaintext.
Proof.
  intros _ _ Hp _. unfold shift_open, shift_seal.
  rewrite length_app, length_map, repeat_length.
  destruct (Nat.ltb_spec (length plaintext + 16) 16); [lia|].
  replace (length plaintext + 16 - 16)%nat with (length (map (fun b => (b + 1) mod 256) plaintext))
    by (rewrite length_map; lia).
  rewrite drop_app_length, take_app_length. cbn [repeat forallb Z.eqb andb].
  f_equal. rewrite map_map. clear H.
  induction Hp as [|b l Hb _ IH]; [done|]. simpl. rewrite IH. f_equal.
  unfold is_byte in Hb. Z.div_mod_to_equations. lia.
Qed.

Lemma shift_seal_bytes (nonce plaintext ad : list Z) :
  Forall is_byte nonce -> Forall is_byte plaintext -> Forall is_byte ad ->
  Forall is_byte (shift_seal nonce plaintext ad).
Proof.
  intros _ _ _. unfold shift_seal. apply Forall_app. split.
  - apply Forall_map, Forall_forall. intros b _. unfold is_byte.
    Z.div_mod_to_equations. lia.
  - repeat constructor; unfold is_byte; lia.
Qed.

Definition shift_cipher : AEAD :=
  {| NonceSize := 12; Seal := shift_seal; Open := shift_open;
     Open_Seal := shift_open_seal; Seal_bytes := shift_seal_bytes |}.

(** A round trip through the envelope, and the passthrough of a legacy
    plaintext. *)
Example envelope_round_trip :
  Encrypt (Some shift_cipher) (Some (repeat 7 12)) "sk-secret"
  = Ok "enc:v1:BwcHBwcHBwcHBwcHdGwudGZkc2Z1AAAAAAAAAAAAAAAAAAAAAA=="
  /\ Decrypt (Some shift_cipher)
       "enc:v1:BwcHBwcHBwcHBwcHdGwudGZkc2Z1AAAAAAAAAAAAAAAAAAAAAA=="
     = Ok "sk-secret"
  /\ Decrypt (Some shift_cipher) "sk-legacy" = Ok "sk-legacy"
  /\ Decrypt (Some shift_cipher) "enc:v1:@@@@" = Err ErrDecodingCiphertext
  /\ Decrypt (Some shift_cipher) "enc:v1:BwcH" = Err ErrCiphertextTooShort.
Proof. repeat split; vm_compute; reflexivity. Qed.

End EncryptExamples.

(** ** Package [ai]: name cache and naming workers *)

Module NamingClaims.
Import Storage Meta AI.

Lemma Cache_Get_row (t : event_names) (p f : string) (en : EventName) :
  t !! (f, p) = Some en -> Cache_Get t false p f = (display_name en, true).
Proof.
  intros Hrow. unfold Cache_Get, GetEventName, display_name. rewrite Hrow.
  destruct (en_UserName en) as [u|]; [|done]. by destruct (decide (u = ""%string)).
Qed.

Lemma Cache_Get_hit (t : event_names) (fault : bool) (p f : string) :
  snd (Cache_Get t fault p f) = true <-> fault = false /\ is_Some (t !! (f, p)).
Proof.
  unfold Cache_Get, GetEventName. destruct fault; [split; [done|by intros [? _]]|].
  destruct (t !! (f, p)) as [en|].
  - split; [by eauto|intros _].
    destruct (en_UserName en) as [u|]; [|done]. by destruct (decide (u = ""%string)).
  - split; [done|]. by intros [_ [? ?]].
Qed.

(** The write-through of a generated name keeps the user's name of
    every row that exists. *)
Lemma SetEventName_keeps_user_name (t : event_names) (fault : bool) (now : Time)
    (en : EventName) (k : string * string) (old : EventName) :
  t !! k = Some old ->
  exists new, (SetEventName t fault now en).1 !! k = Some new
    /\ en_UserName new = en_UserName old.
Proof.
  intros Hold. unfold SetEventName. destruct fault; [by exists old|].
  destruct (decide ((en_Fingerprint en, en_ProjectID en) = k)) as [<-|Hne].
  - rewrite Hold. cbn [fst]. rewrite lookup_insert_eq. by eexists.
  - destruct (t !! (en_Fingerprint en, en_ProjectID en)); cbn [fst];
      rewrite lookup_insert_ne by done; by exists old.
Qed.

Lemma OverrideEventName_sets (t : event_names) (p f u : string) (old : EventName) :
  t !! (f, p) = Some old ->
  exists new, (OverrideEventName t false p f u).1 !! (f, p) = Some new
    /\ en_UserName new = Some u.
Proof.
  intros Hold. unfold OverrideEventName. cbn [fst].
  rewrite lookup_alter_eq, Hold. by eexists.
Qed.

Lemma OverrideEventName_other (t : event_names) (fault : bool) (p f u : string)
    (k : string * string) :
  k <> (f, p) -> (OverrideEventName t fault p f u).1 !! k = t !! k.
Proof.
  intros Hne. unfold OverrideEventName. destruct fault; [done|]. cbn [fst].
  by rewrite lookup_alter_ne.
Qed.

Lemma process_keeps_user_name (n : Namer) (fl : worker_faults) (now : Time)
    (job : NamingJob) (k : string * string) (old : EventName) :
  names n !! k = Some old ->
  exists new, names (process n fl now job) !! k = Some new
    /\ en_UserName new = en_UserName old.
Proof.
  intros Hold. unfold process.
  destruct (snd (Cache_Get _ _ _ _)); [by exists old|].
  destruct (provider n) as [prov|]; [|by exists old].
  destruct (GenerateEventName prov _) as [result|]; [|by exists old].
  unfold Cache_Set.
  destruct (SetEventName_keeps_user_name (names n) (f_set fl) now
              (mkEventName (job_Fingerprint job) (job_ProjectID job) (res_Name result)
                 None (Some (res_SourceFile result)) (Some (res_Confidence result)) 0)
              k old Hold) as (new & Hnew & Hu).
  destruct (SetEventName _ _ _ _) as [names' ok]. cbn [fst] in Hnew.
  destruct ok; cbn [negb names]; by exists new.
Qed.

Lemma step_keeps_user_name (n n' : Namer) (a : action) (p f : string) (old : EventName) :
  keeps_override p f a -> step n a = Some n' -> names n !! (f, p) = Some old ->
  exists new, names n' !! (f, p) = Some new /\ en_UserName new = en_UserName old.
Proof.
  intros Hkeep Hstep Hold. destruct a as [fault job|fl now|prov|m|fault p' f' u];
    cbn [step] in Hstep.
  - unfold Submit in Hstep. destruct (provider n); [|injection Hstep as <-; by exists old].
    destruct (snd _); [injection Hstep as <-; by exists old|].
    destruct (closed n); [done|].
    destruct (_ <? _)%nat; injection Hstep as <-; by exists old.
  - injection Hstep as <-. unfold worker_step.
    destruct (jobs n) as [|job rest]; [by exists old|].
    by apply process_keeps_user_name.
  - injection Hstep as <-. by exists old.
  - injection Hstep as <-. by exists old.
  - injection Hstep as <-. cbn [names keeps_override] in *.
    rewrite OverrideEventName_other; [by exists old|].
    intros [= -> ->]. by apply Hkeep.
Qed.

Lemma run_keeps_user_name (acts : list action) (n n' : Namer) (p f : string)
    (old : EventName) :
  Forall (keeps_override p f) acts -> run n acts = Some n' ->
  names n !! (f, p) = Some old ->
  exists new, names n' !! (f, p) = Some new /\ en_UserName new = en_UserName old.
Proof.
  revert n old. induction acts as [|a acts IH]; intros n old Hall Hrun Hold.
  - injection Hrun as <-. by exists old.
  - apply Forall_cons in Hall as [Ha Hall]. cbn [run] in Hrun.
    destruct (step n a) as [n1|] eqn:Hstep; [|done].
    destruct (step_keeps_user_name n n1 a p f old Ha Hstep Hold) as (mid & Hmid & Hu).
    destruct (IH n1 mid Hall Hrun Hmid) as (new & Hnew & Hu').
    exists new. split; [done|]. by rewrite Hu'.
Qed.

(** C6 -- the display name the cache returns for a row is the
    user's name when that is not empty and the generated name
    otherwise; a write-through of a generated name keeps the user's
    name of every existing row; and once [OverrideEventName] has set a
    non-empty name on a row, the cache returns that name after any run
    of the engine (submissions, worker iterations with their
    write-throughs, provider and matcher changes, overrides of other
    keys) until the name of that key is overridden again. *)
Theorem user_name_wins (t : event_names) (p f : string) (row : EventName) :
  t !! (f, p) = Some row ->
  Cache_Get t false p f = (display_name row, true)
  /\ (forall fault now en, exists new,
        (SetEventName t fault now en).1 !! (f, p) = Some new
        /\ en_UserName new = en_UserName row)
  /\ (forall (u : string) (n n' : Namer) (acts : list action),
        u <> ""%string ->
        names n = (OverrideEventName t false p f u).1 ->
        Forall (keeps_override p f) acts -> run n acts = Some n' ->
        Cache_Get (names n') false p f = (u, true)).
Proof.
  intros Hrow. split; [by apply Cache_Get_row|]. split.
  - intros fault now en. by apply SetEventName_keeps_user_name.
  - intros u n n' acts Hu Hn Hall Hrun.
    destruct (OverrideEventName_sets t p f u row Hrow) as (mid & Hmid & Hmu).
    rewrite <- Hn in Hmid.
    destruct (run_keeps_user_name acts n n' p f mid Hall Hrun Hmid) as (new & Hnew & Hnu).
    rewrite (Cache_Get_row _ _ _ _ Hnew). unfold display_name.
    rewrite Hnu, Hmu. by rewrite decide_False.
Qed.

(** C5 -- a job whose key has an entry in the name cache when it is
    submitted, and whose cache read succeeds, is not queued: [Submit]
    returns with the engine as it was (no panic even on a closed
    channel), so every later run of the engine, and with it every call
    to the provider, is what it would have been without the
    submission.  A worker that receives a job whose key has an entry by
    then, and reads it, drops the job without calling the provider.  A
    cache read that fails counts as a miss: the job is then queued like
    the job of any other key. *)
Theorem cached_job_is_dropped (n : Namer) (job : NamingJob) :
  has_entry n job ->
  Submit n false job = Some n
  /\ (forall acts, run n (ASubmit false job :: acts) = run n acts)
  /\ (forall fl now rest, f_get fl = false -> jobs n = job :: rest ->
        worker_step n fl now = set_jobs n rest
        /\ calls (worker_step n fl now) = calls n)
  /\ (forall prov, provider n = Some prov -> closed n = false ->
        (length (jobs n) < jobsCapacity)%nat ->
        Submit n true job = Some (set_jobs n (jobs n ++ [job]))).
Proof.
  unfold has_entry. intros Hrow.
  assert (Hhit : snd (Cache_Get (names n) false (job_ProjectID job) (job_Fingerprint job))
                 = true) by (by apply Cache_Get_hit).
  assert (Hsub : Submit n false job = Some n).
  { unfold Submit. destruct (provider n); [|done]. by rewrite Hhit. }
  split; [done|]. split; [|split].
  - intros acts. cbn [run step]. by rewrite Hsub.
  - intros fl now rest Hget Hjobs. unfold worker_step. rewrite Hjobs.
    unfold process. cbn [names set_jobs]. rewrite Hget, Hhit. done.
  - intros prov Hprov Hopen Hroom. unfold Submit. rewrite Hprov, Hopen.
    cbn [Cache_Get GetEventName snd].
    by destruct (Nat.ltb_spec (length (jobs n)) jobsCapacity); [|lia].
Qed.

End NamingClaims.

Module NamingExamples.
Import Storage Meta AI Examples.

Lemma cached_job_witness :
  Submit queued false place_order_job = Some queued
  /\ (forall acts, run queued (ASubmit false place_order_job :: acts) = run queued acts)
  /\ (forall fl now rest, f_get fl = false -> jobs queued = place_order_job :: rest ->
        worker_step queued fl now = set_jobs queued rest
        /\ calls (worker_step queued fl now) = calls queued)
  /\ (forall prov, provider queued = Some prov -> closed queued = false ->
        (length (jobs queued) < jobsCapacity)%nat ->
        Submit queued true place_order_job
        = Some (set_jobs queued (jobs queued ++ [place_order_job]))).
Proof.
  apply (NamingClaims.cached_job_is_dropped queued place_order_job).
  vm_compute. by eexists.
Defined.

(** The key has an entry, but the read of the cache fails when the job
    is submitted and again when a worker receives it: the job is
    queued and the provider is called for it. *)
Lemma failed_read_queues_cached_job :
  has_entry busy place_order_job
  /\ Submit busy true place_order_job = Some (set_jobs busy [place_order_job])
  /\ Submit busy true place_order_job <> Some busy
  /\ (exists n', run busy [ASubmit true place_order_job;
                           AWork (mkFaults true false false) 1] = Some n'
                 /\ calls n' = [(place_order_job, job_Request place_order_job)]).
Proof.
  split; [vm_compute; by eexists|]. split; [reflexivity|]. split; [discriminate|].
  eexists. split; reflexivity.
Qed.

Lemma user_name_witness :
  Cache_Get one_name false "p1" "3b7e9bf376fa4673" = (display_name place_order, true)
  /\ (forall fault now en, exists new,
        (SetEventName one_name fault now en).1 !! ("3b7e9bf376fa4673", "p1")%string
        = Some new
        /\ en_UserName new = en_UserName place_order)
  /\ (forall (u : string) (n n' : Namer) (acts : list action),
        u <> ""%string ->
        names n = (OverrideEventName one_name false "p1" "3b7e9bf376fa4673" u).1 ->
        Forall (keeps_override "p1" "3b7e9bf376fa4673") acts -> run n acts = Some n' ->
        Cache_Get (names n') false "p1" "3b7e9bf376fa4673" = (u, true)).
Proof.
  apply (NamingClaims.user_name_wins one_name "p1" "3b7e9bf376fa4673" place_order).
  vm_compute. reflexivity.
Defined.

(** An override, then a write-through by a worker for the same key:
    the override still wins; queued while the key was not cached, the
    job is processed and the provider called once. *)
Example override_then_ai_write :
  let loud := mkProvider (fun _ => Some (mkNamingResult "AI name" (SpecFloat.S754_zero false) "")) in
  let n0 := mkNamer (Some loud) None ∅ [] [] false [] in
  match run n0 [ASubmit false place_order_job;
                AWork (mkFaults false false false) 1;
                AOverride false "p1" "3b7e9bf376fa4673" "Place order";
                ASubmit false place_order_job;
                ASetProvider (Some loud);
                AWork (mkFaults false false false) 2] with
  | Some n => Cache_Get (names n) false "p1" "3b7e9bf376fa4673" = ("Place order"%string, true)
              /\ length (calls n) = 1%nat /\ jobs n = []
  | None => False
  end.
Proof. vm_compute. repeat split; reflexivity. Qed.

End NamingExamples.

(** ** The alert checker *)

Module AlertFacts.
Import Storage Alerts Int64Facts.

(** Within the range of [time.Duration] the window is the number of
    minutes it stands for. *)
Lemma window_exact (a : Alert) :
  window_fits a -> window a = al_WindowMinutes a * Minute.
Proof.
  intros [Hpos Hfit]. unfold window, mul_duration. apply wrap64_small.
  unfold minDuration, maxDuration, Minute in *. lia.
Qed.

Lemma Sub_ge (t u d : Z) :
  minDuration < d <= maxDuration -> (Sub t u <? d) = false -> d <= t - u.
Proof.
  unfold Sub, minDuration, maxDuration. intros Hd.
  destruct (Z.ltb_spec (2 ^ 63 - 1) (t - u)); [lia|].
  destruct (Z.ltb_spec (t - u) (- 2 ^ 63)); intros Hge%Z.ltb_ge; lia.
Qed.

(** Only enabled alerts of the table are checked. *)
Lemma ListAllEnabledAlerts_enabled (table : list Alert) (a : Alert) :
  a ∈ ListAllEnabledAlerts table -> a ∈ table /\ al_Enabled a = true.
Proof.
  unfold ListAllEnabledAlerts. rewrite merge_sort_Permutation.
  rewrite list_elem_of_filter. tauto.
Qed.

(** The loop body either leaves the world alone or fires; it fires
    exactly when the count query ran, the count exceeds the threshold
    and the alert is not cooling down. *)
Lemma check_one_cases (w : World) (env : Env) (a : Alert) :
  (check_one w env a = w
   /\ (count_fault env = true \/ count_of (events w) env a <= al_Threshold a
       \/ cooling_down env a = true))
  \/ (count_fault env = false /\ al_Threshold a < count_of (events w) env a
      /\ cooling_down env a = false
      /\ events (check_one w env a) = events w
      /\ (update_fault env = false -> fired w (check_one w env a) a env)
      /\ (update_fault env = true -> alerts (check_one w env a) = alerts w)
      /\ (webhook env <> RequestNotBuilt ->
          exists p, posts (check_one w env a) = posts w ++ [p]
                    /\ post_Alert p = al_ID a /\ post_URL p = al_WebhookURL a)).
Proof.
  unfold check_one, fired.
  destruct (count_fault env); [left; by eauto|].
  destruct (Z.leb_spec (count_of (events w) env a) (al_Threshold a)); [left; by eauto|].
  destruct (cooling_down env a); [left; by eauto|].
  right. repeat split; try done.
  - by intros ->.
  - by intros ->.
  - intros Hw. destruct (webhook env); [done|by eexists|by eexists].
Qed.

(** For a window that fits a [time.Duration] and a clock that does
    not run backwards, an alert that fires had no previous trigger or
    one at least the window before the new one. *)
Lemma check_one_cooldown (w : World) (env : Env) (a : Alert) :
  window_fits a -> clock_ordered env ->
  check_one w env a <> w ->
  al_Threshold a < count_of (events w) env a
  /\ match al_LastTriggeredAt a with
     | Some last => al_WindowMinutes a * Minute <= now_update env - last
     | None => True
     end.
Proof.
  intros Hfit [_ Hclock] Hne.
  destruct (check_one_cases w env a) as [[Heq _]|(_ & Hcount & Hcool & _)]; [done|].
  split; [done|]. unfold cooling_down in Hcool.
  destruct (al_LastTriggeredAt a) as [last|]; [|done].
  rewrite window_exact in Hcool by done.
  apply Sub_ge in Hcool; [lia|].
  destruct Hfit. unfold minDuration, Minute in *. lia.
Qed.

End AlertFacts.

Module AlertClaims.
Import Storage Alerts Examples.

(** C4 (defect) -- the window of an alert is computed as a
    [time.Duration], a 64-bit count of nanoseconds, and wraps around
    for 153,722,868 minutes and more.  An alert with a window of
    200,000,000 minutes that was triggered five minutes ago passes the
    cooldown check and fires again: the new trigger time is five
    minutes after the previous one. *)
Theorem cooldown_wraps_around :
  let w' := checkAlerts (mkWorld [long_window] [] []) false (fun _ => five_minutes_later) in
  al_Enabled long_window = true
  /\ al_LastTriggeredAt long_window = Some last_trigger
  /\ map al_LastTriggeredAt (alerts w') = [Some (last_trigger + 5 * Minute)]
  /\ length (posts w') = 1%nat
  /\ 5 * Minute < al_WindowMinutes long_window * Minute
  /\ window long_window < 0.
Proof. vm_compute. repeat split; reflexivity. Qed.

(** Scenario E of the specification: a window of 60 minutes. *)
Example alert_scenario_E :
  let a := mkAlert "a1" "p1" "errors" "error_count" "" 5 60 "http://hook" true None 0 in
  let at_ (t : Z) := mkEnv t t t false Delivered false in
  let err (t : Z) :=
    mkEvent "p1" "s" "" "error" "" None "" "" "" "" "" ∅ "" "/" "/" "" "" 0 0 "" t ∅ in
  let evs := map (fun i => err (last_trigger - Z.of_nat i * 1000000000)) (seq 1 7) in
  let w0 := mkWorld [a] evs [] in
  let w1 := checkAlerts w0 false (fun _ => at_ last_trigger) in
  let w2 := checkAlerts w1 false (fun _ => at_ (last_trigger + 30 * Minute)) in
  let w2' := mkWorld (alerts w2)
               (map (fun i => err (last_trigger + 55 * Minute + Z.of_nat i)) (seq 0 20)) (posts w2) in
  let w3 := checkAlerts w2' false (fun _ => at_ (last_trigger + 61 * Minute)) in
  map al_LastTriggeredAt (alerts w1) = [Some last_trigger]
  /\ map al_LastTriggeredAt (alerts w2) = [Some last_trigger]
  /\ map al_LastTriggeredAt (alerts w3) = [Some (last_trigger + 61 * Minute)]
  /\ length (posts w3) = 2%nat.
Proof. vm_compute. repeat split; reflexivity. Qed.

End AlertClaims.

(** ** The funnel query *)

Module FunnelFacts.
Import Storage Queries.

Lemma fold_min_le (l : list Z) (x : Z) :
  fold_left Z.min l x <= x /\ Forall (fun y => fold_left Z.min l x <= y) l.
Proof.
  revert x. induction l as [|y l IH]; intros x; simpl; [split; [lia|constructor]|].
  destruct (IH (Z.min x y)) as [H1 H2]. split; [lia|].
  constructor; [lia|done].
Qed.

Lemma fold_min_in (l : list Z) (x : Z) :
  fold_left Z.min l x = x \/ fold_left Z.min l x ∈ l.
Proof.
  revert x. induction l as [|y l IH]; intros x; simpl; [by left|].
  destruct (IH (Z.min x y)) as [H|H].
  - rewrite H. destruct (Z.min_spec x y) as [[_ ->]|[_ ->]]; [by left|].
    right. by left.
  - right. by right.
Qed.

(** [MIN] of a non-empty column is one of its values and below all
    of them. *)
Lemma min_of_spec (l : list Z) :
  l <> [] -> min_of l ∈ l /\ Forall (fun y => min_of l <= y) l.
Proof.
  destruct l as [|x l]; [done|]. intros _. unfold min_of.
  destruct (fold_min_le l x) as [H1 H2]. split.
  - destruct (fold_min_in l x) as [->|H]; [by left|by right].
  - by constructor.
Qed.

Lemma group_min_keys (rows : list (string * Time)) :
  map fst (group_min rows) = remove_dups (map fst rows).
Proof.
  unfold group_min. rewrite map_map. cbn [fst]. apply map_id.
Qed.

(** A row of the grouped table carries a session of the input and the
    least of its times. *)
Lemma group_min_spec (rows : list (string * Time)) (s : string) (t : Time) :
  (s, t) ∈ group_min rows ->
  (s, t) ∈ rows /\ forall t', (s, t') ∈ rows -> t <= t'.
Proof.
  unfold group_min. rewrite list_elem_of_fmap.
  intros (s' & [= <- ->] & Hs). rewrite elem_of_remove_dups in Hs.
  apply list_elem_of_fmap in Hs as ([s0 t0] & -> & Hrow). cbn [fst].
  set (col := map snd (filter (fun r : string * Time => fst r = s0) rows)).
  assert (Hin : forall t', (s0, t') ∈ rows <-> t' ∈ col).
  { intros t'. unfold col. rewrite list_elem_of_fmap. split.
    - intros Ht'. exists (s0, t'). split; [done|]. by apply list_elem_of_filter.
    - intros ([s1 t1] & -> & Hf). apply list_elem_of_filter in Hf as [Hk Hf].
      cbn in Hk. by subst. }
  assert (Hne : col <> []).
  { intros Hnil. apply Hin in Hrow. rewrite Hnil in Hrow. by apply elem_of_nil in Hrow. }
  destruct (min_of_spec col Hne) as [Hmem Hle]. split.
  - by apply Hin.
  - intros t' Ht'. apply Hin in Ht'. rewrite Forall_forall in Hle. by apply Hle.
Qed.

Lemma group_min_NoDup (rows : list (string * Time)) : NoDup (map fst (group_min rows)).
Proof. rewrite group_min_keys. apply NoDup_remove_dups. Qed.

Section Steps.
Context (evs : list Event) (projectID : string) (start end_ : Time).

(** A session is in step [k] only with an event that matches the
    step and is strictly later than its time in step [k-1]; the time
    recorded is that of the earliest such event. *)
Lemma step_next_spec (step : FunnelStep) (prev : list (string * Time))
    (s : string) (t : Time) :
  (s, t) ∈ step_next evs projectID step start end_ prev ->
  exists e tp, e ∈ evs /\ ev_SessionID e = s /\ ev_Timestamp e = t
    /\ step_filter projectID step start end_ e
    /\ (s, tp) ∈ prev /\ tp < t.
Proof.
  unfold step_next. intros Hin. apply group_min_spec in Hin as [Hin _].
  apply list_elem_of_fmap in Hin as ([e [s' tp]] & [= -> ->] & Hf).
  apply list_elem_of_filter in Hf as [(Hs & Hfilter & Hlt) Hprod].
  apply list_elem_of_In, in_prod_iff in Hprod as [He Hp].
  apply list_elem_of_In in He, Hp. cbn [fst snd] in *.
  exists e, tp. rewrite Hs. by do 5 (split; [done|]).
Qed.

Lemma step_next_sessions (step : FunnelStep) (prev : list (string * Time)) :
  map fst (step_next evs projectID step start end_ prev) ⊆ map fst prev.
Proof.
  intros s Hs. apply list_elem_of_fmap in Hs as ([s' t] & -> & Hin). cbn [fst].
  apply step_next_spec in Hin as (e & tp & _ & _ & _ & _ & Hp & _).
  apply list_elem_of_fmap. by exists (s', tp).
Qed.

Lemma step_next_length (step : FunnelStep) (prev : list (string * Time)) :
  (length (step_next evs projectID step start end_ prev) <= length prev)%nat.
Proof.
  rewrite <- (length_map fst), <- (length_map fst prev).
  apply NoDup_incl_length.
  - apply (proj1 (NoDup_ListNoDup _)), group_min_NoDup.
  - intros s Hs. apply list_elem_of_In. apply (step_next_sessions step prev).
    by apply list_elem_of_In.
Qed.

(** A session is in step 1 with its earliest matching event. *)
Lemma step_first_spec (step : FunnelStep) (s : string) (t : Time) :
  (s, t) ∈ step_first evs projectID step start end_ ->
  exists e, e ∈ evs /\ ev_SessionID e = s /\ ev_Timestamp e = t
    /\ step_filter projectID step start end_ e.
Proof.
  unfold step_first. intros Hin. apply group_min_spec in Hin as [Hin _].
  apply list_elem_of_fmap in Hin as (e & [= -> ->] & Hf).
  apply list_elem_of_filter in Hf as [Hfilter He]. by exists e.
Qed.

Lemma later_steps_length (prev : list (string * Time)) (steps : list FunnelStep) :
  length (later_steps evs projectID start end_ prev steps) = length steps.
Proof.
  revert prev. induction steps as [|st steps IH]; intros prev; simpl; [done|].
  by rewrite IH.
Qed.

Lemma step_tables_length (steps : list FunnelStep) :
  length (step_tables evs projectID steps start end_) = length steps.
Proof.
  destruct steps as [|st steps]; simpl; [done|]. by rewrite later_steps_length.
Qed.

Lemma later_steps_0 (prev : list (string * Time)) (steps : list FunnelStep)
    (st : FunnelStep) :
  steps !! 0%nat = Some st ->
  later_steps evs projectID start end_ prev steps !! 0%nat
  = Some (step_next evs projectID st start end_ prev).
Proof. destruct steps as [|st' steps]; [done|]. by intros [= ->]. Qed.

Lemma later_steps_S (prev : list (string * Time)) (steps : list FunnelStep) (k : nat)
    (st : FunnelStep) (tk : list (string * Time)) :
  later_steps evs projectID start end_ prev steps !! k = Some tk ->
  steps !! S k = Some st ->
  later_steps evs projectID start end_ prev steps !! S k
  = Some (step_next evs projectID st start end_ tk).
Proof.
  revert prev k tk. induction steps as [|st' steps IH]; intros prev k tk Hk Hst; [done|].
  destruct k as [|k]; cbn [later_steps] in *.
  - injection Hk as <-. cbn [lookup list_lookup] in *. by apply later_steps_0.
  - cbn [lookup list_lookup] in *. by eapply IH.
Qed.

(** Each step table after the first is computed from the one before
    it. *)
Lemma step_tables_S (steps : list FunnelStep) (k : nat) (st : FunnelStep)
    (tk : list (string * Time)) :
  step_tables evs projectID steps start end_ !! k = Some tk ->
  steps !! S k = Some st ->
  step_tables evs projectID steps start end_ !! S k
  = Some (step_next evs projectID st start end_ tk).
Proof.
  destruct steps as [|st0 steps]; [done|]. cbn [step_tables].
  destruct k as [|k]; cbn [lookup list_lookup]; intros Hk Hst.
  - injection Hk as <-. by apply later_steps_0.
  - by eapply later_steps_S.
Qed.

Lemma step_tables_0 (steps : list FunnelStep) (st : FunnelStep) :
  steps !! 0%nat = Some st ->
  step_tables evs projectID steps start end_ !! 0%nat
  = Some (step_first evs projectID st start end_).
Proof. destruct steps as [|st' steps]; [done|]. by intros [= ->]. Qed.

End Steps.

End FunnelFacts.

Module FunnelClaims.
Import Storage Queries FunnelFacts.

Lemma QueryFunnel_rows (evs : list Event) (projectID : string) (steps : list FunnelStep)
    (start end_ : Time) :
  QueryFunnel evs false projectID steps start end_
  = Rows (imap (fun i st => mkFunnelResult (step_label i st.1) (Z.of_nat (length st.2)))
               (zip steps (step_tables evs projectID steps start end_))).
Proof. by destruct steps. Qed.

Lemma funnel_result_lookup (evs : list Event) (projectID : string)
    (steps : list FunnelStep) (start end_ : Time) (k : nat) (st : FunnelStep)
    (table : list (string * Time)) :
  steps !! k = Some st ->
  step_tables evs projectID steps start end_ !! k = Some table ->
  imap (fun i st => mkFunnelResult (step_label i st.1) (Z.of_nat (length st.2)))
       (zip steps (step_tables evs projectID steps start end_)) !! k
  = Some (mkFunnelResult (step_label k st) (Z.of_nat (length table))).
Proof.
  intros Hst Htab. rewrite list_lookup_imap.
  assert (Hzip : zip steps (step_tables evs projectID steps start end_) !! k
                 = Some (st, table)).
  { apply lookup_zip_with_Some. by exists st, table. }
  by rewrite Hzip.
Qed.

(** C2 -- [QueryFunnel] returns one row per step, in step order,
    labelled [Step k: ...] and counting the sessions of step table
    [k].  The sessions of every step table after the first are
    sessions of the table before it, so the counts do not increase, and
    each of them has an event that matches the step and is strictly
    later than the time recorded for the session in the table
    before. *)
Theorem funnel_is_ordered (evs : list Event) (projectID : string)
    (steps : list FunnelStep) (start end_ : Time) :
  let tables := step_tables evs projectID steps start end_ in
  exists results,
    QueryFunnel evs false projectID steps start end_ = Rows results
    /\ length results = length steps
    /\ (forall k st, steps !! k = Some st ->
          exists table, tables !! k = Some table
            /\ results !! k
               = Some (mkFunnelResult (step_label k st) (Z.of_nat (length table))))
    /\ (forall k st prev, steps !! S k = Some st -> tables !! k = Some prev ->
          exists cur r_prev r_cur,
            tables !! S k = Some cur
            /\ results !! k = Some r_prev /\ results !! S k = Some r_cur
            /\ map fst cur ⊆ map fst prev
            /\ fr_Count r_cur <= fr_Count r_prev
            /\ forall s t, (s, t) ∈ cur ->
                 exists e tp, e ∈ evs /\ ev_SessionID e = s
                   /\ step_filter projectID st start end_ e
                   /\ (s, tp) ∈ prev /\ tp < ev_Timestamp e).
Proof.
  intros tables. eexists. split; [apply QueryFunnel_rows|].
  assert (Hlen : length tables = length steps) by apply step_tables_length.
  split; [|split].
  - rewrite length_imap, length_zip_with. fold tables. lia.
  - intros k st Hst.
    destruct (tables !! k) as [table|] eqn:Htab.
    + exists table. split; [done|]. by apply funnel_result_lookup.
    + apply lookup_ge_None in Htab. apply lookup_lt_Some in Hst. lia.
  - intros k st prev Hst Hprev.
    pose proof (step_tables_S evs projectID start end_ steps k st prev Hprev Hst) as Hcur.
    destruct (steps !! k) as [st0|] eqn:Hst0;
      [|apply lookup_ge_None in Hst0; apply lookup_lt_Some in Hst; lia].
    eexists _, _, _. split; [exact Hcur|].
    split; [by apply funnel_result_lookup|].
    split; [by apply funnel_result_lookup|].
    split; [apply step_next_sessions|]. split.
    + cbn [fr_Count]. pose proof (step_next_length evs projectID start end_ st prev). lia.
    + intros s t Hin.
      destruct (step_next_spec evs projectID start end_ st prev s t Hin)
        as (e & tp & He & Hs & Ht & Hf & Hp & Hlt).
      exists e, tp. rewrite Ht. by do 4 (split; [done|]).
Qed.

(** Scenario C of the specification. *)
Example funnel_scenario_C :
  QueryFunnel Examples.cart_sessions false "p1" Examples.cart_funnel zeroTime zeroTime
  = Rows [mkFunnelResult "Step 1: pageview" 3; mkFunnelResult "Step 2: Add to Cart" 2;
          mkFunnelResult "Step 3: /checkout" 1].
Proof. vm_compute. reflexivity. Qed.

End FunnelClaims.

(** ** The trends breakdown query *)

Module OrderFacts.
Import Queries.

Lemma compare_trans_le (a b c : string) :
  String.compare a b <> Gt -> String.compare b c <> Gt -> String.compare a c <> Gt.
Proof.
  revert b c. induction a as [|x a IH]; intros [|y b] [|z c]; simpl; try done.
  unfold Ascii.compare.
  destruct (N.compare_spec (N_of_ascii x) (N_of_ascii y)) as [Hxy|Hxy|Hxy];
    destruct (N.compare_spec (N_of_ascii y) (N_of_ascii z)) as [Hyz|Hyz|Hyz];
    destruct (N.compare_spec (N_of_ascii x) (N_of_ascii z)) as [Hxz|Hxz|Hxz];
    try done; try lia.
  apply IH.
Qed.

Lemma leb_compare (a b : string) : str_le a b <-> String.compare a b <> Gt.
Proof. unfold str_le, String.leb. by destruct (String.compare a b). Qed.

#[export] Instance str_le_trans : Transitive str_le.
Proof. intros a b c. rewrite !leb_compare. apply compare_trans_le. Qed.

#[export] Instance str_le_total : Total str_le.
Proof. intros a b. apply String.leb_total. Qed.

Lemma str_le_antisym (a b : string) : str_le a b -> str_le b a -> a = b.
Proof. apply String.leb_antisym. Qed.

Lemma str_le_refl (a : string) : str_le a a.
Proof. by destruct (str_le_total a a). Qed.

#[export] Instance row_le_trans : Transitive row_le.
Proof.
  intros a b c [H1 H2] [H3 H4]. split; [by etrans|].
  intros Heq. rewrite Heq in H1.
  pose proof (str_le_antisym _ _ H3 H1) as Hbc.
  assert (Hab : a.1 = b.1) by congruence.
  etrans; [by apply H2|by apply H4].
Qed.

#[export] Instance row_le_total : Total row_le.
Proof.
  intros a b. unfold row_le.
  destruct (decide (a.1 = b.1)) as [Heq|Hne].
  - rewrite Heq. destruct (str_le_total a.2 b.2) as [H|H].
    + left. split; [apply str_le_refl|done].
    + right. split; [apply str_le_refl|done].
  - destruct (str_le_total a.1 b.1) as [H|H].
    + left. split; [done|]. by intros ?.
    + right. split; [done|]. by intros ?.
Qed.

End OrderFacts.


Module TrendFacts.
Import Storage Queries OrderFacts Int64Facts.

Lemma omap_length_le {A B} (f : A -> option B) (l : list A) :
  (length (omap f l) <= length l)%nat.
Proof. induction l as [|x l IH]; cbn; [lia|]. destruct (f x); cbn; lia. Qed.

(** *** The rows of the query *)

Section Rows.
Context `{DateTrunc}.
Variables (evs : list Event) (projectID interval groupBy : string) (start end_ : Time).

#[local] Abbreviation keys := (breakdown_keys evs projectID interval groupBy start end_).
#[local] Abbreviation rows := (breakdown_rows evs projectID interval groupBy start end_).

Lemma rows_keys : map fst rows = merge_sort row_le (remove_dups keys).
Proof.
  unfold breakdown_rows. rewrite map_map. cbn. apply map_id.
Qed.

Lemma rows_sorted : StronglySorted row_le (map fst rows).
Proof. rewrite rows_keys. apply (StronglySorted_merge_sort row_le); apply _. Qed.

Lemma rows_NoDup : NoDup (map fst rows).
Proof.
  rewrite rows_keys, merge_sort_Permutation. apply NoDup_remove_dups.
Qed.

Lemma rows_elem (k : string * string) : k ∈ map fst rows <-> k ∈ keys.
Proof.
  rewrite rows_keys, merge_sort_Permutation. apply elem_of_remove_dups.
Qed.

Lemma rows_count (row : string * string * Z) :
  row ∈ rows -> row.2 = Z.of_nat (length (filter (fun k' => k' = row.1) keys)).
Proof.
  unfold breakdown_rows. rewrite list_elem_of_fmap. by intros (k & -> & _).
Qed.

Lemma keys_length : (length keys <= length evs)%nat.
Proof. unfold breakdown_keys. apply omap_length_le. Qed.

End Rows.

End TrendFacts.


Module ScanFacts.
Import Storage Queries OrderFacts Int64Facts.

Implicit Types (rows : list (string * string * Z)) (s : string).

#[local] Abbreviation series_of := (fun row : string * string * Z => row.1.2).

(** *** First-seen order *)

Lemma first_seen_elem (l : list string) (x : string) : x ∈ first_seen l <-> x ∈ l.
Proof.
  induction l as [|y l IH]; cbn; [done|].
  rewrite !elem_of_cons, list_elem_of_filter, IH.
  destruct (decide (x = y)); tauto.
Qed.

Lemma first_seen_NoDup (l : list string) : NoDup (first_seen l).
Proof.
  induction l as [|y l IH]; cbn; [constructor|].
  constructor; [|by apply NoDup_filter].
  rewrite list_elem_of_filter. tauto.
Qed.

Lemma first_seen_snoc (l : list string) (x : string) :
  first_seen (l ++ [x]) = if decide (x ∈ l) then first_seen l else first_seen l ++ [x].
Proof.
  induction l as [|y l IH]; cbn.
  - rewrite decide_False by apply not_elem_of_nil. done.
  - rewrite IH. destruct (decide (x ∈ l)) as [Hin|Hin].
    + rewrite decide_True by (by right). done.
    + rewrite filter_app. destruct (decide (x = y)) as [->|Hne].
      * rewrite decide_True by left. cbn.
        rewrite decide_False by tauto. by rewrite app_nil_r.
      * rewrite decide_False by (rewrite elem_of_cons; tauto). cbn.
        rewrite decide_True by done. done.
Qed.

(** *** The loop over the rows *)

Lemma scan_rows_snoc rows (row : string * string * Z) :
  scan_rows (rows ++ [row]) = scan_row (scan_rows rows) row.
Proof. unfold scan_rows. by rewrite fold_left_app. Qed.

Lemma points_of_snoc rows (row : string * string * Z) s :
  points_of (rows ++ [row]) s
  = points_of rows s
    ++ (if decide (row.1.2 = s) then [mkTrendPoint row.1.1 row.2] else []).
Proof.
  unfold points_of. rewrite omap_app. cbn. by destruct (decide (row.1.2 = s)).
Qed.

Lemma points_of_absent rows s : s ∉ map series_of rows -> points_of rows s = [].
Proof.
  unfold points_of. induction rows as [|row rows IH]; [done|]. cbn.
  rewrite not_elem_of_cons. intros [Hne Hin].
  rewrite decide_False by done. by apply IH.
Qed.

Lemma scan_rows_spec rows :
  (forall s, (scan_rows rows).1 !! s
             = if decide (s ∈ map series_of rows) then Some (points_of rows s) else None)
  /\ (scan_rows rows).2 = first_seen (map series_of rows).
Proof.
  induction rows as [|row rows [IHd IHo]] using rev_ind.
  - split; [|done]. intros s. cbn. rewrite lookup_empty.
    by rewrite decide_False by apply not_elem_of_nil.
  - rewrite scan_rows_snoc. destruct (scan_rows rows) as [sd so]. cbn in IHd, IHo.
    destruct row as [[bucket series] count]. cbn [scan_row fst snd].
    rewrite map_app. cbn [map]. split.
    + intros s. rewrite points_of_snoc. cbn [fst snd].
      destruct (decide (series = s)) as [->|Hne].
      * rewrite lookup_insert_eq, IHd.
        rewrite (decide_True (P := s ∈ _ ++ _)) by (rewrite elem_of_app, list_elem_of_singleton; tauto).
        destruct (decide (s ∈ map series_of rows)) as [Hin|Hin]; [done|].
        by rewrite points_of_absent.
      * rewrite lookup_insert_ne by done. rewrite IHd, app_nil_r.
        destruct (decide (s ∈ map series_of rows)) as [Hin|Hin].
        -- rewrite decide_True by (rewrite elem_of_app; tauto). done.
        -- rewrite decide_False; [done|].
           rewrite elem_of_app, list_elem_of_singleton. intros [?|?]; congruence.
    + rewrite first_seen_snoc, IHd, IHo. cbn [fst snd].
      by destruct (decide (series ∈ map series_of rows)).
Qed.

Lemma scan_rows_data rows s :
  default [] ((scan_rows rows).1 !! s) = points_of rows s.
Proof.
  rewrite (proj1 (scan_rows_spec rows)).
  destruct (decide (s ∈ map series_of rows)) as [Hin|Hin]; [done|].
  by rewrite points_of_absent.
Qed.

Lemma scan_rows_dom rows s :
  is_Some ((scan_rows rows).1 !! s) <-> s ∈ map series_of rows.
Proof.
  rewrite (proj1 (scan_rows_spec rows)).
  destruct (decide (s ∈ map series_of rows)); [|by rewrite is_Some_alt].
  split; [done|]. by eexists.
Qed.

End ScanFacts.


Module PointFacts.
Import Storage Queries OrderFacts Int64Facts.

Implicit Types (rows : list (string * string * Z)) (s : string).

Lemma points_of_cons rows (row : string * string * Z) s :
  points_of (row :: rows) s
  = if decide (row.1.2 = s)
    then mkTrendPoint row.1.1 row.2 :: points_of rows s
    else points_of rows s.
Proof. unfold points_of. cbn. by destruct (decide (row.1.2 = s)). Qed.

Lemma points_of_elem rows s (p : TrendPoint) :
  p ∈ points_of rows s
  <-> exists row, row ∈ rows /\ row.1.2 = s /\ p = mkTrendPoint row.1.1 row.2.
Proof.
  unfold points_of. rewrite list_elem_of_omap. split.
  - intros (row & Hin & Hrow). exists row.
    destruct (decide (row.1.2 = s)); [|done]. by inversion Hrow.
  - intros (row & Hin & Hs & ->). exists row. split; [done|].
    by rewrite decide_True.
Qed.

(** Rows in the order of [ORDER BY bucket, series], one per group: the
    buckets of one series ascend strictly. *)
Lemma points_sorted rows s :
  StronglySorted row_le (map fst rows) -> NoDup (map fst rows) ->
  StronglySorted bucket_lt (points_of rows s).
Proof.
  induction rows as [|row rows IH]; intros Hsorted Hnodup; [constructor|].
  cbn [map] in Hsorted, Hnodup.
  apply StronglySorted_inv in Hsorted as [Hsorted Hall].
  apply NoDup_cons in Hnodup as [Hnotin Hnodup].
  rewrite points_of_cons.
  destruct (decide (row.1.2 = s)) as [Hs|Hs]; [|by apply IH].
  constructor; [by apply IH|].
  apply Forall_forall. intros p (row' & Hin & Hs' & ->)%points_of_elem.
  rewrite Forall_forall in Hall.
  assert (Hfst : row'.1 ∈ map fst rows) by (apply list_elem_of_fmap; eauto).
  destruct (Hall _ Hfst) as [Hle _]. split; [done|]. cbn. intros Heq.
  apply Hnotin. replace row.1 with row'.1; [done|].
  destruct row as [[b1 s1] c1], row' as [[b2 s2] c2]. cbn in *. congruence.
Qed.

(** *** Totals *)

Lemma total_of_fold {A} (cnt : A -> nat) (f : A -> string) (l : list A) (a : nat) :
  Z.of_nat (a + sum_list_with cnt l) < 2 ^ 63 ->
  fold_left (fun total e => wrap64 (total + tp_Count e))
            (map (fun k => mkTrendPoint (f k) (Z.of_nat (cnt k))) l) (Z.of_nat a)
  = Z.of_nat (a + sum_list_with cnt l).
Proof.
  revert a. induction l as [|k l IH]; intros a Hlt; cbn.
  - f_equal. lia.
  - cbn in Hlt. rewrite wrap64_small by (unfold minDuration, maxDuration; lia).
    rewrite <- Nat2Z.inj_add. rewrite IH by lia. f_equal. lia.
Qed.

Lemma sum_indicator {A} `{EqDecision A} (a : A) (l : list A) :
  NoDup l ->
  sum_list_with (fun k => if decide (a = k) then 1%nat else 0%nat) l
  = if decide (a ∈ l) then 1%nat else 0%nat.
Proof.
  induction l as [|x l IH]; intros Hnd; cbn.
  - by rewrite decide_False by apply not_elem_of_nil.
  - apply NoDup_cons in Hnd as [Hx Hnd]. rewrite IH by done.
    destruct (decide (a = x)) as [->|Hne].
    + rewrite decide_False by done. by rewrite decide_True by left.
    + destruct (decide (a ∈ l)) as [Hin|Hin].
      * by rewrite decide_True by (by right).
      * rewrite decide_False; [done|]. rewrite elem_of_cons. tauto.
Qed.

Lemma sum_list_with_add {A} (f g : A -> nat) (l : list A) :
  sum_list_with (fun k => (f k + g k)%nat) l
  = (sum_list_with f l + sum_list_with g l)%nat.
Proof. induction l as [|x l IH]; cbn; [done|]. rewrite IH. lia. Qed.

Lemma sum_list_with_ext {A} (f g : A -> nat) (l : list A) :
  (forall x, f x = g x) -> sum_list_with f l = sum_list_with g l.
Proof. intros Hfg. induction l as [|x l IH]; cbn; [done|]. by rewrite Hfg, IH. Qed.

(** The sizes of the groups of the selected keys add up to the number of
    selected keys. *)
Lemma sum_groups {A} `{EqDecision A} (P : A -> Prop) `{forall x, Decision (P x)}
    (keys ks : list A) :
  NoDup ks -> (forall k, k ∈ keys -> k ∈ ks) ->
  sum_list_with (fun k => length (filter (fun k' => k' = k) keys)) (filter P ks)
  = length (filter P keys).
Proof.
  intros Hnd. induction keys as [|a keys IH]; intros Hsub.
  - cbn. by induction (filter P ks) as [|x l IHl].
  - rewrite (sum_list_with_ext _
        (fun k => ((if decide (a = k) then 1 else 0)
                   + length (filter (fun k' => k' = k) keys))%nat)).
    2: { intros x. rewrite filter_cons. destruct (decide (a = x)); by cbn. }
    rewrite sum_list_with_add, IH by (intros k Hk; apply Hsub; by right).
    rewrite sum_indicator by (by apply NoDup_filter).
    rewrite filter_cons. destruct (decide (P a)) as [HP|HP].
    + rewrite decide_True; [done|].
      apply list_elem_of_filter. split; [done|]. apply Hsub. left.
    + rewrite decide_False; [done|]. rewrite list_elem_of_filter. tauto.
Qed.

Lemma points_of_map (cnt : string * string -> nat) (ks : list (string * string)) s :
  points_of (map (fun k => (k, Z.of_nat (cnt k))) ks) s
  = map (fun k => mkTrendPoint k.1 (Z.of_nat (cnt k)))
        (filter (fun k : string * string => k.2 = s) ks).
Proof.
  induction ks as [|k ks IH]; [done|]. cbn [map].
  rewrite points_of_cons, filter_cons. cbn [fst snd].
  destruct (decide (k.2 = s)); cbn [map]; by rewrite IH.
Qed.

Section Rows.
Context `{DateTrunc}.
Variables (evs : list Event) (projectID interval groupBy : string) (start end_ : Time).

#[local] Abbreviation keys := (breakdown_keys evs projectID interval groupBy start end_).
#[local] Abbreviation rows := (breakdown_rows evs projectID interval groupBy start end_).

(** The total the code computes for a series is the number of selected
    events of that series. *)
Lemma total_of_points s :
  Z.of_nat (length evs) < 2 ^ 63 ->
  total_of (points_of rows s) = series_total keys s.
Proof.
  intros Hlen. unfold total_of, breakdown_rows, series_total.
  rewrite (points_of_map (fun k => length (filter (fun k' => k' = k) keys))).
  assert (Hsum :
    sum_list_with (fun k => length (filter (fun k' => k' = k) keys))
      (filter (fun k : string * string => k.2 = s) (merge_sort row_le (remove_dups keys)))
    = length (filter (fun k : string * string => k.2 = s) keys)).
  { apply sum_groups.
    - rewrite merge_sort_Permutation. apply NoDup_remove_dups.
    - intros k Hk. rewrite merge_sort_Permutation. by apply elem_of_remove_dups. }
  change 0 with (Z.of_nat 0). rewrite total_of_fold; rewrite Hsum; cbn [Nat.add]; [done|].
  pose proof (TrendFacts.keys_length evs projectID interval groupBy start end_).
  pose proof (length_filter (fun k : string * string => k.2 = s) keys). lia.
Qed.

End Rows.

End PointFacts.


Module TopFacts.
Import Storage Queries OrderFacts.

Implicit Types (sd : gmap string (list TrendPoint)) (so : list string)
  (scores : list (string * Z)).

Lemma pick_top_names sd so scores :
  map ts_Name (pick_top sd so scores) = filter (fun name => name ∈ top_names scores) so.
Proof.
  unfold pick_top, top_names. cbv zeta.
  induction so as [|name so IH]; [done|]. cbn [omap list_omap]. rewrite filter_cons.
  destruct (decide (name ∈ map fst _)) as [Hin|Hin].
  - rewrite decide_True by (by apply elem_of_list_to_set). cbn [map ts_Name].
    f_equal. exact IH.
  - rewrite decide_False by (by rewrite elem_of_list_to_set). exact IH.
Qed.

Lemma pick_top_data sd so scores (r : TrendSeries) :
  r ∈ pick_top sd so scores -> ts_Data r = default [] (sd !! ts_Name r).
Proof.
  unfold pick_top. rewrite list_elem_of_omap. intros (name & _ & Hr).
  destruct (decide _); [|done]. by inversion Hr.
Qed.

Lemma scores_elem sd scores (s : string) (t : Z) :
  scores_of sd scores ->
  (s, t) ∈ scores <-> exists entries, sd !! s = Some entries /\ t = total_of entries.
Proof.
  intros [Hperm _]. rewrite Hperm, elem_of_map_to_list, lookup_fmap.
  destruct (sd !! s) as [entries|]; cbn; split.
  - intros [= <-]. by eexists.
  - by intros (? & [= <-] & ->).
  - done.
  - by intros (? & ? & _).
Qed.

Lemma scores_NoDup sd scores : scores_of sd scores -> NoDup (map fst scores).
Proof.
  intros [Hperm _]. change (map fst scores) with (scores.*1).
  rewrite Hperm. apply NoDup_fst_map_to_list.
Qed.

Lemma top_names_NoDup sd scores : scores_of sd scores -> NoDup (top_names scores).
Proof.
  intros Hs%scores_NoDup. unfold top_names.
  rewrite <- (firstn_skipn (if (length scores <? 8)%nat then length scores else 8%nat) scores)
    in Hs at 1.
  rewrite map_app in Hs. by apply NoDup_app in Hs as [? _].
Qed.

Lemma top_names_length scores :
  length (top_names scores) = Nat.min 8 (length scores).
Proof.
  unfold top_names. rewrite length_map, length_firstn.
  destruct (Nat.ltb_spec (length scores) 8); lia.
Qed.

Lemma top_names_known sd scores (s : string) :
  scores_of sd scores -> s ∈ top_names scores -> is_Some (sd !! s).
Proof.
  intros Hs. unfold top_names. rewrite list_elem_of_fmap.
  intros ([s' t] & -> & Hin). cbn.
  assert (Hin' : (s', t) ∈ scores).
  { rewrite <- (firstn_skipn (if (length scores <? 8)%nat then length scores else 8%nat) scores).
    apply elem_of_app. by left. }
  apply (scores_elem sd scores s' t Hs) in Hin' as (entries & -> & _). by eexists.
Qed.

(** A series outside the first [topN] scores has a total that is at
    most the total of each series among them. *)
Lemma top_names_dominate sd scores (s s' : string) (es es' : list TrendPoint) :
  scores_of sd scores ->
  s ∈ top_names scores -> s' ∉ top_names scores ->
  sd !! s = Some es -> sd !! s' = Some es' ->
  total_of es' <= total_of es.
Proof.
  intros Hs Hin Hout Hes Hes'.
  set (n := if (length scores <? 8)%nat then length scores else 8%nat).
  assert (Hsplit : scores = firstn n scores ++ skipn n scores) by (symmetry; apply firstn_skipn).
  unfold top_names in Hin, Hout. fold n in Hin, Hout.
  apply list_elem_of_fmap in Hin as ([s1 t] & -> & Hin). cbn in Hes.
  assert (Ht : t = total_of es).
  { assert (Hin' : (s1, t) ∈ scores).
    { rewrite Hsplit. apply elem_of_app. by left. }
    apply (scores_elem sd scores s1 t Hs) in Hin' as (? & ? & ->). congruence. }
  assert (Hin2 : (s', total_of es') ∈ scores).
  { apply (scores_elem sd scores s' _ Hs). eauto. }
  rewrite Hsplit in Hin2. apply elem_of_app in Hin2 as [Hin2|Hin2].
  { exfalso. apply Hout. apply list_elem_of_fmap. by exists (s', total_of es'). }
  destruct Hs as [_ Hsorted]. rewrite Hsplit in Hsorted.
  pose proof (StronglySorted_app_1_elem_of _ _ _ _ _ Hsorted Hin Hin2) as Hge.
  unfold score_ge in Hge. cbn in Hge. by subst t.
Qed.

Lemma scores_length sd scores : scores_of sd scores -> length scores = size sd.
Proof.
  intros [Hperm _]. rewrite Hperm, length_map_to_list. apply map_size_fmap.
Qed.

#[export] Instance score_ge_trans : Transitive score_ge.
Proof. intros a b c. unfold score_ge. lia. Qed.

#[export] Instance score_ge_total : Total score_ge.
Proof. intros a b. unfold score_ge. lia. Qed.

Lemma some_scores_of sd : scores_of sd (some_scores sd).
Proof.
  split.
  - apply merge_sort_Permutation.
  - apply (StronglySorted_merge_sort score_ge); apply _.
Qed.

End TopFacts.


Module TrendRows.
Import Storage Queries OrderFacts TrendFacts ScanFacts PointFacts TopFacts.

#[local] Abbreviation series_of := (fun row : string * string * Z => row.1.2).

(** The result in terms of the rows the query returns: at most 8
    series (all of them when there are at most 8); no series left out
    has a larger total than a returned one; the returned series are in
    the order in which the rows first mention them; the points of a
    series are its rows. *)
Lemma breakdown_by_rows `{DateTrunc} (evs : list Event)
    (projectID interval groupBy : string) (start end_ : Time)
    (scores : list (string * Z)) :
  Z.of_nat (length evs) < 2 ^ 63 ->
  scores_of (scan_rows (breakdown_rows evs projectID (normal_interval interval)
                          groupBy start end_)).1 scores ->
  exists res,
    QueryTrendsBreakdown evs false projectID interval groupBy start end_ scores = Rows res
    /\ (length res <= 8)%nat
    /\ length res
       = Nat.min 8 (length (first_seen (map series_of
           (breakdown_rows evs projectID (normal_interval interval) groupBy start end_))))
    /\ (forall r s,
          r ∈ res ->
          s ∈ map series_of
                (breakdown_rows evs projectID (normal_interval interval) groupBy start end_) ->
          s ∉ map ts_Name res ->
          series_total (breakdown_keys evs projectID (normal_interval interval)
                          groupBy start end_) s
          <= series_total (breakdown_keys evs projectID (normal_interval interval)
                             groupBy start end_) (ts_Name r))
    /\ sublist (map ts_Name res)
         (first_seen (map series_of
            (breakdown_rows evs projectID (normal_interval interval) groupBy start end_)))
    /\ (forall r,
          r ∈ res ->
          ts_Data r
          = points_of (breakdown_rows evs projectID (normal_interval interval)
                         groupBy start end_) (ts_Name r)
          /\ StronglySorted bucket_lt (ts_Data r)).
Proof.
  intros Hlen Hscores. unfold QueryTrendsBreakdown.
  set (rows := breakdown_rows evs projectID (normal_interval interval) groupBy start end_) in *.
  set (keys := breakdown_keys evs projectID (normal_interval interval) groupBy start end_).
  destruct (scan_rows_spec rows) as [Hdata Horder].
  pose proof (scan_rows_data rows) as Hdefault.
  pose proof (scan_rows_dom rows) as Hdom.
  destruct (scan_rows rows) as [sd so] eqn:Hscan. cbn [fst snd] in *.
  eexists. split; [reflexivity|].
  pose proof (pick_top_names sd so scores) as Hnames.
  assert (Hperm : map ts_Name (pick_top sd so scores) ≡ₚ top_names scores).
  { rewrite Hnames. apply NoDup_Permutation.
    - apply NoDup_filter. rewrite Horder. apply first_seen_NoDup.
    - by apply (top_names_NoDup sd).
    - intros s. rewrite list_elem_of_filter. split; [tauto|]. intros Hs.
      split; [done|]. rewrite Horder, first_seen_elem. apply Hdom.
      by apply (top_names_known sd scores). }
  assert (Hsize : length so = length scores).
  { rewrite (scores_length sd scores Hscores).
    rewrite <- (length_map_to_list sd).
    rewrite <- (length_map fst (map_to_list sd)). apply Permutation_length.
    apply NoDup_Permutation.
    - rewrite Horder. apply first_seen_NoDup.
    - apply NoDup_fst_map_to_list.
    - intros s. rewrite Horder, first_seen_elem, <- Hdom.
      rewrite list_elem_of_fmap. split.
      + intros [es Hes]. exists (s, es). split; [done|]. by apply elem_of_map_to_list.
      + intros ([s' es] & -> & Hin%elem_of_map_to_list). by eexists. }
  assert (Hlength : length (pick_top sd so scores) = Nat.min 8 (length so)).
  { rewrite <- (length_map ts_Name), Hperm, top_names_length. by rewrite Hsize. }
  split; [lia|]. split; [by rewrite <- Horder|]. split; [|split].
  - intros r s Hr Hs Hout.
    assert (Hrname : ts_Name r ∈ top_names scores).
    { rewrite <- Hperm. apply list_elem_of_fmap. by exists r. }
    assert (Hsout : s ∉ top_names scores) by (by rewrite <- Hperm).
    apply Hdom in Hs as [es' Hes'].
    destruct (top_names_known sd scores _ Hscores Hrname) as [es Hes].
    pose proof (top_names_dominate sd scores _ _ _ _ Hscores Hrname Hsout Hes Hes') as Hle.
    pose proof (Hdefault s) as Hs1. pose proof (Hdefault (ts_Name r)) as Hr1.
    rewrite Hes' in Hs1. rewrite Hes in Hr1. cbn in Hs1, Hr1. subst es es'.
    unfold rows in Hle. by rewrite !total_of_points in Hle.
  - rewrite Hnames, <- Horder. apply sublist_filter.
  - intros r Hr. rewrite (pick_top_data sd so scores r Hr), Hdefault.
    split; [done|]. apply points_sorted.
    + apply rows_sorted.
    + apply rows_NoDup.
Qed.

End TrendRows.

Module SeriesFacts.
Import Storage Queries OrderFacts TrendFacts ScanFacts PointFacts.

#[local] Abbreviation series_of := (fun row : string * string * Z => row.1.2).

Lemma series_expr_dimension (groupBy : string) (e : Event) :
  series_expr groupBy e = Some (dimension groupBy e).
Proof.
  unfold series_expr, dimension.
  destruct (String.eqb_spec groupBy "event_type") as [->|Hne1]; [done|].
  rewrite decide_False by done.
  destruct (String.eqb_spec groupBy "url_path") as [->|Hne2]; [done|].
  rewrite decide_False by done. by destruct (ev_EventName e).
Qed.

Lemma bucket_unit_normal (interval unit : string) :
  bucket_unit interval unit -> unit = normal_interval interval.
Proof.
  unfold bucket_unit, normal_interval. intros [[Hin ->]|[Hout ->]].
  - by rewrite bool_decide_eq_true_2.
  - by rewrite bool_decide_eq_false_2.
Qed.

Section Keys.
Context `{DateTrunc}.
Variables (evs : list Event) (projectID interval groupBy : string) (start end_ : Time).

#[local] Abbreviation keys := (breakdown_keys evs projectID interval groupBy start end_).
#[local] Abbreviation rows := (breakdown_rows evs projectID interval groupBy start end_).

(** The selected rows with a property are as many as the events of the
    project in the range whose bucket and series have it. *)
Lemma keys_count (P : string * string -> Prop) `{forall k, Decision (P k)} :
  (forall k, P k -> k.2 <> ""%string) ->
  length (filter P keys)
  = length (filter (fun e => (ev_ProjectID e = projectID
                               /\ to_micro start <= ev_Timestamp e <= to_micro end_)
                              /\ P (bucket_label interval (ev_Timestamp e),
                                    dimension groupBy e)) evs).
Proof.
  intros Hname. unfold breakdown_keys. induction evs as [|e l IH]; [done|].
  cbn [omap list_omap]. rewrite (filter_cons _ e), series_expr_dimension.
  destruct (decide (ev_ProjectID e = projectID
                    /\ to_micro start <= ev_Timestamp e <= to_micro end_)) as [Hin|Hout].
  - destruct (decide (dimension groupBy e = ""%string)) as [Hempty|Hfull].
    + rewrite decide_False; [exact IH|]. intros [_ HP]. by apply Hname in HP.
    + rewrite filter_cons.
      destruct (decide (P (bucket_label interval (ev_Timestamp e), dimension groupBy e))).
      * rewrite decide_True by done. cbn [length]. by f_equal.
      * rewrite decide_False by tauto. exact IH.
  - rewrite decide_False by tauto. exact IH.
Qed.

Lemma keys_named (k : string * string) : k ∈ keys -> k.2 <> ""%string.
Proof.
  unfold breakdown_keys. rewrite list_elem_of_omap. intros (e & _ & He).
  destruct (decide _); [|done]. rewrite series_expr_dimension in He.
  destruct (decide (dimension groupBy e = ""%string)); [done|]. by injection He as <-.
Qed.

Lemma series_total_range (s : string) :
  s <> ""%string ->
  series_total keys s = range_total evs projectID groupBy start end_ s.
Proof.
  intros Hs. unfold series_total, range_total. f_equal.
  rewrite (keys_count (fun k => k.2 = s)) by (by intros k ->).
  f_equal. apply list_filter_iff. intros e. unfold of_series. cbn [snd]. tauto.
Qed.

Lemma key_count_bucket (b s : string) :
  s <> ""%string ->
  Z.of_nat (length (filter (fun k => k = (b, s)) keys))
  = bucket_total evs projectID interval groupBy start end_ s b.
Proof.
  intros Hs. unfold bucket_total. f_equal.
  rewrite (keys_count (fun k => k = (b, s))) by (by intros k ->).
  f_equal. apply list_filter_iff. intros e. unfold of_series. split.
  - intros [[Hp Ht] [= Hb Hd]]. tauto.
  - intros [(Hp & Ht & Hd) Hb]. split; [tauto|]. by rewrite Hb, Hd.
Qed.

Lemma series_of_rows (s : string) :
  s ∈ map series_of rows <-> s <> ""%string /\ 0 < series_total keys s.
Proof.
  assert (Hrows : s ∈ map series_of rows <-> exists b, (b, s) ∈ keys).
  { rewrite <- (map_map fst snd rows). rewrite list_elem_of_fmap. split.
    - intros ([b s'] & -> & Hin%rows_elem). by exists b.
    - intros [b Hin%rows_elem]. by exists (b, s). }
  rewrite Hrows. unfold series_total. split.
  - intros [b Hin]. split; [by apply (keys_named (b, s))|].
    assert (Hf : (b, s) ∈ filter (fun k : string * string => k.2 = s) keys)
      by (by apply list_elem_of_filter).
    destruct (filter _ keys); [by apply elem_of_nil in Hf|]. cbn [length]. lia.
  - intros [_ Hpos].
    destruct (filter (fun k : string * string => k.2 = s) keys) as [|[b s'] l] eqn:Hf;
      [cbn in Hpos; lia|].
    assert (Hin : (b, s') ∈ filter (fun k : string * string => k.2 = s) keys)
      by (rewrite Hf; left).
    apply list_elem_of_filter in Hin as [Hs Hin]. cbn in Hs. subst s'. by exists b.
Qed.

(** The points of a series are its buckets with an event, each with
    the number of its events. *)
Lemma points_of_rows (s b : string) (c : Z) :
  s <> ""%string ->
  mkTrendPoint b c ∈ points_of rows s
  <-> 0 < c /\ c = bucket_total evs projectID interval groupBy start end_ s b.
Proof.
  intros Hs. rewrite points_of_elem, <- key_count_bucket by done. split.
  - intros ([[b' s'] c'] & Hin & Hs' & [= <- <-]). cbn [fst snd] in *. subst s'.
    pose proof (rows_count evs projectID interval groupBy start end_ _ Hin) as Hc.
    cbn [fst snd] in Hc. split; [|done].
    assert (Hk : (b, s) ∈ keys).
    { apply rows_elem. apply list_elem_of_fmap. by exists (b, s, c). }
    assert (Hf : (b, s) ∈ filter (fun k => k = (b, s)) keys)
      by (by apply list_elem_of_filter).
    rewrite Hc. destruct (filter _ keys); [by apply elem_of_nil in Hf|]. cbn [length]. lia.
  - intros [Hpos ->]. exists (b, s, Z.of_nat (length (filter (fun k => k = (b, s)) keys))).
    split; [|done]. unfold breakdown_rows. apply list_elem_of_fmap. exists (b, s).
    split; [done|]. rewrite merge_sort_Permutation. apply elem_of_remove_dups.
    destruct (filter (fun k => k = (b, s)) keys) as [|k l] eqn:Hf; [cbn in Hpos; lia|].
    assert (Hin : k ∈ filter (fun k => k = (b, s)) keys) by (rewrite Hf; left).
    by apply list_elem_of_filter in Hin as [-> Hin].
Qed.

End Keys.

(** *** The order of the series *)

Lemma first_seen_before (l : list string) (x y : string) :
  [x; y] `sublist_of` first_seen l ->
  exists l1 l2, l = l1 ++ x :: l2 /\ (x ∉ l1) /\ (y ∉ l1) /\ y ∈ l2 /\ x <> y.
Proof.
  induction l as [|a l IH]; cbn [first_seen].
  - intros Hsub%sublist_length. cbn in Hsub. lia.
  - intros Hsub. apply sublist_cons_r in Hsub as [Hsub|(k & [= <- <-] & Hsub)].
    + assert (Hx : x ∈ filter (fun z => z <> a) (first_seen l)).
      { eapply elem_of_sublist; [left|exact Hsub]. }
      assert (Hy : y ∈ filter (fun z => z <> a) (first_seen l)).
      { eapply elem_of_sublist; [right; left|exact Hsub]. }
      apply list_elem_of_filter in Hx as [Hxa _]. apply list_elem_of_filter in Hy as [Hya _].
      destruct IH as (l1 & l2 & -> & Hx1 & Hy1 & Hy2 & Hxy).
      { etrans; [exact Hsub|]. apply sublist_filter. }
      exists (a :: l1), l2. rewrite !not_elem_of_cons. done.
    + assert (Hy : y ∈ filter (fun z => z <> x) (first_seen l)).
      { eapply elem_of_sublist; [left|exact Hsub]. }
      apply list_elem_of_filter in Hy as [Hyx Hy]. apply (proj1 (first_seen_elem l y)) in Hy.
      exists [], l. split_and!; [done|apply not_elem_of_nil..|done|congruence].
Qed.

Lemma sublist_same_length {A} (l1 l2 : list A) :
  l1 `sublist_of` l2 -> (length l2 <= length l1)%nat -> l1 = l2.
Proof.
  induction 1 as [|x l1 l2 Hsub IH|x l1 l2 Hsub IH]; cbn [length]; intros Hlen.
  - done.
  - f_equal. apply IH. lia.
  - apply sublist_length in Hsub. lia.
Qed.

Lemma map_eq_split {A B} (f : A -> B) (l : list A) (l1 l2 : list B) (x : B) :
  map f l = l1 ++ x :: l2 ->
  exists r1 r r2, l = r1 ++ r :: r2 /\ map f r1 = l1 /\ f r = x /\ map f r2 = l2.
Proof.
  intros Heq. apply fmap_app_inv in Heq as (r1 & rest & H1 & Hrest & ->).
  destruct rest as [|r r2]; [done|]. injection Hrest as Hr H2.
  by exists r1, r, r2.
Qed.

(** Of two series of the result, the one that comes first has the
    smaller first row. *)
Lemma series_order (rows : list (string * string * Z)) (s s' : string) :
  StronglySorted row_le (map fst rows) ->
  [s; s'] `sublist_of` first_seen (map series_of rows) ->
  exists p p', head (points_of rows s) = Some p /\ head (points_of rows s') = Some p'
    /\ row_le (tp_Bucket p, s) (tp_Bucket p', s').
Proof.
  intros Hsorted (l1 & l2 & Hsplit & Hs1 & Hs'1 & Hs'2 & Hne)%first_seen_before.
  apply map_eq_split in Hsplit as (r1 & r & r2 & -> & <- & <- & <-).
  apply list_elem_of_fmap in Hs'2 as (r' & -> & Hr').
  assert (Hpoints : forall t, t ∉ map series_of r1 ->
            points_of (r1 ++ r :: r2) t = points_of (r :: r2) t).
  { intros t Ht. unfold points_of. rewrite omap_app.
    change (omap _ r1) with (points_of r1 t). by rewrite points_of_absent. }
  rewrite !Hpoints by done. rewrite !points_of_cons.
  rewrite decide_True by done. rewrite decide_False by done.
  cbn beta in *.
  assert (Hhead : exists p', head (points_of r2 r'.1.2) = Some p'
                            /\ exists row, row ∈ r2 /\ row.1.2 = r'.1.2
                                           /\ tp_Bucket p' = row.1.1).
  { assert (Hin0 : mkTrendPoint r'.1.1 r'.2 ∈ points_of r2 r'.1.2).
    { apply points_of_elem. by exists r'. }
    destruct (points_of r2 r'.1.2) as [|p' ps] eqn:Hps; [by apply elem_of_nil in Hin0|].
    exists p'. split; [done|].
    assert (Hin : p' ∈ points_of r2 r'.1.2) by (rewrite Hps; left).
    apply points_of_elem in Hin as (row & Hrow & Hser & ->). by exists row. }
  destruct Hhead as (p' & Hp' & row & Hrow & Hser & Hbucket).
  eexists _, p'. split; [reflexivity|]. split; [done|]. cbn [tp_Bucket].
  rewrite map_app in Hsorted. apply StronglySorted_app_1_r in Hsorted.
  cbn [map] in Hsorted. apply StronglySorted_inv in Hsorted as [_ Hall].
  rewrite Forall_forall in Hall. specialize (Hall row.1).
  rewrite Hbucket, <- Hser.
  destruct r as [[b s0] c], row as [[b0 s1] c0]. cbn [fst snd] in *. apply Hall.
  apply list_elem_of_fmap. by exists (b0, s1, c0).
Qed.

End SeriesFacts.

Module TrendClaims.
Import Storage Queries OrderFacts TrendFacts ScanFacts PointFacts TopFacts SeriesFacts.

#[local] Abbreviation series_of := (fun row : string * string * Z => row.1.2).

(** C9 -- For every project, interval, group-by dimension and time
    range, whatever order the sort leaves series of equal totals in,
    [QueryTrendsBreakdown] returns at most 8 series, each once and each
    a series with a name and with events of the project in the range.
    A series with events in the range is left out only when 8 are
    returned, and then its total count over the range is no larger than
    that of any returned one.  The returned series are in the order in
    which the rows, read by bucket and then by series, first mention
    them: a series comes before another when its first bucket is the
    smaller one, or the same with the smaller name.  The points of a
    returned series are in strictly ascending order of bucket: one
    point for each bucket in which the series has an event, with the
    number of those events. *)
Theorem top_eight_series `{DateTrunc} (evs : list Event)
    (projectID interval unit groupBy : string) (start end_ : Time)
    (scores : list (string * Z)) :
  Z.of_nat (length evs) < 2 ^ 63 ->
  scores_of (scan_rows (breakdown_rows evs projectID (normal_interval interval)
                          groupBy start end_)).1 scores ->
  bucket_unit interval unit ->
  exists res,
    QueryTrendsBreakdown evs false projectID interval groupBy start end_ scores = Rows res
    /\ (length res <= 8)%nat
    /\ NoDup (map ts_Name res)
    /\ (forall r, r ∈ res ->
          ts_Name r <> ""%string
          /\ 0 < range_total evs projectID groupBy start end_ (ts_Name r))
    /\ (forall s, s <> ""%string ->
          0 < range_total evs projectID groupBy start end_ s ->
          s ∉ map ts_Name res ->
          length res = 8%nat
          /\ forall r, r ∈ res ->
               range_total evs projectID groupBy start end_ s
               <= range_total evs projectID groupBy start end_ (ts_Name r))
    /\ (forall r r', [r; r'] `sublist_of` res ->
          exists p p', head (ts_Data r) = Some p /\ head (ts_Data r') = Some p'
            /\ row_le (tp_Bucket p, ts_Name r) (tp_Bucket p', ts_Name r'))
    /\ (forall r, r ∈ res ->
          StronglySorted bucket_lt (ts_Data r)
          /\ forall b c,
               mkTrendPoint b c ∈ ts_Data r
               <-> 0 < c
                   /\ c = bucket_total evs projectID unit groupBy start end_ (ts_Name r) b).
Proof.
  intros Hlen Hscores ->%bucket_unit_normal.
  destruct (TrendRows.breakdown_by_rows evs projectID interval groupBy start end_ scores
              Hlen Hscores) as (res & Hres & Hmax & Hsize & Htop & Horder & Hdata).
  set (rows := breakdown_rows evs projectID (normal_interval interval) groupBy start end_) in *.
  set (keys := breakdown_keys evs projectID (normal_interval interval) groupBy start end_) in *.
  assert (Hknown : forall r, r ∈ res -> ts_Name r ∈ map series_of rows).
  { intros r Hr. apply first_seen_elem. eapply elem_of_sublist; [|exact Horder].
    apply list_elem_of_fmap. by exists r. }
  assert (Hnamed : forall r, r ∈ res ->
            ts_Name r <> ""%string
            /\ 0 < range_total evs projectID groupBy start end_ (ts_Name r)).
  { intros r Hr%Hknown. apply series_of_rows in Hr as [Hname Hpos].
    split; [done|].
    by rewrite <- (series_total_range evs projectID (normal_interval interval) groupBy
                     start end_). }
  assert (Hnodup : NoDup (map ts_Name res)).
  { eapply sublist_NoDup; [apply first_seen_NoDup|exact Horder]. }
  exists res. split; [done|]. split; [done|]. split; [done|]. split; [done|].
  split; [|split].
  - intros s Hs Hpos Hout.
    assert (Hin : s ∈ map series_of rows).
    { apply series_of_rows. split; [done|].
      by rewrite (series_total_range evs projectID (normal_interval interval) groupBy
                    start end_). }
    split.
    + destruct (decide (length res = 8%nat)) as [|Hless]; [done|]. exfalso.
      apply Hout. replace (map ts_Name res) with (first_seen (map series_of rows));
        [by apply first_seen_elem|].
      symmetry. apply sublist_same_length; [done|]. rewrite length_map. lia.
    + intros r Hr. destruct (Hnamed r Hr) as [Hname _].
      rewrite <- !(series_total_range evs projectID (normal_interval interval) groupBy
                     start end_) by done.
      by apply Htop.
  - intros r r' Hsub.
    assert (Hr : r ∈ res) by (eapply elem_of_sublist; [left|exact Hsub]).
    assert (Hr' : r' ∈ res) by (eapply elem_of_sublist; [right; left|exact Hsub]).
    rewrite (proj1 (Hdata r Hr)), (proj1 (Hdata r' Hr')).
    apply series_order; [apply rows_sorted|].
    etrans; [|exact Horder]. by apply (fmap_sublist ts_Name) in Hsub.
  - intros r Hr. destruct (Hdata r Hr) as [Hpoints Hsorted]. split; [done|].
    intros b c. rewrite Hpoints. apply points_of_rows. by apply Hnamed.
Qed.

End TrendClaims.


Module TrendExamples.
Import Storage Queries Examples.

#[local] Abbreviation mixed_rows :=
  (breakdown_rows mixed_hours "p1" (normal_interval "hour") "event_name" 0 three_hours).

Lemma top_eight_witness :
  exists res,
    QueryTrendsBreakdown mixed_hours false "p1" "hour" "event_name" 0 three_hours busy_scores
    = Rows res
    /\ (length res <= 8)%nat
    /\ NoDup (map ts_Name res)
    /\ (forall r, r ∈ res ->
          ts_Name r <> ""%string
          /\ 0 < range_total mixed_hours "p1" "event_name" 0 three_hours (ts_Name r))
    /\ (forall s, s <> ""%string ->
          0 < range_total mixed_hours "p1" "event_name" 0 three_hours s ->
          s ∉ map ts_Name res ->
          length res = 8%nat
          /\ forall r, r ∈ res ->
               range_total mixed_hours "p1" "event_name" 0 three_hours s
               <= range_total mixed_hours "p1" "event_name" 0 three_hours (ts_Name r))
    /\ (forall r r', [r; r'] `sublist_of` res ->
          exists p p', head (ts_Data r) = Some p /\ head (ts_Data r') = Some p'
            /\ row_le (tp_Bucket p, ts_Name r) (tp_Bucket p', ts_Name r'))
    /\ (forall r, r ∈ res ->
          StronglySorted bucket_lt (ts_Data r)
          /\ forall b c,
               mkTrendPoint b c ∈ ts_Data r
               <-> 0 < c
                   /\ c = bucket_total mixed_hours "p1" "hour" "event_name" 0 three_hours
                            (ts_Name r) b).
Proof.
  apply (TrendClaims.top_eight_series mixed_hours "p1" "hour" "hour" "event_name" 0
           three_hours busy_scores).
  - vm_compute. reflexivity.
  - assert (busy_scores = some_scores (scan_rows mixed_rows).1) as ->
      by (vm_compute; reflexivity).
    apply TopFacts.some_scores_of.
  - left. split; [right; left|reflexivity].
Defined.

(** Of the ten series of the project in the range the two with the
    smallest totals, [b] and [d], are left out and the others keep the
    order of the rows; the events of the other project, the events
    after the range and the events with an empty name are not
    counted. *)
Example trends_scenario :
  exists res,
    QueryTrendsBreakdown mixed_hours false "p1" "hour" "event_name" 0 three_hours busy_scores
    = Rows res
    /\ map ts_Name res = ["a"; "c"; "e"; "f"; "g"; "h"; "i"; "j"]%string
    /\ map (fun r => total_of (ts_Data r)) res = [5; 7; 9; 3; 8; 4; 10; 6]
    /\ map (fun r => map tp_Bucket (ts_Data r)) res
       = replicate 8 ["0"; "1"; "2"]%string
    /\ map (range_total mixed_hours "p1" "event_name" 0 three_hours) ["b"; "d"; "z"; ""]%string
       = [1; 2; 0; 15].
Proof. eexists. split; [vm_compute; reflexivity|]. by vm_compute. Qed.

End TrendExamples.

(** ** Keys: hexadecimal round trip, [loadKey], API keys *)

Module HexFacts.
Import GoString GoStringFacts Utf8Facts ChunkFacts TrimFacts HexDecode Keys.

Lemma bytes_String (c : ascii) (s : string) : bytes (String c s) = byte_val c :: bytes s.
Proof. done. Qed.

Lemma below_16 (x : Z) :
  0 <= x < 16 ->
  x = 0 \/ x = 1 \/ x = 2 \/ x = 3 \/ x = 4 \/ x = 5 \/ x = 6 \/ x = 7 \/ x = 8
  \/ x = 9 \/ x = 10 \/ x = 11 \/ x = 12 \/ x = 13 \/ x = 14 \/ x = 15.
Proof. lia. Qed.

Lemma fromHexChar_digit (x : Z) :
  0 <= x < 16 -> fromHexChar (byte_val (Hex.digit x)) = Some x.
Proof.
  intros Hx. pose proof (below_16 x Hx) as Hc.
  repeat (destruct Hc as [->|Hc]; [done|]). by subst x.
Qed.

Lemma digit_byte (x : Z) :
  0 <= x < 16 -> lower_hex_byte (byte_val (Hex.digit x)).
Proof.
  intros Hx. pose proof (below_16 x Hx) as Hc. unfold lower_hex_byte.
  repeat (destruct Hc as [->|Hc]; [vm_compute; intuition discriminate|]).
  subst x. vm_compute. intuition discriminate.
Qed.

Lemma nibbles (v : Z) :
  is_byte v ->
  0 <= Z.shiftr v 4 < 16 /\ 0 <= Z.land v 0x0f < 16
  /\ Z.lor (Z.shiftl (Z.shiftr v 4) 4) (Z.land v 0x0f) = v.
Proof.
  unfold is_byte. intros Hv.
  rewrite Z.shiftr_div_pow2, Z.shiftl_mul_pow2 by lia.
  change 0x0f with (2 ^ 4 - 1). rewrite land_low by lia.
  rewrite Z.mul_comm.
  assert (H16 : 2 ^ 4 = 16) by done. rewrite H16.
  split; [Z.div_mod_to_equations; lia|]. split; [Z.div_mod_to_equations; lia|].
  rewrite Z.mul_comm.
  rewrite <- H16 at 1. rewrite (lor_add 4) by (rewrite ?H16; Z.div_mod_to_equations; lia).
  rewrite H16. Z.div_mod_to_equations. lia.
Qed.

(** Decoding what [hex.EncodeToString] wrote gives the bytes back. *)
Lemma Decode_Encode (src : list Z) :
  Forall is_byte src -> DecodeString (Hex.EncodeToString src) = (src, None).
Proof.
  unfold DecodeString. induction 1 as [|v src Hv _ IH]; [done|].
  cbn [Hex.EncodeToString]. rewrite !bytes_String. cbn [Decode].
  destruct (nibbles v Hv) as (Hhi & Hlo & Hv').
  rewrite !fromHexChar_digit by done. rewrite IH. by rewrite Hv'.
Qed.

Lemma Encode_bytes (src : list Z) :
  Forall is_byte src -> Forall lower_hex_byte (bytes (Hex.EncodeToString src)).
Proof.
  induction 1 as [|v src Hv _ IH]; [constructor|].
  cbn [Hex.EncodeToString]. rewrite !bytes_String.
  destruct (nibbles v Hv) as (Hhi & Hlo & _).
  constructor; [by apply digit_byte|]. constructor; [by apply digit_byte|done].
Qed.

(** [hex.Decode] never returns more bytes than half the input. *)
Lemma Decode_length (src : list Z) :
  (2 * length (Decode src).1 <= length src)%nat.
Proof.
  revert src. fix IH 1. intros [|p [|q rest]]; cbn [Decode]; [simpl; lia|..].
  - destruct (fromHexChar p); simpl; lia.
  - destruct (fromHexChar p); [|simpl; lia].
    destruct (fromHexChar q); [|simpl; lia].
    specialize (IH rest). destruct (Decode rest) as [out err]. simpl in *. lia.
Qed.

(** *** ASCII strings *)

Lemma chunks_ascii (p : list Z) :
  Forall (fun b => 0 <= b < 0x80) p -> chunks p = map (fun b => (b, [b])) p.
Proof.
  induction 1 as [|b p Hb _ IH]; [done|].
  rewrite chunks_step by done.
  assert (Hd : DecodeRune (b :: p) = (b, 1%nat)).
  { apply DecodeRune_ascii. lia. }
  rewrite Hd. cbn [fst snd firstn skipn map]. rewrite take_0, drop_0. by rewrite IH.
Qed.

Lemma runes_ascii (s : string) :
  Forall (fun b => 0 <= b < 0x80) (bytes s) -> runes s = bytes s.
Proof.
  intros Hs. unfold runes. rewrite chunks_ascii by done.
  rewrite map_map. cbn. apply map_id.
Qed.

Lemma trim_chunks_no_space (cs : list (Z * list Z)) :
  Forall (fun c => is_sp c = false) cs -> trim_chunks cs = cs.
Proof.
  intros Hcs. rewrite trim_chunks_eq.
  assert (Hdrop : forall l, Forall (fun c => is_sp c = false) l -> drop_while is_sp l = l).
  { intros [|c l] Hl; [done|]. simpl. by rewrite (Forall_inv Hl). }
  rewrite (Hdrop cs Hcs). rewrite Hdrop by (by apply Forall_rev).
  apply rev_involutive.
Qed.

Lemma concat_singletons {A} (l : list A) : concat (map (fun b => [b]) l) = l.
Proof. induction l as [|b l IH]; [done|]. cbn. by rewrite IH. Qed.

Lemma lower_hex_byte_ascii (b : Z) : lower_hex_byte b -> 0 <= b < 0x80.
Proof. unfold lower_hex_byte. lia. Qed.

Lemma lower_hex_byte_no_space (b : Z) : lower_hex_byte b -> IsSpace b = false.
Proof.
  unfold lower_hex_byte, IsSpace. intros Hb. bool_cases; try done; lia.
Qed.

(** A string of hexadecimal digits followed by white space trims to
    the digits. *)
Lemma TrimSpace_hex (s w : string) :
  Forall lower_hex_byte (bytes s) -> space_string w -> TrimSpace (s +:+ w) = s.
Proof.
  intros Hs Hw.
  assert (Hpad : TrimSpace (s +:+ w) = TrimSpace s).
  { assert (Hempty : space_string "") by (exists []; split; [constructor|reflexivity]).
    exact (TrimSpace_pad "" s w Hempty Hw). }
  rewrite Hpad. unfold TrimSpace.
  rewrite chunks_ascii
    by (eapply Forall_impl; [exact Hs|]; apply lower_hex_byte_ascii).
  rewrite trim_chunks_no_space.
  - rewrite map_map. cbn [snd].
    rewrite concat_singletons. apply from_bytes_bytes.
  - apply Forall_map. eapply Forall_impl; [exact Hs|].
    intros b Hb. by apply lower_hex_byte_no_space.
Qed.

End HexFacts.


Module KeyFacts.
Import GoString GoStringFacts Utf8Facts ChunkFacts TrimFacts HexDecode Keys HexFacts.

(** A string whose runes are all below [RuneSelf] holds exactly those
    runes as its bytes. *)
Lemma chunks_runes_ascii (p : list Z) :
  Forall (fun r => r < 0x80) (map fst (chunks p)) -> map fst (chunks p) = p.
Proof.
  induction p as [|p Hp IH] using chunks_ind; [done|].
  rewrite chunks_step by done. cbn [map fst]. intros Hall.
  apply Forall_cons in Hall as [Hr Hall]. specialize (IH Hall).
  destruct (DecodeRune_shape p Hp)
    as [(b & rest & -> & Hb & Hd)
       |[Hd
       |[(b0 & b1 & rest & -> & H0 & H1)
       |[(b0 & b1 & b2 & rest & -> & H0 & H1 & H2)
        |(b0 & b1 & b2 & b3 & rest & -> & H0 & H1 & H2 & H3)]]]].
  - rewrite Hd in *. cbn [fst snd skipn] in *. rewrite drop_0 in *. by rewrite IH.
  - rewrite Hd in Hr. cbn in Hr. unfold RuneError in Hr. lia.
  - rewrite DecodeRune_2 in Hr by done. cbn in Hr. lia.
  - rewrite DecodeRune_3 in Hr by done. cbn [fst] in Hr. unfold second3 in H1.
    destruct (Z.eqb_spec b0 0xE0), (Z.eqb_spec b0 0xED); lia.
  - rewrite DecodeRune_4 in Hr by done. cbn [fst] in Hr. unfold second4 in H1.
    destruct (Z.eqb_spec b0 0xF0), (Z.eqb_spec b0 0xF4); lia.
Qed.

Lemma hex_rune_spec (c : Z) : hex_rune c = true <-> lower_hex_byte c.
Proof. unfold hex_rune, lower_hex_byte. bool_cases; split; intros; try done; lia. Qed.

Lemma forallb_Forall {A} (f : A -> bool) (l : list A) :
  forallb f l = true <-> Forall (fun x => f x = true) l.
Proof.
  induction l as [|x l IH]; cbn; [by split|].
  rewrite andb_true_iff, Forall_cons, IH. done.
Qed.

Lemma forallb_runes_hex (s : string) :
  forallb hex_rune (runes s) = true <-> Forall lower_hex_byte (bytes s).
Proof.
  rewrite forallb_Forall.
  split; intros Hall.
  - assert (Hsame : runes s = bytes s).
    { unfold runes. apply chunks_runes_ascii. fold (runes s).
      eapply Forall_impl; [exact Hall|]. intros r Hr%hex_rune_spec.
      unfold lower_hex_byte in Hr. lia. }
    rewrite <- Hsame. eapply Forall_impl; [exact Hall|]. intros r. apply hex_rune_spec.
  - rewrite runes_ascii
      by (eapply Forall_impl; [exact Hall|]; apply lower_hex_byte_ascii).
    eapply Forall_impl; [exact Hall|]. intros r. apply hex_rune_spec.
Qed.

Lemma String_eqb_eq (a b : string) : String.eqb a b = true <-> a = b.
Proof. apply String.eqb_eq. Qed.

Lemma prefix3 (key : string) :
  String.eqb (substring 0 3 key) "cn_" = true <-> exists h, key = ("cn_" +:+ h)%string.
Proof.
  rewrite String.eqb_eq. split.
  - destruct key as [|a [|b [|c h]]]; [done..|]. cbn. intros [= -> -> ->]. by exists h.
  - intros [h ->]. cbn. by destruct h.
Qed.

End KeyFacts.


Module KeyProperties.
Import GoString GoStringFacts Utf8Facts ChunkFacts TrimFacts HexDecode Keys HexFacts KeyFacts.

Lemma newline_space : space_string newline.
Proof. exists [10]. split; [by repeat constructor|]. by vm_compute. Qed.

(** The key file that [loadKey] writes when it generates a key is read
    back as the same key by every later call (with the environment
    variable unset), whatever else the environment does. *)
Theorem loadKey_persists (key : list Z) (random : option (list Z)) (write : write_outcome) :
  length key = keySize -> Forall is_byte key ->
  loadKey (mkKeyEnv "" FileMissing (Some key) Written)
  = (KeyOk key, FileHolds (Hex.EncodeToString key +:+ newline))
  /\ loadKey (mkKeyEnv "" (FileHolds (Hex.EncodeToString key +:+ newline)) random write)
     = (KeyOk key, FileHolds (Hex.EncodeToString key +:+ newline)).
Proof.
  intros Hlen Hkey. split; [done|].
  unfold loadKey. cbn [env_var key_file String.eqb negb].
  rewrite TrimSpace_hex by (by apply Encode_bytes || apply newline_space).
  rewrite Decode_Encode by done. rewrite Hlen. done.
Qed.

(** Whatever its source, a key that [loadKey] returns has exactly 32
    bytes (when [rand.Read] fills the buffer it is given). *)
Theorem loadKey_key_size (env : KeyEnv) (key : list Z) (file' : file_state) :
  (forall k, key_random env = Some k -> length k = keySize) ->
  loadKey env = (KeyOk key, file') -> length key = keySize.
Proof.
  intros Hrand. unfold loadKey.
  destruct (negb (String.eqb (env_var env) "")).
  - destruct (DecodeString (env_var env)) as [k [e|]]; [done|].
    destruct (Nat.eqb_spec (length k) keySize); cbn [negb]; [|done].
    by intros [= <- _].
  - destruct (key_file env) as [data| |]; [| |done].
    + destruct (DecodeString (TrimSpace data)) as [k [e|]]; [done|].
      destruct (Nat.eqb_spec (length k) keySize); cbn [negb]; [|done].
      by intros [= <- _].
    + destruct (key_random env) as [k|] eqn:Hk; [|done].
      destruct (key_write env); [|done]. intros [= <- _]. by apply Hrand.
Qed.

(** When the environment variable is set, the key comes from it alone:
    the key file is neither read nor written, and a variable that is
    not the hexadecimal form of 32 bytes is an error even when a valid
    key file exists. *)
Theorem loadKey_env_var_wins (env : KeyEnv) :
  env_var env <> ""%string ->
  (loadKey env).2 = key_file env
  /\ ((loadKey env).1
      = match DecodeString (env_var env) with
        | (_, Some _) => KeyErr ErrEnvNotHex
        | (key, None) =>
          if (length key =? keySize)%nat then KeyOk key
          else KeyErr (ErrEnvLength (length key))
        end)
  /\ forall env', env_var env' = env_var env -> (loadKey env').1 = (loadKey env).1.
Proof.
  intros Hvar.
  assert (Hgen : forall e, env_var e <> ""%string ->
            loadKey e
            = (match DecodeString (env_var e) with
               | (_, Some _) => KeyErr ErrEnvNotHex
               | (key, None) =>
                 if (length key =? keySize)%nat then KeyOk key
                 else KeyErr (ErrEnvLength (length key))
               end, key_file e)).
  { intros e He. unfold loadKey.
    destruct (String.eqb_spec (env_var e) ""); [done|]. cbn [negb].
    destruct (DecodeString (env_var e)) as [k [err|]]; [done|].
    by destruct (length k =? keySize)%nat. }
  rewrite (Hgen env Hvar). split; [done|]. split; [done|].
  intros env' Heq. rewrite Hgen by congruence. by rewrite Heq.
Qed.

(** *** API keys *)

Lemma isValidAPIKey_eq (key : string) :
  isValidAPIKey key
  = if (String.length key <? 4)%nat || negb (String.eqb (substring 0 3 key) "cn_")
    then false else forallb hex_rune (runes (drop_string 3 key)).
Proof. done. Qed.

(** [isValidAPIKey] accepts exactly the strings [cn_] followed by one
    or more lower-case hexadecimal digits. *)
Theorem isValidAPIKey_spec (key : string) :
  isValidAPIKey key = true
  <-> exists h, key = ("cn_" +:+ h)%string /\ h <> ""%string
                /\ Forall lower_hex_byte (bytes h).
Proof.
  rewrite isValidAPIKey_eq. split.
  - destruct (Nat.ltb_spec (String.length key) 4) as [|Hlen]; [done|]. cbn [orb].
    destruct (String.eqb (substring 0 3 key) "cn_") eqn:Hpre; [|done]. cbn [negb].
    apply prefix3 in Hpre as [h ->]. change (drop_string 3 ("cn_" +:+ h)) with h.
    intros Hall%forallb_runes_hex. exists h. split; [done|]. split; [|done].
    intros ->. vm_compute in Hlen. lia.
  - intros (h & -> & Hne & Hall).
    assert (Hpre : String.eqb (substring 0 3 ("cn_" +:+ h)) "cn_" = true)
      by (apply prefix3; by exists h).
    rewrite Hpre. change (drop_string 3 ("cn_" +:+ h)) with h.
    destruct h as [|c h]; [done|].
    change (String.length ("cn_" +:+ String c h) <? 4)%nat with false.
    cbn [negb orb]. by apply forallb_runes_hex.
Qed.

(** Every key that [generateAPIKey] returns is accepted by
    [isValidAPIKey]; it has 3 characters and two per random byte. *)
Theorem generated_key_is_valid (b : list Z) :
  Forall is_byte b -> b <> [] ->
  exists key, generateAPIKey (Some b) = Some key
    /\ isValidAPIKey key = true
    /\ String.length key = (3 + 2 * length b)%nat.
Proof.
  intros Hb Hne. eexists. split; [reflexivity|]. split.
  - apply isValidAPIKey_spec. exists (Hex.EncodeToString b).
    split; [done|]. split; [by destruct b|]. by apply Encode_bytes.
  - change (String.length ("cn_" +:+ Hex.EncodeToString b))
      with (S (S (S (String.length (Hex.EncodeToString b))))).
    rewrite FingerprintClaims.EncodeToString_length. lia.
Qed.

End KeyProperties.


Module KeyExamples.
Import GoString HexDecode Keys Fixtures.

Lemma loadKey_persists_witness :
  loadKey (mkKeyEnv "" FileMissing (Some sample_key) Written)
  = (KeyOk sample_key, FileHolds (Hex.EncodeToString sample_key +:+ newline))
  /\ loadKey (mkKeyEnv "" (FileHolds (Hex.EncodeToString sample_key +:+ newline))
                None (WriteFailed FileUnreadable))
     = (KeyOk sample_key, FileHolds (Hex.EncodeToString sample_key +:+ newline)).
Proof.
  apply (KeyProperties.loadKey_persists sample_key None (WriteFailed FileUnreadable)).
  - reflexivity.
  - apply (bool_decide_unpack _). vm_compute. exact I.
Defined.

Lemma loadKey_key_size_witness : length sample_key = keySize.
Proof.
  apply (KeyProperties.loadKey_key_size
           (mkKeyEnv (Hex.EncodeToString sample_key) FileMissing None Written)
           sample_key FileMissing).
  - intros k Hk. discriminate Hk.
  - vm_compute. reflexivity.
Defined.

Lemma loadKey_env_var_witness :
  (loadKey (mkKeyEnv "00ff" (FileHolds (Hex.EncodeToString sample_key)) None Written)).2
  = FileHolds (Hex.EncodeToString sample_key)
  /\ ((loadKey (mkKeyEnv "00ff" (FileHolds (Hex.EncodeToString sample_key)) None Written)).1
      = match DecodeString "00ff" with
        | (_, Some _) => KeyErr ErrEnvNotHex
        | (key, None) =>
          if (length key =? keySize)%nat then KeyOk key
          else KeyErr (ErrEnvLength (length key))
        end)
  /\ forall env', env_var env' = "00ff"%string ->
       (loadKey env').1
       = (loadKey (mkKeyEnv "00ff" (FileHolds (Hex.EncodeToString sample_key)) None Written)).1.
Proof.
  apply (KeyProperties.loadKey_env_var_wins
           (mkKeyEnv "00ff" (FileHolds (Hex.EncodeToString sample_key)) None Written)).
  discriminate.
Defined.

Lemma generated_key_witness :
  exists key, generateAPIKey (Some (firstn 24 sample_key)) = Some key
    /\ isValidAPIKey key = true
    /\ String.length key = (3 + 2 * length (firstn 24 sample_key))%nat.
Proof.
  apply (KeyProperties.generated_key_is_valid (firstn 24 sample_key)).
  - apply (bool_decide_unpack _). vm_compute. exact I.
  - discriminate.
Defined.

(** The errors of [loadKey], and API keys that are not accepted. *)
Example key_errors :
  (loadKey (mkKeyEnv "00ff" FileMissing None Written)).1 = KeyErr (ErrEnvLength 2)
  /\ (loadKey (mkKeyEnv "xyz" FileMissing None Written)).1 = KeyErr ErrEnvNotHex
  /\ (loadKey (mkKeyEnv "" (FileHolds "abc") None Written)).1 = KeyErr ErrFileNotHex
  /\ (loadKey (mkKeyEnv "" FileUnreadable None Written)).1 = KeyErr ErrReadingFile
  /\ (loadKey (mkKeyEnv "" FileMissing None Written)).1 = KeyErr ErrGeneratingKey
  /\ isValidAPIKey "cn_" = false
  /\ isValidAPIKey "cn_0A" = false
  /\ isValidAPIKey "cn_0a" = true
  /\ isValidAPIKey "xx_0a" = false.
Proof. by vm_compute. Qed.

End KeyExamples.

(** ** Feature flags *)

Module FlagProperties.
Import GoString Storage Flags.

Lemma Write_range (data : list Z) (h : Z) :
  0 <= h < 2 ^ 32 -> 0 <= Fnv.Write h data < 2 ^ 32.
Proof.
  revert h. induction data as [|c data IH]; intros h Hh; [done|].
  cbn [Fnv.Write fold_left]. apply IH. apply Z.mod_pos_bound. lia.
Qed.

Lemma bucket_range (distinctID : string) (f : FeatureFlag) :
  0 <= bucket distinctID f < 100.
Proof. unfold bucket. apply Z.mod_pos_bound. lia. Qed.

(** Raising the rollout percentage of a flag never switches it off for
    a user who had it on: the user's bucket does not depend on the
    percentage. *)
Theorem rollout_is_monotone (distinctID : string) (f : FeatureFlag) (pct pct' : Z) :
  pct <= pct' ->
  flag_value distinctID (with_rollout f pct) = true ->
  flag_value distinctID (with_rollout f pct') = true.
Proof.
  unfold flag_value, with_rollout, bucket. cbn [ff_Enabled ff_RolloutPercentage ff_ID].
  intros Hle. destruct (ff_Enabled f); cbn [negb]; [|done].
  destruct (Z.leb_spec 100 pct), (Z.leb_spec 100 pct'); try done; lia.
Qed.

(** A disabled flag is off for everybody, an enabled flag with a
    percentage of 100 or more is on for everybody, and an enabled flag
    with a percentage of 0 or less is off for everybody.  A flag
    created with a percentage of 0 or less gets 100 and is on for
    everybody; the same percentage set by an update switches the flag
    off. *)
Theorem rollout_extremes (distinctID : string) (f : FeatureFlag) :
  (ff_Enabled f = false -> flag_value distinctID f = false)
  /\ (ff_Enabled f = true -> 100 <= ff_RolloutPercentage f ->
        flag_value distinctID f = true)
  /\ (ff_RolloutPercentage f <= 0 -> flag_value distinctID f = false)
  /\ (forall id projectID key name pct, pct <= 0 ->
        flag_value distinctID (new_flag id projectID key name pct) = true)
  /\ (forall table id pct f',
        pct <= 0 ->
        f' ∈ UpdateFeatureFlag table (ff_ProjectID f) id true pct ->
        ff_ProjectID f' = ff_ProjectID f -> ff_ID f' = id ->
        flag_value distinctID f' = false).
Proof.
  pose proof (bucket_range distinctID f) as Hb.
  assert (Hlow : forall g, ff_RolloutPercentage g <= 0 -> flag_value distinctID g = false).
  { intros g Hg. unfold flag_value. destruct (ff_Enabled g); cbn [negb]; [|done].
    destruct (Z.leb_spec 100 (ff_RolloutPercentage g)); [lia|].
    pose proof (bucket_range distinctID g). apply Z.ltb_ge. lia. }
  split; [|split; [|split; [|split]]].
  - unfold flag_value. by intros ->.
  - unfold flag_value. intros -> Hp. cbn [negb].
    by destruct (Z.leb_spec 100 (ff_RolloutPercentage f)); [|lia].
  - apply Hlow.
  - intros id projectID key name pct Hp. unfold flag_value, new_flag.
    cbn [ff_Enabled ff_RolloutPercentage negb].
    by destruct (Z.leb_spec pct 0); [|lia].
  - intros table id pct f' Hp Hin Hproj Hid. apply Hlow.
    unfold UpdateFeatureFlag in Hin. apply list_elem_of_fmap in Hin as (g & -> & _).
    destruct (decide (ff_ProjectID g = ff_ProjectID f /\ ff_ID g = id)) as [_|Hne];
      [done|]. exfalso. by apply Hne.
Qed.

Lemma evaluate_snoc (distinctID : string) (flags : list FeatureFlag) (f : FeatureFlag) :
  evaluate distinctID (flags ++ [f])
  = <[ff_Key f := flag_value distinctID f]> (evaluate distinctID flags).
Proof. unfold evaluate. by rewrite fold_left_app. Qed.

(** The response of the evaluation holds, for each key, the value of
    the last listed flag with that key, and nothing for a key that no
    flag has. *)
Theorem evaluate_lookup (distinctID : string) (flags : list FeatureFlag) (key : string) :
  evaluate distinctID flags !! key
  = flag_value distinctID <$> last (filter (fun f => ff_Key f = key) flags).
Proof.
  induction flags as [|f flags IH] using rev_ind; [done|].
  rewrite evaluate_snoc, filter_app, filter_cons, filter_nil.
  destruct (decide (ff_Key f = key)) as [<-|Hne].
  - rewrite lookup_insert_eq, last_snoc. done.
  - rewrite lookup_insert_ne by done. by rewrite app_nil_r.
Qed.

End FlagProperties.

Module FlagExamples.
Import GoString Storage Flags Fixtures.

Lemma rollout_monotone_witness :
  flag_value "user-8" (with_rollout beta 60) = true.
Proof.
  apply (FlagProperties.rollout_is_monotone "user-8" beta 10 60).
  - lia.
  - vm_compute. reflexivity.
Defined.

(** The hash of the one-letter string [a], the buckets of three users
    of a flag and their values at ten per cent. *)
Example flag_buckets :
  Fnv.Sum32a (bytes "a") = 0xe40c292c
  /\ map (fun u => bucket u beta) ["user-1"; "user-8"; "user-9"]%string = [87; 2; 7]
  /\ map (fun u => flag_value u beta) ["user-1"; "user-8"; "user-9"]%string
     = [false; true; true].
Proof. by vm_compute. Qed.

End FlagExamples.

(** ** The encryptor and the settings tables *)

Module EncryptFacts.
Import GoString GoStringFacts Encrypt Base64Facts.

Lemma Encrypt_prefix (aead : AEAD) (nonce : list Z) (x : string) :
  exists body, Encrypt (Some aead) (Some nonce) x = Ok (encPrefix +:+ body).
Proof. by eexists. Qed.

(** What [Encrypt] returns, [Decrypt] turns back into the plaintext. *)
Lemma Decrypt_sealed (aead : AEAD) (nonce : list Z) (x : string) :
  length nonce = NonceSize -> Forall is_byte nonce ->
  Decrypt (Some aead)
    (encPrefix +:+ Base64.EncodeToString (nonce ++ Seal nonce (bytes x) []))
  = Ok x.
Proof.
  intros Hlen Hnonce. unfold Decrypt.
  rewrite EncryptClaims.HasPrefix_app, EncryptClaims.TrimPrefix_app. cbn [negb].
  assert (Hsealed : Forall is_byte (Seal nonce (bytes x) [])).
  { apply Seal_bytes; [done|apply bytes_range|constructor]. }
  rewrite DecodeString_EncodeToString by (apply Forall_app; by split).
  rewrite length_app.
  destruct (Nat.ltb_spec (length nonce + length (Seal nonce (bytes x) [])) NonceSize);
    [lia|].
  rewrite <- Hlen, take_app_length, drop_app_length.
  rewrite Open_Seal; [|done|done|apply bytes_range|constructor].
  by rewrite from_bytes_bytes.
Qed.

End EncryptFacts.

Module EncryptProperties.
Import GoString GoStringFacts Encrypt Base64Facts EncryptFacts.

(** [DecryptPtr] undoes [EncryptPtr]: a nil pointer stays nil, and
    with a nil encryptor both leave the value alone. *)
Theorem DecryptPtr_EncryptPtr (e : Encryptor) (nonce : list Z) (p : option string) :
  (forall aead, e = Some aead -> length nonce = @NonceSize aead /\ Forall is_byte nonce) ->
  exists c, EncryptPtr e (Some nonce) p = Ok <$> c
            /\ DecryptPtr e c = Ok <$> p
            /\ (c = None <-> p = None).
Proof.
  intros Hnonce. destruct e as [aead|], p as [x|]; cbn [EncryptPtr DecryptPtr fmap option_fmap option_map].
  - destruct (Hnonce aead eq_refl) as [Hlen Hb].
    eexists (Some _). split; [reflexivity|]. cbn [DecryptPtr]. split; [|done].
    f_equal. by apply Decrypt_sealed.
  - by exists None.
  - by exists (Some x).
  - by exists None.
Qed.

(** A value with the prefix whose payload is shorter than a nonce is
    refused as too short, before the cipher is asked; the bare prefix
    is such a value. *)
Theorem Decrypt_too_short (aead : AEAD) (data : list Z) :
  Forall is_byte data -> (length data < NonceSize)%nat ->
  Decrypt (Some aead) (encPrefix +:+ Base64.EncodeToString data) = Err ErrCiphertextTooShort.
Proof.
  intros Hdata Hlen. unfold Decrypt.
  rewrite EncryptClaims.HasPrefix_app, EncryptClaims.TrimPrefix_app. cbn [negb].
  rewrite DecodeString_EncodeToString by done.
  by destruct (Nat.ltb_spec (length data) NonceSize); [|lia].
Qed.

End EncryptProperties.


Module MetaStoreProperties.
Import GoString GoStringFacts Storage Encrypt MetaStore EncryptFacts.

(** What [SetLLMConfig] stores, [GetLLMConfig] returns: the
    configuration with its API key in the clear.  With an encryptor the
    key in the table carries the prefix [enc:v1:]. *)
Theorem GetLLMConfig_SetLLMConfig (db : DB) (e : Encryptor) (nonce : list Z)
    (c : LLMConfig) :
  (forall aead, e = Some aead -> length nonce = @NonceSize aead /\ Forall is_byte nonce) ->
  exists db',
    SetLLMConfig db e (Some nonce) false c = (db', Done)
    /\ GetLLMConfig db' e false (llm_ProjectID c) = Found c
    /\ (forall p, p <> llm_ProjectID c -> llm_config db' !! p = llm_config db !! p)
    /\ (forall aead key, e = Some aead -> llm_APIKey c = Some key ->
          exists row body, llm_config db' !! llm_ProjectID c = Some row
            /\ llm_APIKey row = Some (encPrefix +:+ body)).
Proof.
  intros Hnonce. destruct c as [pid prov key model base].
  destruct e as [aead|], key as [key|];
    cbn [SetLLMConfig EncryptPtr Encrypt llm_APIKey llm_ProjectID llm_Provider llm_Model
         llm_BaseURL fmap option_fmap option_map];
    eexists; (split; [reflexivity|]);
    unfold GetLLMConfig; cbn [llm_config llm_ProjectID]; rewrite lookup_insert_eq;
    cbn [DecryptPtr llm_APIKey llm_ProjectID llm_Provider llm_Model llm_BaseURL
         fmap option_fmap option_map].
  - destruct (Hnonce aead eq_refl) as [Hlen Hb].
    rewrite Decrypt_sealed by done. split; [done|]. split.
    + intros p Hp. by rewrite lookup_insert_ne.
    + intros aead' key' _ _. by eexists _, _.
  - split; [done|]. split; [|done]. intros p Hp. by rewrite lookup_insert_ne.
  - split; [done|]. split; [|done]. intros p Hp. by rewrite lookup_insert_ne.
  - split; [done|]. split; [|done]. intros p Hp. by rewrite lookup_insert_ne.
Qed.

(** What [SetGitHubConnection] stores, [GetGitHubConnection] returns,
    with the time of the last synchronisation that the row had before.
    A token that was stored in the clear and does not start with
    [enc:v1:] is still read once encryption is on; a token that was
    stored encrypted comes back as its ciphertext once encryption is
    off. *)
Theorem GetGitHubConnection_SetGitHubConnection (db : DB) (aead : AEAD) (nonce : list Z)
    (g : GitHubConnection) :
  length nonce = NonceSize -> Forall is_byte nonce ->
  let synced := g' ← github_connections db !! gh_ProjectID g; gh_LastSyncedAt g' in
  let expected token :=
    Found (mkGitHubConnection (gh_ProjectID g) (gh_RepoOwner g) (gh_RepoName g) token
             (gh_DefaultBranch g) synced) in
  (forall e, e = Some aead \/ e = None ->
     exists db', SetGitHubConnection db e (Some nonce) false g = (db', Done)
       /\ GetGitHubConnection db' e false (gh_ProjectID g) = expected (gh_AccessToken g))
  /\ (HasPrefix (gh_AccessToken g) encPrefix = false ->
      exists db', SetGitHubConnection db None (Some nonce) false g = (db', Done)
        /\ GetGitHubConnection db' (Some aead) false (gh_ProjectID g)
           = expected (gh_AccessToken g))
  /\ (exists db' body, SetGitHubConnection db (Some aead) (Some nonce) false g = (db', Done)
        /\ GetGitHubConnection db' None false (gh_ProjectID g)
           = expected (encPrefix +:+ body)).
Proof.
  intros Hlen Hb synced expected.
  assert (Hsynced :
    match github_connections db !! gh_ProjectID g with
    | Some old => gh_LastSyncedAt old
    | None => None
    end = synced).
  { unfold synced. by destruct (github_connections db !! gh_ProjectID g). }
  split; [|split].
  - intros e [->| ->]; cbn [SetGitHubConnection Encrypt];
      (eexists; split; [reflexivity|]);
      unfold GetGitHubConnection; cbn [github_connections]; rewrite lookup_insert_eq;
      cbn [gh_AccessToken gh_ProjectID gh_RepoOwner gh_RepoName gh_DefaultBranch
           gh_LastSyncedAt].
    + rewrite Decrypt_sealed by done. by rewrite Hsynced.
    + cbn [Decrypt]. by rewrite Hsynced.
  - intros Hplain. cbn [SetGitHubConnection Encrypt]. eexists. split; [reflexivity|].
    unfold GetGitHubConnection. cbn [github_connections]. rewrite lookup_insert_eq.
    cbn [gh_AccessToken gh_ProjectID gh_RepoOwner gh_RepoName gh_DefaultBranch
         gh_LastSyncedAt].
    unfold Decrypt. rewrite Hplain. cbn [negb]. by rewrite Hsynced.
  - cbn [SetGitHubConnection Encrypt]. eexists _, _. split; [reflexivity|].
    unfold GetGitHubConnection. cbn [github_connections]. rewrite lookup_insert_eq.
    cbn [gh_AccessToken gh_ProjectID gh_RepoOwner gh_RepoName gh_DefaultBranch
         gh_LastSyncedAt Decrypt]. by rewrite Hsynced.
Qed.

(** A state token is good for one use within ten minutes: after
    [SetOAuthState], the first [ValidateOAuthState] less than 600
    seconds later returns the project and removes the token, so every
    later validation fails; from 600 seconds on the token is refused
    (and stays in the table). *)
Theorem oauth_state_single_use (db : DB) (t0 t1 : Z) (state projectID : string) :
  oauth_state db !! state = None ->
  exists db1,
    SetOAuthState db false t0 state projectID = (db1, Done)
    /\ (t1 < t0 + 600 ->
        exists db2,
          ValidateOAuthState db1 false false t1 state = (db2, Some projectID)
          /\ forall fs fd t2, ValidateOAuthState db2 fs fd t2 state = (db2, None))
    /\ (t0 + 600 <= t1 ->
        forall fd, ValidateOAuthState db1 false fd t1 state = (db1, None)).
Proof.
  intros Hnew. unfold SetOAuthState. rewrite Hnew. eexists. split; [reflexivity|].
  split.
  - intros Ht. unfold ValidateOAuthState at 1. cbn [oauth_state]. rewrite lookup_insert_eq.
    destruct (Z.ltb_spec (t1 - 600) t0); [|lia].
    eexists. split; [reflexivity|]. intros fs fd t2. unfold ValidateOAuthState.
    destruct fs; [done|]. cbn [oauth_state]. by rewrite lookup_delete_eq.
  - intros Ht fd. unfold ValidateOAuthState. cbn [oauth_state]. rewrite lookup_insert_eq.
    by destruct (Z.ltb_spec (t1 - 600) t0); [lia|].
Qed.

End MetaStoreProperties.


Module MetaStoreExamples.
Import GoString Storage Encrypt MetaStore Fixtures EncryptExamples.

Lemma DecryptPtr_EncryptPtr_witness :
  exists c, EncryptPtr (Some shift_cipher) (Some sample_nonce) (Some "sk-secret") = Ok <$> c
            /\ DecryptPtr (Some shift_cipher) c = Ok <$> Some "sk-secret"%string
            /\ (c = None <-> Some "sk-secret"%string = None).
Proof.
  apply (EncryptProperties.DecryptPtr_EncryptPtr (Some shift_cipher) sample_nonce
           (Some "sk-secret"%string)).
  intros aead [= <-]. split; [reflexivity|].
  apply (bool_decide_unpack _). vm_compute. exact I.
Defined.

Lemma Decrypt_too_short_witness :
  Decrypt (Some shift_cipher) (encPrefix +:+ Base64.EncodeToString [1; 2; 3])
  = Err ErrCiphertextTooShort.
Proof.
  apply (EncryptProperties.Decrypt_too_short shift_cipher [1; 2; 3]).
  - apply (bool_decide_unpack _). vm_compute. exact I.
  - vm_compute. lia.
Defined.

Lemma GetLLMConfig_SetLLMConfig_witness :
  exists db',
    SetLLMConfig no_settings (Some shift_cipher) (Some sample_nonce) false openai_config
    = (db', Done)
    /\ GetLLMConfig db' (Some shift_cipher) false (llm_ProjectID openai_config)
       = Found openai_config
    /\ (forall p, p <> llm_ProjectID openai_config ->
          llm_config db' !! p = llm_config no_settings !! p)
    /\ (forall aead key, Some shift_cipher = Some aead ->
          llm_APIKey openai_config = Some key ->
          exists row body, llm_config db' !! llm_ProjectID openai_config = Some row
            /\ llm_APIKey row = Some (encPrefix +:+ body)).
Proof.
  apply (MetaStoreProperties.GetLLMConfig_SetLLMConfig no_settings (Some shift_cipher)
           sample_nonce openai_config).
  intros aead [= <-]. split; [reflexivity|].
  apply (bool_decide_unpack _). vm_compute. exact I.
Defined.

Lemma GetGitHubConnection_witness :
  (forall e, e = Some shift_cipher \/ e = None ->
     exists db', SetGitHubConnection no_settings e (Some sample_nonce) false repo_connection
                 = (db', Done)
       /\ GetGitHubConnection db' e false "p1" = Found repo_connection)
  /\ (HasPrefix "ghp_token" encPrefix = false ->
      exists db', SetGitHubConnection no_settings None (Some sample_nonce) false
                    repo_connection = (db', Done)
        /\ GetGitHubConnection db' (Some shift_cipher) false "p1" = Found repo_connection)
  /\ (exists db' body,
        SetGitHubConnection no_settings (Some shift_cipher) (Some sample_nonce) false
          repo_connection = (db', Done)
        /\ GetGitHubConnection db' None false "p1"
           = Found (mkGitHubConnection "p1" "acme" "shop" (encPrefix +:+ body) "main" None)).
Proof.
  apply (MetaStoreProperties.GetGitHubConnection_SetGitHubConnection no_settings
           shift_cipher sample_nonce repo_connection).
  - reflexivity.
  - apply (bool_decide_unpack _). vm_compute. exact I.
Defined.

Lemma oauth_state_witness :
  exists db1,
    SetOAuthState no_settings false 1000 "xyz" "p1" = (db1, Done)
    /\ (1599 < 1000 + 600 ->
        exists db2,
          ValidateOAuthState db1 false false 1599 "xyz" = (db2, Some "p1"%string)
          /\ forall fs fd t2, ValidateOAuthState db2 fs fd t2 "xyz" = (db2, None))
    /\ (1000 + 600 <= 1599 ->
        forall fd, ValidateOAuthState db1 false fd 1599 "xyz" = (db1, None)).
Proof.
  apply (MetaStoreProperties.oauth_state_single_use no_settings 1000 1599 "xyz" "p1").
  reflexivity.
Defined.

End MetaStoreExamples.

(** ** The naming engine over whole runs *)

Module NamingProperties.
Import Storage Meta AI NamingRuns NamingClaims.

Lemma Submit_jobs (n n' : Namer) (fault : bool) (job : NamingJob) :
  Submit n fault job = Some n' ->
  (n' = n \/ ((length (jobs n) < jobsCapacity)%nat /\ n' = set_jobs n (jobs n ++ [job]))).
Proof.
  unfold Submit. destruct (provider n); [|intros [= <-]; by left].
  destruct (snd _); [intros [= <-]; by left|].
  destruct (closed n); [done|].
  destruct (Nat.ltb_spec (length (jobs n)) jobsCapacity); intros [= <-]; [|by left].
  by right.
Qed.

Lemma process_jobs (n : Namer) (fl : worker_faults) (now : Time) (job : NamingJob) :
  jobs (process n fl now job) = jobs n.
Proof.
  unfold process. destruct (snd _); [done|].
  destruct (provider n) as [prov|]; [|done].
  destruct (GenerateEventName prov _) as [result|]; [|done].
  destruct (Cache_Set _ _ _ _ _ _) as [names' ok]. by destruct ok.
Qed.

Lemma step_jobs_bound (n n' : Namer) (a : action) :
  step n a = Some n' -> (length (jobs n) <= jobsCapacity)%nat ->
  (length (jobs n') <= jobsCapacity)%nat.
Proof.
  destruct a as [fault job|fl now|prov|m|fault p f u]; cbn [step].
  - intros [->|[Hlt ->]]%Submit_jobs Hn; [done|].
    cbn [jobs set_jobs]. rewrite length_app. cbn [length]. lia.
  - intros [= <-] Hn. unfold worker_step. destruct (jobs n) as [|job rest] eqn:Hj.
    + rewrite Hj. cbn [length]. lia.
    + rewrite process_jobs. cbn [jobs set_jobs]. cbn [length] in Hn. lia.
  - by intros [= <-].
  - by intros [= <-].
  - by intros [= <-].
Qed.

(** The queue of the engine never holds more than 1000 jobs: a
    submission to a full queue is dropped. *)
Theorem queue_is_bounded (acts : list action) (n n' : Namer) :
  (length (jobs n) <= jobsCapacity)%nat -> run n acts = Some n' ->
  (length (jobs n') <= jobsCapacity)%nat.
Proof.
  revert n. induction acts as [|a acts IH]; intros n Hn Hrun.
  - by injection Hrun as <-.
  - cbn [run] in Hrun. destruct (step n a) as [n1|] eqn:Hstep; [|done].
    apply (IH n1); [|done]. by apply (step_jobs_bound n n1 a).
Qed.

(** *** The rows of the name cache stay *)

Lemma step_keeps_row (n n' : Namer) (a : action) (k : string * string) :
  step n a = Some n' -> is_Some (names n !! k) -> is_Some (names n' !! k).
Proof.
  intros Hstep [old Hold].
  destruct a as [fault job|fl now|prov|m|fault p f u]; cbn [step] in Hstep.
  - apply Submit_jobs in Hstep as [->|[_ ->]]; by exists old.
  - injection Hstep as <-. unfold worker_step.
    destruct (jobs n) as [|job rest]; [by exists old|].
    destruct (process_keeps_user_name (set_jobs n rest) fl now job k old Hold)
      as (new & Hnew & _). by exists new.
  - injection Hstep as <-. by exists old.
  - injection Hstep as <-. by exists old.
  - injection Hstep as <-. cbn [names]. unfold OverrideEventName.
    destruct fault; cbn [fst]; [by exists old|].
    destruct (decide (k = (f, p))) as [->|Hne].
    + rewrite lookup_alter_eq, Hold. by eexists.
    + rewrite lookup_alter_ne by done. by exists old.
Qed.

End NamingProperties.


Module BackfillProperties.
Import Storage Meta AI NamingRuns Workers NamingClaims.

Lemma with_name_same (e : Event) : with_name e (ev_EventName e) = e.
Proof. by destruct e. Qed.

Lemma BackfillEventName_each (evs : list Event) (p f name : string) :
  BackfillEventName evs p f name
  = map (fun e =>
           if decide (ev_ProjectID e = p /\ ev_Fingerprint e = f /\ ev_EventName e = None)
           then with_name e (Some name) else e) evs.
Proof. done. Qed.

(** [BackfillEventName] gives the name to the events of the project
    and fingerprint that have none and changes nothing else: a name
    that an event has is never replaced, so a second backfill of the
    fingerprint, with whatever name, changes nothing. *)
Theorem BackfillEventName_fills_once (evs : list Event) (p f name name' : string) :
  Forall2 (fun e e' =>
             e' = with_name e (if decide (ev_ProjectID e = p /\ ev_Fingerprint e = f
                                        /\ ev_EventName e = None)
                               then Some name else ev_EventName e))
          evs (BackfillEventName evs p f name)
  /\ BackfillEventName (BackfillEventName evs p f name) p f name'
     = BackfillEventName evs p f name.
Proof.
  rewrite !BackfillEventName_each. split.
  - induction evs as [|e evs IH]; [constructor|]. cbn [map]. constructor; [|exact IH].
    destruct (decide _); [done|]. by rewrite with_name_same.
  - rewrite map_map. apply map_ext. intros e.
    destruct (decide (ev_ProjectID e = p /\ ev_Fingerprint e = f /\ ev_EventName e = None))
      as [Hfill|Hkeep].
    + rewrite decide_False; [done|]. cbn. by intros (_ & _ & ?).
    + by rewrite decide_False.
Qed.

Lemma process_miss (n : Namer) (fl : worker_faults) (now : Time) (job : NamingJob)
    (prov : Provider) :
  provider n = Some prov ->
  snd (Cache_Get (names n) (f_get fl) (job_ProjectID job) (job_Fingerprint job)) = false ->
  process n fl now job
  = match GenerateEventName prov (enrich (matcher n) job) with
    | None => record_call n job (enrich (matcher n) job)
    | Some result =>
      let '(names', ok) :=
        Cache_Set (names n) (f_set fl) now (job_ProjectID job) (job_Fingerprint job) result in
      if negb ok then set_names (record_call n job (enrich (matcher n) job)) names'
      else
        set_events (set_names (record_call n job (enrich (matcher n) job)) names')
          (if f_backfill fl then events n
           else BackfillEventName (events n) (job_ProjectID job) (job_Fingerprint job)
                  (res_Name result))
    end.
Proof.
  intros Hprov Hmiss. unfold process. rewrite Hmiss, Hprov.
  change (match matcher n with
          | Some m => _
          | None => job_Request job
          end) with (enrich (matcher n) job).
  unfold record_call, set_names, set_events.
  cbn [provider matcher names events jobs closed calls]. rewrite Hprov.
  destruct (GenerateEventName prov _) as [result|]; [|done].
  destruct (Cache_Set _ _ _ _ _ _) as [names' ok]. by destruct ok.
Qed.

(** When the provider fails on the request made for a job, the
    iteration of the worker writes nothing: the name cache and the
    events are as before, and only the call is on record. *)
Theorem failed_naming_writes_nothing (n : Namer) (fl : worker_faults) (now : Time)
    (job : NamingJob) (prov : Provider) :
  provider n = Some prov ->
  snd (Cache_Get (names n) (f_get fl) (job_ProjectID job) (job_Fingerprint job)) = false ->
  GenerateEventName prov (enrich (matcher n) job) = None ->
  process n fl now job = record_call n job (enrich (matcher n) job)
  /\ names (process n fl now job) = names n
  /\ events (process n fl now job) = events n.
Proof.
  intros Hprov Hmiss Hfail.
  rewrite (process_miss n fl now job prov Hprov Hmiss), Hfail. done.
Qed.

(** When the provider returns a name but the write to the name cache
    fails, the events are not backfilled: nothing is written at all. *)
Theorem failed_cache_write_skips_backfill (n : Namer) (fl : worker_faults) (now : Time)
    (job : NamingJob) (prov : Provider) (result : NamingResult) :
  provider n = Some prov ->
  snd (Cache_Get (names n) (f_get fl) (job_ProjectID job) (job_Fingerprint job)) = false ->
  GenerateEventName prov (enrich (matcher n) job) = Some result ->
  f_set fl = true ->
  process n fl now job = record_call n job (enrich (matcher n) job)
  /\ names (process n fl now job) = names n
  /\ events (process n fl now job) = events n.
Proof.
  intros Hprov Hmiss Hname Hset.
  rewrite (process_miss n fl now job prov Hprov Hmiss), Hname.
  unfold Cache_Set, SetEventName. rewrite Hset. cbn [negb].
  unfold set_names, record_call. cbn [provider matcher names events jobs closed calls].
  done.
Qed.

(** An override for a key that has no row changes nothing and reports
    no error; the name it carried is not shown once the key gets its
    generated name. *)
Theorem override_without_row_is_lost (t : event_names) (p f u : string) :
  t !! (f, p) = None ->
  OverrideEventName t false p f u = (t, true)
  /\ Cache_Get t false p f = (""%string, false)
  /\ forall now en, en_Fingerprint en = f -> en_ProjectID en = p ->
       Cache_Get (SetEventName (OverrideEventName t false p f u).1 false now en).1 false p f
       = (en_AIName en, true).
Proof.
  intros Hnone.
  assert (Hsame : OverrideEventName t false p f u = (t, true)).
  { unfold OverrideEventName. f_equal. apply map_eq. intros k.
    destruct (decide (k = (f, p))) as [->|Hne].
    - by rewrite lookup_alter_eq, Hnone.
    - by rewrite lookup_alter_ne. }
  split; [done|]. split.
  - unfold Cache_Get, GetEventName. by rewrite Hnone.
  - intros now en <- <-. rewrite Hsame. cbn [fst]. unfold SetEventName.
    rewrite Hnone. cbn [fst]. erewrite Cache_Get_row by apply lookup_insert_eq. done.
Qed.

End BackfillProperties.


Module NamingRunExamples.
Import Storage Meta AI NamingRuns Workers Examples Fixtures.

Lemma queue_bound_witness :
  exists n', run fresh naming_run = Some n' /\ (length (jobs n') <= jobsCapacity)%nat.
Proof.
  eexists. split; [vm_compute; reflexivity|].
  apply (NamingProperties.queue_is_bounded naming_run fresh).
  - vm_compute. lia.
  - vm_compute. reflexivity.
Defined.

Lemma failed_naming_witness :
  process unnamed no_faults 5 place_order_job
  = record_call unnamed place_order_job (enrich (matcher unnamed) place_order_job)
  /\ names (process unnamed no_faults 5 place_order_job) = names unnamed
  /\ events (process unnamed no_faults 5 place_order_job) = events unnamed.
Proof.
  apply (BackfillProperties.failed_naming_writes_nothing unnamed no_faults 5
           place_order_job silent); reflexivity.
Defined.

Lemma failed_cache_write_witness :
  process ready set_fails 5 place_order_job
  = record_call ready place_order_job (enrich (matcher ready) place_order_job)
  /\ names (process ready set_fails 5 place_order_job) = names ready
  /\ events (process ready set_fails 5 place_order_job) = events ready.
Proof.
  apply (BackfillProperties.failed_cache_write_skips_backfill ready set_fails 5
           place_order_job namer_of_all
           (mkNamingResult "Clicked" (SpecFloat.S754_zero false) "")); reflexivity.
Defined.

(** In both cases the provider was called. *)
Example failed_calls :
  length (calls (process unnamed no_faults 5 place_order_job)) = 1%nat
  /\ length (calls (process ready set_fails 5 place_order_job)) = 1%nat
  /\ names (process ready no_faults 5 place_order_job) <> names ready.
Proof.
  split; [reflexivity|]. split; [reflexivity|]. intros Heq.
  apply (f_equal (fun t => t !! ("3b7e9bf376fa4673", "p1")%string)) in Heq.
  vm_compute in Heq. discriminate.
Qed.

Lemma override_lost_witness :
  OverrideEventName ∅ false "p1" "3b7e9bf376fa4673" "Order" = (∅, true)
  /\ Cache_Get ∅ false "p1" "3b7e9bf376fa4673" = (""%string, false)
  /\ forall now en, en_Fingerprint en = "3b7e9bf376fa4673"%string ->
       en_ProjectID en = "p1"%string ->
       Cache_Get (SetEventName
                    (OverrideEventName ∅ false "p1" "3b7e9bf376fa4673" "Order").1
                    false now en).1 false "p1" "3b7e9bf376fa4673"
       = (en_AIName en, true).
Proof.
  apply (BackfillProperties.override_without_row_is_lost ∅ "p1" "3b7e9bf376fa4673" "Order").
  reflexivity.
Defined.

(** The run of the example: the first iteration names the key; the
    two submissions and the later iterations call the provider no
    more. *)
Example naming_run_result :
  exists n', run fresh naming_run = Some n'
    /\ length (calls n') = 1%nat
    /\ jobs n' = []
    /\ Cache_Get (names n') false "p1" "3b7e9bf376fa4673" = ("Clicked"%string, true).
Proof. eexists. split; [vm_compute; reflexivity|]. by vm_compute. Qed.

End NamingRunExamples.

(** ** The naming workers, interleaved *)

Module WorkerProperties.
Import Storage Meta AI Workers NamingClaims.

(** An iteration that nothing interrupts is [process]. *)
Lemma finish_process (n : Namer) (fl : worker_faults) (now : Time) (job : NamingJob) :
  finish 5 n (Received job) fl now = process n fl now job.
Proof.
  unfold process. cbn [finish advance].
  destruct (snd (Cache_Get _ _ _ _)); [done|]. cbn [finish advance].
  destruct (provider n) as [prov|] eqn:Hprov; [|done]. cbn [finish advance].
  change (match matcher n with
          | Some m => _
          | None => job_Request job
          end) with (enrich (matcher n) job).
  destruct (GenerateEventName prov (enrich (matcher n) job)) as [result|];
    cbn [finish advance]; [|unfold record_call; by rewrite Hprov].
  unfold record_call at 1. cbn [names].
  destruct (Cache_Set _ _ _ _ _ _) as [names' ok].
  destruct ok; cbn [negb finish advance]; unfold set_names, set_events, record_call;
    cbn [provider matcher names events jobs closed calls]; [|by rewrite Hprov].
  destruct (f_backfill fl); cbn [provider matcher names events jobs closed calls];
    by rewrite Hprov.
Qed.

Lemma finish_worker_step (n : Namer) (fl : worker_faults) (now : Time) :
  finish 6 n Waiting fl now = n
  /\ forall job rest, jobs n = job :: rest ->
       finish 5 (advance n Waiting fl now).1 (advance n Waiting fl now).2 fl now
       = worker_step n fl now.
Proof.
  split; [done|]. intros job rest Hjobs. unfold worker_step. cbn [advance].
  rewrite Hjobs. cbn [fst snd]. apply finish_process.
Qed.

(** *** Rows stay *)

Lemma advance_keeps_row (n : Namer) (ph : phase) (fl : worker_faults) (now : Time)
    (k : string * string) :
  is_Some (names n !! k) -> is_Some (names (advance n ph fl now).1 !! k).
Proof.
  intros [old Hold]. destruct ph as [|job|job|job prov m|job result|job result|];
    cbn [advance].
  - destruct (jobs n); by exists old.
  - destruct (snd _); by exists old.
  - destruct (provider n); by exists old.
  - destruct (GenerateEventName prov _); by exists old.
  - unfold Cache_Set.
    destruct (SetEventName_keeps_user_name (names n) (f_set fl) now
                (mkEventName (job_Fingerprint job) (job_ProjectID job) (res_Name result)
                   None (Some (res_SourceFile result)) (Some (res_Confidence result)) 0)
                k old Hold) as (new & Hnew & _).
    destruct (SetEventName _ _ _ _) as [names' ok]. by exists new.
  - destruct (f_backfill fl); by exists old.
  - by exists old.
Qed.

Lemma pool_step_keeps_row (c : pool) (mv : move) (k : string * string) :
  is_Some (names (engine c) !! k) -> is_Some (names (engine (pool_step c mv)) !! k).
Proof.
  intros Hrow. destruct mv as [i fl now|job| |p|m|fault p f u|evs]; cbn [pool_step].
  - destruct (workers c !! i) as [ph|]; [|done].
    pose proof (advance_keeps_row (engine c) ph fl now k Hrow) as Hnew.
    by destruct (advance (engine c) ph fl now).
  - destruct (closed _); [done|]. by destruct (_ <? _)%nat.
  - done.
  - done.
  - done.
  - cbn [engine set_names names]. destruct Hrow as [old Hold]. unfold OverrideEventName.
    destruct fault; cbn [fst]; [by exists old|].
    destruct (decide (k = (f, p))) as [->|Hne].
    + rewrite lookup_alter_eq, Hold. by eexists.
    + rewrite lookup_alter_ne by done. by exists old.
  - done.
Qed.

(** *** Calls for a key that has a row *)

Lemma calls_for_record (p f : string) (n : Namer) (job : NamingJob) (req : NamingRequest) :
  calls_for p f (record_call n job req)
  = calls_for p f n
    ++ (if bool_decide (job_ProjectID job = p /\ job_Fingerprint job = f)
        then [(job, req)] else []).
Proof.
  unfold calls_for. cbn [record_call calls]. rewrite filter_app, filter_cons, filter_nil.
  cbn [fst]. destruct (decide (job_ProjectID job = p /\ job_Fingerprint job = f)).
  - by rewrite bool_decide_eq_true_2.
  - by rewrite bool_decide_eq_false_2.
Qed.

(** One access of a worker, while the key has a row and the cache can
    be read: a call for the key is made only by a worker that was
    committed to it, which is then no longer so. *)
Lemma advance_calls (n : Namer) (ph : phase) (fl : worker_faults) (now : Time)
    (p f : string) :
  is_Some (names n !! (f, p)) -> f_get fl = false ->
  exists extra,
    calls_for p f (advance n ph fl now).1 = calls_for p f n ++ extra
    /\ (length extra + weight p f (advance n ph fl now).2 <= weight p f ph)%nat.
Proof.
  intros Hrow Hget. unfold weight.
  destruct ph as [|job|job|job prov m|job result|job result|]; cbn [advance].
  - exists []. rewrite app_nil_r. destruct (jobs n); [|done]. by destruct (closed n).
  - exists []. rewrite app_nil_r. rewrite Hget.
    destruct (snd (Cache_Get _ _ _ _)) eqn:Hmiss; [done|]. cbn [fst snd committed].
    split; [done|]. rewrite bool_decide_eq_false_2; [cbn; lia|]. intros [<- <-].
    assert (Hhit : snd (Cache_Get (names n) false (job_ProjectID job) (job_Fingerprint job))
                   = true) by (by apply Cache_Get_hit).
    congruence.
  - exists []. rewrite app_nil_r.
    destruct (provider n); cbn [fst snd committed length]; (split; [done|]);
      destruct (bool_decide _); lia.
  - eexists.
    destruct (GenerateEventName prov _); cbn [fst snd committed];
      (split; [apply calls_for_record|]);
      destruct (bool_decide _); cbn [length]; lia.
  - exists []. rewrite app_nil_r. destruct (Cache_Set _ _ _ _ _ _) as [names' ok].
    by destruct ok.
  - exists []. rewrite app_nil_r. by destruct (f_backfill fl).
  - exists []. by rewrite app_nil_r.
Qed.

Lemma past_check_insert (p f : string) (ws : list phase) (i : nat) (ph ph' : phase) :
  ws !! i = Some ph ->
  (past_check p f (<[i := ph']> ws) + weight p f ph
   = past_check p f ws + weight p f ph')%nat.
Proof.
  intros Hi. unfold past_check, weight.
  rewrite <- (take_drop_middle ws i ph Hi) at 2.
  rewrite (insert_take_drop ws i ph') by (by eapply lookup_lt_Some).
  rewrite !filter_app, !filter_cons, !length_app.
  destruct (committed p f ph), (committed p f ph');
    repeat case_decide; try done; cbn [length]; lia.
Qed.

Lemma pool_step_calls (c : pool) (mv : move) (p f : string) :
  is_Some (names (engine c) !! (f, p)) -> reads_cache mv ->
  exists extra,
    calls_for p f (engine (pool_step c mv)) = calls_for p f (engine c) ++ extra
    /\ (length extra + past_check p f (workers (pool_step c mv))
        <= past_check p f (workers c))%nat.
Proof.
  intros Hrow Hread. destruct mv as [i fl now|job| |prov|m|fault p' f' u|evs];
    cbn [pool_step]; try (exists []; rewrite app_nil_r; split; [done|cbn [length workers]; lia]).
  - destruct (workers c !! i) as [ph|] eqn:Hi;
      [|exists []; rewrite app_nil_r; split; [done|cbn [length workers]; lia]].
    destruct (advance_calls (engine c) ph fl now p f Hrow Hread) as (extra & Hcalls & Hle).
    pose proof (past_check_insert p f (workers c) i ph (advance (engine c) ph fl now).2 Hi).
    destruct (advance (engine c) ph fl now) as [n ph']. cbn [fst snd engine workers] in *.
    exists extra. split; [done|]. lia.
  - destruct (closed _); [|destruct (_ <? _)%nat];
      exists []; rewrite app_nil_r; (split; [done|cbn [length workers]; lia]).
Qed.

(** Once a key has a row in the name cache, and as long as the workers
    can read the cache, the provider is called for the key only by
    the workers that had found the key missing before and had not
    called yet, once each at most: jobs of the key that are sent or
    received later are dropped.  The row stays. *)
Theorem named_key_calls_are_bounded (moves : list move) (c : pool) (p f : string) :
  is_Some (names (engine c) !! (f, p)) -> Forall reads_cache moves ->
  exists extra,
    calls_for p f (engine (pool_run c moves)) = calls_for p f (engine c) ++ extra
    /\ (length extra + past_check p f (workers (pool_run c moves))
        <= past_check p f (workers c))%nat
    /\ is_Some (names (engine (pool_run c moves)) !! (f, p)).
Proof.
  revert c. induction moves as [|mv moves IH]; intros c Hrow Hall.
  - exists []. rewrite app_nil_r. cbn. split; [done|]. split; [lia|done].
  - apply Forall_cons in Hall as [Hmv Hall]. cbn [pool_run fold_left].
    destruct (pool_step_calls c mv p f Hrow Hmv) as (first & Hfirst & Hle1).
    destruct (IH (pool_step c mv) (pool_step_keeps_row c mv (f, p) Hrow) Hall)
      as (rest & Hrest & Hle2 & Hrow').
    exists (first ++ rest). unfold pool_run in *. rewrite Hrest, Hfirst, <- app_assoc.
    split; [done|]. split; [|done]. rewrite length_app. lia.
Qed.

End WorkerProperties.

Module WorkerExamples.
Import Storage Meta AI Workers Examples Fixtures.

(** The key gets its row while the second worker is past its check:
    that worker still calls the provider, and nobody does after it. *)
Lemma named_key_witness :
  exists extra,
    calls_for "p1" "3b7e9bf376fa4673" (engine (pool_run raced late_moves))
    = calls_for "p1" "3b7e9bf376fa4673" (engine raced) ++ extra
    /\ (length extra + past_check "p1" "3b7e9bf376fa4673" (workers (pool_run raced late_moves))
        <= past_check "p1" "3b7e9bf376fa4673" (workers raced))%nat
    /\ is_Some (names (engine (pool_run raced late_moves))
                  !! ("3b7e9bf376fa4673", "p1")%string).
Proof.
  apply (WorkerProperties.named_key_calls_are_bounded late_moves raced "p1"
           "3b7e9bf376fa4673").
  - vm_compute. by eexists.
  - repeat constructor.
Defined.

Example two_workers_race :
  workers raced = [Stored place_order_job (mkNamingResult "Clicked" (SpecFloat.S754_zero false) "");
                   Missed place_order_job]
  /\ length (calls (engine raced)) = 1%nat
  /\ past_check "p1" "3b7e9bf376fa4673" (workers raced) = 1%nat
  /\ length (calls (engine (pool_run raced late_moves))) = 2%nat
  /\ jobs (engine (pool_run raced late_moves)) = []
  /\ workers (pool_run raced late_moves) = [Waiting; Waiting].
Proof. repeat split; vm_compute; reflexivity. Qed.

(** One worker: the second job of the key is dropped at the check. *)
Example one_worker :
  let p := pool_run (NewNamer twice 1)
             (map (fun k => Advance 0 no_faults (Z.of_nat k)) (seq 0 12)) in
  length (calls (engine p)) = 1%nat /\ jobs (engine p) = [] /\ workers p = [Waiting].
Proof. repeat split; vm_compute; reflexivity. Qed.

End WorkerExamples.

(** ** The alert checker over a whole run *)

Module AlertProperties.
Import Storage Alerts AlertRuns AlertFacts.

Lemma UpdateAlertTriggered_each (table : list Alert) (id : string) (t : Time) :
  UpdateAlertTriggered table id t
  = map (fun a => if decide (al_ID a = id) then triggered a t else a) table.
Proof. done. Qed.

Lemma UpdateAlertTriggered_ids (table : list Alert) (id : string) (t : Time) :
  map al_ID (UpdateAlertTriggered table id t) = map al_ID table.
Proof.
  rewrite UpdateAlertTriggered_each, map_map. apply map_ext. intros a.
  by destruct (decide (al_ID a = id)).
Qed.

Lemma row_after_weaken evs envs (l l' : list Alert) (a a' : Alert) :
  (forall x, x ∈ l -> x ∈ l') -> row_after evs envs l a a' -> row_after evs envs l' a a'.
Proof. intros Hsub [->|(Hin & Hj)]; [by left|right]. split; [by apply Hsub|done]. Qed.

Lemma check_one_alerts (w : World) (env : Env) (a : Alert) :
  al_Enabled a = true ->
  events (check_one w env a) = events w
  /\ (alerts (check_one w env a) = alerts w
      \/ (alerts (check_one w env a) = UpdateAlertTriggered (alerts w) (al_ID a) (now_update env)
          /\ fired_under (events w) env a)).
Proof.
  intros Hen.
  destruct (check_one_cases w env a)
    as [[-> _]|(Hcf & Hcount & Hcool & Hev & Hfire & Hkeep & _)]; [by split; [|left]|].
  split; [done|]. destruct (update_fault env) eqn:Hu; [left; by apply Hkeep|].
  right. split; [by apply Hfire|]. split; [done|]. split; [done|]. split; [done|].
  intros Hfit [_ Hclock]. unfold cooling_down in Hcool.
  destruct (al_LastTriggeredAt a) as [last|]; [|done].
  rewrite window_exact in Hcool by done.
  apply Sub_ge in Hcool; [lia|].
  destruct Hfit. unfold minDuration, Minute in *. lia.
Qed.

Lemma Forall2_impl_elem {A B} (P Q : A -> B -> Prop) (l : list A) (k : list B) :
  Forall2 P l k -> (forall x y, x ∈ l -> P x y -> Q x y) -> Forall2 Q l k.
Proof.
  induction 1 as [|x y l k Hxy _ IH]; intros HPQ; [constructor|].
  constructor; [apply HPQ; [left|done]|]. apply IH. intros x' y' Hx'. apply HPQ. by right.
Qed.

Lemma same_id_same_row (table : list Alert) (x a : Alert) :
  NoDup (map al_ID table) -> x ∈ table -> a ∈ table -> al_ID x = al_ID a -> x = a.
Proof.
  induction table as [|r table IH]; intros Hnd Hx Ha Hid; [by apply elem_of_nil in Hx|].
  cbn [map] in Hnd. apply NoDup_cons in Hnd as [Hr Hnd].
  apply elem_of_cons in Hx as [->|Hx]; apply elem_of_cons in Ha as [->|Ha]; [done|..].
  - exfalso. apply Hr. rewrite Hid. apply list_elem_of_fmap. by exists a.
  - exfalso. apply Hr. rewrite <- Hid. apply list_elem_of_fmap. by exists x.
  - by apply IH.
Qed.

Lemma check_each_rows (envs : nat -> Env) (l : list Alert) (w : World) (i : nat) :
  NoDup (map al_ID (alerts w)) -> NoDup (map al_ID l) ->
  (forall a, a ∈ l -> a ∈ alerts w /\ al_Enabled a = true) ->
  events (check_each w envs i l) = events w
  /\ Forall2 (row_after (events w) envs l) (alerts w) (alerts (check_each w envs i l)).
Proof.
  revert w i. induction l as [|a rest IH]; intros w i Hids Hl Hin.
  - split; [done|]. cbn [check_each]. apply Forall2_same_length_lookup_2; [done|].
    intros j x y Hx Hy. left. congruence.
  - cbn [check_each]. cbn [map] in Hl. apply NoDup_cons in Hl as [Ha Hrest].
    destruct (Hin a ltac:(left)) as [Hatab Hen].
    destruct (check_one_alerts w (envs i) a Hen) as [Hev Halerts].
    set (w1 := check_one w (envs i) a) in *.
    assert (Hids1 : NoDup (map al_ID (alerts w1))).
    { destruct Halerts as [->|[-> _]]; [done|]. by rewrite UpdateAlertTriggered_ids. }
    assert (Hin1 : forall b, b ∈ rest -> b ∈ alerts w1 /\ al_Enabled b = true).
    { intros b Hb. destruct (Hin b ltac:(by right)) as [Hbtab Hben]. split; [|done].
      destruct Halerts as [->|[-> _]]; [done|].
      rewrite UpdateAlertTriggered_each. apply list_elem_of_fmap. exists b.
      split; [|done]. rewrite decide_False; [done|].
      intros Heq. apply Ha. rewrite <- Heq. apply list_elem_of_fmap. by exists b. }
    destruct (IH w1 (S i) Hids1 Hrest Hin1) as [Hev1 Hrows1].
    split; [congruence|]. rewrite Hev in Hrows1.
    destruct Halerts as [Hsame|[Hupd Hfired]].
    + rewrite Hsame in Hrows1. eapply Forall2_impl; [exact Hrows1|].
      intros x y. apply row_after_weaken. intros b Hb. by right.
    + rewrite Hupd, UpdateAlertTriggered_each in Hrows1.
      apply (proj1 (Forall2_fmap_l
               (fun a0 => if decide (al_ID a0 = al_ID a)
                          then triggered a0 (now_update (envs i)) else a0)
               _ (alerts w) _)) in Hrows1.
      eapply Forall2_impl_elem; [exact Hrows1|].
      intros x y Hx Hxy. cbn in Hxy.
      destruct (decide (al_ID x = al_ID a)) as [Hid|Hid].
      * assert (x = a) as ->.
        { by apply (same_id_same_row (alerts w)). }
        destruct Hxy as [->|(Hbad & _)].
        -- right. split; [left|]. by exists i.
        -- exfalso. apply Ha. apply list_elem_of_fmap.
           exists (triggered a (now_update (envs i))). by split.
      * revert Hxy. apply row_after_weaken. intros b Hb. by right.
Qed.

Lemma check_one_posts (w : World) (env : Env) (a : Alert) :
  posts (check_one w env a) = posts w
  \/ exists p, posts (check_one w env a) = posts w ++ [p]
       /\ post_Alert p = al_ID a /\ post_URL p = al_WebhookURL a.
Proof.
  unfold check_one. destruct (count_fault env); [by left|].
  destruct (_ <=? _); [by left|]. destruct (cooling_down env a); [by left|].
  destruct (webhook env); cbn [posts]; [by left|right; by eexists..].
Qed.

Lemma check_each_posts (envs : nat -> Env) (l : list Alert) (w : World) (i : nat) :
  exists new, posts (check_each w envs i l) = posts w ++ new
    /\ Forall (fun p => exists a, a ∈ l /\ post_Alert p = al_ID a
                                  /\ post_URL p = al_WebhookURL a) new.
Proof.
  revert w i. induction l as [|a rest IH]; intros w i.
  - exists []. split; [by rewrite app_nil_r|constructor].
  - cbn [check_each].
    destruct (IH (check_one w (envs i) a) (S i)) as (new & Hnew & Hall).
    assert (Hrest : Forall (fun p => exists b, b ∈ a :: rest /\ post_Alert p = al_ID b
                                              /\ post_URL p = al_WebhookURL b) new).
    { eapply Forall_impl; [exact Hall|]. intros p (b & Hb & Hp). exists b.
      split; [by right|done]. }
    destruct (check_one_posts w (envs i) a) as [Hsame|(p & Hp & Hid & Hurl)].
    + exists new. by rewrite Hnew, Hsame.
    + exists (p :: new). split; [by rewrite Hnew, Hp, <- app_assoc|].
      constructor; [|done]. exists a. split; [left|done].
Qed.

(** One run of the checker leaves the events alone and changes a row
    of the table only by setting its trigger time.  It does so only for
    an enabled alert whose count was read and exceeded the threshold;
    if the window fits a [time.Duration] and the clock did not run
    backwards, the previous trigger, if any, is at least the window
    before the new one.  Every webhook it posts to is that of an
    enabled alert. *)
Theorem checkAlerts_fires_only (w : World) (list_fault : bool) (envs : nat -> Env) :
  NoDup (map al_ID (alerts w)) ->
  events (checkAlerts w list_fault envs) = events w
  /\ Forall2 (fun a a' =>
               a' = a
               \/ exists j, a' = triggered a (now_update (envs j))
                            /\ fired_under (events w) (envs j) a)
       (alerts w) (alerts (checkAlerts w list_fault envs))
  /\ exists new, posts (checkAlerts w list_fault envs) = posts w ++ new
       /\ Forall (fun p => exists a, a ∈ alerts w /\ al_Enabled a = true
                                     /\ post_Alert p = al_ID a
                                     /\ post_URL p = al_WebhookURL a) new.
Proof.
  intros Hids. unfold checkAlerts. destruct list_fault.
  { split; [done|]. split.
    - apply Forall2_same_length_lookup_2; [done|]. intros j x y Hx Hy. left. congruence.
    - exists []. split; [by rewrite app_nil_r|constructor]. }
  assert (Hl : forall a, a ∈ ListAllEnabledAlerts (alerts w) ->
                 a ∈ alerts w /\ al_Enabled a = true)
    by apply ListAllEnabledAlerts_enabled.
  assert (Hnd : NoDup (map al_ID (ListAllEnabledAlerts (alerts w)))).
  { unfold ListAllEnabledAlerts.
    change (map al_ID ?l) with (al_ID <$> l). rewrite merge_sort_Permutation.
    clear Hl. induction (alerts w) as [|a table IH]; [constructor|].
    cbn [map] in Hids. apply NoDup_cons in Hids as [Ha Hids]. rewrite filter_cons.
    destruct (decide (al_Enabled a = true)); [|by apply IH].
    cbn [fmap list_fmap]. apply NoDup_cons. split; [|by apply IH].
    intros (b & Hb & Hin%list_elem_of_filter)%list_elem_of_fmap. apply Ha.
    apply list_elem_of_fmap. exists b. tauto. }
  destruct (check_each_rows envs _ w 0 Hids Hnd Hl) as [Hev Hrows].
  split; [done|]. split.
  - eapply Forall2_impl; [exact Hrows|]. intros a a' [->|(_ & Hj)]; [by left|by right].
  - destruct (check_each_posts envs (ListAllEnabledAlerts (alerts w)) w 0)
      as (new & Hnew & Hall).
    exists new. split; [done|]. eapply Forall_impl; [exact Hall|].
    intros p (a & Ha & Hp). exists a. destruct (Hl a Ha). tauto.
Qed.


End AlertProperties.

(** ** [QueryTrends] and its breakdown *)

Module TrendProperties.
Import Storage Queries Trends OrderFacts PointFacts.

Section Trend.
Context `{DateTrunc}.

Lemma trend_keys_length (evs : list Event) (projectID interval : string)
    (start end_ : Time) :
  length (trend_keys evs projectID interval start end_)
  = length (filter (in_range projectID start end_) evs).
Proof.
  unfold trend_keys, in_range. induction evs as [|e evs IH]; [done|].
  cbn [omap list_omap]. rewrite filter_cons.
  destruct (decide _); cbn [length]; by rewrite <- IH.
Qed.

Lemma sum_counts_map {A} (cnt : A -> nat) (f : A -> string) (l : list A) :
  sum_counts (map (fun k => mkTrendPoint (f k) (Z.of_nat (cnt k))) l)
  = Z.of_nat (sum_list_with cnt l).
Proof.
  induction l as [|k l IH]; [done|]. cbn [map sum_counts fold_right sum_list_with].
  fold (sum_counts (map (fun k => mkTrendPoint (f k) (Z.of_nat (cnt k))) l)).
  rewrite IH. cbn [tp_Count]. lia.
Qed.

Lemma str_le_strict_sorted (l : list string) :
  StronglySorted str_le l -> NoDup l ->
  StronglySorted (fun a b => str_le a b /\ a <> b) l.
Proof.
  induction 1 as [|a l Hs IH Hall]; intros Hnd; [constructor|].
  apply NoDup_cons in Hnd as [Ha Hnd]. constructor; [by apply IH|].
  rewrite Forall_forall in *. intros b Hb. split; [by apply Hall|].
  intros ->. done.
Qed.

Lemma filter_all {A} (l : list A) : filter (fun _ : A => True) l = l.
Proof. induction l as [|x l IH]; [done|]. rewrite filter_cons. cbn. by rewrite IH. Qed.

Lemma sorted_points (cnt : string -> Z) (l : list string) :
  StronglySorted (fun a b => str_le a b /\ a <> b) l ->
  StronglySorted bucket_lt (map (fun b => mkTrendPoint b (cnt b)) l).
Proof.
  induction 1 as [|b l Hs IH Hall]; [constructor|]. cbn [map].
  constructor; [exact IH|]. apply Forall_map. eapply Forall_impl; [exact Hall|]. done.
Qed.

(** The points of [QueryTrends] come in strictly ascending order of
    bucket, each counts at least one event, and together they count
    every event of the project in the range once. *)
Theorem QueryTrends_counts (evs : list Event) (projectID interval : string)
    (start end_ : Time) :
  exists points,
    QueryTrends evs false projectID interval start end_ = Rows points
    /\ StronglySorted bucket_lt points
    /\ Forall (fun p => 1 <= tp_Count p) points
    /\ sum_counts points
       = Z.of_nat (length (filter (in_range projectID start end_) evs)).
Proof.
  unfold QueryTrends. eexists. split; [reflexivity|].
  set (keys := trend_keys evs projectID (normal_interval interval) start end_).
  assert (Hperm : merge_sort str_le (remove_dups keys) ≡ₚ remove_dups keys)
    by apply merge_sort_Permutation.
  assert (Hnd : NoDup (merge_sort str_le (remove_dups keys))).
  { rewrite Hperm. apply NoDup_remove_dups. }
  assert (Hin : forall b, b ∈ merge_sort str_le (remove_dups keys) <-> b ∈ keys).
  { intros b. rewrite Hperm. apply elem_of_remove_dups. }
  split; [|split].
  - apply (sorted_points (fun b => Z.of_nat (length (filter (fun b' => b' = b) keys)))).
    apply str_le_strict_sorted; [|done].
    apply (StronglySorted_merge_sort str_le); apply _.
  - apply Forall_map, Forall_forall. intros b Hb%Hin. cbn [tp_Count].
    assert (Hbin : b ∈ filter (fun b' => b' = b) keys) by (by apply list_elem_of_filter).
    destruct (filter (fun b' => b' = b) keys); [by apply elem_of_nil in Hbin|].
    cbn [length]. lia.
  - rewrite (sum_counts_map (fun b => length (filter (fun b' => b' = b) keys)) id).
    rewrite <- (trend_keys_length evs projectID (normal_interval interval) start end_).
    fold keys. f_equal.
    pose proof (sum_groups (fun _ : string => True) keys
                  (merge_sort str_le (remove_dups keys)) Hnd) as Hsum.
    rewrite !filter_all in Hsum. apply Hsum. intros k. apply Hin.
Qed.

Lemma breakdown_key_counts (evs : list Event) (projectID interval groupBy : string)
    (start end_ : Time) (b s : string) :
  (length (filter (fun k => k = (b, s))
             (breakdown_keys evs projectID interval groupBy start end_))
   <= length (filter (fun b' => b' = b)
                (trend_keys evs projectID interval start end_)))%nat.
Proof.
  unfold breakdown_keys, trend_keys. induction evs as [|e evs IH]; [done|].
  cbn [omap list_omap].
  destruct (decide (ev_ProjectID e = projectID
                    /\ to_micro start <= ev_Timestamp e <= to_micro end_)).
  - rewrite (filter_cons (fun b' => b' = b)).
    destruct (series_expr groupBy e) as [s'|].
    + destruct (decide (s' = ""%string)).
      * destruct (decide (bucket_label interval (ev_Timestamp e) = b)); cbn [length]; lia.
      * rewrite filter_cons.
        destruct (decide ((bucket_label interval (ev_Timestamp e), s') = (b, s)))
          as [[= Hb Hs]|Hne].
        -- rewrite decide_True by done. cbn [length]. lia.
        -- destruct (decide (bucket_label interval (ev_Timestamp e) = b));
             cbn [length]; lia.
    + destruct (decide (bucket_label interval (ev_Timestamp e) = b)); cbn [length]; lia.
  - exact IH.
Qed.

(** Every point of a series of the breakdown has a point of the same
    bucket in the result of [QueryTrends] for the same project, interval
    and range, and counts no more events than that point. *)
Theorem breakdown_within_trends (evs : list Event)
    (projectID interval groupBy : string) (start end_ : Time)
    (scores : list (string * Z)) :
  exists series points,
    QueryTrendsBreakdown evs false projectID interval groupBy start end_ scores
    = Rows series
    /\ QueryTrends evs false projectID interval start end_ = Rows points
    /\ forall r p, r ∈ series -> p ∈ ts_Data r ->
         exists q, q ∈ points /\ tp_Bucket q = tp_Bucket p /\ 1 <= tp_Count p <= tp_Count q.
Proof.
  unfold QueryTrendsBreakdown, QueryTrends.
  set (rows := breakdown_rows evs projectID (normal_interval interval) groupBy start end_).
  set (bkeys := breakdown_keys evs projectID (normal_interval interval) groupBy start end_).
  set (tkeys := trend_keys evs projectID (normal_interval interval) start end_).
  pose proof (ScanFacts.scan_rows_data rows) as Hdata.
  destruct (scan_rows rows) as [sd so]. cbn [fst] in Hdata.
  eexists _, _. split; [reflexivity|]. split; [reflexivity|].
  intros r p Hr Hp. rewrite (TopFacts.pick_top_data sd so scores r Hr), Hdata in Hp.
  apply points_of_elem in Hp as ([[b s] c] & Hrow & _ & ->). cbn [fst snd tp_Bucket tp_Count].
  pose proof (TrendFacts.rows_count evs projectID (normal_interval interval) groupBy
                start end_ _ Hrow) as Hc. cbn [fst snd] in Hc. fold bkeys in Hc.
  assert (Hkey : (b, s) ∈ bkeys).
  { apply (TrendFacts.rows_elem evs projectID (normal_interval interval) groupBy start end_).
    apply list_elem_of_fmap. by exists (b, s, c). }
  pose proof (breakdown_key_counts evs projectID (normal_interval interval) groupBy
                start end_ b s) as Hle. fold bkeys tkeys in Hle.
  assert (Hpos : (1 <= length (filter (fun k => k = (b, s)) bkeys))%nat).
  { assert (Hin : (b, s) ∈ filter (fun k => k = (b, s)) bkeys)
      by (by apply list_elem_of_filter).
    destruct (filter (fun k => k = (b, s)) bkeys); [by apply elem_of_nil in Hin|].
    cbn [length]. lia. }
  exists (mkTrendPoint b (Z.of_nat (length (filter (fun b' => b' = b) tkeys)))).
  split; [|split; [done|cbn [tp_Count]; lia]].
  apply list_elem_of_fmap. exists b. split; [done|].
  rewrite merge_sort_Permutation. apply elem_of_remove_dups.
  destruct (filter (fun b' => b' = b) tkeys) as [|x l] eqn:Hf; [cbn [length] in Hle; lia|].
  assert (Hx : x ∈ filter (fun b' => b' = b) tkeys) by (rewrite Hf; left).
  apply list_elem_of_filter in Hx as [-> Hx]. done.
Qed.

End Trend.

End TrendProperties.

(** ** The ingestion handler: every request *)

Module HandlerProperties.
Import GoString Storage Ingest IngestHandler HandlerWords ValidationFacts HandlerFacts.

Section WithInterfaces.
Context `{CaseTables} `{UrlParser}.

Lemma build_event_row (project : Project) (payload : IngestPayload) (ua : string)
    (now : nat -> Time) (i : nat) (e : IngestEvent) :
  exists ev, build_event project payload ua now i e = Some ev
    /\ row_of project payload ua e ev.
Proof.
  unfold build_event. rewrite FingerprintClaims.ComputeFingerprint_eq.
  cbn [mbind option_bind]. eexists. split; [reflexivity|].
  unfold row_of. cbn. repeat split; try done.
  intros Hts. by destruct (Z.eqb_spec (Timestamp e) 0).
Qed.

Lemma build_events_rows (project : Project) (payload : IngestPayload) (ua : string)
    (now : nat -> Time) (es : list IngestEvent) (i : nat) :
  exists evs, build_events project payload ua now i es = Some evs
    /\ Forall2 (row_of project payload ua) es evs.
Proof.
  revert i. induction es as [|e es IH]; intros i; [by exists []|].
  cbn [build_events].
  destruct (build_event_row project payload ua now i e) as (ev & -> & Hrow).
  destruct (IH (S i)) as (evs & -> & Hrows). cbn [mbind option_bind].
  exists (ev :: evs). split; [done|by constructor].
Qed.

Lemma submit_jobs_queue (project : Project) (fault : nat -> bool)
    (es : list (IngestEvent * Event)) (n : AI.Namer) (i : nat) :
  AI.closed n = false ->
  exists new, submit_jobs n project fault i es = Some (AI.set_jobs n (AI.jobs n ++ new))
    /\ Forall (job_of project es) new.
Proof.
  revert n i. induction es as [|[e ev] es IH]; intros n i Hopen.
  - exists []. rewrite app_nil_r. split; [by destruct n|constructor].
  - cbn [submit_jobs].
    assert (Hweak : forall new, Forall (job_of project es) new ->
                      Forall (job_of project ((e, ev) :: es)) new).
    { intros new Hnew. eapply Forall_impl; [exact Hnew|]. intros j (e' & ev' & Hin & Hj).
      exists e', ev'. split; [by right|done]. }
    destruct (decide (EventType e = "pageview"%string)) as [Hpv|Hpv].
    { destruct (IH n (S i) Hopen) as (new & -> & Hnew). exists new. auto. }
    destruct (AI.Submit n (fault i) (naming_job project e ev)) as [n1|] eqn:Hsub.
    2: { unfold AI.Submit in Hsub. rewrite Hopen in Hsub.
         destruct (AI.provider n); [|done]. destruct (snd _); [done|].
         by destruct (_ <? _)%nat. }
    cbn [mbind option_bind].
    apply NamingProperties.Submit_jobs in Hsub as [->|[_ ->]].
    + destruct (IH n (S i) Hopen) as (new & -> & Hnew). exists new. auto.
    + destruct (IH (AI.set_jobs n (AI.jobs n ++ [naming_job project e ev])) (S i) Hopen)
        as (new & -> & Hnew).
      exists (naming_job project e ev :: new). split.
      * destruct n. cbn. by rewrite <- app_assoc.
      * constructor; [|auto]. exists e, ev. split; [left|done].
Qed.

(** The handler answers every request, unless the namer has been
    closed; the status is 202, 400, 401, 405 or 500, and an answer
    other than 202 leaves the event store, the name cache and the job
    queue as they were. *)
Theorem ServeHTTP_answers (n : AI.Namer) (hasNamer : bool) (env : Env) (r : Request) :
  (hasNamer = true -> AI.closed n = false) ->
  exists n' resp,
    ServeHTTP n hasNamer env r = Some (n', resp)
    /\ resp_Status resp ∈ [202; 400; 401; 405; 500]
    /\ (resp_Status resp <> 202 -> n' = n /\ resp_Accepted resp = 0%nat).
Proof.
  intros Hopen. unfold ServeHTTP.
  destruct (negb _).
  { eexists _, _. split; [reflexivity|]. split; [set_solver|done]. }
  destruct (req_Project r) as [project|].
  2: { eexists _, _. split; [reflexivity|]. split; [set_solver|done]. }
  destruct (req_Body r) as [p|].
  2: { eexists _, _. split; [reflexivity|]. split; [set_solver|done]. }
  destruct (ValidatePayload_error p) as (p' & -> & _). cbn [mbind option_bind].
  destruct (payload_error p) as [err|].
  { eexists _, _. split; [reflexivity|]. split; [set_solver|done]. }
  destruct (build_events_rows project p' (req_UserAgent r) (env_now env) (Events p') 0)
    as (evs & -> & _).
  cbn [mbind option_bind]. unfold InsertEvents.
  destruct (env_insert_fault env); cbn [negb].
  { eexists _, _. split; [reflexivity|]. split; [set_solver|done]. }
  destruct hasNamer.
  - destruct (submit_jobs_queue project (env_cache_fault env)
                (combine (Events p') evs)
                (with_events n (AI.events n ++ map stored evs)) 0)
      as (new & -> & _); [by apply Hopen|].
    cbn [mbind option_bind]. eexists _, _. split; [reflexivity|].
    split; [set_solver|done].
  - cbn [mbind option_bind]. eexists _, _. split; [reflexivity|].
    split; [set_solver|done].
Qed.

(** A request answered with 202 has stored one row for each event of
    the validated payload, in order, after the rows that were there:
    each has the fingerprint of the event and no event name.  The
    jobs it has queued are for events other than pageviews; the name
    cache is as it was and the provider has not been called. *)
Theorem ServeHTTP_accepted (n n' : AI.Namer) (hasNamer : bool) (env : Env) (r : Request)
    (resp : Response) :
  ServeHTTP n hasNamer env r = Some (n', resp) -> resp_Status resp = 202 ->
  exists project p p' rows new,
    req_Project r = Some project /\ req_Body r = Some p
    /\ ValidatePayload p = Some (p', None)
    /\ Forall2 (row_of project p' (req_UserAgent r)) (Events p') rows
    /\ AI.events n' = AI.events n ++ map stored rows
    /\ resp_Accepted resp = length (Events p)
    /\ AI.jobs n' = AI.jobs n ++ new
    /\ Forall (job_of project (combine (Events p') rows)) new
    /\ (hasNamer = false -> new = [])
    /\ AI.names n' = AI.names n /\ AI.calls n' = AI.calls n.
Proof.
  unfold ServeHTTP.
  destruct (negb _); [by intros [= <- <-]|].
  destruct (req_Project r) as [project|]; [|by intros [= <- <-]].
  destruct (req_Body r) as [p|]; [|by intros [= <- <-]].
  destruct (ValidatePayload_error p) as (p' & Hv & _ & _ & Hok). rewrite Hv.
  cbn [mbind option_bind].
  destruct (payload_error p) as [err|] eqn:Herr; [by intros [= <- <-]|].
  specialize (Hok eq_refl).
  destruct (build_events_rows project p' (req_UserAgent r) (env_now env) (Events p') 0)
    as (evs & -> & Hrows).
  cbn [mbind option_bind]. unfold InsertEvents.
  destruct (env_insert_fault env); cbn [negb]; [by intros [= <- <-]|].
  assert (Hlen : length evs = length (Events p)).
  { rewrite <- (Forall2_length _ _ _ Hrows). symmetry. by eapply Forall2_length. }
  destruct hasNamer.
  - destruct (submit_jobs (with_events n (AI.events n ++ map stored evs)) project
                (env_cache_fault env) 0 (combine (Events p') evs)) as [n2|] eqn:Hsub;
      [|done].
    cbn [mbind option_bind]. intros [= <- <-] _.
    assert (Hjobs : exists new, n2 = AI.set_jobs (with_events n (AI.events n ++ map stored evs))
                                       (AI.jobs n ++ new)
                      /\ Forall (job_of project (combine (Events p') evs)) new).
    { clear -Hsub. revert Hsub.
      generalize (combine (Events p') evs) as es. intros es.
      assert (Hgen : forall es0 m i m', submit_jobs m project (env_cache_fault env) i es0 = Some m' ->
                exists new, m' = AI.set_jobs m (AI.jobs m ++ new)
                  /\ Forall (job_of project es0) new).
      { induction es0 as [|[e ev] es0 IH]; intros m i m' Hm.
        - injection Hm as <-. exists []. rewrite app_nil_r. split; [by destruct m|constructor].
        - cbn [submit_jobs] in Hm.
          assert (Hweak : forall new, Forall (job_of project es0) new ->
                            Forall (job_of project ((e, ev) :: es0)) new).
          { intros new Hnew. eapply Forall_impl; [exact Hnew|]. intros j (e' & ev' & Hin & Hj).
            exists e', ev'. split; [by right|done]. }
          destruct (decide (EventType e = "pageview"%string)) as [Hpv|Hpv].
          { destruct (IH m (S i) m' Hm) as (new & -> & Hnew). exists new. auto. }
          destruct (AI.Submit m (env_cache_fault env i) (naming_job project e ev))
            as [m1|] eqn:Hs; [|done].
          cbn [mbind option_bind] in Hm.
          apply NamingProperties.Submit_jobs in Hs as [->|[_ ->]].
          + destruct (IH m (S i) m' Hm) as (new & -> & Hnew). exists new. auto.
          + destruct (IH _ (S i) m' Hm) as (new & -> & Hnew).
            exists (naming_job project e ev :: new). split.
            * destruct m. cbn. by rewrite <- app_assoc.
            * constructor; [|auto]. exists e, ev. split; [left|done]. }
      intros Hsub. destruct (Hgen es _ 0%nat n2 Hsub) as (new & -> & Hnew).
      exists new. split; [|done]. by destruct n. }
    destruct Hjobs as (new & -> & Hnew).
    exists project, p, p', evs, new. by repeat split.
  - cbn [mbind option_bind]. intros [= <- <-] _.
    exists project, p, p', evs, []. rewrite app_nil_r.
    repeat split; done.
Qed.

(** Validation changes nothing of an accepted payload but the four
    texts it trims and cuts and an empty [url_path]: the session and the
    user, and of each event the type, the tag, id and classes of the
    element, the URL, a [url_path] that was given and the rest, are as
    they were sent. *)
Theorem validation_keeps_fields (p p' : IngestPayload) :
  ValidatePayload p = Some (p', None) ->
  SessionID p' = SessionID p /\ DistinctID p' = DistinctID p
  /\ Forall2 same_but_texts (Events p) (Events p').
Proof.
  destruct (ValidatePayload_error p) as (q & Hv & Hs & Hd & Hok). rewrite Hv.
  intros [= -> Herr]. split; [done|]. split; [done|].
  eapply Forall2_impl; [exact (Hok Herr)|]. clear. intros e e'.
  unfold validateEvent.
  destruct (decide (EventType e = ""%string)); [done|].
  destruct (negb _); [done|].
  destruct (decide (URL e = ""%string)); [done|].
  destruct (url_ParseRequestURI (URL e)); [|done].
  destruct (truncate (ElementText e) maxTextLength); [|done].
  destruct (truncate (AriaLabel e) maxTextLength); [|done].
  destruct (truncate (PageTitle e) maxTextLength); [|done].
  destruct (truncate (ParentPath e) 1000); [|done].
  cbn [mbind option_bind]. intros [= <-]. unfold same_but_texts. cbn.
  repeat split. intros Hpath. by rewrite decide_False.
Qed.

End WithInterfaces.

End HandlerProperties.


Module HandlerExamples.
Import GoString Storage Ingest IngestHandler HandlerWords Examples Fixtures.

Lemma ServeHTTP_answers_witness :
  exists n' resp,
    ServeHTTP ready true quiet two_events = Some (n', resp)
    /\ resp_Status resp ∈ [202; 400; 401; 405; 500]
    /\ (resp_Status resp <> 202 -> n' = ready /\ resp_Accepted resp = 0%nat).
Proof.
  apply (HandlerProperties.ServeHTTP_answers ready true quiet two_events).
  reflexivity.
Defined.

Lemma ServeHTTP_accepted_witness :
  match ServeHTTP ready true quiet two_events with
  | Some (n', resp) =>
    exists project p p' rows new,
      req_Project two_events = Some project /\ req_Body two_events = Some p
      /\ ValidatePayload p = Some (p', None)
      /\ Forall2 (row_of project p' (req_UserAgent two_events)) (Events p') rows
      /\ AI.events n' = AI.events ready ++ map stored rows
      /\ resp_Accepted resp = length (Events p)
      /\ AI.jobs n' = AI.jobs ready ++ new
      /\ Forall (job_of project (combine (Events p') rows)) new
      /\ (true = false -> new = [])
      /\ AI.names n' = AI.names ready /\ AI.calls n' = AI.calls ready
  | None => False
  end.
Proof.
  destruct (ServeHTTP ready true quiet two_events) as [[n' resp]|] eqn:E.
  - apply (HandlerProperties.ServeHTTP_accepted ready n' true quiet two_events resp E).
    vm_compute in E. by injection E as <- <-.
  - vm_compute in E. discriminate E.
Defined.

(** The request of the example stores two rows and queues one job, for
    the click. *)
Example two_events_stored :
  exists n', ServeHTTP ready true quiet two_events
             = Some (n', mkResponse 202 ok_body 2)
    /\ map ev_Fingerprint (AI.events n') = ["60c3a169fb767eeb"; "ee27da5c20d9fcb2"]%string
    /\ map ev_EventName (AI.events n') = [None; None]
    /\ map ev_Timestamp (AI.events n') = [0; 1700000000000 * 1000000]
    /\ map AI.job_Fingerprint (AI.jobs n') = ["60c3a169fb767eeb"]%string.
Proof. eexists. split; [vm_compute; reflexivity|]. by vm_compute. Qed.

End HandlerExamples.

(** ** Projects and API keys *)

Module AuthProperties.
Import GoString Storage Meta Keys IngestHandler Auth.

(** A request whose API key is empty or is the key of no project, or
    whose key cannot be looked up, is answered with 401 and does not
    reach the handler. *)
Theorem unknown_key_is_refused {S : Type} (table : projects) (fault : bool)
    (next : S -> Request -> option (S * Response)) (s : S) (apiKey : string)
    (r : Request) :
  apiKey = ""%string \/ fault = true \/ apiKey ∉ map pr_APIKey table ->
  APIKeyMiddleware table fault next s apiKey r
  = Some (s, mkResponse 401 (error_body "unauthorized") 0).
Proof.
  unfold APIKeyMiddleware, ValidateAPIKey, GetProjectByAPIKey.
  intros [->|[->|Hout]]; [done|by destruct (decide _)|].
  destruct (decide (apiKey = ""%string)); [done|]. destruct fault; [done|].
  destruct (filter (fun p => pr_APIKey p = apiKey) table) as [|p l] eqn:Hf; [done|].
  exfalso. apply Hout. apply list_elem_of_fmap. exists p.
  assert (Hp : p ∈ filter (fun p => pr_APIKey p = apiKey) table) by (rewrite Hf; left).
  apply list_elem_of_filter in Hp as [-> Hp]. done.
Qed.

Lemma filter_key_none (table : projects) (apiKey : string) :
  apiKey ∉ map pr_APIKey table -> filter (fun p => pr_APIKey p = apiKey) table = [].
Proof.
  intros Hout. induction table as [|q table IH]; [done|].
  cbn [map] in Hout. apply not_elem_of_cons in Hout as [Hq Hout].
  rewrite filter_cons, decide_False by done. by apply IH.
Qed.

Lemma filter_key_unique (table : projects) (q : Project) :
  NoDup (map pr_APIKey table) -> q ∈ table ->
  filter (fun p => pr_APIKey p = pr_APIKey q) table = [q].
Proof.
  induction table as [|x table IH]; intros Hnd Hq; [by apply elem_of_nil in Hq|].
  cbn [map] in Hnd. apply NoDup_cons in Hnd as [Hx Hnd]. rewrite filter_cons.
  apply elem_of_cons in Hq as [->|Hq].
  - rewrite decide_True by done. by rewrite filter_key_none.
  - rewrite decide_False; [by apply IH|].
    intros Heq. apply Hx. rewrite Heq. apply list_elem_of_fmap. by exists q.
Qed.

(** A project that [CreateProject] returns has a key of the form that
    [isValidAPIKey] accepts, and from then on a request with that key
    runs the handler with that project; the keys of the projects that
    were there keep working, and no key is the key of two projects. *)
Theorem created_project_is_authorized {S : Type} (table table' : projects)
    (random : list Z) (id name : string) (p : Project)
    (next : S -> Request -> option (S * Response)) (s : S) (r : Request) :
  Forall is_byte random -> random <> [] -> NoDup (map pr_APIKey table) ->
  CreateProject table false (Some random) id name = (table', Some p) ->
  isValidAPIKey (pr_APIKey p) = true
  /\ NoDup (map pr_APIKey table')
  /\ APIKeyMiddleware table' false next s (pr_APIKey p) r
     = next s (mkRequest (req_Method r) (Some p) (req_Body r) (req_UserAgent r))
  /\ forall q, q ∈ table ->
       ValidateAPIKey table' false (pr_APIKey q) = ValidateAPIKey table false (pr_APIKey q).
Proof.
  intros Hb Hne Hnd. unfold CreateProject.
  destruct (KeyProperties.generated_key_is_valid random Hb Hne) as (key & Hkey & Hvalid & _).
  rewrite Hkey. cbn [orb].
  destruct (bool_decide (id ∈ map pr_ID table)); [done|]. cbn [orb].
  destruct (bool_decide (key ∈ map pr_APIKey table)) eqn:Hfresh; [done|].
  apply bool_decide_eq_false in Hfresh. intros [= <- <-]. cbn [pr_APIKey].
  assert (Hnd' : NoDup (map pr_APIKey (table ++ [mkProject id name key]))).
  { rewrite map_app. apply NoDup_app. split; [done|]. split; [|by apply NoDup_singleton].
    intros x Hx ->%list_elem_of_singleton. done. }
  assert (Hnonempty : key <> ""%string).
  { apply KeyProperties.isValidAPIKey_spec in Hvalid as (h & -> & _). done. }
  split; [done|]. split; [done|]. split.
  - unfold APIKeyMiddleware, ValidateAPIKey, GetProjectByAPIKey.
    rewrite decide_False by done.
    pose proof (filter_key_unique _ (mkProject id name key) Hnd') as Hf.
    cbn [pr_APIKey] in Hf. rewrite Hf by (apply elem_of_app; right; left). done.
  - intros q Hq. unfold ValidateAPIKey, GetProjectByAPIKey.
    destruct (decide (pr_APIKey q = ""%string)); [done|].
    rewrite (filter_key_unique _ q Hnd') by (apply elem_of_app; by left).
    by rewrite (filter_key_unique _ q Hnd).
Qed.

End AuthProperties.

(** ** The funnel counts exactly the sessions that did the steps *)

Module FunnelProperties.
Import Storage Queries FunnelWords FunnelFacts FunnelClaims.

Lemma group_min_complete (rows : list (string * Time)) (s : string) (t : Time) :
  (s, t) ∈ rows -> exists t0, (s, t0) ∈ group_min rows /\ t0 <= t.
Proof.
  intros Hrow. unfold group_min.
  set (col := map snd (filter (fun r : string * Time => fst r = s) rows)).
  assert (Ht : t ∈ col).
  { unfold col. apply list_elem_of_fmap. exists (s, t). split; [done|].
    by apply list_elem_of_filter. }
  assert (Hne : col <> []) by (intros Heq; rewrite Heq in Ht; by apply elem_of_nil in Ht).
  destruct (min_of_spec col Hne) as [_ Hmin]. rewrite Forall_forall in Hmin.
  exists (min_of col). split; [|by apply Hmin].
  apply list_elem_of_fmap. exists s. split; [done|].
  apply elem_of_remove_dups, list_elem_of_fmap. by exists (s, t).
Qed.

Section Steps.
Context (evs : list Event) (projectID : string) (start end_ : Time).

Lemma step_first_complete (step : FunnelStep) (e : Event) :
  e ∈ evs -> step_filter projectID step start end_ e ->
  exists t0, (ev_SessionID e, t0) ∈ step_first evs projectID step start end_
             /\ t0 <= ev_Timestamp e.
Proof.
  intros He Hf. unfold step_first. apply group_min_complete.
  apply list_elem_of_fmap. exists e. split; [done|]. by apply list_elem_of_filter.
Qed.

Lemma step_next_complete (step : FunnelStep) (prev : list (string * Time)) (e : Event)
    (tp : Time) :
  e ∈ evs -> step_filter projectID step start end_ e ->
  (ev_SessionID e, tp) ∈ prev -> tp < ev_Timestamp e ->
  exists t0, (ev_SessionID e, t0) ∈ step_next evs projectID step start end_ prev
             /\ t0 <= ev_Timestamp e.
Proof.
  intros He Hf Hp Hlt. unfold step_next. apply group_min_complete.
  apply list_elem_of_fmap. exists (e, (ev_SessionID e, tp)). split; [done|].
  apply list_elem_of_filter. split; [done|].
  apply list_elem_of_In, in_prod_iff. split; by apply list_elem_of_In.
Qed.

Lemma reaches_inv (s : string) (l : list FunnelStep) (t : Time) :
  reaches evs projectID start end_ s l t ->
  exists e, e ∈ evs /\ ev_SessionID e = s /\ t = ev_Timestamp e
    /\ ((exists st, l = [st] /\ step_filter projectID st start end_ e)
        \/ (exists l' st t', l = l' ++ [st] /\ step_filter projectID st start end_ e
              /\ reaches evs projectID start end_ s l' t' /\ t' < t)).
Proof.
  intros [st e He Hs Hf|l' st t' e Hr He Hs Hf Hlt]; exists e; repeat split; auto.
  - left. by exists st.
  - right. by exists l', st, t'.
Qed.

Lemma reaches_nonempty (s : string) (l : list FunnelStep) (t : Time) :
  reaches evs projectID start end_ s l t -> l <> [].
Proof. intros [st e _ _ _|l' st t' e _ _ _ _ _]; [done|by destruct l']. Qed.

(** The table of step [k+1] holds the sessions that have done the
    first [k+1] steps in order, each with the earliest time at which
    it can have done them. *)
Lemma step_table_reaches (steps : list FunnelStep) (k : nat) (st : FunnelStep) :
  steps !! k = Some st ->
  exists table,
    step_tables evs projectID steps start end_ !! k = Some table
    /\ (forall s t, (s, t) ∈ table ->
          reaches evs projectID start end_ s (take (S k) steps) t)
    /\ (forall s t, reaches evs projectID start end_ s (take (S k) steps) t ->
          exists t0, (s, t0) ∈ table /\ t0 <= t).
Proof.
  revert st. induction k as [|k IH]; intros st Hst.
  - exists (step_first evs projectID st start end_). split; [by apply step_tables_0|].
    assert (Htake : take 1 steps = [st]).
    { destruct steps as [|st' steps]; [done|]. by injection Hst as ->. }
    rewrite Htake. split.
    + intros s t (e & He & <- & <- & Hf)%step_first_spec. by constructor.
    + intros s t (e & He & <- & -> & [(st' & [= <-] & Hf)|(l & st' & t' & Hl & _ & Hr & _)])%reaches_inv.
      * by apply step_first_complete.
      * apply reaches_nonempty in Hr. destruct l; [done|]. destruct l; discriminate.
  - destruct (lookup_lt_is_Some_2 steps k) as [st0 Hst0];
      [apply lookup_lt_Some in Hst; lia|].
    destruct (IH st0 Hst0) as (prev & Hprev & Hsound & Hcomplete).
    exists (step_next evs projectID st start end_ prev).
    split; [by apply (step_tables_S evs projectID start end_ steps k st prev)|].
    rewrite (take_S_r steps (S k) st Hst). split.
    + intros s t (e & tp & He & <- & <- & Hf & Hp & Hlt)%step_next_spec.
      apply (reach_next _ _ _ _ _ _ _ tp); auto.
    + intros s t (e & He & <- & -> & [(st' & Hl & _)|(l & st' & t' & Hl & Hf & Hr & Hlt)])%reaches_inv.
      * exfalso. apply (f_equal length) in Hl. rewrite length_app in Hl.
        rewrite length_take in Hl. apply lookup_lt_Some in Hst0.
        cbn [length] in Hl. lia.
      * apply app_inj_tail in Hl as [<- <-].
        destruct (Hcomplete _ _ Hr) as (tp & Hp & Hle).
        apply (step_next_complete st prev e tp); [done..|lia].
Qed.

End Steps.

(** The count that [QueryFunnel] returns for step [k+1] is the number
    of sessions that have done the first [k+1] steps in order: one
    matching event for each step, each strictly later than the one
    before, all within the time bounds. *)
Theorem funnel_counts_sessions_in_order (evs : list Event) (projectID : string)
    (steps : list FunnelStep) (start end_ : Time) :
  exists results,
    QueryFunnel evs false projectID steps start end_ = Rows results
    /\ forall k st, steps !! k = Some st ->
         exists sessions,
           NoDup sessions
           /\ (forall s, s ∈ sessions
                 <-> exists t, reaches evs projectID start end_ s (take (S k) steps) t)
           /\ results !! k
              = Some (mkFunnelResult (step_label k st) (Z.of_nat (length sessions))).
Proof.
  rewrite QueryFunnel_rows. eexists. split; [reflexivity|].
  intros k st Hst.
  destruct (step_table_reaches evs projectID start end_ steps k st Hst)
    as (table & Htab & Hsound & Hcomplete).
  exists (map fst table). split; [|split].
  - assert (Hnd : forall l, Forall (fun tb => NoDup (map fst tb))
                       (step_tables evs projectID l start end_)).
    { intros [|st0 l]; [constructor|]. cbn [step_tables].
      constructor; [apply group_min_NoDup|].
      generalize (step_first evs projectID st0 start end_) as prev.
      induction l as [|st1 l IHl]; intros prev; [constructor|]. cbn [later_steps].
      constructor; [apply group_min_NoDup|apply IHl]. }
    specialize (Hnd steps). rewrite Forall_forall in Hnd. apply Hnd.
    by apply list_elem_of_lookup_2 in Htab.
  - intros s. rewrite list_elem_of_fmap. split.
    + intros ([s' t] & -> & Hin). exists t. by apply Hsound.
    + intros [t Hr]. destruct (Hcomplete s t Hr) as (t0 & Hin & _). by exists (s, t0).
  - rewrite length_map. by apply funnel_result_lookup.
Qed.

End FunnelProperties.

(** ** Worked examples of the run properties *)

Module RunExamples.
Import GoString Storage Ingest IngestHandler HandlerWords Alerts AlertRuns Auth Keys
  Examples Fixtures.

Lemma checkAlerts_witness :
  events (checkAlerts (mkWorld [long_window] [] []) false (fun _ => five_minutes_later)) = []
  /\ Forall2 (fun a a' =>
               a' = a
               \/ exists j : nat, a' = triggered a (now_update five_minutes_later)
                            /\ fired_under [] five_minutes_later a)
       [long_window]
       (alerts (checkAlerts (mkWorld [long_window] [] []) false (fun _ => five_minutes_later)))
  /\ exists new,
       posts (checkAlerts (mkWorld [long_window] [] []) false (fun _ => five_minutes_later))
       = [] ++ new
       /\ Forall (fun p => exists a, a ∈ [long_window] /\ al_Enabled a = true
                                     /\ post_Alert p = al_ID a
                                     /\ post_URL p = al_WebhookURL a) new.
Proof.
  apply (AlertProperties.checkAlerts_fires_only (mkWorld [long_window] [] []) false
           (fun _ => five_minutes_later)).
  apply (bool_decide_unpack _). vm_compute. exact I.
Defined.

Lemma unknown_key_witness :
  APIKeyMiddleware [demo] false (fun n r => ServeHTTP n true quiet r) ready "cn_ff" two_events
  = Some (ready, mkResponse 401 (error_body "unauthorized") 0).
Proof.
  apply (AuthProperties.unknown_key_is_refused [demo] false
           (fun n r => ServeHTTP n true quiet r) ready "cn_ff" two_events).
  right. right. apply (bool_decide_unpack _). vm_compute. exact I.
Defined.

Lemma created_project_witness :
  match CreateProject [demo] false (Some (firstn 24 sample_key)) "p2" "shop" with
  | (table', Some p) =>
    isValidAPIKey (pr_APIKey p) = true
    /\ NoDup (map pr_APIKey table')
    /\ APIKeyMiddleware table' false (fun n r => ServeHTTP n true quiet r) ready
         (pr_APIKey p) two_events
       = ServeHTTP ready true quiet
           (mkRequest (req_Method two_events) (Some p) (req_Body two_events)
              (req_UserAgent two_events))
    /\ forall q, q ∈ [demo] ->
         ValidateAPIKey table' false (pr_APIKey q) = ValidateAPIKey [demo] false (pr_APIKey q)
  | (_, None) => False
  end.
Proof.
  destruct (CreateProject [demo] false (Some (firstn 24 sample_key)) "p2" "shop")
    as [table' [p|]] eqn:E.
  - apply (AuthProperties.created_project_is_authorized [demo] table'
             (firstn 24 sample_key) "p2" "shop" p
             (fun n r => ServeHTTP n true quiet r) ready two_events).
    + apply (bool_decide_unpack _). vm_compute. exact I.
    + discriminate.
    + apply (bool_decide_unpack _). vm_compute. exact I.
    + exact E.
  - vm_compute in E. discriminate E.
Defined.

Lemma validation_keeps_fields_witness :
  match req_Body two_events with
  | Some p =>
    match ValidatePayload p with
    | Some (p', None) =>
      SessionID p' = SessionID p /\ DistinctID p' = DistinctID p
      /\ Forall2 same_but_texts (Events p) (Events p')
    | _ => False
    end
  | None => False
  end.
Proof.
  cbn [req_Body two_events].
  destruct (ValidatePayload _) as [[p' [err|]]|] eqn:E.
  - vm_compute in E. discriminate E.
  - by apply (HandlerProperties.validation_keeps_fields _ p').
  - vm_compute in E. discriminate E.
Defined.

End RunExamples.
